(** * Log analyzer: chunk splitting, response parsing and line matching

    A shallow embedding of the pure parts of [LogAnalyzer]
    (packages/core, class [LogAnalyzer]): [splitIntoChunks],
    [parseAnalysisResponse], [extractListItems],
    [findSimilaritiesManually] and [findExactLineMatches], together with
    the fragment of the JavaScript string and regular-expression
    semantics those methods rely on; further
    [mergeChunkResultsManually], [parseSimilaritiesResponse], and the
    worker loop of [parallelMap] as a step relation.

    Strings are sequences of UTF-16 code units ([list N]).  Numbers that
    the code computes with (sizes, line numbers, counts) are integers
    ([Z]).  A JavaScript [Map] iterates in insertion order, and that
    order is visible in the results, so maps are association lists.
    What [String.prototype.toLowerCase] returns depends on the engine's
    Unicode tables; the similarity fallback and the line matcher take it
    as a parameter, and their properties hold for every mapping. *)

From Stdlib Require Import List ZArith NArith Lia Bool String Ascii.
From Stdlib Require Import Permutation Sorted.
Import ListNotations.

Set Implicit Arguments.
Local Open Scope Z_scope.

(* ================================================================== *)
(** * JavaScript strings *)
(* ================================================================== *)

Module Js.

(** A UTF-16 code unit. *)
Definition char := N.
Definition jsstring := list char.

(** ASCII literals are written as Rocq strings and read as code units;
    other code units are written as numbers. *)
Definition str (s : string) : jsstring :=
  map N_of_ascii (list_ascii_of_string s).

Definition LF : char := 10%N.

Definition char_eqb (a b : char) : bool := N.eqb a b.

Fixpoint str_eqb (a b : jsstring) : bool :=
  match a, b with
  | [], [] => true
  | x :: a', y :: b' => char_eqb x y && str_eqb a' b'
  | _, _ => false
  end.

(** [s.length] *)
Definition len (s : jsstring) : Z := Z.of_nat (List.length s).

(** [s.split(sep)] for a one-character separator.  The result is never
    empty: the empty string splits into one empty piece (so the inner
    [[]] case below is never taken). *)
Fixpoint split (sep : char) (s : jsstring) : list jsstring :=
  match s with
  | [] => [[]]
  | c :: s' =>
      if char_eqb c sep then [] :: split sep s'
      else match split sep s' with
           | [] => [[c]]
           | l :: ls => (c :: l) :: ls
           end
  end.

(** [parts.join(sep)] *)
Fixpoint join (sep : jsstring) (parts : list jsstring) : jsstring :=
  match parts with
  | [] => []
  | [x] => x
  | x :: rest => x ++ sep ++ join sep rest
  end.

(** ECMAScript WhiteSpace and LineTerminator code units: what [trim]
    strips and what the class [\s] matches. *)
Definition isLineTerminator (c : char) : bool :=
  (N.eqb c 10 || N.eqb c 13 || N.eqb c 8232 || N.eqb c 8233)%N.

Definition isWhiteSpace (c : char) : bool :=
  (N.eqb c 9 || N.eqb c 11 || N.eqb c 12 || N.eqb c 32 || N.eqb c 160
   || N.eqb c 5760 || (N.leb 8192 c && N.leb c 8202)
   || N.eqb c 8239 || N.eqb c 8287 || N.eqb c 12288 || N.eqb c 65279)%N.

Definition isSpace (c : char) : bool := isWhiteSpace c || isLineTerminator c.

Fixpoint trimStart (s : jsstring) : jsstring :=
  match s with
  | [] => []
  | c :: s' => if isSpace c then trimStart s' else s
  end.

Definition trimEnd (s : jsstring) : jsstring := rev (trimStart (rev s)).

(** [s.trim()] *)
Definition trim (s : jsstring) : jsstring := trimEnd (trimStart s).

(** Case mapping of the ASCII letters.  It is what the [i] flag of the
    patterns below compares with.  As [toLowerCase] it stands for
    [String.prototype.toLowerCase] in the filter of [extractListItems]
    only, whose tests look for ASCII phrases that a code unit outside
    ASCII cannot come to spell; the similarity fallback and the line
    matcher are defined over an arbitrary mapping instead. *)
Definition isUpper (c : char) : bool := (N.leb 65 c && N.leb c 90)%N.
Definition isLower (c : char) : bool := (N.leb 97 c && N.leb c 122)%N.

Definition lowerChar (c : char) : char := if isUpper c then (c + 32)%N else c.
Definition upperChar (c : char) : char := if isLower c then (c - 32)%N else c.

(** [s.toLowerCase()], on the ASCII letters *)
Definition toLowerCase (s : jsstring) : jsstring := map lowerChar s.

(** [s.startsWith(p)] *)
Fixpoint startsWith (s p : jsstring) {struct p} : bool :=
  match p, s with
  | [], _ => true
  | x :: p', y :: s' => char_eqb x y && startsWith s' p'
  | _ :: _, [] => false
  end.

(** [s.includes(p)] *)
Fixpoint includes (s p : jsstring) : bool :=
  startsWith s p ||
  match s with
  | [] => false
  | _ :: s' => includes s' p
  end.

End Js.

Import Js.

(* ================================================================== *)
(** * Chunk splitter *)
(* ================================================================== *)

Record LineRange := mkLineRange { start : Z; end_ : Z }.

Record ChunkDescriptor := mkChunk {
  content : jsstring;
  lineRange : LineRange
}.

(** The defaults the class is built with. *)
Definition CHUNK_SIZE : Z := 500 * 1024.
Definition MAX_LINES_PER_CHUNK : Z := 5000.

(** The local variables of [splitIntoChunks]. *)
Record SplitState := mkSplit {
  chunks : list ChunkDescriptor;
  currentChunk : list jsstring;
  currentSize : Z;
  chunkStartLine : Z
}.

Section Chunking.

(** The two thresholds; the class fixes them to [CHUNK_SIZE] and
    [MAX_LINES_PER_CHUNK]. *)
Variables (S_max L_max : Z).

Definition lineSize (line : jsstring) : Z := len line + 1.

(** One iteration of the [for] loop, at index [i]. *)
Definition splitStep (i : Z) (line : jsstring) (st : SplitState) : SplitState :=
  if ((currentSize st + lineSize line >? S_max)
      || (Z.of_nat (List.length (currentChunk st)) >=? L_max))
     && (Z.of_nat (List.length (currentChunk st)) >? 0)
  then mkSplit
         (chunks st ++
            [mkChunk (join [LF] (currentChunk st))
                     (mkLineRange (chunkStartLine st + 1) i)])
         [line] (lineSize line) i
  else mkSplit (chunks st) (currentChunk st ++ [line])
               (currentSize st + lineSize line) (chunkStartLine st).

Fixpoint splitLoop (lines : list jsstring) (i : Z) (st : SplitState)
  : SplitState :=
  match lines with
  | [] => st
  | line :: rest => splitLoop rest (i + 1) (splitStep i line st)
  end.

(** The code after the loop; [n] is [lines.length]. *)
Definition splitFinish (n : Z) (st : SplitState) : list ChunkDescriptor :=
  if Z.of_nat (List.length (currentChunk st)) >? 0
  then chunks st ++
         [mkChunk (join [LF] (currentChunk st))
                  (mkLineRange (chunkStartLine st + 1) n)]
  else chunks st.

Definition splitIntoChunks (lines : list jsstring) : list ChunkDescriptor :=
  splitFinish (Z.of_nat (List.length lines))
              (splitLoop lines 0 (mkSplit [] [] 0 0)).

End Chunking.

(* ================================================================== *)
(** * Regular expressions *)
(* ================================================================== *)

(** The fragment of ECMAScript regular expressions the program uses,
    with the backtracking semantics of the language: alternatives are
    tried left to right, greedy quantifiers try the longest repetition
    first and lazy ones the shortest, and the first complete match wins.
    Every [*] and [+] in the program is over a single character class,
    so repetition is over classes; and no pattern under a [?] of the
    program matches the empty string, so [Opt] needs no test for empty
    iterations. *)

Module Regex.

Definition cset := char -> bool.

Inductive regex :=
| Eps
| Chr (c : char)
| Cls (p : cset)
| Seq (a b : regex)
| Alt (a b : regex)
| Opt (a : regex)
| Star (p : cset)
| StarLazy (p : cset)
| Bol
| Eol
| WordB
| Look (a : regex)
| Cap (i : nat) (a : regex).

(** The matcher's position: the code unit before it (none at index 0),
    the input from it on, and the capture groups set so far. *)
Record mstate := mkM {
  prev : option char;
  rest : jsstring;
  caps : list (nat * jsstring)
}.

Definition cont := mstate -> option mstate.

(** Character comparison; [ic] is the [i] flag. *)
Definition chrMatch (ic : bool) (c x : char) : bool :=
  if ic then char_eqb (upperChar c) (upperChar x) else char_eqb c x.

Definition clsMatch (ic : bool) (p : cset) (x : char) : bool :=
  if ic then p x || p (lowerChar x) || p (upperChar x) else p x.

Definition isDigit (c : char) : bool := (N.leb 48 c && N.leb c 57)%N.

Definition isWordChar (c : char) : bool :=
  isDigit c || isUpper c || isLower c || N.eqb c 95.

Definition isWordOpt (o : option char) : bool :=
  match o with
  | Some c => isWordChar c
  | None => false
  end.

Definition setCap (i : nat) (v : jsstring) (cs : list (nat * jsstring))
  : list (nat * jsstring) :=
  (i, v) :: filter (fun e => negb (Nat.eqb (fst e) i)) cs.

Fixpoint getCap (i : nat) (cs : list (nat * jsstring)) : jsstring :=
  match cs with
  | [] => []
  | (j, v) :: cs' => if Nat.eqb j i then v else getCap i cs'
  end.

(** The text between two positions of one run. *)
Definition consumed (from to : jsstring) : jsstring :=
  firstn (List.length from - List.length to) from.

Section Matcher.

Variable ic : bool.

(** [p*], longest first. *)
Fixpoint starG (p : cset) (pv : option char) (s : jsstring)
  (k : option char -> jsstring -> option mstate) : option mstate :=
  match s with
  | c :: s' =>
      if clsMatch ic p c
      then match starG p (Some c) s' k with
           | Some r => Some r
           | None => k pv s
           end
      else k pv s
  | [] => k pv s
  end.

(** [p*?], shortest first. *)
Fixpoint starL (p : cset) (pv : option char) (s : jsstring)
  (k : option char -> jsstring -> option mstate) : option mstate :=
  match k pv s with
  | Some r => Some r
  | None =>
      match s with
      | c :: s' => if clsMatch ic p c then starL p (Some c) s' k else None
      | [] => None
      end
  end.

Fixpoint m (r : regex) (st : mstate) (k : cont) : option mstate :=
  match r with
  | Eps => k st
  | Chr c =>
      match rest st with
      | x :: s' => if chrMatch ic c x then k (mkM (Some x) s' (caps st)) else None
      | [] => None
      end
  | Cls p =>
      match rest st with
      | x :: s' => if clsMatch ic p x then k (mkM (Some x) s' (caps st)) else None
      | [] => None
      end
  | Seq a b => m a st (fun st' => m b st' k)
  | Alt a b =>
      match m a st k with
      | Some r => Some r
      | None => m b st k
      end
  | Opt a =>
      match m a st k with
      | Some r => Some r
      | None => k st
      end
  | Star p => starG p (prev st) (rest st) (fun pv s => k (mkM pv s (caps st)))
  | StarLazy p => starL p (prev st) (rest st) (fun pv s => k (mkM pv s (caps st)))
  | Bol =>
      match prev st with
      | None => k st
      | Some _ => None
      end
  | Eol =>
      match rest st with
      | [] => k st
      | _ :: _ => None
      end
  | WordB =>
      if xorb (isWordOpt (prev st)) (isWordOpt (hd_error (rest st)))
      then k st else None
  | Look a =>
      match m a st (fun st' => Some st') with
      | Some st' => k (mkM (prev st) (rest st) (caps st'))
      | None => None
      end
  | Cap i a =>
      m a st (fun st' =>
        k (mkM (prev st') (rest st')
               (setCap i (consumed (rest st) (rest st')) (caps st'))))
  end.

(** One attempt at a fixed position. *)
Definition matchAt (r : regex) (pv : option char) (s : jsstring)
  : option mstate :=
  m r (mkM pv s []) (fun st => Some st).

(** [RegExp.prototype.exec]: the leftmost position that matches. *)
Fixpoint search (r : regex) (pv : option char) (s : jsstring)
  : option mstate :=
  match matchAt r pv s with
  | Some st => Some st
  | None =>
      match s with
      | [] => None
      | c :: s' => search r (Some c) s'
      end
  end.

(** [s.match(r)] without the [g] flag, keeping the groups. *)
Definition exec (r : regex) (s : jsstring) : option (list (nat * jsstring)) :=
  match search r None s with
  | Some st => Some (caps st)
  | None => None
  end.

(** [r.test(s)] *)
Definition test (r : regex) (s : jsstring) : bool :=
  match search r None s with
  | Some _ => true
  | None => false
  end.

(** [s.replace(r, '')] without the [g] flag: the first match goes. *)
Fixpoint removeFirstFrom (r : regex) (pv : option char) (s : jsstring)
  : jsstring :=
  match matchAt r pv s with
  | Some st => rest st
  | None =>
      match s with
      | [] => []
      | c :: s' => c :: removeFirstFrom r (Some c) s'
      end
  end.

Definition removeFirst (r : regex) (s : jsstring) : jsstring :=
  removeFirstFrom r None s.

(** [s.replace(r, '')] with the [g] flag: every match goes, scanning
    left to right on the original string; [skip] counts the code units
    of the current match still to drop.  After an empty match the scan
    moves one code unit on. *)
Fixpoint removeAllFrom (r : regex) (pv : option char) (s : jsstring)
  (skip : nat) {struct s} : jsstring :=
  match s with
  | [] => []
  | c :: s' =>
      match skip with
      | S n => removeAllFrom r (Some c) s' n
      | O =>
          match matchAt r pv s with
          | Some st =>
              match (List.length s - List.length (rest st))%nat with
              | S n => removeAllFrom r (Some c) s' n
              | O => c :: removeAllFrom r (Some c) s' 0
              end
          | None => c :: removeAllFrom r (Some c) s' 0
          end
      end
  end.

Definition removeAll (r : regex) (s : jsstring) : jsstring :=
  removeAllFrom r None s 0.

End Matcher.

(** Pattern-building shorthands. *)
Definition seqs (rs : list regex) : regex := fold_right Seq Eps rs.
Definition lit (s : string) : regex := seqs (map Chr (str s)).
Definition PlusG (p : cset) : regex := Seq (Cls p) (Star p).
Definition PlusL (p : cset) : regex := Seq (Cls p) (StarLazy p).
Definition rep (n : nat) (p : cset) : regex := seqs (repeat (Cls p) n).
Definition oneOf (s : string) : cset :=
  fun c => existsb (char_eqb c) (str s).

(** [\d], [\s], [.] and [[\s\S]]. *)
Definition digit : cset := isDigit.
Definition space : cset := isSpace.
Definition dot : cset := fun c => negb (isLineTerminator c).
Definition anyChar : cset := fun _ => true.
(** [[0-9a-f]] *)
Definition hexLower : cset :=
  fun c => isDigit c || (N.leb 97 c && N.leb c 102)%N.

End Regex.

Import Regex.

(* ================================================================== *)
(** * Section parser and list-item extractor *)
(* ================================================================== *)

Record LogAnalysisResult := mkResult {
  patterns : list jsstring;
  anomalies : list jsstring;
  rootCauses : list jsstring;
  summary : jsstring
}.

(** JavaScript truthiness of a string. *)
Definition truthy (s : jsstring) : bool :=
  match s with
  | [] => false
  | _ :: _ => true
  end.

Module ListItems.

(** [/^[-*X]\s*(.+)/], where X is the bullet U+2022 *)
Definition bulletRe : regex :=
  seqs [Bol; Cls (fun c => oneOf "-*" c || N.eqb c 8226); Star space;
        Cap 1 (PlusG dot)].

(** [/^\d+[.)]\s*(.+)/] *)
Definition numberedRe : regex :=
  seqs [Bol; PlusG digit; Cls (oneOf ".)"); Star space; Cap 1 (PlusG dot)].

(** [/^\*\*(.+?)\*\*[:\s]*G/], where the group G is [.*] *)
Definition boldRe : regex :=
  seqs [Bol; lit "**"; Cap 1 (PlusL dot); lit "**";
        Star (fun c => oneOf ":" c || space c); Cap 2 (Star dot)].

(** [/^\[.+\]$/] *)
Definition bracketedRe : regex :=
  seqs [Bol; Chr 91%N; PlusG dot; Chr 93%N; Eol].

(** The loop's variables. *)
Record ItemState := mkItems {
  items : list jsstring;
  currentItem : jsstring
}.

(** [if (currentItem) items.push(currentItem.trim())] *)
Definition flush (st : ItemState) : list jsstring :=
  if truthy (currentItem st) then items st ++ [trim (currentItem st)]
  else items st.

(** The body of the [for (const line of lines)] loop. *)
Definition itemStep (st : ItemState) (line : jsstring) : ItemState :=
  let trimmed := trim line in
  if negb (truthy trimmed) then
    if truthy (currentItem st) then mkItems (flush st) [] else st
  else
    match exec false bulletRe trimmed with
    | Some bulletMatch => mkItems (flush st) (getCap 1 bulletMatch)
    | None =>
    match exec false numberedRe trimmed with
    | Some numberedMatch => mkItems (flush st) (getCap 1 numberedMatch)
    | None =>
    match exec false boldRe trimmed with
    | Some boldMatch =>
        mkItems (flush st)
          (if truthy (getCap 2 boldMatch)
           then str "**" ++ getCap 1 boldMatch ++ str "**: " ++ getCap 2 boldMatch
           else getCap 1 boldMatch)
    | None =>
        if truthy (currentItem st)
           && (startsWith line (str "  ") || startsWith line [9%N])
        then mkItems (items st) (currentItem st ++ str " " ++ trimmed)
        else if negb (truthy (currentItem st)) && truthy trimmed
                && negb (startsWith trimmed (str "#"))
        then mkItems (items st) trimmed
        else st
    end end end.

(** The items pushed before the final filter. *)
Definition rawItems (text : jsstring) : list jsstring :=
  flush (fold_left itemStep (split LF text) (mkItems [] [])).

(** The predicate of the final [items.filter(...)]. *)
Definition keepItem (item : jsstring) : bool :=
  truthy item
  && (len item >? 0)
  && negb (includes item (str "[List"))
  && negb (includes (toLowerCase item) (str "list here"))
  && negb (match exec false bracketedRe item with Some _ => true | None => false end)
  && negb (includes (toLowerCase item) (str "none found"))
  && negb (includes (toLowerCase item) (str "no patterns"))
  && negb (includes (toLowerCase item) (str "no anomalies"))
  && negb (includes (toLowerCase item) (str "no root causes")).

Definition extractListItems (text : jsstring) : list jsstring :=
  filter keepItem (rawItems text).

End ListItems.

Import ListItems.

Module Parser.

(** What follows a list-section heading:
    [\s*\n?([\s\S]*?)(?=\n##|$)]. *)
Definition listTail : regex :=
  seqs [Star space; Opt (Chr LF); Cap 1 (StarLazy anyChar);
        Look (Alt (seqs [Chr LF; Chr 35%N; Chr 35%N]) Eol)].

(** What follows the summary heading: [\s*\n?([\s\S]*?)$]. *)
Definition summaryTail : regex :=
  seqs [Star space; Opt (Chr LF); Cap 1 (StarLazy anyChar); Eol].

(** The heading parts: [##\s*PATTERNS?], [##\s*ANOMAL(?:Y|IES)],
    [##\s*ROOT\s*CAUSES?] and [##\s*SUMMARY]. *)
Definition patternsHeading : regex :=
  seqs [lit "##"; Star space; lit "PATTERN"; Opt (lit "S")].
Definition anomaliesHeading : regex :=
  seqs [lit "##"; Star space; lit "ANOMAL"; Alt (lit "Y") (lit "IES")].
Definition rootCausesHeading : regex :=
  seqs [lit "##"; Star space; lit "ROOT"; Star space; lit "CAUSE";
        Opt (lit "S")].
Definition summaryHeading : regex :=
  seqs [lit "##"; Star space; lit "SUMMARY"].

(** The [sections] table; all four carry the [i] flag. *)
Definition patternsRe : regex := Seq patternsHeading listTail.
Definition anomaliesRe : regex := Seq anomaliesHeading listTail.
Definition rootCausesRe : regex := Seq rootCausesHeading listTail.
Definition summaryRe : regex := Seq summaryHeading summaryTail.

Definition sectionItems (re : regex) (content : jsstring) : list jsstring :=
  match exec true re content with
  | Some mt => extractListItems (getCap 1 mt)
  | None => []
  end.

Definition parseAnalysisResponse (content : jsstring) : LogAnalysisResult :=
  mkResult
    (sectionItems patternsRe content)
    (sectionItems anomaliesRe content)
    (sectionItems rootCausesRe content)
    (match exec true summaryRe content with
     | Some mt => trim (getCap 1 mt)
     | None => []
     end).

End Parser.

Import Parser.

(* ================================================================== *)
(** * Similarity fallback *)
(* ================================================================== *)

Record FileAnalysisResult := mkFileResult {
  fr_filename : jsstring;
  fileSize : Z;
  analysis : LogAnalysisResult
}.

Record SimilarityResult := mkSimilarity {
  sharedPatterns : list jsstring;
  sharedAnomalies : list jsstring;
  sharedRootCauses : list jsstring;
  correlations : list jsstring
}.

Module StrMap.

(** A [Map] with string keys: entries in insertion order. *)
Definition t (V : Type) := list (jsstring * V).

Fixpoint get {V} (k : jsstring) (mp : t V) : option V :=
  match mp with
  | [] => None
  | (k', v) :: mp' => if str_eqb k' k then Some v else get k mp'
  end.

Definition has {V} (k : jsstring) (mp : t V) : bool :=
  match get k mp with
  | Some _ => true
  | None => false
  end.

(** [set] overwrites in place or appends. *)
Fixpoint set {V} (k : jsstring) (v : V) (mp : t V) : t V :=
  match mp with
  | [] => [(k, v)]
  | (k', v') :: mp' =>
      if str_eqb k' k then (k', v) :: mp' else (k', v') :: set k v mp'
  end.

End StrMap.

Module Similarity.

Section SimilarityCase.

(** [String.prototype.toLowerCase].  What it returns depends on the
    Unicode case tables of the engine, which are not part of the
    program: the fallback is defined, and its properties are proved, for
    whatever the mapping is.  The closed examples use the mapping of the
    ASCII letters, [Js.toLowerCase], on ASCII texts. *)
Variable toLowerCase : jsstring -> jsstring.

(** [counts.set(normalized, (counts.get(normalized) || 0) + 1)] *)
Definition bump (counts : StrMap.t Z) (item : jsstring) : StrMap.t Z :=
  let normalized := toLowerCase item in
  StrMap.set normalized
    (match StrMap.get normalized counts with
     | Some n => n + 1
     | None => 0 + 1
     end) counts.

(** The three counters after the loop over the files. *)
Definition countStep (acc : StrMap.t Z * StrMap.t Z * StrMap.t Z)
  (fr : FileAnalysisResult) : StrMap.t Z * StrMap.t Z * StrMap.t Z :=
  let '(pc, ac, rc) := acc in
  (fold_left bump (patterns (analysis fr)) pc,
   fold_left bump (anomalies (analysis fr)) ac,
   fold_left bump (rootCauses (analysis fr)) rc).

Definition threshold : Z := 2.

(** [Array.from(counts.entries()).filter(...).map(...)] *)
Definition shared (counts : StrMap.t Z) : list jsstring :=
  map fst (filter (fun e => snd e >=? threshold) counts).

Definition findSimilaritiesManually (fileResults : list FileAnalysisResult)
  : SimilarityResult :=
  let '(pc, ac, rc) := fold_left countStep fileResults ([], [], []) in
  mkSimilarity (shared pc) (shared ac) (shared rc) [].

End SimilarityCase.

End Similarity.

Import Similarity.

(* ================================================================== *)
(** * Exact-line matcher *)
(* ================================================================== *)

Inductive Category := error | warning | info | debug | other.

Record Occurrence := mkOcc {
  filename : jsstring;
  lineNumbers : list Z
}.

Record ExactLineMatch := mkMatch {
  line : jsstring;
  occurrences : list Occurrence;
  category : Category;
  totalCount : Z
}.

Record FileContent := mkFile {
  fc_content : jsstring;
  fc_filename : jsstring
}.

(** A value of [lineMap]. *)
Record Entry := mkEntry {
  original : jsstring;
  entryOccurrences : StrMap.t (list Z);
  entryCategory : Category
}.

(** [Array.prototype.sort] with a comparator: the stable sort. *)
Section Sorting.
Variable A : Type.
Variable cmp : A -> A -> Z.

Fixpoint insertSorted (x : A) (l : list A) : list A :=
  match l with
  | [] => [x]
  | y :: l' => if cmp x y <=? 0 then x :: l else y :: insertSorted x l'
  end.

Definition sortBy (l : list A) : list A := fold_right insertSorted [] l.
End Sorting.

Module LineMatch.

(** The date and time shared by the first two patterns:
    [\d{4}-\d{2}-\d{2}[T ]\d{2}:\d{2}:\d{2}[.,]?\d*Z?]. *)
Definition isoStamp : list regex :=
  [rep 4 digit; lit "-"; rep 2 digit; lit "-"; rep 2 digit;
   Cls (oneOf "T "); rep 2 digit; lit ":"; rep 2 digit; lit ":"; rep 2 digit;
   Opt (Cls (oneOf ".,")); Star digit; Opt (lit "Z")].

(** [\d{2}:\d{2}:\d{2}] *)
Definition clock : list regex :=
  [rep 2 digit; lit ":"; rep 2 digit; lit ":"; rep 2 digit].

Definition uuidRe : regex :=
  seqs [WordB; rep 8 hexLower; lit "-"; rep 4 hexLower; lit "-";
        rep 4 hexLower; lit "-"; rep 4 hexLower; lit "-"; rep 12 hexLower;
        WordB].

Definition idRe (tag : string) : regex :=
  seqs [WordB; lit tag; Star (fun c => oneOf ":" c || space c);
        PlusG digit; WordB].

(** [normalizePatterns]: pattern, [i] flag, [g] flag. *)
Definition normalizePatterns : list (regex * bool * bool) :=
  [ (seqs (Bol :: isoStamp ++ [Star space]), true, false);
    (seqs (Bol :: lit "[" :: isoStamp ++ [lit "]"; Star space]), true, false);
    (seqs ([Bol; rep 2 digit; lit "/"; rep 2 digit; lit "/"; rep 4 digit;
            PlusG space] ++ clock ++ [Star space]), true, false);
    (seqs (Bol :: clock ++ [Opt (Cls (oneOf ".,")); Star digit; Star space]),
     true, false);
    (uuidRe, true, true);
    (seqs [WordB; lit "0x"; PlusG hexLower; WordB], true, true);
    (idRe "pid", true, true);
    (idRe "tid", true, true);
    (seqs [lit "["; PlusG digit; lit "]"], false, true) ].

(** [normalized.replace(pattern, '')] *)
Definition applyPattern (s : jsstring) (p : regex * bool * bool) : jsstring :=
  let '(re, ic, global) := p in
  if global then removeAll ic re s else removeFirst ic re s.

Section LineMatchCase.

(** [String.prototype.toLowerCase], for whatever the engine's mapping
    is, as in the similarity fallback. *)
Variable toLowerCase : jsstring -> jsstring.

(** A trimmed line to its grouping key. *)
Definition normalizeLine (originalLine : jsstring) : jsstring :=
  toLowerCase (trim (fold_left applyPattern normalizePatterns originalLine)).

Definition word (w : string) : regex := seqs [WordB; lit w; WordB].

Definition categorize (ln : jsstring) : Category :=
  let lower := toLowerCase ln in
  if test false (Alt (word "error") (Alt (word "failed") (Alt (word "exception")
        (Alt (word "crash") (word "fatal"))))) lower then error
  else if test false (Alt (seqs [WordB; lit "warn"; Opt (Cap 1 (lit "ing")); WordB])
        (word "caution")) lower then warning
  else if test false (word "info") lower then info
  else if test false (Alt (word "debug") (Alt (word "trace") (word "verbose")))
        lower then debug
  else other.

(** [/^\d+$/] *)
Definition allDigitsRe : regex := seqs [Bol; PlusG digit; Eol].

(** The [continue] tests: does the line take part, and under which key. *)
Definition lineKey (rawLine : jsstring) : option (jsstring * jsstring) :=
  let originalLine := trim rawLine in
  if (len originalLine <? 10) || test false allDigitsRe originalLine then None
  else
    let normalized := normalizeLine originalLine in
    if len normalized <? 10 then None
    else Some (originalLine, normalized).

(** Recording one occurrence: create the entry and the file's list when
    missing, then push the line number. *)
Definition record (fname : jsstring) (lineNum : Z)
  (originalLine normalized : jsstring) (lineMap : StrMap.t Entry)
  : StrMap.t Entry :=
  let lineMap1 :=
    if negb (StrMap.has normalized lineMap)
    then StrMap.set normalized
           (mkEntry originalLine [] (categorize originalLine)) lineMap
    else lineMap in
  match StrMap.get normalized lineMap1 with
  | None => lineMap1
  | Some entry =>
      let occ1 :=
        if negb (StrMap.has fname (entryOccurrences entry))
        then StrMap.set fname [] (entryOccurrences entry)
        else entryOccurrences entry in
      let occ2 :=
        match StrMap.get fname occ1 with
        | None => occ1
        | Some nums => StrMap.set fname (nums ++ [lineNum + 1]) occ1
        end in
      StrMap.set normalized
        (mkEntry (original entry) occ2 (entryCategory entry)) lineMap1
  end.

(** The inner loop over one file's lines, from index [lineNum]. *)
Fixpoint scanLines (fname : jsstring) (lines : list jsstring) (lineNum : Z)
  (lineMap : StrMap.t Entry) : StrMap.t Entry :=
  match lines with
  | [] => lineMap
  | l :: ls =>
      scanLines fname ls (lineNum + 1)
        (match lineKey l with
         | None => lineMap
         | Some (originalLine, normalized) =>
             record fname lineNum originalLine normalized lineMap
         end)
  end.

Definition scanFile (lineMap : StrMap.t Entry) (file : FileContent)
  : StrMap.t Entry :=
  scanLines (fc_filename file) (split LF (fc_content file)) 0 lineMap.

Definition buildLineMap (files : list FileContent) : StrMap.t Entry :=
  fold_left scanFile files [].

(** The match built from an entry that passes the two-file test. *)
Definition toMatch (entry : Entry) : ExactLineMatch :=
  mkMatch (original entry)
    (map (fun e => mkOcc (fst e) (firstn 10 (snd e))) (entryOccurrences entry))
    (entryCategory entry)
    (fold_left (fun sum nums => sum + Z.of_nat (List.length nums))
       (map snd (entryOccurrences entry)) 0).

(** The [for (const [, entry] of lineMap)] loop. *)
Definition collectMatches (lineMap : StrMap.t Entry) : list ExactLineMatch :=
  map toMatch
    (filter (fun entry => Z.of_nat (List.length (entryOccurrences entry)) >=? 2)
       (map snd lineMap)).

Definition categoryOrder (c : Category) : Z :=
  match c with
  | error => 0
  | warning => 1
  | info => 2
  | debug => 3
  | other => 4
  end.

(** The comparator handed to [matches.sort]. *)
Definition compareMatches (a b : ExactLineMatch) : Z :=
  let categoryDiff := categoryOrder (category a) - categoryOrder (category b) in
  if negb (categoryDiff =? 0) then categoryDiff
  else totalCount b - totalCount a.

(** The matches after the sort, before the two-match test. *)
Definition sortedMatches (files : list FileContent) : list ExactLineMatch :=
  sortBy compareMatches (collectMatches (buildLineMap files)).

Definition findExactLineMatches (files : list FileContent)
  : list ExactLineMatch :=
  if Z.of_nat (List.length files) <? 2 then []
  else
    let matches := sortedMatches files in
    if Z.of_nat (List.length matches) <? 2 then []
    else firstn 50 matches.

End LineMatchCase.

End LineMatch.

Import LineMatch.

(* ================================================================== *)
(** * Specification vocabulary *)
(* ================================================================== *)

(** ** Chunk splitter *)

(** The chunks that a partition of the lines into consecutive groups
    describes, when the first group starts at line [first]. *)
Fixpoint chunksOf (first : Z) (groups : list (list jsstring))
  : list ChunkDescriptor :=
  match groups with
  | [] => []
  | g :: gs =>
      mkChunk (join [LF] g)
              (mkLineRange first (first + Z.of_nat (List.length g) - 1))
      :: chunksOf (first + Z.of_nat (List.length g)) gs
  end.

(** The size the splitter counts for a group of lines. *)
Definition groupSize (g : list jsstring) : Z :=
  fold_right (fun l acc => lineSize l + acc) 0 g.

(** A group within the thresholds, or a single line on its own. *)
Definition okGroup (S_max L_max : Z) (g : list jsstring) : Prop :=
  Z.of_nat (List.length g) <= L_max
  /\ (groupSize g <= S_max \/ exists l, g = [l]).

(** The number of lines a chunk spans according to its range. *)
Definition rangeLines (c : ChunkDescriptor) : Z :=
  end_ (lineRange c) - start (lineRange c) + 1.

(** Line [n] lies in the range of chunk [c]. *)
Definition covers (c : ChunkDescriptor) (n : Z) : Prop :=
  start (lineRange c) <= n <= end_ (lineRange c).

(** ** Similarity fallback *)

(** How many items of a list have the lower-cased form [s]. *)
Definition countItems (toLowerCase : jsstring -> jsstring) (s : jsstring)
  (its : list jsstring) : Z :=
  Z.of_nat (List.length (filter (fun it => str_eqb (toLowerCase it) s) its)).

(** How many files list an item with the lower-cased form [s]. *)
Definition filesListing (toLowerCase : jsstring -> jsstring) 
  (sel : LogAnalysisResult -> list jsstring)
  (s : jsstring) (frs : list FileAnalysisResult) : Z :=
  Z.of_nat (List.length
    (filter (fun fr => existsb (fun it => str_eqb (toLowerCase it) s)
                         (sel (analysis fr))) frs)).

(** The count stored under a key, zero when there is none. *)
Definition getZ (k : jsstring) (counts : StrMap.t Z) : Z :=
  match StrMap.get k counts with
  | Some n => n
  | None => 0
  end.

(** ** Exact-line matcher *)

(** The order a comparator induces. *)
Definition cmpLe (A : Type) (cmp : A -> A -> Z) (a b : A) : Prop :=
  cmp a b <= 0.

(** [a] may stand before [b]: an earlier category, or the same category
    and a total count at least as large. *)
Definition matchBefore (a b : ExactLineMatch) : Prop :=
  categoryOrder (category a) < categoryOrder (category b)
  \/ (category a = category b /\ totalCount b <= totalCount a).

(** Some line of the file takes part in the matching under the key. *)
Definition occursIn (toLowerCase : jsstring -> jsstring) (key : jsstring)
  (file : FileContent) : Prop :=
  exists l o, In l (split LF (fc_content file)) /\ lineKey toLowerCase l
      = Some (o, key).

(** The grouping key of a reported match. *)
Definition keyOf (toLowerCase : jsstring -> jsstring) (mt : ExactLineMatch)
  : jsstring := normalizeLine toLowerCase (line mt).

(** An entry of the line map is sound for [P], where [P f k] says that
    the file name [f] may be recorded under the key [k]. *)
Definition entryOk (toLowerCase : jsstring -> jsstring) 
  (P : jsstring -> jsstring -> Prop) (k : jsstring) (e : Entry) : Prop :=
  k = normalizeLine toLowerCase (original e)
  /\ NoDup (map fst (entryOccurrences e))
  /\ forall f nums, In (f, nums) (entryOccurrences e) -> P f k.

Definition lineMapOk (toLowerCase : jsstring -> jsstring) 
  (P : jsstring -> jsstring -> Prop) (lm : StrMap.t Entry) : Prop :=
  NoDup (map fst lm) /\ forall k e, In (k, e) lm -> entryOk toLowerCase P k e.

(** The file name is that of an input file with a line under the key. *)
Definition recordable (toLowerCase : jsstring -> jsstring) 
  (files : list FileContent) (f k : jsstring) : Prop :=
  exists file, In file files /\ fc_filename file = f
      /\ occursIn toLowerCase k file.

(** ** List-item extractor *)

(** [p] occurs somewhere in [s]. *)
Definition contains (s p : jsstring) : Prop :=
  exists pre post, s = pre ++ p ++ post.

(** An opening bracket, one or more code units none of which ends a
    line, and a closing bracket. *)
Definition whollyBracketed (item : jsstring) : Prop :=
  exists mid, item = 91%N :: mid ++ [93%N] /\ mid <> []
              /\ Forall (fun c => isLineTerminator c = false) mid.

(** The negative-result phrases of the filter. *)
Definition negativePhrases : list jsstring :=
  [str "none found"; str "no patterns"; str "no anomalies";
   str "no root causes"].

(** The filter as the specification words it: a negative-result phrase
    removes an item only when the item equals it, whatever the case. *)
Definition removedWhenEqual (item : jsstring) : bool :=
  negb (truthy item)
  || includes item (str "[List")
  || includes (toLowerCase item) (str "list here")
  || test false bracketedRe item
  || existsb (str_eqb (toLowerCase item)) negativePhrases.

(** The grounds on which the final filter removes an item. *)
Definition removalGround (item : jsstring) : Prop :=
  item = []
  \/ contains item (str "[List")
  \/ contains (toLowerCase item) (str "list here")
  \/ whollyBracketed item
  \/ exists phrase, In phrase negativePhrases
                    /\ contains (toLowerCase item) phrase.

(** The continuation after [.+] in the bracket pattern: a closing
    bracket and the end of the input. *)
Definition closeBracket (pv : option char) (s : jsstring) : option mstate :=
  m false (Seq (Chr 93%N) (Seq Eol Eps)) (mkM pv s []) (fun st => Some st).

(** ** Responses built from sections *)

(** The four section titles. *)
Inductive Label := Patterns | Anomalies | RootCauses | Summary.

(** The heading line of a section, as the prompts ask for it. *)
Definition headingText (l : Label) : jsstring :=
  match l with
  | Patterns => str "## PATTERNS"
  | Anomalies => str "## ANOMALIES"
  | RootCauses => str "## ROOT CAUSES"
  | Summary => str "## SUMMARY"
  end.

(** The entry of the [sections] table for a title, and its two parts. *)
Definition regexOf (l : Label) : regex :=
  match l with
  | Patterns => patternsRe
  | Anomalies => anomaliesRe
  | RootCauses => rootCausesRe
  | Summary => summaryRe
  end.

Definition headOf (l : Label) : regex :=
  match l with
  | Patterns => patternsHeading
  | Anomalies => anomaliesHeading
  | RootCauses => rootCausesHeading
  | Summary => summaryHeading
  end.

Definition tailOf (l : Label) : regex :=
  match l with
  | Summary => summaryTail
  | _ => listTail
  end.

(** A section is its heading, a line feed and its body; a response is
    its sections joined by line feeds. *)
Definition renderSection (s : Label * jsstring) : jsstring :=
  headingText (fst s) ++ LF :: snd s.

Definition render (secs : list (Label * jsstring)) : jsstring :=
  join [LF] (map renderSection secs).

(** The text before a section and the text after it. *)
Definition prefixText (before : list (Label * jsstring)) : jsstring :=
  List.concat (map (fun s => renderSection s ++ [LF]) before).

Definition suffixText (after : list (Label * jsstring)) : jsstring :=
  List.concat (map (fun s => LF :: renderSection s) after).

(** The code unit of [#]. *)
Definition HASH : char := 35%N.

(** A pattern that opens with the marker [##]. *)
Definition marked (h t : regex) : regex :=
  Seq (Seq (Seq (Chr HASH) (Seq (Chr HASH) Eps)) h) t.

(** A body the parser reads back as it stands: it begins with a code
    unit that is not white space and holds no [#]. *)
Definition wfBody (b : jsstring) : Prop :=
  (exists c b', b = c :: b' /\ isSpace c = false) /\ ~ In HASH b.

(** What may follow a list section: nothing, or a line feed and the
    marker of the next heading. *)
Definition nextHeading (suff : jsstring) : Prop :=
  suff = [] \/ exists s', suff = LF :: HASH :: HASH :: s'.

(** No section of the list carries the title [l]. *)
Definition foreignTo (l : Label) (secs : list (Label * jsstring)) : Prop :=
  Forall (fun s => fst s <> l) secs.

(** Every section has a body the parser reads back as it stands. *)
Definition wfSections (secs : list (Label * jsstring)) : Prop :=
  Forall (fun s => wfBody (snd s)) secs.

Definition spells (W : string) (w : jsstring) : Prop :=
  map upperChar w = str W.

(** The titles the heading patterns accept: [PATTERNS?],
    [ANOMAL(?:Y|IES)], [ROOT\s*CAUSES?] and [SUMMARY], all under the
    [i] flag. *)
Definition titleOf (l : Label) (w : jsstring) : Prop :=
  match l with
  | Patterns => spells "PATTERN" w \/ spells "PATTERNS" w
  | Anomalies => spells "ANOMALY" w \/ spells "ANOMALIES" w
  | RootCauses =>
      exists r ws c,
        w = r ++ ws ++ c /\ spells "ROOT" r
        /\ Forall (fun x => isSpace x = true) ws
        /\ (spells "CAUSE" c \/ spells "CAUSES" c)
  | Summary => spells "SUMMARY" w
  end.

(** The first letter of each title. *)
Definition initial (l : Label) : char :=
  match l with
  | Patterns => 80%N
  | Anomalies => 65%N
  | RootCauses => 82%N
  | Summary => 83%N
  end.

(** A heading: any number of [#] before the two of the marker, then
    white space or none, then the title. *)
Definition headingOf (l : Label) (h : jsstring) : Prop :=
  exists k ws w,
    h = repeat HASH k ++ HASH :: HASH :: ws ++ w
    /\ Forall (fun x => isSpace x = true) ws /\ titleOf l w.

(** Whether a text holds the marker [##]. *)
Fixpoint hasMarker (s : jsstring) : bool :=
  match s with
  | a :: t =>
      match t with
      | b :: _ => (char_eqb HASH a && char_eqb HASH b) || hasMarker t
      | [] => false
      end
  | [] => false
  end.

(** Whether a text is white space only. *)
Definition blank (s : jsstring) : bool := forallb isSpace s.

(** A section as written: its title, its heading and the text from the
    end of the heading on, which as a rule begins with the line feed
    that ends the heading line. *)
Record Sec := mkSec {
  sec_title : Label;
  sec_heading : jsstring;
  sec_body : jsstring
}.

Definition writeSec (s : Sec) : jsstring := sec_heading s ++ sec_body s.

(** A response: the sections joined by line feeds. *)
Definition writeAll (secs : list Sec) : jsstring :=
  join [LF] (map writeSec secs).

Definition textBefore (before : list Sec) : jsstring :=
  List.concat (map (fun s => writeSec s ++ [LF]) before).

Definition textAfter (after : list Sec) : jsstring :=
  List.concat (map (fun s => LF :: writeSec s) after).

(** A section the parser reads the same wherever it stands: the heading
    is one its pattern accepts, the body is not blank and holds no
    [##], and the heading ends where the title does, that is, after
    [PATTERNS?] or [CAUSES?] the body does not go on with a letter S. *)
Definition okSec (s : Sec) : Prop :=
  headingOf (sec_title s) (sec_heading s)
  /\ blank (sec_body s) = false
  /\ hasMarker (sec_body s) = false
  /\ match sec_title s, sec_body s with
     | (Patterns | RootCauses), c :: _ => upperChar c <> 83%N
     | _, _ => True
     end.

(** No section before the last one is the summary. *)
Definition summaryAtEnd (secs : list Sec) : Prop :=
  ~ In Summary (map sec_title (removelast secs)).

(** The lookahead of the list sections: a line feed and [##], or the
    end of the input. *)
Definition boundaryRe : regex :=
  Alt (seqs [Chr LF; Chr 35%N; Chr 35%N]) Eol.

(** The same lookahead as a test on the input. *)
Definition atBoundary (s : jsstring) : bool :=
  match s with
  | [] => true
  | a :: b :: c :: _ => char_eqb LF a && char_eqb HASH b && char_eqb HASH c
  | _ => false
  end.

(** The continuation after the lazy capture of a list section: set
    group 1 to the text walked over, then look ahead for the boundary. *)
Definition lookK (whole : jsstring) (cs : list (nat * jsstring))
  (pv : option char) (s : jsstring) : option mstate :=
  match m true boundaryRe (mkM pv s (setCap 1 (consumed whole s) cs))
          (fun st => Some st) with
  | Some st' => Some (mkM pv s (caps st'))
  | None => None
  end.

(** The continuation after the lazy capture of the summary: set group 1,
    then require the end of the input. *)
Definition endK (whole : jsstring) (cs : list (nat * jsstring))
  (pv : option char) (s : jsstring) : option mstate :=
  match s with
  | [] => Some (mkM pv s (setCap 1 (consumed whole s) cs))
  | _ :: _ => None
  end.

(* ================================================================== *)
(** * Further code and vocabulary: merge, workers, similarity parser *)
(* ================================================================== *)
(** ** Chunk aggregator: the fallback merge *)

Record ChunkAnalysisResult := mkChunkResult {
  chunkId : Z;
  cr_lineRange : LineRange;
  cr_patterns : list jsstring;
  cr_anomalies : list jsstring;
  cr_rootCauses : list jsstring
}.

Module StrSet.

(** A [Set] of strings: its elements in insertion order. *)
Definition t := list jsstring.

Definition has (x : jsstring) (s : t) : bool := existsb (str_eqb x) s.

(** [add] of an element already there changes nothing. *)
Definition add (s : t) (x : jsstring) : t :=
  if has x s then s else s ++ [x].

End StrSet.

(** [String(n)] for a length or a count: its decimal digits. *)
Fixpoint uintDigits (u : Decimal.uint) : jsstring :=
  match u with
  | Decimal.Nil => []
  | Decimal.D0 u' => 48%N :: uintDigits u'
  | Decimal.D1 u' => 49%N :: uintDigits u'
  | Decimal.D2 u' => 50%N :: uintDigits u'
  | Decimal.D3 u' => 51%N :: uintDigits u'
  | Decimal.D4 u' => 52%N :: uintDigits u'
  | Decimal.D5 u' => 53%N :: uintDigits u'
  | Decimal.D6 u' => 54%N :: uintDigits u'
  | Decimal.D7 u' => 55%N :: uintDigits u'
  | Decimal.D8 u' => 56%N :: uintDigits u'
  | Decimal.D9 u' => 57%N :: uintDigits u'
  end.

Definition countToString (n : nat) : jsstring := uintDigits (Nat.to_uint n).

Module Merge.

(** The body of the loop over the chunks: each list is added, item by
    item, to its set. *)
Definition mergeStep (acc : StrSet.t * StrSet.t * StrSet.t)
  (chunk : ChunkAnalysisResult) : StrSet.t * StrSet.t * StrSet.t :=
  let '(allPatterns, allAnomalies, allRootCauses) := acc in
  (fold_left StrSet.add (cr_patterns chunk) allPatterns,
   fold_left StrSet.add (cr_anomalies chunk) allAnomalies,
   fold_left StrSet.add (cr_rootCauses chunk) allRootCauses).

Definition mergeChunkResultsManually (chunks : list ChunkAnalysisResult)
  : LogAnalysisResult :=
  let '(allPatterns, allAnomalies, allRootCauses) :=
    fold_left mergeStep chunks ([], [], []) in
  mkResult allPatterns allAnomalies allRootCauses
    (str "Analyzed " ++ countToString (List.length chunks)
     ++ str " segments of the log file.").

End Merge.

Import Merge.

(** The elements of a list in the order of their first occurrence. *)
Fixpoint firstSeen (l : list jsstring) : list jsstring :=
  match l with
  | [] => []
  | x :: l' => x :: filter (fun y => negb (str_eqb x y)) (firstSeen l')
  end.

(** A merged result handed back as a chunk result. *)
Definition asChunk (r : LogAnalysisResult) : ChunkAnalysisResult :=
  mkChunkResult 0 (mkLineRange 1 1) (patterns r) (anomalies r) (rootCauses r).

(** ** Fallback comparison: files without repeated items *)

(** No file repeats an item of one list, whatever the case. *)
Definition noRepeats (toLowerCase : jsstring -> jsstring) 
  (frs : list FileAnalysisResult) : Prop :=
  Forall (fun fr =>
    NoDup (map toLowerCase (patterns (analysis fr)))
    /\ NoDup (map toLowerCase (anomalies (analysis fr)))
    /\ NoDup (map toLowerCase (rootCauses (analysis fr)))) frs.

(** ** Chunk splitter: when a chunk is closed *)

(** The group [g] could not take the line [next]: the size threshold
    would be passed, or the line threshold is reached. *)
Definition closedOk (S_max L_max : Z) (g : list jsstring) (next : jsstring)
  : Prop :=
  S_max < groupSize g + lineSize next \/ L_max <= Z.of_nat (List.length g).

(** Every group but the last could not take the first line of the group
    after it. *)
Fixpoint greedy (S_max L_max : Z) (gs : list (list jsstring)) : Prop :=
  match gs with
  | [] => True
  | g :: tl =>
      match tl with
      | (next :: _) :: _ => closedOk S_max L_max g next
      | _ => True
      end /\ greedy S_max L_max tl
  end.

(** Every group but the last has exactly [L_max] lines, and the last has
    between 1 and [L_max]. *)
Fixpoint fullBlocks (L_max : Z) (gs : list (list jsstring)) : Prop :=
  match gs with
  | [] => True
  | g :: tl =>
      match tl with
      | [] => 1 <= Z.of_nat (List.length g) <= L_max
      | _ :: _ => Z.of_nat (List.length g) = L_max
      end /\ fullBlocks L_max tl
  end.

(** ** Exact-line matcher: what a match reports *)

(** Line number [n], counted from 1, of a file. *)
Definition lineAt (file : FileContent) (n : Z) : option jsstring :=
  if n <? 1 then None
  else nth_error (split LF (fc_content file)) (Z.to_nat (n - 1)).

(** The line takes part in the matching under the key [k]. *)
Definition hasKey (toLowerCase : jsstring -> jsstring) (k : jsstring)
  (l : jsstring) : bool :=
  match (lineKey toLowerCase) l with
  | Some (_, k') => str_eqb k' k
  | None => false
  end.

(** How many lines of the files take part under the key [k]. *)
Definition linesWithKey (toLowerCase : jsstring -> jsstring) (k : jsstring)
  (files : list FileContent) : Z :=
  fold_right
    (fun file acc =>
       Z.of_nat (List.length (filter (hasKey toLowerCase k) (split LF
           (fc_content file))))
       + acc)
    0 files.

(** The line numbers stored in a map of occurrences, all together. *)
Definition storedCount (occ : StrMap.t (list Z)) : Z :=
  fold_right (fun e acc => Z.of_nat (List.length (snd e)) + acc) 0 occ.

(** The line numbers stored under a key of the line map. *)
Definition storedUnder (k : jsstring) (lm : StrMap.t Entry) : Z :=
  match StrMap.get k lm with
  | Some e => storedCount (entryOccurrences e)
  | None => 0
  end.

(** The line numbers a match shows, all together. *)
Definition shownCount (mt : ExactLineMatch) : Z :=
  fold_right (fun o acc => Z.of_nat (List.length (lineNumbers o)) + acc) 0
    (occurrences mt).

(** An invariant of the line map, for a property [E k original category]
    of the entries and a property [Q k f n] of the recorded numbers. *)
Definition entryInv (E : jsstring -> jsstring -> Category -> Prop)
  (Q : jsstring -> jsstring -> Z -> Prop) (k : jsstring) (e : Entry) : Prop :=
  E k (original e) (entryCategory e)
  /\ NoDup (map fst (entryOccurrences e))
  /\ forall f nums, In (f, nums) (entryOccurrences e) ->
                    nums <> [] /\ Forall (Q k f) nums.

Definition mapInv (E : jsstring -> jsstring -> Category -> Prop)
  (Q : jsstring -> jsstring -> Z -> Prop) (lm : StrMap.t Entry) : Prop :=
  forall k e, In (k, e) lm -> entryInv E Q k e.

(** The entry shows the trimmed text of an input line with its key, and
    the category of that text. *)
Definition shownLine (toLowerCase : jsstring -> jsstring) 
  (files : list FileContent) (k o : jsstring) (c : Category) : Prop :=
  c = categorize toLowerCase o
  /\ exists file l, In file files /\ In l (split LF (fc_content file))
                    /\ lineKey toLowerCase l = Some (o, k).

(** Line [n] of a file named [f] takes part under the key [k]. *)
Definition numberedLine (toLowerCase : jsstring -> jsstring) 
  (files : list FileContent) (k f : jsstring) (n : Z) : Prop :=
  exists file l, In file files /\ fc_filename file = f
                 /\ lineAt file n = Some l /\ hasKey toLowerCase k l = true.

(** Every line seen so far is recorded: its key has an entry that lists
    its file's name. *)
Definition allRecorded (seen : jsstring -> jsstring -> Prop)
  (lm : StrMap.t Entry) : Prop :=
  forall f k, seen f k ->
    exists e, StrMap.get k lm = Some e
              /\ StrMap.has f (entryOccurrences e) = true.

(** The occurrences of an entry after one more line number for [fname]. *)
Definition pushed (fname : jsstring) (x : Z) (occ : StrMap.t (list Z))
  : StrMap.t (list Z) :=
  let occ1 := if negb (StrMap.has fname occ) then StrMap.set fname [] occ
              else occ in
  match StrMap.get fname occ1 with
  | None => occ1
  | Some nums => StrMap.set fname (nums ++ [x]) occ1
  end.

(** ** List-item extractor: lines that carry one item *)

(** The bullet markers: [-], [*] and the bullet U+2022. *)
Definition isBullet (c : char) : bool :=
  char_eqb c 45%N || char_eqb c 42%N || char_eqb c 8226%N.

(** An item the extractor hands back as it stands: kept by the final
    filter (so not empty and not a placeholder), without white space at
    either end, and on one line. *)
Definition cleanItem (item : jsstring) : Prop :=
  keepItem item = true /\ trim item = item
  /\ Forall (fun c => isLineTerminator c = false) item.

(** A line that carries the item: a bullet marker, or digits and one of
    [.] and [)], then any number of spaces, then the item. *)
Inductive itemLine : jsstring -> jsstring -> Prop :=
| byBullet (b : char) (n : nat) (item : jsstring) :
    isBullet b = true ->
    itemLine (b :: repeat 32%N n ++ item) item
| byNumber (d : char) (ds : jsstring) (sep : char) (n : nat)
    (item : jsstring) :
    isDigit d = true -> Forall (fun c => isDigit c = true) ds ->
    sep = 46%N \/ sep = 41%N ->
    itemLine (d :: ds ++ sep :: repeat 32%N n ++ item) item.

(** ** Section parser: a result written in the layout the prompts ask for *)

(** An item as a bullet line. *)
Definition bulletLine (item : jsstring) : jsstring := str "- " ++ item.

(** The body of a list section: one bullet line for each item. *)
Definition listBody (its : list jsstring) : jsstring :=
  join [LF] (map bulletLine its).

(** A list is written as a section when it has items, the summary when
    it is not empty. *)
Definition listSection (l : Label) (its : list jsstring)
  : list (Label * jsstring) :=
  match its with
  | [] => []
  | _ :: _ => [(l, listBody its)]
  end.

Definition summarySection (s : jsstring) : list (Label * jsstring) :=
  match s with
  | [] => []
  | _ :: _ => [(Summary, s)]
  end.

(** The sections of a result, the summary last. *)
Definition sectionsOf (r : LogAnalysisResult) : list (Label * jsstring) :=
  listSection Patterns (patterns r)
  ++ listSection Anomalies (anomalies r)
  ++ listSection RootCauses (rootCauses r)
  ++ summarySection (summary r).

(** An item that can be written and read back: clean, and without [#]. *)
Definition plainItem (item : jsstring) : Prop :=
  cleanItem item /\ ~ In HASH item.

(** A summary that can be written and read back: without white space
    at either end and without [#]. *)
Definition plainSummary (s : jsstring) : Prop :=
  trim s = s /\ ~ In HASH s.

(** ** Matcher: what a run can put into the groups *)

(** Every code unit still to read, and every code unit of every group,
    satisfies [P]. *)
Definition within (P : char -> Prop) (st : mstate) : Prop :=
  Forall P (rest st) /\ Forall (fun e => Forall P (snd e)) (caps st).

(** A text without a line feed. *)
Definition oneLine (s : jsstring) : Prop := Forall (fun c => c <> LF) s.

(** ** Line normalization: leading time stamps *)

(** A run of exactly [n] digits. *)
Definition digitsN (n : nat) (s : jsstring) : Prop :=
  List.length s = n /\ Forall (fun c => isDigit c = true) s.

(** A time stamp: [YYYY-MM-DD], [T] or a space, [HH:MM:SS], then
    optionally [.] or [,], then any number of digits, then optionally
    [Z]. *)
Inductive isoStampText : jsstring -> Prop :=
| stampText (y mo d : jsstring) (t : char) (h mi sec sepc ds zone : jsstring) :
    digitsN 4 y -> digitsN 2 mo -> digitsN 2 d ->
    t = 84%N \/ t = 32%N ->
    digitsN 2 h -> digitsN 2 mi -> digitsN 2 sec ->
    sepc = [] \/ sepc = [46%N] \/ sepc = [44%N] ->
    Forall (fun c => isDigit c = true) ds ->
    zone = [] \/ zone = [90%N] ->
    isoStampText
      (y ++ 45%N :: mo ++ 45%N :: d ++ t :: h ++ 58%N :: mi ++ 58%N :: sec
         ++ sepc ++ ds ++ zone).

(** ** [parallelMap]: workers that share one index *)

Module ParallelMap.

Section Run.

Variables T R : Type.

(** The value with which the promise of the call [fn(item, index)]
    fulfils.  Calls that reject are not part of the model. *)
Variable fn : T -> nat -> R.
Variable items : list T.
Variable concurrency : Z.

(** A worker is at the test of its [while] loop, suspended at the
    [await] of the call it made for [index], or past the loop. *)
Inductive Worker :=
| Ready
| Waiting (index : nat) (value : R)
| Finished.

(** The variables the workers share, the workers, and the indices for
    which [fn] has been called so far, oldest first. *)
Record PState := mkP {
  currentIndex : nat;
  results : list (option R);
  workers : list Worker;
  started : list nat
}.

(** [results[index] = value]; past the end the array grows, with holes
    in between. *)
Fixpoint assign (res : list (option R)) (index : nat) (value : R)
  : list (option R) :=
  match res, index with
  | [], O => [Some value]
  | [], S i => None :: assign [] i value
  | _ :: r, O => Some value :: r
  | x :: r, S i => x :: assign r i value
  end.

(** [new Array(items.length)], [currentIndex = 0], and
    [Math.min(concurrency, items.length)] workers, none of which has
    run yet. *)
Definition init : PState :=
  mkP 0 (repeat None (List.length items))
      (repeat Ready (Z.to_nat (Z.min concurrency (Z.of_nat (List.length items))))) [].

(** One worker runs until it next suspends or returns.  At the loop
    test it either takes the next index and calls [fn], or leaves the
    loop; when its call has fulfilled it stores the value and is back at
    the loop test.  Any worker that can run may be the next to run. *)
Inductive step : PState -> PState -> Prop :=
| take (ws1 ws2 : list Worker) (c : nat) (res : list (option R))
    (log : list nat) (x : T) :
    nth_error items c = Some x ->
    step (mkP c res (ws1 ++ Ready :: ws2) log)
         (mkP (S c) res (ws1 ++ Waiting c (fn x c) :: ws2) (log ++ [c]))
| leave (ws1 ws2 : list Worker) (c : nat) (res : list (option R))
    (log : list nat) :
    nth_error items c = None ->
    step (mkP c res (ws1 ++ Ready :: ws2) log)
         (mkP c res (ws1 ++ Finished :: ws2) log)
| store (ws1 ws2 : list Worker) (c : nat) (res : list (option R))
    (log : list nat) (i : nat) (v : R) :
    step (mkP c res (ws1 ++ Waiting i v :: ws2) log)
         (mkP c (assign res i v) (ws1 ++ Ready :: ws2) log).

(** The states a run can be in after [n] steps. *)
Inductive run : nat -> PState -> Prop :=
| run_init : run 0 init
| run_step (n : nat) (st st' : PState) :
    run n st -> step st st' -> run (S n) st'.

(** [Promise.all(workers)] fulfils: every worker is past its loop. *)
Definition finished (st : PState) : Prop :=
  Forall (fun w => w = Finished) (workers st).

(** What a sequential map would give: [fn(items[i], i)] for each [i]. *)
Fixpoint mapFrom (i : nat) (xs : list T) : list R :=
  match xs with
  | [] => []
  | x :: xs' => fn x i :: mapFrom (S i) xs'
  end.

(** The calls in flight. *)
Definition inFlight (st : PState) : list nat :=
  flat_map (fun w => match w with Waiting i _ => [i] | _ => [] end)
    (workers st).

(** What a state still has to do: two steps for each index not yet
    taken, two for a suspended worker, one for a worker at the test. *)
Definition weight (w : Worker) : nat :=
  match w with
  | Ready => 1%nat
  | Waiting _ _ => 2%nat
  | Finished => 0%nat
  end.

Definition remaining (st : PState) : nat :=
  (2 * (List.length items - currentIndex st)
   + list_sum (map weight (workers st)))%nat.

(** What holds of every state of a run. *)
Definition runInv (st : PState) : Prop :=
  (currentIndex st <= List.length items)%nat
  /\ started st = seq 0 (currentIndex st)
  /\ List.length (results st) = List.length items
  /\ List.length (workers st)
     = Z.to_nat (Z.min concurrency (Z.of_nat (List.length items)))
  /\ (forall i v, In (Waiting i v) (workers st) ->
        (i < currentIndex st)%nat
        /\ exists x, nth_error items i = Some x /\ v = fn x i)
  /\ (In Finished (workers st) -> currentIndex st = List.length items)
  /\ (forall i x, nth_error items i = Some x -> (i < currentIndex st)%nat ->
        ~ In i (inFlight st) ->
        nth_error (results st) i = Some (Some (fn x i))).

End Run.

End ParallelMap.

(** ** Categories: a word in a line *)

(** The code unit before a position: the last one of the text read so
    far, or what was before that text. *)
Definition prevAfter (pv : option char) (pre : jsstring) : option char :=
  fold_left (fun _ c => Some c) pre pv.

(** [w] stands in [s] as a word: with nothing, or a code unit that is
    not a word character, on either side. *)
Definition hasWord (w s : jsstring) : Prop :=
  exists pre post,
    s = pre ++ w ++ post
    /\ isWordOpt (prevAfter None pre) = false
    /\ isWordOpt (hd_error post) = false.

(** ** Similarity parser *)

Module SimilarityParser.

(** [/## SHARED PATTERNS\s*([\s\S]*?)(?=## |$)/i] and its like. *)
Definition sharedPatternsRe : regex :=
  seqs [lit "## SHARED PATTERNS"; Star space; Cap 1 (StarLazy anyChar);
        Look (Alt (lit "## ") Eol)].
Definition sharedAnomaliesRe : regex :=
  seqs [lit "## SHARED ANOMALIES"; Star space; Cap 1 (StarLazy anyChar);
        Look (Alt (lit "## ") Eol)].
Definition sharedRootCausesRe : regex :=
  seqs [lit "## SHARED ROOT CAUSES"; Star space; Cap 1 (StarLazy anyChar);
        Look (Alt (lit "## ") Eol)].
(** [/## CORRELATIONS\s*([\s\S]*?)$/i] *)
Definition correlationsRe : regex :=
  seqs [lit "## CORRELATIONS"; Star space; Cap 1 (StarLazy anyChar); Eol].

Definition parseSimilaritiesResponse (content : jsstring) : SimilarityResult :=
  mkSimilarity
    (sectionItems sharedPatternsRe content)
    (sectionItems sharedAnomaliesRe content)
    (sectionItems sharedRootCausesRe content)
    (sectionItems correlationsRe content).

End SimilarityParser.

Import SimilarityParser.

(** The four titles of a comparison. *)
Inductive SimLabel :=
| SharedPatterns
| SharedAnomalies
| SharedRootCauses
| Correlations.

Definition simHeading (l : SimLabel) : jsstring :=
  match l with
  | SharedPatterns => str "## SHARED PATTERNS"
  | SharedAnomalies => str "## SHARED ANOMALIES"
  | SharedRootCauses => str "## SHARED ROOT CAUSES"
  | Correlations => str "## CORRELATIONS"
  end.

Definition simRegex (l : SimLabel) : regex :=
  match l with
  | SharedPatterns => sharedPatternsRe
  | SharedAnomalies => sharedAnomaliesRe
  | SharedRootCauses => sharedRootCausesRe
  | Correlations => correlationsRe
  end.

(** What follows the heading in a pattern of the table. *)
Definition simTail (l : SimLabel) : regex :=
  match l with
  | Correlations => seqs [Star space; Cap 1 (StarLazy anyChar); Eol]
  | _ => seqs [Star space; Cap 1 (StarLazy anyChar);
               Look (Alt (lit "## ") Eol)]
  end.

(** A section as the comparison prompt lays it out: the heading on a
    line, one bullet line for each item, then [gap] blank lines. *)
Definition simSection (gap : nat) (l : SimLabel) (its : list jsstring)
  : jsstring :=
  simHeading l ++ LF :: listBody its ++ LF :: repeat LF gap.

(** A comparison written out, the correlations last. *)
Definition simText (gap : nat) (r : SimilarityResult) : jsstring :=
  simSection gap SharedPatterns (sharedPatterns r)
  ++ simSection gap SharedAnomalies (sharedAnomalies r)
  ++ simSection gap SharedRootCauses (sharedRootCauses r)
  ++ simSection gap Correlations (correlations r).

(** Nothing, or the marker [## ] of a heading. *)
Definition atMarker (s : jsstring) : Prop :=
  s = [] \/ exists s', s = HASH :: HASH :: 32%N :: s'.

(* ================================================================== *)
(** * Strings: split and join *)
(* ================================================================== *)

Lemma char_eqb_eq (a b : char) : char_eqb a b = true <-> a = b.
Proof. apply N.eqb_eq. Qed.

Lemma char_eqb_neq (a b : char) : char_eqb a b = false <-> a <> b.
Proof. apply N.eqb_neq. Qed.

Lemma char_eqb_refl (a : char) : char_eqb a a = true.
Proof. apply N.eqb_refl. Qed.

Lemma str_eqb_eq (a b : jsstring) : str_eqb a b = true <-> a = b.
Proof.
  revert b; induction a as [|x a IH]; intros [|y b]; simpl; split;
    try congruence; try reflexivity.
  - rewrite andb_true_iff, char_eqb_eq, IH. intros [-> ->]; reflexivity.
  - intros E; inversion E; subst. rewrite char_eqb_refl. apply IH. reflexivity.
Qed.

Lemma str_eqb_refl (a : jsstring) : str_eqb a a = true.
Proof. apply str_eqb_eq; reflexivity. Qed.

Lemma str_eqb_neq (a b : jsstring) : str_eqb a b = false <-> a <> b.
Proof.
  rewrite <- str_eqb_eq. destruct (str_eqb a b); split; congruence.
Qed.

Lemma split_nonempty (sep : char) (s : jsstring) : split sep s <> [].
Proof.
  destruct s as [|c s]; simpl; [discriminate|].
  destruct (char_eqb c sep); [discriminate|].
  destruct (split sep s); discriminate.
Qed.

(** Splitting on line feed and joining with it gives the text back. *)
Lemma join_split (s : jsstring) : join [LF] (split LF s) = s.
Proof.
  induction s as [|c s IH]; simpl; [reflexivity|].
  destruct (char_eqb c LF) eqn:E.
  - apply char_eqb_eq in E; subst c.
    pose proof (split_nonempty LF s) as NE.
    destruct (split LF s) as [|l ls] eqn:Es; [congruence|].
    simpl in *. rewrite IH. reflexivity.
  - pose proof (split_nonempty LF s) as NE.
    destruct (split LF s) as [|l ls] eqn:Es; [congruence|].
    destruct ls as [|l2 ls]; simpl in *; rewrite <- IH; reflexivity.
Qed.

(** No piece of a split contains the separator. *)
Lemma split_no_sep (sep : char) (s : jsstring) :
  Forall (fun l => ~ In sep l) (split sep s).
Proof.
  induction s as [|c s IH]; simpl.
  - constructor; [intros []|constructor].
  - destruct (char_eqb c sep) eqn:E.
    + constructor; [intros []|exact IH].
    + apply char_eqb_neq in E.
      destruct (split sep s) as [|l ls]; [constructor; [|constructor]|].
      * intros [H|[]]; congruence.
      * inversion IH; subst. constructor; [|assumption].
        intros [H|H]; [congruence|contradiction].
Qed.

Lemma split_app_no_sep (sep : char) (l rest : jsstring) :
  ~ In sep l ->
  split sep (l ++ sep :: rest) = l :: split sep rest.
Proof.
  induction l as [|c l IH]; simpl; intros H.
  - rewrite char_eqb_refl. reflexivity.
  - destruct (char_eqb c sep) eqn:E.
    + apply char_eqb_eq in E. exfalso; apply H; left; assumption.
    + rewrite IH by (intros K; apply H; right; exact K). reflexivity.
Qed.

Lemma split_line (sep : char) (l : jsstring) :
  ~ In sep l -> split sep l = [l].
Proof.
  induction l as [|c l IH]; simpl; intros H; [reflexivity|].
  destruct (char_eqb c sep) eqn:E.
  - apply char_eqb_eq in E. exfalso; apply H; left; assumption.
  - rewrite IH by (intros K; apply H; right; exact K). reflexivity.
Qed.

(** Joining separator-free lines and splitting again gives the lines. *)
Lemma split_join (g : list jsstring) :
  g <> [] -> Forall (fun l => ~ In LF l) g -> split LF (join [LF] g) = g.
Proof.
  induction g as [|l g IH]; intros NE H; [congruence|].
  inversion H as [|? ? Hl Hg]; subst.
  destruct g as [|l2 g].
  - simpl. apply split_line; assumption.
  - change (join [LF] (l :: l2 :: g)) with (l ++ LF :: join [LF] (l2 :: g)).
    rewrite split_app_no_sep by assumption.
    rewrite IH by (assumption || discriminate). reflexivity.
Qed.

Lemma join_app_nonempty (sep : jsstring) (a b : list jsstring) :
  a <> [] -> b <> [] -> join sep (a ++ b) = join sep a ++ sep ++ join sep b.
Proof.
  induction a as [|x a IH]; intros NA NB; [congruence|].
  destruct a as [|y a].
  - simpl. destruct b; [congruence|reflexivity].
  - change (join sep ((x :: y :: a) ++ b))
      with (x ++ sep ++ join sep ((y :: a) ++ b)).
    rewrite IH by (assumption || discriminate).
    simpl. rewrite <- !app_assoc. reflexivity.
Qed.

(** Joining the joined groups is joining all the lines. *)
Lemma join_groups (sep : jsstring) (groups : list (list jsstring)) :
  Forall (fun g => g <> []) groups ->
  join sep (map (join sep) groups) = join sep (List.concat groups).
Proof.
  induction groups as [|g gs IH]; intros H; [reflexivity|].
  inversion H as [|? ? Hg Hgs]; subst.
  destruct gs as [|g2 gs].
  - simpl. rewrite app_nil_r. reflexivity.
  - change (join sep (map (join sep) (g :: g2 :: gs)))
      with (join sep g ++ sep ++ join sep (map (join sep) (g2 :: gs))).
    rewrite IH by assumption.
    change (List.concat (g :: g2 :: gs)) with (g ++ List.concat (g2 :: gs)).
    rewrite join_app_nonempty; [reflexivity|assumption|].
    inversion Hgs; subst. destruct g2; [congruence|discriminate].
Qed.

(* ================================================================== *)
(** * Chunk splitter: the loop invariant *)
(* ================================================================== *)

Lemma chunksOf_app (first : Z) (gs : list (list jsstring)) (g : list jsstring) :
  chunksOf first (gs ++ [g]) =
  chunksOf first gs ++
    [mkChunk (join [LF] g)
       (mkLineRange (first + Z.of_nat (List.length (List.concat gs)))
          (first + Z.of_nat (List.length (List.concat gs))
           + Z.of_nat (List.length g) - 1))].
Proof.
  revert first; induction gs as [|g0 gs IH]; intros first; simpl.
  - rewrite Z.add_0_r. reflexivity.
  - rewrite IH, length_app, Nat2Z.inj_add, !Z.add_assoc. reflexivity.
Qed.

Lemma groupSize_app (a b : list jsstring) :
  groupSize (a ++ b) = groupSize a + groupSize b.
Proof.
  induction a as [|x a IH]; simpl; [reflexivity|]. rewrite IH. lia.
Qed.

(** What the loop and the code after it produce from any state that
    describes a partition of the lines read so far. *)
Lemma splitLoop_groups (S_max L_max : Z) (lines : list jsstring) :
  forall (i : Z) (st : SplitState) (groups : list (list jsstring)),
    chunks st = chunksOf 1 groups ->
    Forall (fun g => g <> []) groups ->
    chunkStartLine st = Z.of_nat (List.length (List.concat groups)) ->
    i = chunkStartLine st + Z.of_nat (List.length (currentChunk st)) ->
    currentSize st = groupSize (currentChunk st) ->
    (0 < L_max ->
     Forall (okGroup S_max L_max) groups
     /\ (currentChunk st = [] \/ okGroup S_max L_max (currentChunk st))) ->
    exists groups',
      splitFinish (i + Z.of_nat (List.length lines))
        (splitLoop S_max L_max lines i st) = chunksOf 1 groups'
      /\ Forall (fun g => g <> []) groups'
      /\ List.concat groups' = List.concat groups ++ currentChunk st ++ lines
      /\ (0 < L_max -> Forall (okGroup S_max L_max) groups').
Proof.
  induction lines as [|l lines IH]; intros i st groups Hc Hne Hs Hi Hsz Hok.
  - (* after the loop *)
    simpl splitLoop. unfold splitFinish.
    destruct (currentChunk st) as [|x cur] eqn:Ecur.
    + exists groups. simpl. rewrite app_nil_r. repeat split; try assumption.
      intros HL. apply Hok; assumption.
    + exists (groups ++ [x :: cur]).
      replace (Z.of_nat (List.length (x :: cur)) >? 0) with true
        by (symmetry; apply Z.gtb_lt; simpl List.length; lia).
      rewrite chunksOf_app, Hc. repeat split.
      * f_equal. f_equal. f_equal. simpl List.length in *. f_equal; lia.
      * apply Forall_app; split; [assumption|]. constructor; [discriminate|constructor].
      * rewrite concat_app. simpl. rewrite !app_nil_r. reflexivity.
      * intros HL.
        destruct (Hok HL) as [Hg [Hcur|Hcur]]; [discriminate Hcur|].
        apply Forall_app; split; [assumption|]. constructor; [assumption|constructor].
  - (* one more line *)
    simpl splitLoop. unfold splitStep.
    destruct (((currentSize st + lineSize l >? S_max)
               || (Z.of_nat (List.length (currentChunk st)) >=? L_max))
              && (Z.of_nat (List.length (currentChunk st)) >? 0)) eqn:Econd.
    + (* the open chunk is closed, the line opens the next one *)
      apply andb_true_iff in Econd. destruct Econd as [_ Epos].
      apply Z.gtb_lt in Epos.
      assert (Hcur : currentChunk st <> []).
      { intros E. rewrite E in Epos. simpl in Epos. lia. }
      destruct (IH (i + 1)
                  (mkSplit
                     (chunks st ++
                        [mkChunk (join [LF] (currentChunk st))
                           (mkLineRange (chunkStartLine st + 1) i)])
                     [l] (lineSize l) i)
                  (groups ++ [currentChunk st])) as [groups' [H1 [H2 [H3 H4]]]].
      * simpl. rewrite chunksOf_app, Hc. f_equal. f_equal. f_equal. f_equal; lia.
      * apply Forall_app; split; [assumption|]. constructor; [assumption|constructor].
      * simpl. rewrite concat_app, length_app. simpl. rewrite app_nil_r, Nat2Z.inj_add. lia.
      * simpl. lia.
      * simpl. lia.
      * intros HL. destruct (Hok HL) as [Hg Hc']. simpl. split.
        -- apply Forall_app; split; [assumption|]. constructor; [|constructor].
           destruct Hc' as [E|Hc']; [congruence|assumption].
        -- right. split; [simpl; lia|]. right. exists l. reflexivity.
      * exists groups'. simpl in H1, H3.
        replace (i + Z.of_nat (List.length (l :: lines)))
          with (i + 1 + Z.of_nat (List.length lines))
          by (simpl List.length; lia).
        repeat split; try assumption.
        rewrite H3, concat_app. simpl. rewrite app_nil_r, <- app_assoc. reflexivity.
    + (* the line joins the open chunk *)
      destruct (IH (i + 1)
                  (mkSplit (chunks st) (currentChunk st ++ [l])
                     (currentSize st + lineSize l) (chunkStartLine st))
                  groups) as [groups' [H1 [H2 [H3 H4]]]]; try assumption.
      * simpl. rewrite length_app, Nat2Z.inj_add. simpl. lia.
      * simpl. rewrite groupSize_app. simpl. lia.
      * intros HL. destruct (Hok HL) as [Hg Hc']. simpl. split; [assumption|].
        right. apply andb_false_iff in Econd.
        destruct (currentChunk st) as [|x cur] eqn:Ecur.
        -- simpl. split; [simpl; lia|]. right. exists l. reflexivity.
        -- destruct Econd as [Econd|Econd];
             [|rewrite Z.gtb_ltb in Econd; apply Z.ltb_ge in Econd;
              simpl List.length in Econd; lia].
           apply orb_false_iff in Econd. destruct Econd as [E1 E2].
           rewrite Z.gtb_ltb in E1. apply Z.ltb_ge in E1. rewrite Z.geb_leb in E2. apply Z.leb_gt in E2.
           split.
           ++ rewrite length_app, Nat2Z.inj_add. simpl List.length at 2. lia.
           ++ left. rewrite groupSize_app. simpl groupSize at 2. lia.
      * exists groups'. simpl in H1, H3.
        replace (i + Z.of_nat (List.length (l :: lines)))
          with (i + 1 + Z.of_nat (List.length lines))
          by (simpl List.length; lia).
        repeat split; try assumption.
        rewrite H3, <- !app_assoc. reflexivity.
Qed.

(** The chunks are those of a partition of the lines into non-empty
    consecutive groups, each within the thresholds or a single line. *)
Lemma splitIntoChunks_groups (S_max L_max : Z) (lines : list jsstring) :
  exists groups,
    splitIntoChunks S_max L_max lines = chunksOf 1 groups
    /\ Forall (fun g => g <> []) groups
    /\ List.concat groups = lines
    /\ (0 < L_max -> Forall (okGroup S_max L_max) groups).
Proof.
  unfold splitIntoChunks.
  assert (Hinit : 0 < L_max ->
            Forall (okGroup S_max L_max) []
            /\ (currentChunk (mkSplit [] [] 0 0) = []
                \/ okGroup S_max L_max (currentChunk (mkSplit [] [] 0 0)))).
  { intros _. split; [constructor|left; reflexivity]. }
  destruct (@splitLoop_groups S_max L_max lines 0 (mkSplit [] [] 0 0) []
              eq_refl (Forall_nil _) eq_refl eq_refl eq_refl Hinit)
    as [groups [H1 [H2 [H3 H4]]]].
  exists groups. simpl in H1, H3. repeat split; assumption.
Qed.

(* ================================================================== *)
(** * Chunk splitter: contents and line ranges *)
(* ================================================================== *)

Lemma chunksOf_content (first : Z) (gs : list (list jsstring)) :
  map content (chunksOf first gs) = map (join [LF]) gs.
Proof.
  revert first; induction gs as [|g gs IH]; intros first; simpl;
    [reflexivity|]. rewrite IH. reflexivity.
Qed.

Lemma chunksOf_bounds (gs : list (list jsstring)) :
  forall first c,
    Forall (fun g => g <> []) gs ->
    In c (chunksOf first gs) ->
    first <= start (lineRange c)
    /\ start (lineRange c) <= end_ (lineRange c)
    /\ end_ (lineRange c) < first + Z.of_nat (List.length (List.concat gs)).
Proof.
  induction gs as [|g gs IH]; intros first c Hne Hin; [destruct Hin|].
  inversion Hne as [|? ? Hg Hgs]; subst.
  assert (0 < Z.of_nat (List.length g)) by (destruct g; [congruence|simpl; lia]).
  simpl List.concat. rewrite length_app, Nat2Z.inj_add.
  destruct Hin as [<-|Hin]; simpl.
  - lia.
  - specialize (IH _ _ Hgs Hin). lia.
Qed.

Lemma chunksOf_adjacent (gs : list (list jsstring)) :
  forall first i a b,
    nth_error (chunksOf first gs) i = Some a ->
    nth_error (chunksOf first gs) (S i) = Some b ->
    start (lineRange b) = end_ (lineRange a) + 1.
Proof.
  induction gs as [|g gs IH]; intros first i a b Ha Hb.
  - destruct i; discriminate.
  - destruct i as [|i].
    + simpl in Ha. injection Ha as <-. simpl in Hb.
      destruct gs as [|g2 gs]; [discriminate|].
      simpl in Hb. injection Hb as <-. simpl. lia.
    + simpl in Ha, Hb. eapply IH; eassumption.
Qed.

Lemma chunksOf_cover (gs : list (list jsstring)) :
  forall first n,
    Forall (fun g => g <> []) gs ->
    first <= n < first + Z.of_nat (List.length (List.concat gs)) ->
    exists i c,
      nth_error (chunksOf first gs) i = Some c /\ covers c n
      /\ forall j d, nth_error (chunksOf first gs) j = Some d ->
                     covers d n -> j = i.
Proof.
  induction gs as [|g gs IH]; intros first n Hne Hn.
  - simpl in Hn. lia.
  - inversion Hne as [|? ? Hg Hgs]; subst.
    simpl List.concat in Hn. rewrite length_app, Nat2Z.inj_add in Hn.
    destruct (Z_lt_ge_dec n (first + Z.of_nat (List.length g))) as [Hlt|Hge].
    + exists 0%nat. eexists. split; [reflexivity|]. split.
      * unfold covers; simpl. lia.
      * intros [|j] d Hd Hcov; [reflexivity|]. exfalso.
        simpl in Hd. apply nth_error_In in Hd.
        apply (chunksOf_bounds _ _ Hgs) in Hd. unfold covers in Hcov. lia.
    + destruct (IH (first + Z.of_nat (List.length g)) n Hgs) as [i [c [Hi [Hc Hu]]]];
        [lia|].
      exists (S i), c. split; [exact Hi|]. split; [exact Hc|].
      intros [|j] d Hd Hcov.
      * exfalso. simpl in Hd. injection Hd as <-.
        unfold covers in Hcov; simpl in Hcov. lia.
      * f_equal. eapply Hu; eassumption.
Qed.

(** C1.  Splitting a text into lines, chunking them and joining the
    chunk contents with line feed gives the text back; the line ranges
    start at line 1, each next range starts one past the previous end,
    the last range ends at the number of lines, no range is empty, and
    every line lies in the range of exactly one chunk. *)
Theorem chunking_exact (S_max L_max : Z) (text : jsstring) :
  let lines := split LF text in
  let cs := splitIntoChunks S_max L_max lines in
  join [LF] (map content cs) = text
  /\ (exists c cs', cs = c :: cs' /\ start (lineRange c) = 1)
  /\ (forall i a b,
        nth_error cs i = Some a -> nth_error cs (S i) = Some b ->
        start (lineRange b) = end_ (lineRange a) + 1)
  /\ (exists cs' c,
        cs = cs' ++ [c] /\ end_ (lineRange c) = Z.of_nat (List.length lines))
  /\ (forall c, In c cs -> start (lineRange c) <= end_ (lineRange c))
  /\ (forall n, 1 <= n <= Z.of_nat (List.length lines) ->
        exists i c,
          nth_error cs i = Some c /\ covers c n
          /\ forall j d, nth_error cs j = Some d -> covers d n -> j = i).
Proof.
  intros lines cs.
  destruct (splitIntoChunks_groups S_max L_max lines)
    as [groups [Hcs [Hne [Hcat _]]]].
  fold cs in Hcs. rewrite Hcs.
  assert (Hlines : lines <> []) by apply split_nonempty.
  split; [|split; [|split; [|split; [|split]]]].
  - rewrite chunksOf_content, join_groups, Hcat by assumption.
    apply join_split.
  - destruct groups as [|g gs]; [simpl in Hcat; congruence|].
    simpl. eexists; eexists; split; reflexivity.
  - apply chunksOf_adjacent.
  - destruct (exists_last (l := groups)) as [gs [g Hg]].
    { intros E; subst groups; simpl in Hcat; congruence. }
    subst groups. rewrite chunksOf_app. eexists; eexists; split; [reflexivity|].
    cbn [end_ lineRange].
    rewrite <- Hcat, concat_app, length_app, Nat2Z.inj_add.
    cbn [List.concat]. rewrite app_nil_r. lia.
  - intros c Hin. apply (chunksOf_bounds _ _ Hne) in Hin. lia.
  - intros n Hn. apply chunksOf_cover; [assumption|]. rewrite Hcat. lia.
Qed.

(** C4 as the code has it.  With no lines at all the splitter emits no
    chunk; the empty text, however, splits into one empty line, and the
    splitter emits one chunk for it, with empty content and the range
    1 to 1. *)
Theorem empty_input_chunks (S_max L_max : Z) :
  splitIntoChunks S_max L_max [] = []
  /\ splitIntoChunks S_max L_max (split LF (str "")) =
       [mkChunk (str "") (mkLineRange 1 1)].
Proof.
  split; [reflexivity|].
  unfold splitIntoChunks, splitFinish. simpl.
  unfold splitStep. simpl. rewrite andb_false_r. reflexivity.
Qed.

(** C4 as stated fails: already at the default thresholds the empty
    text gives a chunk. *)
Lemma empty_text_one_chunk :
  ~ (forall S_max L_max : Z, 0 < S_max -> 0 < L_max ->
       splitIntoChunks S_max L_max (split LF (str "")) = []).
Proof.
  intros H.
  specialize (H CHUNK_SIZE MAX_LINES_PER_CHUNK eq_refl eq_refl).
  vm_compute in H. discriminate H.
Qed.

(** C7.  With a positive line threshold, a chunk of the split of a text
    holds at most [L_max] lines, as many as its range spans, and its
    lines count at most [S_max] code units (each line as its length
    plus one), unless the chunk is a single line that alone exceeds
    [S_max]. *)
Theorem chunking_bound (S_max L_max : Z) (text : jsstring)
  (c : ChunkDescriptor) :
  0 < S_max -> 0 < L_max ->
  In c (splitIntoChunks S_max L_max (split LF text)) ->
  let ls := split LF (content c) in
  Z.of_nat (List.length ls) <= L_max
  /\ rangeLines c = Z.of_nat (List.length ls)
  /\ (groupSize ls <= S_max
      \/ exists l, ls = [l] /\ S_max < lineSize l).
Proof.
  intros _ HL Hin ls.
  destruct (splitIntoChunks_groups S_max L_max (split LF text))
    as [groups [Hcs [Hne [Hcat Hok]]]].
  specialize (Hok HL). rewrite Hcs in Hin. clear Hcs.
  assert (Hlf : Forall (fun l => ~ In LF l) (List.concat groups))
    by (rewrite Hcat; apply split_no_sep).
  clear Hcat. revert Hin. generalize 1 as first.
  induction groups as [|g gs IH]; intros first Hin; [destruct Hin|].
  inversion Hne as [|? ? Hg Hgs]; subst.
  inversion Hok as [|? ? Og Ogs]; subst.
  simpl in Hlf. apply Forall_app in Hlf. destruct Hlf as [Lg Lgs].
  destruct Hin as [<-|Hin]; [|eapply IH; eassumption].
  subst ls. unfold rangeLines. simpl.
  rewrite split_join by assumption.
  destruct Og as [Olen Osz]. split; [exact Olen|]. split; [lia|].
  destruct (Z_le_gt_dec (groupSize g) S_max) as [Hle|Hgt]; [left; exact Hle|].
  destruct Osz as [Hle|[l ->]]; [lia|].
  right. exists l. split; [reflexivity|]. simpl in Hgt. lia.
Qed.

(** C7 at a concrete input: the thresholds 10 and 2 and a text whose
    fourth line alone is longer than 10. *)
Lemma chunking_bound_witness :
  let c := mkChunk (str "gggggggggggg") (mkLineRange 3 3) in
  let ls := split LF (content c) in
  Z.of_nat (List.length ls) <= 2
  /\ rangeLines c = Z.of_nat (List.length ls)
  /\ (groupSize ls <= 10 \/ exists l, ls = [l] /\ 10 < lineSize l).
Proof.
  apply (@chunking_bound 10 2 (Js.str "abc
de
gggggggggggg
h")).
  - reflexivity.
  - reflexivity.
  - vm_compute. right. left. reflexivity.
Defined.

(* ================================================================== *)
(** * Maps in insertion order *)
(* ================================================================== *)

Lemma get_In {V} (k : jsstring) (mp : StrMap.t V) (v : V) :
  StrMap.get k mp = Some v -> In (k, v) mp.
Proof.
  induction mp as [|[k' v'] mp IH]; simpl; [discriminate|].
  destruct (str_eqb k' k) eqn:E.
  - apply str_eqb_eq in E. intros H; injection H as <-. left; congruence.
  - intros H. right. apply IH; exact H.
Qed.

Lemma get_None {V} (k : jsstring) (mp : StrMap.t V) :
  StrMap.get k mp = None <-> ~ In k (map fst mp).
Proof.
  induction mp as [|[k' v'] mp IH]; simpl.
  - split; [intros _ []|reflexivity].
  - destruct (str_eqb k' k) eqn:E.
    + apply str_eqb_eq in E. split; [discriminate|]. intros H; exfalso; apply H; left; exact E.
    + apply str_eqb_neq in E. rewrite IH. split.
      * intros H [K|K]; [congruence|contradiction].
      * intros H K; apply H; right; exact K.
Qed.

Lemma set_In {V} (k k0 : jsstring) (v v0 : V) (mp : StrMap.t V) :
  In (k, v) (StrMap.set k0 v0 mp) -> (k = k0 /\ v = v0) \/ In (k, v) mp.
Proof.
  induction mp as [|[k' v'] mp IH]; simpl.
  - intros [H|[]]. injection H as <- <-. left; split; reflexivity.
  - destruct (str_eqb k' k0) eqn:E.
    + apply str_eqb_eq in E. intros [H|H].
      * injection H as <- <-. left; split; [exact E|reflexivity].
      * right; right; exact H.
    + intros [H|H]; [right; left; exact H|].
      destruct (IH H) as [K|K]; [left; exact K|right; right; exact K].
Qed.

Lemma set_keys {V} (k0 : jsstring) (v0 : V) (mp : StrMap.t V) :
  map fst (StrMap.set k0 v0 mp) =
  if StrMap.has k0 mp then map fst mp else map fst mp ++ [k0].
Proof.
  unfold StrMap.has. induction mp as [|[k' v'] mp IH]; simpl; [reflexivity|].
  destruct (str_eqb k' k0) eqn:E; simpl; [reflexivity|].
  rewrite IH. destruct (StrMap.get k0 mp); reflexivity.
Qed.

Lemma set_keys_NoDup {V} (k0 : jsstring) (v0 : V) (mp : StrMap.t V) :
  NoDup (map fst mp) -> NoDup (map fst (StrMap.set k0 v0 mp)).
Proof.
  intros H. rewrite set_keys. unfold StrMap.has.
  destruct (StrMap.get k0 mp) eqn:E; [exact H|].
  apply get_None in E.
  apply NoDup_rev in H. rewrite <- (rev_involutive (map fst mp ++ [k0])).
  apply NoDup_rev. rewrite rev_app_distr. simpl. constructor; [|exact H].
  rewrite <- in_rev. exact E.
Qed.

Lemma get_set_same {V} (k : jsstring) (v : V) (mp : StrMap.t V) :
  StrMap.get k (StrMap.set k v mp) = Some v.
Proof.
  induction mp as [|[k' v'] mp IH]; simpl.
  - rewrite str_eqb_refl. reflexivity.
  - destruct (str_eqb k' k) eqn:E; simpl; rewrite E; [reflexivity|exact IH].
Qed.

Lemma get_set_other {V} (k k0 : jsstring) (v : V) (mp : StrMap.t V) :
  k <> k0 -> StrMap.get k (StrMap.set k0 v mp) = StrMap.get k mp.
Proof.
  intros N. induction mp as [|[k' v'] mp IH]; simpl.
  - apply str_eqb_neq in N. destruct (str_eqb k0 k) eqn:E; [|reflexivity].
    apply str_eqb_eq in E. apply str_eqb_neq in N. congruence.
  - destruct (str_eqb k' k0) eqn:E; simpl.
    + apply str_eqb_eq in E. subst k'.
      destruct (str_eqb k0 k) eqn:E2; [|reflexivity].
      apply str_eqb_eq in E2. congruence.
    + rewrite IH. reflexivity.
Qed.

(* ================================================================== *)
(** * Similarity fallback *)
(* ================================================================== *)

Section SimilarityFacts.

Variable toLowerCase : jsstring -> jsstring.

(** The three counters are independent folds over the files' lists. *)
Lemma countStep_split (frs : list FileAnalysisResult) :
  forall pc ac rc,
    fold_left (countStep toLowerCase) frs (pc, ac, rc) =
    (fold_left (bump toLowerCase) (flat_map (fun fr => patterns
        (analysis fr)) frs) pc,
     fold_left (bump toLowerCase) (flat_map (fun fr => anomalies
         (analysis fr)) frs) ac,
     fold_left (bump toLowerCase) (flat_map (fun fr => rootCauses
         (analysis fr)) frs) rc).
Proof.
  induction frs as [|fr frs IH]; intros pc ac rc; simpl; [reflexivity|].
  rewrite IH, !fold_left_app. reflexivity.
Qed.

(** Every key of a counter is the lower-cased form of a counted item. *)
Lemma bump_keys (its : list jsstring) :
  forall counts k,
    In k (map fst (fold_left (bump toLowerCase) its counts)) ->
    In k (map fst counts) \/ exists item, In item its /\ k = toLowerCase item.
Proof.
  induction its as [|it its IH]; intros counts k Hk; simpl in *; [left; exact Hk|].
  destruct (IH _ _ Hk) as [H|[item [H1 H2]]].
  - unfold bump in H. rewrite set_keys in H.
    destruct (StrMap.has (toLowerCase it) counts); [left; exact H|].
    apply in_app_or in H. destruct H as [H|[<-|[]]]; [left; exact H|].
    right. exists it. split; [left; reflexivity|reflexivity].
  - right. exists item. split; [right; exact H1|exact H2].
Qed.

Lemma shared_keys (counts : StrMap.t Z) (s : jsstring) :
  In s (shared counts) -> In s (map fst counts).
Proof.
  unfold shared. intros H. apply in_map_iff in H. destruct H as [e [<- He]].
  apply filter_In in He. apply in_map. apply He.
Qed.

Lemma shared_from_items (its : list jsstring) (s : jsstring) :
  In s (shared (fold_left (bump toLowerCase) its [])) ->
  exists item, In item its /\ s = toLowerCase item.
Proof.
  intros H. apply shared_keys, bump_keys in H.
  destruct H as [[]|[item [H1 ->]]].
  exists item. split; [exact H1|reflexivity].
Qed.

(** C10.  Every string the fallback returns as shared is the
    lower-cased form of an item of the corresponding list of some input
    file: the key that [toLowerCase] gives, not the item as written.
    So it holds no upper-case character, whichever the characters are
    that lower-casing does away with: a character that [toLowerCase]
    never returns is not in it.  This is proved for whatever the case
    mapping is. *)
Theorem shared_strings_lowercased (fileResults : list FileAnalysisResult)
  (s : jsstring) :
  let r := findSimilaritiesManually toLowerCase fileResults in
  let lowered (sel : LogAnalysisResult -> list jsstring) :=
    (exists fr item, In fr fileResults /\ In item (sel (analysis fr))
                     /\ s = toLowerCase item)
    /\ (forall upper : char -> bool,
          (forall x c, In c (toLowerCase x) -> upper c = false) ->
          forall c, In c s -> upper c = false) in
  (In s (sharedPatterns r) -> lowered patterns)
  /\ (In s (sharedAnomalies r) -> lowered anomalies)
  /\ (In s (sharedRootCauses r) -> lowered rootCauses).
Proof.
  unfold findSimilaritiesManually. rewrite countStep_split. cbv zeta.
  cbn [sharedPatterns sharedAnomalies sharedRootCauses].
  split; [|split]; intros H; apply shared_from_items in H;
    destruct H as [item [Hi ->]];
    (split; [|intros upper Hup c Hc; apply (Hup item c Hc)]);
    apply in_flat_map in Hi; destruct Hi as [fr [Hfr Hi]];
    exists fr, item; repeat split; assumption.
Qed.

Lemma In_get {V} (k : jsstring) (v : V) (mp : StrMap.t V) :
  NoDup (map fst mp) -> In (k, v) mp -> StrMap.get k mp = Some v.
Proof.
  induction mp as [|[k' v'] mp IH]; simpl; intros ND H; [destruct H|].
  inversion ND as [|? ? Hn ND']; subst.
  destruct H as [H|H].
  - injection H as -> ->. rewrite str_eqb_refl. reflexivity.
  - destruct (str_eqb k' k) eqn:E; [|apply IH; assumption].
    apply str_eqb_eq in E. subst k'. exfalso. apply Hn.
    change k with (fst (k, v)). apply in_map. exact H.
Qed.

Lemma getZ_bump (counts : StrMap.t Z) (it k : jsstring) :
  getZ k (bump toLowerCase counts it) =
  getZ k counts + (if str_eqb (toLowerCase it) k then 1 else 0).
Proof.
  unfold getZ, bump. destruct (str_eqb (toLowerCase it) k) eqn:E.
  - apply str_eqb_eq in E. subst k. rewrite get_set_same.
    destruct (StrMap.get (toLowerCase it) counts); lia.
  - apply str_eqb_neq in E. rewrite get_set_other by congruence. lia.
Qed.

Lemma fold_bump_count (its : list jsstring) :
  forall counts k,
    getZ k (fold_left (bump toLowerCase) its counts)
        = getZ k counts + (countItems toLowerCase) k its.
Proof.
  unfold countItems.
  induction its as [|it its IH]; intros counts k; simpl; [lia|].
  rewrite IH, getZ_bump.
  destruct (str_eqb (toLowerCase it) k); simpl List.length; lia.
Qed.

Lemma fold_bump_NoDup (its : list jsstring) :
  forall counts,
    NoDup (map fst counts) -> NoDup (map fst (fold_left
        (bump toLowerCase) its counts)).
Proof.
  induction its as [|it its IH]; intros counts H; simpl; [exact H|].
  apply IH. apply set_keys_NoDup. exact H.
Qed.

Lemma fold_bump_positive (its : list jsstring) :
  forall counts,
    Forall (fun e => 0 < snd e) counts ->
    Forall (fun e => 0 < snd e) (fold_left (bump toLowerCase) its counts).
Proof.
  induction its as [|it its IH]; intros counts H; simpl; [exact H|].
  apply IH. apply Forall_forall. intros [k v] Hin.
  apply set_In in Hin. destruct Hin as [[_ ->]|Hin].
  - destruct (StrMap.get (toLowerCase it) counts) as [n|] eqn:E; [|simpl; lia].
    apply get_In in E. rewrite Forall_forall in H. specialize (H _ E). simpl in *. lia.
  - rewrite Forall_forall in H. apply (H _ Hin).
Qed.

(** The fallback keeps a key exactly when the items counted for it, in
    all files together and with repetitions, number at least two. *)
Lemma shared_iff_counted_twice (its : list jsstring) (s : jsstring) :
  In s (shared (fold_left (bump toLowerCase) its []))
      <-> 2 <= countItems toLowerCase s its.
Proof.
  pose proof (fold_bump_count its [] s) as Hc.
  pose proof (@fold_bump_NoDup its [] (NoDup_nil _)) as Hn.
  unfold getZ at 2 in Hc. simpl in Hc. rewrite <- Hc. clear Hc.
  unfold shared, getZ. split.
  - intros H. apply in_map_iff in H. destruct H as [[k v] [<- H]].
    apply filter_In in H. destruct H as [H1 H2]. simpl in *.
    rewrite (@In_get _ _ _ _ Hn H1). unfold threshold in H2.
    rewrite Z.geb_leb in H2. apply Z.leb_le in H2. exact H2.
  - intros H.
    destruct (StrMap.get s (fold_left (bump toLowerCase) its []))
      as [n|] eqn:E; [|lia].
    apply get_In in E. apply in_map_iff. exists (s, n). split; [reflexivity|].
    apply filter_In. split; [exact E|]. simpl. unfold threshold.
    rewrite Z.geb_leb. apply Z.leb_le. exact H.
Qed.

(** What the fallback computes: a shared list holds the keys counted at
    least twice over all the files' lists taken together, and there are
    never correlations. *)
Theorem fallback_counts_occurrences (fileResults : list FileAnalysisResult)
  (s : jsstring) :
  let r := findSimilaritiesManually toLowerCase fileResults in
  (In s (sharedPatterns r) <->
     2 <= countItems toLowerCase s (flat_map (fun fr => patterns
         (analysis fr)) fileResults))
  /\ (In s (sharedAnomalies r) <->
     2 <= countItems toLowerCase s (flat_map (fun fr => anomalies
         (analysis fr)) fileResults))
  /\ (In s (sharedRootCauses r) <->
     2 <= countItems toLowerCase s (flat_map (fun fr => rootCauses
         (analysis fr)) fileResults))
  /\ correlations r = [].
Proof.
  unfold findSimilaritiesManually. rewrite countStep_split. cbv zeta.
  cbn [sharedPatterns sharedAnomalies sharedRootCauses correlations].
  repeat split; try apply shared_iff_counted_twice.
Qed.

End SimilarityFacts.

(** Mapping the ASCII letters leaves no letter A to Z. *)
Lemma lowerChar_not_upper (c : char) : isUpper (lowerChar c) = false.
Proof.
  unfold lowerChar. destruct (isUpper c) eqn:E; [|exact E].
  unfold isUpper in *. apply andb_true_iff in E. destruct E as [E1 E2].
  apply N.leb_le in E1. apply N.leb_le in E2.
  apply andb_false_iff. right. apply N.leb_gt. lia.
Qed.

Lemma toLowerCase_not_upper (x : jsstring) (c : char) :
  In c (toLowerCase x) -> isUpper c = false.
Proof.
  unfold toLowerCase. intros H. apply in_map_iff in H.
  destruct H as [d [<- _]]. apply lowerChar_not_upper.
Qed.

(** C10 at a concrete input: both files write the pattern with
    upper-case letters, and the shared string is the lower-cased key,
    equal to neither original, with no letter from A to Z in it. *)
Lemma shared_strings_lowercased_witness :
  let f1 := mkFileResult (str "a.log") 10
              (mkResult [str "Timeout On DB"] [] [] (str "")) in
  let f2 := mkFileResult (str "b.log") 10
              (mkResult [str "TIMEOUT on DB"] [] [] (str "")) in
  let s := str "timeout on db" in
  sharedPatterns (findSimilaritiesManually toLowerCase [f1; f2]) = [s]
  /\ (exists fr item, In fr [f1; f2] /\ In item (patterns (analysis fr))
                      /\ s = toLowerCase item)
  /\ (forall c, In c s -> isUpper c = false).
Proof.
  intros f1 f2 s. split; [reflexivity|].
  destruct (proj1 (@shared_strings_lowercased toLowerCase [f1; f2] s))
    as [H1 H2]; [left; reflexivity|].
  split; [exact H1|apply (H2 isUpper toLowerCase_not_upper)].
Defined.

(** C6 on an item repeated within one file.  The first file lists the
    same pattern twice, in two spellings, and the second file lists
    nothing: the pattern occurs in one file only, and the fallback
    still reports it as shared. *)
Theorem fallback_repeated_item_in_one_file :
  let f1 := mkFileResult (str "a.log") 10
              (mkResult [str "Timeout"; str "timeout"] [] [] (str "")) in
  let f2 := mkFileResult (str "b.log") 10 (mkResult [] [] [] (str "")) in
  filesListing toLowerCase patterns (str "timeout") [f1; f2] = 1
  /\ sharedPatterns (findSimilaritiesManually toLowerCase [f1; f2])
     = [str "timeout"].
Proof. split; reflexivity. Qed.

(* ================================================================== *)
(** * The stable sort *)
(* ================================================================== *)

Section SortFacts.

Variable A : Type.
Variable cmp : A -> A -> Z.

Hypothesis cmp_total : forall a b, cmp a b <= 0 \/ cmp b a <= 0.
Hypothesis cmp_trans :
  forall a b c, cmp a b <= 0 -> cmp b c <= 0 -> cmp a c <= 0.

Lemma insertSorted_perm (x : A) (l : list A) :
  Permutation (x :: l) (insertSorted cmp x l).
Proof.
  induction l as [|y l IH]; simpl; [reflexivity|].
  destruct (cmp x y <=? 0); [reflexivity|].
  rewrite perm_swap. apply perm_skip. exact IH.
Qed.

Lemma sortBy_perm (l : list A) : Permutation l (sortBy cmp l).
Proof.
  induction l as [|x l IH]; simpl; [reflexivity|].
  rewrite <- insertSorted_perm. apply perm_skip. exact IH.
Qed.

Lemma insertSorted_sorted (x : A) (l : list A) :
  StronglySorted (cmpLe cmp) l -> StronglySorted (cmpLe cmp) (insertSorted cmp x l).
Proof.
  induction l as [|y l IH]; intros H; simpl.
  - constructor; constructor.
  - inversion H as [|? ? Hl Hy]; subst.
    destruct (cmp x y <=? 0) eqn:E.
    + apply Z.leb_le in E. constructor; [exact H|].
      constructor; [exact E|].
      eapply Forall_impl; [|exact Hy]. intros z Hz. eapply cmp_trans; eassumption.
    + apply Z.leb_gt in E. constructor; [apply IH; exact Hl|].
      assert (Hyx : cmpLe cmp y x) by (destruct (cmp_total x y); [lia|assumption]).
      eapply Permutation_Forall; [apply insertSorted_perm|].
      constructor; assumption.
Qed.

Lemma sortBy_sorted (l : list A) : StronglySorted (cmpLe cmp) (sortBy cmp l).
Proof.
  induction l as [|x l IH]; simpl; [constructor|].
  apply insertSorted_sorted. exact IH.
Qed.

End SortFacts.

Lemma firstn_In {A} (n : nat) (l : list A) (x : A) :
  In x (firstn n l) -> In x l.
Proof.
  revert l; induction n as [|n IH]; intros [|y l]; simpl; try tauto.
  intros [H|H]; [left; exact H|right; apply IH; exact H].
Qed.

Lemma StronglySorted_firstn {A} (R : A -> A -> Prop) (n : nat) (l : list A) :
  StronglySorted R l -> StronglySorted R (firstn n l).
Proof.
  revert l; induction n as [|n IH]; intros l H; [constructor|].
  destruct l as [|x l]; [constructor|].
  inversion H as [|? ? Hl Hx]; subst. simpl. constructor; [apply IH; exact Hl|].
  apply Forall_forall. intros y Hy. rewrite Forall_forall in Hx.
  apply Hx. eapply firstn_In. exact Hy.
Qed.

(* ================================================================== *)
(** * Exact-line matcher: order and size of the result *)
(* ================================================================== *)

Section LineMatcherFacts.

Variable toLowerCase : jsstring -> jsstring.

Lemma categoryOrder_inj (c d : Category) :
  categoryOrder c = categoryOrder d -> c = d.
Proof. destruct c, d; simpl; intros H; try reflexivity; discriminate H. Qed.

(** The priorities are those of the list error, warning, info, debug,
    other. *)
Lemma categoryOrder_priority :
  map categoryOrder [error; warning; info; debug; other] = [0; 1; 2; 3; 4].
Proof. reflexivity. Qed.

Lemma compareMatches_le (a b : ExactLineMatch) :
  compareMatches a b <= 0 <-> matchBefore a b.
Proof.
  unfold compareMatches, matchBefore.
  destruct (categoryOrder (category a) - categoryOrder (category b) =? 0) eqn:E;
    simpl.
  - apply Z.eqb_eq in E. split.
    + intros H. right. split; [apply categoryOrder_inj; lia|lia].
    + intros [H|[_ H]]; lia.
  - apply Z.eqb_neq in E. split.
    + intros H. left. lia.
    + intros [H|[H _]]; [lia|]. rewrite H in E. lia.
Qed.

Lemma compareMatches_total (a b : ExactLineMatch) :
  compareMatches a b <= 0 \/ compareMatches b a <= 0.
Proof.
  rewrite !compareMatches_le. unfold matchBefore.
  destruct (Z.lt_trichotomy (categoryOrder (category a))
              (categoryOrder (category b))) as [H|[H|H]].
  - left; left; exact H.
  - apply categoryOrder_inj in H.
    destruct (Z.le_ge_cases (totalCount a) (totalCount b)).
    + right; right; split; [symmetry; exact H|assumption].
    + left; right; split; assumption.
  - right; left; exact H.
Qed.

Lemma compareMatches_trans (a b c : ExactLineMatch) :
  compareMatches a b <= 0 -> compareMatches b c <= 0 ->
  compareMatches a c <= 0.
Proof.
  rewrite !compareMatches_le. unfold matchBefore.
  intros [H1|[H1 H1']] [H2|[H2 H2']].
  - left; lia.
  - left; rewrite <- H2; exact H1.
  - left; rewrite H1; exact H2.
  - right; split; [congruence|lia].
Qed.

Lemma sortedMatches_sorted (files : list FileContent) :
  StronglySorted matchBefore (sortedMatches toLowerCase files).
Proof.
  unfold sortedMatches.
  pose proof (@sortBy_sorted _ compareMatches compareMatches_total
                compareMatches_trans (collectMatches
                    (buildLineMap toLowerCase files))) as H.
  induction H as [|x l Hl IH Hx]; constructor; [exact IH|].
  eapply Forall_impl; [|exact Hx]. intros y Hy. apply compareMatches_le. exact Hy.
Qed.

(** C9.  The returned matches are in order: of any two, the earlier has
    the earlier category (error, warning, info, debug, other), or the
    same category and a total count at least as large; and there are at
    most 50 of them. *)
Theorem matches_sorted_and_capped (files : list FileContent) :
  StronglySorted matchBefore (findExactLineMatches toLowerCase files)
  /\ Z.of_nat (List.length (findExactLineMatches toLowerCase files)) <= 50.
Proof.
  unfold findExactLineMatches.
  destruct (Z.of_nat (List.length files) <? 2); [split; [constructor|simpl; lia]|].
  cbv zeta.
  destruct (Z.of_nat (List.length (sortedMatches toLowerCase files)) <? 2);
    [split; [constructor|simpl; lia]|].
  split.
  - apply StronglySorted_firstn, sortedMatches_sorted.
  - pose proof (firstn_le_length 50 (sortedMatches toLowerCase files)). lia.
Qed.

(* ================================================================== *)
(** * Exact-line matcher: what the line map records *)
(* ================================================================== *)

Section LineMapInvariant.

(** [P f k]: the file name [f] may be recorded under the key [k]. *)
Variable P : jsstring -> jsstring -> Prop.

Lemma record_ok (fname : jsstring) (n : Z) (o k : jsstring)
  (lm : StrMap.t Entry) :
  lineMapOk toLowerCase P lm -> k = normalizeLine toLowerCase o -> P fname k ->
  lineMapOk toLowerCase P (record toLowerCase fname n o k lm).
Proof.
  intros [Hnd Hall] Hk HP. unfold record.
  set (lm1 := if negb (StrMap.has k lm)
              then StrMap.set k (mkEntry o []
                  (categorize toLowerCase o)) lm else lm).
  assert (H1 : lineMapOk toLowerCase P lm1).
  { subst lm1. destruct (negb (StrMap.has k lm)); [|split; assumption].
    split; [apply set_keys_NoDup; exact Hnd|].
    intros k' e' Hin. apply set_In in Hin. destruct Hin as [[-> ->]|Hin].
    - split; [exact Hk|]. split; [constructor|]. intros f nums [].
    - apply Hall; exact Hin. }
  destruct H1 as [Hnd1 Hall1].
  destruct (StrMap.get k lm1) as [entry|] eqn:Eg; [|split; assumption].
  apply get_In in Eg. destruct (Hall1 _ _ Eg) as [Ek [Eo EP]].
  split; [apply set_keys_NoDup; exact Hnd1|].
  intros k' e' Hin. apply set_In in Hin.
  destruct Hin as [[-> ->]|Hin]; [|apply Hall1; exact Hin].
  set (occ1 := if negb (StrMap.has fname (entryOccurrences entry))
               then StrMap.set fname [] (entryOccurrences entry)
               else entryOccurrences entry).
  assert (Hocc1 : NoDup (map fst occ1)
                  /\ forall f nums, In (f, nums) occ1 -> P f k).
  { subst occ1. destruct (negb (StrMap.has fname (entryOccurrences entry)));
      [|split; assumption].
    split; [apply set_keys_NoDup; exact Eo|].
    intros f nums Hin. apply set_In in Hin.
    destruct Hin as [[-> _]|Hin]; [exact HP|eapply EP; exact Hin]. }
  destruct Hocc1 as [Ho1 HP1].
  split; [exact Ek|]. cbn [entryOccurrences].
  destruct (StrMap.get fname occ1) as [nums0|]; [|split; assumption].
  split; [apply set_keys_NoDup; exact Ho1|].
  intros f nums Hin. apply set_In in Hin.
  destruct Hin as [[-> _]|Hin]; [exact HP|eapply HP1; exact Hin].
Qed.

Lemma lineKey_normalized (l o k : jsstring) :
  lineKey toLowerCase l = Some (o, k) -> k = normalizeLine toLowerCase o.
Proof.
  unfold lineKey.
  destruct ((len (trim l) <? 10) || test false allDigitsRe (trim l));
    [discriminate|].
  destruct (len (normalizeLine toLowerCase (trim l)) <? 10); [discriminate|].
  intros H. injection H as <- <-. reflexivity.
Qed.

Lemma scanLines_ok (fname : jsstring) (ls : list jsstring) :
  forall n lm,
    lineMapOk toLowerCase P lm ->
    (forall l o k, In l ls -> lineKey toLowerCase l = Some (o, k)
        -> P fname k) ->
    lineMapOk toLowerCase P (scanLines toLowerCase fname ls n lm).
Proof.
  induction ls as [|l ls IH]; intros n lm Hlm HP; simpl; [exact Hlm|].
  apply IH; [|intros l' o k Hin; apply HP; right; exact Hin].
  destruct (lineKey toLowerCase l) as [[o k]|] eqn:E; [|exact Hlm].
  apply record_ok; [exact Hlm|eapply lineKey_normalized; exact E|].
  eapply HP; [left; reflexivity|exact E].
Qed.

End LineMapInvariant.

Lemma buildLineMap_ok (files : list FileContent) :
  lineMapOk toLowerCase (recordable toLowerCase files)
      (buildLineMap toLowerCase files).
Proof.
  unfold buildLineMap.
  assert (G : forall fs lm,
             incl fs files -> lineMapOk toLowerCase
                 (recordable toLowerCase files) lm ->
             lineMapOk toLowerCase (recordable toLowerCase files) (fold_left
                 (scanFile toLowerCase) fs lm)).
  { induction fs as [|file fs IH]; intros lm Hin Hlm; simpl; [exact Hlm|].
    apply IH; [intros x Hx; apply Hin; right; exact Hx|].
    unfold scanFile. apply scanLines_ok; [exact Hlm|].
    intros l o k Hl Hk. exists file. split; [apply Hin; left; reflexivity|].
    split; [reflexivity|]. exists l, o. split; assumption. }
  apply G; [apply incl_refl|]. split; [constructor|intros k e []].
Qed.

Lemma collectMatches_In (lm : StrMap.t Entry) (mt : ExactLineMatch) :
  In mt (collectMatches lm) ->
  exists k e, In (k, e) lm /\ mt = toMatch e
              /\ 2 <= Z.of_nat (List.length (entryOccurrences e)).
Proof.
  unfold collectMatches. intros H. apply in_map_iff in H.
  destruct H as [e [<- H]]. apply filter_In in H. destruct H as [H1 H2].
  apply in_map_iff in H1. destruct H1 as [[k e'] [<- H1]].
  exists k, e'. split; [exact H1|]. split; [reflexivity|].
  simpl in H2. rewrite Z.geb_leb in H2. apply Z.leb_le in H2. exact H2.
Qed.

Lemma collectMatches_keys (P : jsstring -> jsstring -> Prop)
  (lm : StrMap.t Entry) :
  lineMapOk toLowerCase P lm -> NoDup (map (keyOf toLowerCase)
      (collectMatches lm)).
Proof.
  unfold collectMatches. induction lm as [|[k e] lm IH]; intros [Hnd Hall];
    [constructor|].
  simpl in Hnd. inversion Hnd as [|? ? Hk Hnd']; subst.
  assert (Hlm : lineMapOk toLowerCase P lm)
    by (split; [exact Hnd'|intros k' e' Hin; apply Hall; right; exact Hin]).
  specialize (IH Hlm). simpl.
  destruct (Z.of_nat (List.length (entryOccurrences e)) >=? 2); [|exact IH].
  simpl. constructor; [|exact IH].
  intros Hin. apply in_map_iff in Hin. destruct Hin as [mt [Hmt Hin]].
  apply collectMatches_In in Hin. destruct Hin as [k' [e' [Hin [-> _]]]].
  destruct (Hall k e (or_introl eq_refl)) as [Ek _].
  destruct (Hall k' e' (or_intror Hin)) as [Ek' _].
  unfold keyOf in Hmt. simpl in Hmt. apply Hk.
  replace k with k' by congruence.
  change k' with (fst (k', e')). apply in_map. exact Hin.
Qed.

Lemma NoDup_firstn {A} (n : nat) (l : list A) :
  NoDup l -> NoDup (firstn n l).
Proof.
  revert l; induction n as [|n IH]; intros [|x l] H; simpl; try constructor.
  - inversion H; subst. intros K. apply firstn_In in K. contradiction.
  - inversion H; subst. apply IH. assumption.
Qed.

Lemma map_firstn {A B} (f : A -> B) (n : nat) (l : list A) :
  map f (firstn n l) = firstn n (map f l).
Proof.
  revert l; induction n as [|n IH]; intros [|x l]; simpl; try reflexivity.
  rewrite IH. reflexivity.
Qed.

(** Two entries with different file names, from a duplicate-free list of
    at least two. *)
Lemma two_distinct_keys {V} (occ : StrMap.t V) :
  NoDup (map fst occ) -> 2 <= Z.of_nat (List.length occ) ->
  exists e1 e2, In e1 occ /\ In e2 occ /\ fst e1 <> fst e2.
Proof.
  destruct occ as [|e1 [|e2 occ]]; simpl; intros Hnd Hlen; try lia.
  exists e1, e2. split; [left; reflexivity|]. split; [right; left; reflexivity|].
  inversion Hnd as [|? ? Hn _]; subst. intros E. apply Hn. left. symmetry. exact E.
Qed.

Lemma sortedMatches_In (files : list FileContent) (mt : ExactLineMatch) :
  In mt (sortedMatches toLowerCase files) <-> In mt (collectMatches
      (buildLineMap toLowerCase files)).
Proof.
  unfold sortedMatches. split; intros H.
  - eapply Permutation_in; [symmetry; apply sortBy_perm|exact H].
  - eapply Permutation_in; [apply sortBy_perm|exact H].
Qed.

Lemma sortedMatches_keys (files : list FileContent) :
  NoDup (map (keyOf toLowerCase) (sortedMatches toLowerCase files)).
Proof.
  unfold sortedMatches.
  eapply Permutation_NoDup;
    [apply Permutation_map, sortBy_perm|].
  eapply collectMatches_keys. apply buildLineMap_ok.
Qed.

Lemma findExactLineMatches_cases (files : list FileContent) :
  findExactLineMatches toLowerCase files = []
  \/ (findExactLineMatches toLowerCase files = firstn 50
      (sortedMatches toLowerCase files)
      /\ 2 <= Z.of_nat (List.length (sortedMatches toLowerCase files))).
Proof.
  unfold findExactLineMatches.
  destruct (Z.of_nat (List.length files) <? 2); [left; reflexivity|].
  cbv zeta.
  destruct (Z.of_nat (List.length
      (sortedMatches toLowerCase files)) <? 2) eqn:E;
    [left; reflexivity|].
  right. split; [reflexivity|]. apply Z.ltb_ge in E. exact E.
Qed.

(** C2.  A returned match has occurrences in at least two files with
    different names, each of them an input file with a line under the
    match's key, so no returned match has its normalized line in one
    file only; and a result that holds a match holds at least two, with
    different keys. *)
Theorem matches_span_two_files (files : list FileContent)
  (mt : ExactLineMatch) :
  In mt (findExactLineMatches toLowerCase files) ->
  2 <= Z.of_nat (List.length (occurrences mt))
  /\ NoDup (map filename (occurrences mt))
  /\ (forall o, In o (occurrences mt) ->
        exists file, In file files /\ fc_filename file = filename o
                     /\ occursIn toLowerCase (keyOf toLowerCase mt) file)
  /\ (exists f1 f2, In f1 files /\ In f2 files
                    /\ fc_filename f1 <> fc_filename f2
                    /\ occursIn toLowerCase (keyOf toLowerCase mt) f1
                        /\ occursIn toLowerCase (keyOf toLowerCase mt) f2)
  /\ 2 <= Z.of_nat (List.length (findExactLineMatches toLowerCase files))
  /\ (exists mt', In mt' (findExactLineMatches toLowerCase files)
      /\ keyOf toLowerCase mt' <> keyOf toLowerCase mt).
Proof.
  intros Hin.
  destruct (findExactLineMatches_cases files) as [E|[E Hlen]];
    [rewrite E in Hin; destruct Hin|].
  assert (Hkeys : NoDup (map (keyOf toLowerCase)
      (findExactLineMatches toLowerCase files))).
  { rewrite E, map_firstn. apply NoDup_firstn, sortedMatches_keys. }
  assert (Hlen2 : 2 <= Z.of_nat (List.length
      (findExactLineMatches toLowerCase files))).
  { rewrite E, length_firstn. lia. }
  assert (Hsrc : In mt (collectMatches (buildLineMap toLowerCase files))).
  { apply sortedMatches_In. rewrite E in Hin. eapply firstn_In; exact Hin. }
  apply collectMatches_In in Hsrc. destruct Hsrc as [k [e [Hke [-> Hocc]]]].
  destruct (buildLineMap_ok files) as [_ Hall].
  destruct (Hall _ _ Hke) as [Ek [Eo EP]].
  assert (Hkey : keyOf toLowerCase (toMatch e) = k) by (unfold keyOf; simpl;
      congruence).
  rewrite Hkey. cbn [occurrences toMatch].
  assert (Hnames : map filename
                     (map (fun e0 => mkOcc (fst e0) (firstn 10 (snd e0)))
                        (entryOccurrences e)) = map fst (entryOccurrences e)).
  { rewrite map_map. reflexivity. }
  split; [rewrite length_map; exact Hocc|].
  split; [rewrite Hnames; exact Eo|].
  split.
  { intros o Ho. apply in_map_iff in Ho. destruct Ho as [[f nums] [<- Ho]].
    simpl. eapply EP; exact Ho. }
  split.
  { destruct (two_distinct_keys _ Eo Hocc) as [[n1 l1] [[n2 l2] [I1 [I2 Hne]]]].
    destruct (EP _ _ I1) as [f1 [F1 [N1 O1]]].
    destruct (EP _ _ I2) as [f2 [F2 [N2 O2]]].
    exists f1, f2. simpl in Hne. repeat split; try assumption. congruence. }
  split; [exact Hlen2|].
  destruct (findExactLineMatches toLowerCase files) as [|a [|b r]] eqn:Er;
    simpl in Hlen2; try lia.
  simpl in Hkeys. apply NoDup_cons_iff in Hkeys. destruct Hkeys as [Hna _].
  destruct (list_eq_dec N.eq_dec (keyOf toLowerCase a) k) as [Ea|Ea].
  - exists b. split; [right; left; reflexivity|].
    intros Eb. apply Hna. left. congruence.
  - exists a. split; [left; reflexivity|exact Ea].
Qed.

End LineMatcherFacts.

(** The specification's scenario C, with a second shared line so that
    the result is not emptied: the error line, twice in the first file
    and once in the second, is one match of category error with total
    count 3, ahead of the shared warning. *)
Example scenario_shared_error_line :
  findExactLineMatches toLowerCase
    [mkFile (str "2024-01-01T00:00:00Z ERROR db down
2024-01-01T00:00:01Z ERROR db down
[2024-01-01 00:00:01,123] warning: disk almost full pid: 123 0xdeadBEEF
only in file a this line") (str "a.log");
     mkFile (str "01/02/2024 10:00:00 Warning: disk almost full pid: 9 0x1
2024-02-01T00:00:00Z ERROR db down") (str "b.log")]
  = [mkMatch (str "2024-01-01T00:00:00Z ERROR db down")
       [mkOcc (str "a.log") [1; 2]; mkOcc (str "b.log") [2]] error 3;
     mkMatch (str "[2024-01-01 00:00:01,123] warning: disk almost full pid: 123 0xdeadBEEF")
       [mkOcc (str "a.log") [3]; mkOcc (str "b.log") [1]] warning 2].
Proof. vm_compute. reflexivity. Qed.

(** C2 at a concrete input: two files sharing an error line and a
    warning line, apart from their time stamps and identifiers. *)
Lemma matches_span_two_files_witness :
  let fa := mkFile (str "2024-01-01T00:00:00Z ERROR db down
2024-01-01T00:00:01Z ERROR db down
[2024-01-01 00:00:01,123] warning: disk almost full pid: 123 0xdeadBEEF
only in file a this line") (str "a.log") in
  let fb := mkFile (str "2024-02-01T00:00:00Z ERROR db down
01/02/2024 10:00:00 Warning: disk almost full pid: 9 0x1") (str "b.log") in
  let mt := mkMatch (str "2024-01-01T00:00:00Z ERROR db down")
              [mkOcc (str "a.log") [1; 2]; mkOcc (str "b.log") [1]] error 3 in
  2 <= Z.of_nat (List.length (occurrences mt))
  /\ NoDup (map filename (occurrences mt))
  /\ (forall o, In o (occurrences mt) ->
        exists file, In file [fa; fb] /\ fc_filename file = filename o
                     /\ occursIn toLowerCase (keyOf toLowerCase mt) file)
  /\ (exists f1 f2, In f1 [fa; fb] /\ In f2 [fa; fb]
                    /\ fc_filename f1 <> fc_filename f2
                    /\ occursIn toLowerCase (keyOf toLowerCase mt) f1
                        /\ occursIn toLowerCase (keyOf toLowerCase mt) f2)
  /\ 2 <= Z.of_nat (List.length (findExactLineMatches toLowerCase [fa; fb]))
  /\ (exists mt', In mt' (findExactLineMatches toLowerCase [fa; fb])
                  /\ keyOf toLowerCase mt' <> keyOf toLowerCase mt).
Proof.
  intros fa fb mt. apply (@matches_span_two_files toLowerCase [fa; fb] mt).
  vm_compute. left. reflexivity.
Defined.

(* ================================================================== *)
(** * Regular expressions: success and continuations *)
(* ================================================================== *)

Unset Implicit Arguments.

Section MatcherFacts.

Variable ic : bool.

Lemma starG_mono (p : cset) (s : jsstring) :
  forall pv (k1 k2 : option char -> jsstring -> option mstate),
    (forall pv' s', k1 pv' s' <> None -> k2 pv' s' <> None) ->
    starG ic p pv s k1 <> None -> starG ic p pv s k2 <> None.
Proof.
  induction s as [|c s IH]; intros pv k1 k2 Hk; simpl; [apply Hk|].
  destruct (clsMatch ic p c); [|apply Hk].
  specialize (IH (Some c) k1 k2 Hk).
  destruct (starG ic p (Some c) s k1).
  - intros _. destruct (starG ic p (Some c) s k2); [discriminate|].
    exfalso. apply IH; [discriminate|reflexivity].
  - intros H. destruct (starG ic p (Some c) s k2); [discriminate|].
    apply Hk. exact H.
Qed.

Lemma starL_mono (p : cset) (s : jsstring) :
  forall pv (k1 k2 : option char -> jsstring -> option mstate),
    (forall pv' s', k1 pv' s' <> None -> k2 pv' s' <> None) ->
    starL ic p pv s k1 <> None -> starL ic p pv s k2 <> None.
Proof.
  induction s as [|c s IH]; intros pv k1 k2 Hk; simpl.
  - specialize (Hk pv []). destruct (k1 pv []); [|congruence].
    intros _. destruct (k2 pv []); [discriminate|].
    exfalso. apply Hk; [discriminate|reflexivity].
  - pose proof (Hk pv (c :: s)) as H0.
    destruct (k1 pv (c :: s)).
    + intros _. destruct (k2 pv (c :: s)); [discriminate|].
      exfalso. apply H0; [discriminate|reflexivity].
    + destruct (k2 pv (c :: s)); [discriminate|].
      destruct (clsMatch ic p c); [|congruence].
      apply IH. exact Hk.
Qed.

(** If a pattern succeeds with one continuation, it succeeds with every
    continuation that succeeds wherever the first does. *)
Lemma m_mono (r : regex) :
  forall st (k1 k2 : cont),
    (forall st', k1 st' <> None -> k2 st' <> None) ->
    m ic r st k1 <> None -> m ic r st k2 <> None.
Proof.
  induction r as [|c|p|a IHa b IHb|a IHa b IHb|a IHa|p|p| | | |a IHa|i a IHa];
    intros st k1 k2 Hk; simpl.
  - apply Hk.
  - destruct (rest st) as [|x s']; [congruence|].
    destruct (chrMatch ic c x); [apply Hk|congruence].
  - destruct (rest st) as [|x s']; [congruence|].
    destruct (clsMatch ic p x); [apply Hk|congruence].
  - apply IHa. intros st'. apply IHb. exact Hk.
  - pose proof (IHa st k1 k2 Hk) as Ha. pose proof (IHb st k1 k2 Hk) as Hb.
    destruct (m ic a st k1).
    + intros _. destruct (m ic a st k2); [discriminate|].
      exfalso. apply Ha; [discriminate|reflexivity].
    + intros H. destruct (m ic a st k2); [discriminate|]. apply Hb. exact H.
  - pose proof (IHa st k1 k2 Hk) as Ha.
    destruct (m ic a st k1).
    + intros _. destruct (m ic a st k2); [discriminate|].
      exfalso. apply Ha; [discriminate|reflexivity].
    + intros H. destruct (m ic a st k2); [discriminate|]. apply Hk. exact H.
  - apply starG_mono. intros pv' s'. apply Hk.
  - apply starL_mono. intros pv' s'. apply Hk.
  - destruct (prev st); [congruence|apply Hk].
  - destruct (rest st); [apply Hk|congruence].
  - destruct (xorb _ _); [apply Hk|congruence].
  - destruct (m ic a st (fun st' => Some st')); [apply Hk|congruence].
  - apply IHa. intros st'. apply Hk.
Qed.

(** Where a pattern with a tail matches, the pattern alone matches. *)
Lemma matchAt_seq_head (a b : regex) (pv : option char) (s : jsstring) :
  matchAt ic a pv s = None -> matchAt ic (Seq a b) pv s = None.
Proof.
  unfold matchAt. simpl. intros H.
  destruct (m ic a (mkM pv s []) (fun st' => m ic b st' (fun st => Some st)))
    eqn:E; [|reflexivity].
  exfalso.
  apply (m_mono a (mkM pv s [])
           (fun st' => m ic b st' (fun st => Some st)) (fun st => Some st)).
  - intros st' _. discriminate.
  - rewrite E. discriminate.
  - exact H.
Qed.

Lemma search_seq_head (a b : regex) (s : jsstring) :
  forall pv, search ic a pv s = None -> search ic (Seq a b) pv s = None.
Proof.
  induction s as [|c s IH]; intros pv; simpl.
  - destruct (matchAt ic a pv []) eqn:E; [discriminate|].
    rewrite (matchAt_seq_head _ _ _ _ E). reflexivity.
  - destruct (matchAt ic a pv (c :: s)) eqn:E; [discriminate|].
    rewrite (matchAt_seq_head _ _ _ _ E). apply IH.
Qed.

Lemma exec_seq_head (a b : regex) (s : jsstring) :
  test ic a s = false -> exec ic (Seq a b) s = None.
Proof.
  unfold test, exec. intros H.
  destruct (search ic a None s) eqn:E; [discriminate|].
  rewrite (search_seq_head _ _ _ _ E). reflexivity.
Qed.

End MatcherFacts.

(* ================================================================== *)
(** * Section parser: no heading, empty result *)
(* ================================================================== *)

(** C8.  The parser is a total function; when none of the four headings
    matches anywhere in the response, it returns the result with three
    empty lists and the empty summary. *)
Theorem parse_without_headings (responseText : jsstring) :
  test true patternsHeading responseText = false ->
  test true anomaliesHeading responseText = false ->
  test true rootCausesHeading responseText = false ->
  test true summaryHeading responseText = false ->
  parseAnalysisResponse responseText = mkResult [] [] [] [].
Proof.
  intros Hp Ha Hr Hs. unfold parseAnalysisResponse, sectionItems.
  unfold patternsRe, anomaliesRe, rootCausesRe, summaryRe.
  rewrite (exec_seq_head _ _ listTail _ Hp), (exec_seq_head _ _ listTail _ Ha),
    (exec_seq_head _ _ listTail _ Hr), (exec_seq_head _ _ summaryTail _ Hs).
  reflexivity.
Qed.

(** C8 at a concrete input: a response in prose, without headings. *)
Lemma parse_without_headings_witness :
  parseAnalysisResponse (str "I could not analyze this log. # no sections")
  = mkResult [] [] [] [].
Proof.
  apply parse_without_headings; reflexivity.
Defined.

(* ================================================================== *)
(** * List-item extractor: the final filter *)
(* ================================================================== *)

Lemma startsWith_spec (s p : jsstring) :
  startsWith s p = true <-> exists post, s = p ++ post.
Proof.
  revert s; induction p as [|x p IH]; intros s; simpl.
  - split; [intros _; exists s; reflexivity|reflexivity].
  - destruct s as [|y s].
    + split; [discriminate|intros [post H]; discriminate H].
    + rewrite andb_true_iff, char_eqb_eq, IH. split.
      * intros [-> [post ->]]. exists post. reflexivity.
      * intros [post H]. injection H as -> ->. split; [reflexivity|].
        exists post. reflexivity.
Qed.

Lemma includes_spec (s p : jsstring) :
  includes s p = true <-> contains s p.
Proof.
  unfold contains. induction s as [|c s IH].
  - simpl. rewrite orb_false_r, startsWith_spec. split.
    + intros [post H]. exists [], post. exact H.
    + intros [pre [post H]]. destruct pre; [exists post; exact H|discriminate H].
  - cbn [includes]. rewrite orb_true_iff, startsWith_spec, IH. split.
    + intros [[post H]|[pre [post H]]].
      * exists [], post. exact H.
      * exists (c :: pre), post. rewrite H. reflexivity.
    + intros [[|x pre] [post H]].
      * left. exists post. exact H.
      * right. injection H as -> H. exists pre, post. exact H.
Qed.

(** A pattern anchored at the start matches at index 0 or nowhere. *)
Lemma search_anchored (ic : bool) (r : regex) (s : jsstring) :
  forall c, search ic (Seq Bol r) (Some c) s = None.
Proof.
  induction s as [|x s IH]; intros c; [reflexivity|].
  simpl. apply IH.
Qed.

Lemma test_anchored (ic : bool) (r : regex) (s : jsstring) :
  test ic (Seq Bol r) s =
  match matchAt ic (Seq Bol r) None s with
  | Some _ => true
  | None => false
  end.
Proof.
  unfold test. destruct s as [|c s]; simpl.
  - destruct (matchAt ic (Seq Bol r) None []); reflexivity.
  - destruct (matchAt ic (Seq Bol r) None (c :: s)); [reflexivity|].
    rewrite search_anchored. reflexivity.
Qed.

Lemma closeBracket_spec (pv : option char) (s : jsstring) :
  closeBracket pv s <> None <-> s = [93%N].
Proof.
  unfold closeBracket. cbn [m rest prev caps].
  destruct s as [|c [|d s]].
  - split; [congruence|discriminate].
  - unfold chrMatch. destruct (char_eqb 93%N c) eqn:E.
    + apply char_eqb_eq in E. subst c. split; [reflexivity|discriminate].
    + apply char_eqb_neq in E. split; [congruence|]. intros H; injection H as H.
      congruence.
  - destruct (chrMatch false 93%N c); split; congruence.
Qed.

Lemma dot_closing : dot 93%N = true.
Proof. reflexivity. Qed.

Lemma starG_closeBracket (s : jsstring) :
  forall pv,
    starG false dot pv s closeBracket <> None <->
    exists pre, s = pre ++ [93%N] /\ Forall (fun c => dot c = true) pre.
Proof.
  induction s as [|c s IH]; intros pv.
  - cbn [starG]. rewrite closeBracket_spec. split; [discriminate|].
    intros [[|x pre] [H _]]; discriminate H.
  - cbn [starG]. unfold clsMatch. destruct (dot c) eqn:Ec.
    + destruct (starG false dot (Some c) s closeBracket) eqn:Es.
      * split; [intros _|discriminate].
        destruct (proj1 (IH (Some c))) as [pre [-> Hpre]];
          [rewrite Es; discriminate|].
        exists (c :: pre). split; [reflexivity|constructor; assumption].
      * rewrite closeBracket_spec. split.
        -- intros H. injection H as -> ->. exists []. split; [reflexivity|constructor].
        -- intros [[|x pre] [H Hpre]]; [exact H|].
           exfalso. injection H as -> ->. inversion Hpre; subst.
           apply (proj2 (IH (Some x))); [|exact Es].
           exists pre. split; [reflexivity|assumption].
    + rewrite closeBracket_spec. split.
      * intros H. injection H as -> _. rewrite dot_closing in Ec. discriminate.
      * intros [[|x pre] [H Hpre]].
        -- injection H as -> _. rewrite dot_closing in Ec. discriminate.
        -- injection H as -> _. inversion Hpre; subst. congruence.
Qed.

Lemma bracketed_matchAt (item : jsstring) :
  matchAt false bracketedRe None item =
  match item with
  | x :: y :: s =>
      if char_eqb 91%N x
      then if dot y then starG false dot (Some y) s closeBracket else None
      else None
  | _ => None
  end.
Proof.
  destruct item as [|x [|y s]]; try reflexivity.
  unfold matchAt, bracketedRe. cbn [seqs fold_right m prev rest caps].
  destruct (chrMatch false 91%N x); reflexivity.
Qed.

(** The bracket pattern matches exactly the wholly bracketed items. *)
Lemma bracketed_spec (item : jsstring) :
  test false bracketedRe item = true <-> whollyBracketed item.
Proof.
  change bracketedRe
    with (Seq Bol (seqs [Chr 91%N; PlusG dot; Chr 93%N; Eol])).
  rewrite test_anchored.
  change (Seq Bol (seqs [Chr 91%N; PlusG dot; Chr 93%N; Eol]))
    with bracketedRe.
  rewrite bracketed_matchAt. unfold whollyBracketed.
  destruct item as [|x [|y s]].
  - split; [discriminate|]. intros [mid [H _]]; discriminate H.
  - split; [discriminate|].
    intros [[|c mid] [H [Hne _]]]; try congruence.
    injection H as _ H. destruct mid; discriminate H.
  - destruct (char_eqb 91%N x) eqn:Ex.
    2:{ apply char_eqb_neq in Ex. split; [discriminate|].
        intros [mid [H _]]. injection H as H _. congruence. }
    apply char_eqb_eq in Ex. subst x.
    destruct (dot y) eqn:Ey.
    2:{ split; [discriminate|]. intros [[|c mid] [H [Hne Hall]]]; [congruence|].
        injection H as -> _. inversion Hall; subst. unfold dot in Ey.
        rewrite H1 in Ey. discriminate. }
    pose proof (starG_closeBracket s (Some y)) as Hs.
    destruct (starG false dot (Some y) s closeBracket).
    + split; [intros _|reflexivity].
      destruct (proj1 Hs) as [pre [-> Hpre]]; [discriminate|].
      exists (y :: pre). split; [reflexivity|]. split; [discriminate|].
      apply Forall_forall. intros c [<-|Hc].
      * unfold dot in Ey. apply negb_true_iff in Ey. exact Ey.
      * rewrite Forall_forall in Hpre. specialize (Hpre c Hc).
        unfold dot in Hpre. apply negb_true_iff in Hpre. exact Hpre.
    + split; [discriminate|]. intros [[|c mid] [H [Hne Hall]]]; [congruence|].
      exfalso. injection H as -> ->. apply (proj2 Hs); [|reflexivity].
      exists mid. split; [reflexivity|]. inversion Hall; subst.
      eapply Forall_impl; [|eassumption]. intros a Ha. unfold dot. rewrite Ha. reflexivity.
Qed.

Lemma exec_test (ic : bool) (r : regex) (s : jsstring) :
  match exec ic r s with Some _ => true | None => false end = test ic r s.
Proof. unfold exec, test. destruct (search ic r None s); reflexivity. Qed.

Lemma keepItem_spec (item : jsstring) :
  keepItem item = false <-> removalGround item.
Proof.
  unfold keepItem, removalGround. rewrite exec_test.
  pose proof (includes_spec item (str "[List")) as H1.
  pose proof (includes_spec (toLowerCase item) (str "list here")) as H2.
  pose proof (bracketed_spec item) as H3.
  pose proof (includes_spec (toLowerCase item) (str "none found")) as H4.
  pose proof (includes_spec (toLowerCase item) (str "no patterns")) as H5.
  pose proof (includes_spec (toLowerCase item) (str "no anomalies")) as H6.
  pose proof (includes_spec (toLowerCase item) (str "no root causes")) as H7.
  assert (H0 : truthy item && (len item >? 0) = false <-> item = []).
  { destruct item as [|c item]; [split; reflexivity|].
    split; [|discriminate]. unfold len. simpl truthy. simpl andb.
    intros H. rewrite Z.gtb_ltb in H. apply Z.ltb_ge in H.
    simpl List.length in H. lia. }
  destruct (truthy item && (len item >? 0));
    [|split; [intros _; left; apply H0; reflexivity|reflexivity]].
  destruct (includes item (str "[List"));
    [split; [intros _; right; left; apply H1; reflexivity|reflexivity]|].
  destruct (includes (toLowerCase item) (str "list here"));
    [split; [intros _; right; right; left; apply H2; reflexivity|reflexivity]|].
  destruct (test false bracketedRe item);
    [split; [intros _; right; right; right; left; apply H3; reflexivity
            |reflexivity]|].
  destruct (includes (toLowerCase item) (str "none found"));
    [split; [intros _; do 4 right; exists (str "none found");
             split; [simpl; tauto|apply H4; reflexivity]|reflexivity]|].
  destruct (includes (toLowerCase item) (str "no patterns"));
    [split; [intros _; do 4 right; exists (str "no patterns");
             split; [simpl; tauto|apply H5; reflexivity]|reflexivity]|].
  destruct (includes (toLowerCase item) (str "no anomalies"));
    [split; [intros _; do 4 right; exists (str "no anomalies");
             split; [simpl; tauto|apply H6; reflexivity]|reflexivity]|].
  destruct (includes (toLowerCase item) (str "no root causes"));
    [split; [intros _; do 4 right; exists (str "no root causes");
             split; [simpl; tauto|apply H7; reflexivity]|reflexivity]|].
  split; [discriminate|].
  intros [G|[G|[G|[G|[phrase [Hin G]]]]]].
  - apply H0 in G. discriminate G.
  - apply H1 in G. discriminate G.
  - apply H2 in G. discriminate G.
  - apply H3 in G. discriminate G.
  - destruct Hin as [<-|[<-|[<-|[<-|[]]]]].
    + apply H4 in G. discriminate G.
    + apply H5 in G. discriminate G.
    + apply H6 in G. discriminate G.
    + apply H7 in G. discriminate G.
Qed.

(** C5 as the code has it.  The final filter removes from the pushed
    items exactly the empty ones, those containing the marker [[List],
    those containing [list here] in any case, those wholly bracketed,
    and those that contain, in any case, one of the negative-result
    phrases. *)
Theorem final_filter_removes (text item : jsstring) :
  In item (extractListItems text) <->
  In item (rawItems text) /\ ~ removalGround item.
Proof.
  unfold extractListItems. rewrite filter_In, <- keepItem_spec.
  destruct (keepItem item); split; intros [H1 H2]; split; try assumption;
    congruence.
Qed.

(** C5 as stated fails: an item that merely contains a negative-result
    phrase, and is removed on no other ground, is removed. *)
Lemma filter_removes_item_containing_phrase :
  let item := str "Errors: none found today" in
  rawItems (str "- Errors: none found today") = [item]
  /\ removedWhenEqual item = false
  /\ extractListItems (str "- Errors: none found today") = [].
Proof. vm_compute. repeat split. Qed.

(* ================================================================== *)
(** * Section parser: the order of the sections *)
(* ================================================================== *)

Lemma range_not_space (c : char) :
  (33 <= c <= 126)%N -> isSpace c = false.
Proof.
  intros H. unfold isSpace, isWhiteSpace, isLineTerminator.
  repeat match goal with
  | |- (_ || _)%bool = false => apply orb_false_intro
  | |- (_ && _)%bool = false => apply andb_false_iff; left
  | |- N.eqb _ _ = false => apply N.eqb_neq; lia
  | |- N.leb _ _ = false => apply N.leb_gt; lia
  end.
Qed.

Lemma isUpper_range (c : char) : isUpper c = true -> (65 <= c <= 90)%N.
Proof.
  unfold isUpper. rewrite andb_true_iff, !N.leb_le. tauto.
Qed.

Lemma isLower_range (c : char) : isLower c = true -> (97 <= c <= 122)%N.
Proof.
  unfold isLower. rewrite andb_true_iff, !N.leb_le. tauto.
Qed.

Lemma clsMatch_ci_space (c : char) : clsMatch true space c = isSpace c.
Proof.
  unfold clsMatch, space. destruct (isSpace c) eqn:E; [reflexivity|].
  simpl. unfold lowerChar, upperChar.
  destruct (isUpper c) eqn:Eu; destruct (isLower c) eqn:El;
    rewrite ?E; simpl;
    try (apply isUpper_range in Eu); try (apply isLower_range in El);
    rewrite ?orb_false_r;
    try reflexivity; try (apply range_not_space; lia).
  rewrite range_not_space by lia. apply range_not_space; lia.
Qed.

Lemma chrMatch_ci_symbol (c x : char) :
  isLower c = false -> isUpper c = false ->
  chrMatch true c x = char_eqb c x.
Proof.
  intros Hl Hu. unfold chrMatch, upperChar. rewrite Hl.
  destruct (isLower x) eqn:Ex; [|reflexivity].
  apply isLower_range in Ex.
  destruct (char_eqb c x) eqn:E1.
  - apply char_eqb_eq in E1. subst x. unfold isLower in Hl.
    apply andb_false_iff in Hl. destruct Hl as [H|H]; apply N.leb_gt in H; lia.
  - apply char_eqb_neq. intros ->. unfold isUpper in Hu.
    apply andb_false_iff in Hu. destruct Hu as [H|H]; apply N.leb_gt in H; lia.
Qed.

Lemma regexOf_marked (l : Label) : exists h t, regexOf l = marked h t.
Proof. destruct l; eexists; eexists; reflexivity. Qed.

Lemma chrMatch_hash (x : char) : chrMatch true HASH x = char_eqb HASH x.
Proof. apply chrMatch_ci_symbol; reflexivity. Qed.

Lemma marked_pv (h t : regex) (pv pv' : option char) (s : jsstring) :
  matchAt true (marked h t) pv s = matchAt true (marked h t) pv' s.
Proof. destruct s; reflexivity. Qed.

Lemma marked_search_pv (h t : regex) (s : jsstring) :
  forall pv, search true (marked h t) pv s = search true (marked h t) None s.
Proof.
  induction s as [|c s IH]; intros pv.
  - cbn [search]. rewrite (marked_pv h t pv None). reflexivity.
  - cbn [search]. rewrite (marked_pv h t pv None), (IH (Some c)). reflexivity.
Qed.

Lemma marked_first (h t : regex) (pv : option char) (c : char) (s : jsstring) :
  c <> HASH -> matchAt true (marked h t) pv (c :: s) = None.
Proof.
  intros H. unfold matchAt, marked. cbn [m rest prev caps].
  rewrite chrMatch_hash. apply not_eq_sym in H. apply char_eqb_neq in H.
  rewrite H. reflexivity.
Qed.

Lemma marked_second (h t : regex) (pv : option char) (c : char) (s : jsstring) :
  c <> HASH -> matchAt true (marked h t) pv (HASH :: c :: s) = None.
Proof.
  intros H. unfold matchAt, marked. cbn [m rest prev caps].
  rewrite !chrMatch_hash, char_eqb_refl. apply not_eq_sym in H.
  apply char_eqb_neq in H. rewrite H. reflexivity.
Qed.

Lemma marked_end (h t : regex) (pv : option char) :
  matchAt true (marked h t) pv [] = None.
Proof. reflexivity. Qed.

Lemma marked_skip (h t : regex) (pre rest : jsstring) :
  ~ In HASH pre ->
  search true (marked h t) None (pre ++ rest) = search true (marked h t) None rest.
Proof.
  induction pre as [|c pre IH]; intros H; [reflexivity|].
  cbn [app search]. rewrite marked_first by (intros ->; apply H; left; reflexivity).
  rewrite marked_search_pv. apply IH. intros K. apply H. right. exact K.
Qed.

Lemma headingText_shape (l : Label) :
  exists t, headingText l = HASH :: HASH :: 32%N :: t /\ ~ In HASH t.
Proof.
  destruct l; eexists; (split; [reflexivity|]); vm_compute; intuition discriminate.
Qed.

Lemma foreign_heading (l l' : Label) (pv : option char) (rest : jsstring) :
  l <> l' -> matchAt true (regexOf l) pv (headingText l' ++ rest) = None.
Proof.
  intros H. destruct l, l'; try congruence; reflexivity.
Qed.

Lemma skip_section (l l' : Label) (pre rest : jsstring) :
  l <> l' -> ~ In HASH pre ->
  search true (regexOf l) None (headingText l' ++ pre ++ rest) =
  search true (regexOf l) None rest.
Proof.
  intros Hl Hpre.
  destruct (regexOf_marked l) as [h [t E]].
  pose proof (foreign_heading l l' None (pre ++ rest) Hl) as Hf.
  rewrite E in *.
  destruct (headingText_shape l') as [tl [Eh Ht]]. rewrite Eh in *.
  cbn [app search] in *. rewrite Hf.
  rewrite (marked_pv h t (Some HASH) None).
  rewrite marked_second by discriminate.
  rewrite marked_first by discriminate.
  rewrite marked_search_pv, app_assoc.
  apply marked_skip. intros K. apply in_app_or in K. tauto.
Qed.

Lemma chrMatch_LF (x : char) : chrMatch true LF x = char_eqb LF x.
Proof. apply chrMatch_ci_symbol; reflexivity. Qed.

Lemma boundary_spec (pv : option char) (s : jsstring) (cs : list (nat * jsstring)) :
  m true boundaryRe (mkM pv s cs) (fun st => Some st) <> None <->
  atBoundary s = true.
Proof.
  unfold boundaryRe. cbn [seqs fold_right m rest prev caps].
  destruct s as [|a [|b [|c s]]]; cbn [atBoundary].
  - split; [reflexivity|discriminate].
  - rewrite chrMatch_LF. destruct (char_eqb LF a); split; congruence.
  - rewrite chrMatch_LF. change 35%N with HASH. rewrite chrMatch_hash.
    destruct (char_eqb LF a), (char_eqb HASH b); split; congruence.
  - rewrite chrMatch_LF. change 35%N with HASH. rewrite !chrMatch_hash.
    destruct (char_eqb LF a), (char_eqb HASH b), (char_eqb HASH c);
      cbn; split; congruence.
Qed.

(** Inside a body no position is a boundary. *)
Lemma body_no_boundary (r suff : jsstring) :
  r <> [] -> ~ In HASH r -> nextHeading suff -> atBoundary (r ++ suff) = false.
Proof.
  intros Hr Hh Hs. destruct r as [|a r]; [congruence|].
  cbn [app]. destruct (char_eqb LF a) eqn:Ea.
  2:{ destruct (r ++ suff) as [|b [|c s]]; cbn [atBoundary]; try reflexivity.
      rewrite Ea. reflexivity. }
  destruct r as [|b r].
  - cbn [app]. destruct Hs as [->|[s' ->]]; [reflexivity|].
    cbn [atBoundary]. rewrite Ea. reflexivity.
  - cbn [app]. assert (Hb : char_eqb HASH b = false).
    { apply char_eqb_neq. intros <-. apply Hh. right; left; reflexivity. }
    destruct (r ++ suff); cbn [atBoundary]; [reflexivity|].
    rewrite Hb, andb_false_r. reflexivity.
Qed.

Lemma consumed_app (b suff : jsstring) : consumed (b ++ suff) suff = b.
Proof.
  unfold consumed. rewrite length_app, Nat.add_sub.
  rewrite firstn_app, Nat.sub_diag, firstn_all. simpl. apply app_nil_r.
Qed.

Lemma boundary_result (pv : option char) (s : jsstring)
  (cs : list (nat * jsstring)) :
  match m true boundaryRe (mkM pv s cs) (fun st => Some st) with
  | Some st' => atBoundary s = true /\ caps st' = cs
  | None => atBoundary s = false
  end.
Proof.
  unfold boundaryRe. cbn [seqs fold_right m rest prev caps].
  destruct s as [|a [|b [|c s]]]; cbn [atBoundary].
  - split; reflexivity.
  - rewrite chrMatch_LF. destruct (char_eqb LF a); reflexivity.
  - rewrite chrMatch_LF. change 35%N with HASH. rewrite chrMatch_hash.
    destruct (char_eqb LF a), (char_eqb HASH b); reflexivity.
  - rewrite chrMatch_LF. change 35%N with HASH. rewrite !chrMatch_hash.
    destruct (char_eqb LF a), (char_eqb HASH b), (char_eqb HASH c);
      cbn; try reflexivity. split; reflexivity.
Qed.

(** The lazy [[\s\S]*?] walks over a stretch on which the continuation
    fails and stops where it first succeeds. *)
Lemma starL_scan (k : option char -> jsstring -> option mstate)
  (suff : jsstring) (r : jsstring) :
  forall pv,
    (forall pv' r1 r2, r = r1 ++ r2 -> r2 <> [] -> k pv' (r2 ++ suff) = None) ->
    (forall pv', k pv' suff <> None) ->
    exists pv', starL true anyChar pv (r ++ suff) k = k pv' suff.
Proof.
  induction r as [|c r IH]; intros pv Hmid Hend.
  - exists pv. cbn [app]. specialize (Hend pv).
    destruct suff; cbn [starL]; destruct (k pv _); congruence.
  - pose proof (Hmid pv [] (c :: r) eq_refl) as H0.
    cbn [app starL] in *. rewrite H0 by discriminate.
    cbn [clsMatch anyChar orb]. apply IH; [|exact Hend].
    intros pv' r1 r2 E Hne. apply (Hmid pv' (c :: r1) r2); [|exact Hne].
    rewrite E. reflexivity.
Qed.

Lemma space_LF : isSpace LF = true.
Proof. reflexivity. Qed.

Lemma not_space_not_LF (c : char) : isSpace c = false -> char_eqb LF c = false.
Proof.
  intros H. apply char_eqb_neq. intros <-. rewrite space_LF in H. discriminate.
Qed.

Lemma starG_prefer (ic : bool) (p : cset) (c : char) (s : jsstring)
  (k : option char -> jsstring -> option mstate) (pv : option char)
  (x : mstate) :
  clsMatch ic p c = true -> starG ic p (Some c) s k = Some x ->
  starG ic p pv (c :: s) k = Some x.
Proof. intros Hc Hs. cbn [starG]. rewrite Hc, Hs. reflexivity. Qed.

Lemma starG_stop (ic : bool) (p : cset) (c : char) (s : jsstring)
  (k : option char -> jsstring -> option mstate) (pv : option char) :
  clsMatch ic p c = false -> starG ic p pv (c :: s) k = k pv (c :: s).
Proof. intros Hc. cbn [starG]. rewrite Hc. reflexivity. Qed.

Lemma opt_skip (ic : bool) (a : regex) (st : mstate) (k : cont) :
  m ic a st k = None -> m ic (Opt a) st k = k st.
Proof. intros H. cbn [m]. rewrite H. reflexivity. Qed.

Lemma chr_mismatch (ic : bool) (c x : char) (pv : option char)
  (s : jsstring) (cs : list (nat * jsstring)) (k : cont) :
  chrMatch ic c x = false -> m ic (Chr c) (mkM pv (x :: s) cs) k = None.
Proof. intros H. cbn [m rest]. rewrite H. reflexivity. Qed.

Lemma lookK_boundary (whole : jsstring) (cs : list (nat * jsstring))
  (pv : option char) (s : jsstring) :
  lookK whole cs pv s =
  if atBoundary s
  then Some (mkM pv s (setCap 1 (consumed whole s) cs))
  else None.
Proof.
  unfold lookK.
  pose proof (boundary_result pv s (setCap 1 (consumed whole s) cs)) as H.
  destruct (m true boundaryRe _ _) as [st'|].
  - destruct H as [-> ->]. reflexivity.
  - rewrite H. reflexivity.
Qed.

(** After the heading of a list section: the captured text is the body. *)
Lemma listTail_match (b suff : jsstring) (pv : option char)
  (cs : list (nat * jsstring)) :
  wfBody b -> nextHeading suff ->
  exists st,
    m true listTail (mkM pv (LF :: b ++ suff) cs) (fun st => Some st) = Some st
    /\ getCap 1 (caps st) = b.
Proof.
  intros [[c0 [b' [-> Hc0]]] Hh] Hs.
  destruct (starL_scan (lookK ((c0 :: b') ++ suff) cs) suff (c0 :: b') (Some LF))
    as [pv' E].
  { intros pv' r1 r2 Er Hne. rewrite lookK_boundary, body_no_boundary;
      [reflexivity|exact Hne| |exact Hs].
    intros K. apply Hh. rewrite Er. apply in_or_app. right. exact K. }
  { intros pv'. rewrite lookK_boundary.
    destruct Hs as [->|[s' ->]]; discriminate. }
  rewrite lookK_boundary in E.
  assert (Hb : atBoundary suff = true) by (destruct Hs as [->|[s' ->]]; reflexivity).
  rewrite Hb, consumed_app in E.
  exists (mkM pv' suff (setCap 1 (c0 :: b') cs)).
  split; [|reflexivity].
  change (m true listTail (mkM pv (LF :: (c0 :: b') ++ suff) cs)
            (fun st => Some st))
    with (starG true space pv (LF :: (c0 :: b') ++ suff)
            (fun pv1 s1 =>
               m true (Opt (Chr LF)) (mkM pv1 s1 cs)
                 (fun st1 =>
                    starL true anyChar (prev st1) (rest st1)
                      (lookK (rest st1) (caps st1))))).
  apply starG_prefer; [rewrite clsMatch_ci_space; reflexivity|].
  cbn [app]. rewrite starG_stop by (rewrite clsMatch_ci_space; exact Hc0).
  rewrite opt_skip
    by (apply chr_mismatch; rewrite chrMatch_LF; apply not_space_not_LF, Hc0).
  cbn [prev rest caps]. exact E.
Qed.

(** After the summary heading, at the end of the text: the captured
    text is the body. *)
Lemma summaryTail_match (b : jsstring) (pv : option char)
  (cs : list (nat * jsstring)) :
  (exists c b', b = c :: b' /\ isSpace c = false) ->
  exists st,
    m true summaryTail (mkM pv (LF :: b) cs) (fun st => Some st) = Some st
    /\ getCap 1 (caps st) = b.
Proof.
  intros [c0 [b' [-> Hc0]]].
  destruct (starL_scan (endK (c0 :: b') cs) [] (c0 :: b') (Some LF))
    as [pv' E].
  { intros pv' r1 r2 Er Hne. rewrite app_nil_r.
    destruct r2; [congruence|reflexivity]. }
  { intros pv'. discriminate. }
  rewrite app_nil_r in E. cbn [endK] in E.
  replace (consumed (c0 :: b') []) with (c0 :: b') in E
    by (rewrite <- (app_nil_r (c0 :: b')) at 2; symmetry; apply consumed_app).
  exists (mkM pv' [] (setCap 1 (c0 :: b') cs)).
  split; [|reflexivity].
  change (m true summaryTail (mkM pv (LF :: c0 :: b') cs) (fun st => Some st))
    with (starG true space pv (LF :: c0 :: b')
            (fun pv1 s1 =>
               m true (Opt (Chr LF)) (mkM pv1 s1 cs)
                 (fun st1 =>
                    starL true anyChar (prev st1) (rest st1)
                      (endK (rest st1) (caps st1))))).
  apply starG_prefer; [rewrite clsMatch_ci_space; reflexivity|].
  rewrite starG_stop by (rewrite clsMatch_ci_space; exact Hc0).
  rewrite opt_skip
    by (apply chr_mismatch; rewrite chrMatch_LF; apply not_space_not_LF, Hc0).
  cbn [prev rest caps]. exact E.
Qed.

Lemma regexOf_split (l : Label) : regexOf l = Seq (headOf l) (tailOf l).
Proof. destruct l; reflexivity. Qed.

(** At its own heading a heading pattern matches, and hands over the
    text after the heading with no group set. *)
Lemma own_heading (l : Label) (text : jsstring) (k : cont)
  (Q : mstate -> Prop) :
  (forall pv, exists st, k (mkM pv text []) = Some st /\ Q st) ->
  exists st,
    m true (headOf l) (mkM None (headingText l ++ text) []) k = Some st /\ Q st.
Proof.
  intros H.
  destruct l; cbn;
    match goal with
    | |- context [k (mkM ?pv text [])] =>
        destruct (H pv) as [st [E HQ]]; exists st; rewrite E;
        split; [reflexivity|exact HQ]
    end.
Qed.

Lemma search_here (ic : bool) (r : regex) (pv : option char) (s : jsstring)
  (st : mstate) :
  matchAt ic r pv s = Some st -> search ic r pv s = Some st.
Proof. intros H. destruct s; cbn [search]; rewrite H; reflexivity. Qed.

(** A list section at the head of the text is found, with its body as
    group 1. *)
Lemma own_section_list (l : Label) (b suff : jsstring) :
  l <> Summary -> wfBody b -> nextHeading suff ->
  exists st,
    search true (regexOf l) None (headingText l ++ LF :: b ++ suff) = Some st
    /\ getCap 1 (caps st) = b.
Proof.
  intros Hl Hb Hs.
  destruct (own_heading l (LF :: b ++ suff)
              (fun st' => m true (tailOf l) st' (fun st => Some st))
              (fun st => getCap 1 (caps st) = b)) as [st [E HQ]].
  { intros pv. destruct l; try congruence; apply listTail_match; assumption. }
  exists st. split; [|exact HQ].
  apply search_here. rewrite regexOf_split. exact E.
Qed.

Lemma own_section_summary (b : jsstring) :
  wfBody b ->
  exists st,
    search true (regexOf Summary) None (headingText Summary ++ LF :: b) = Some st
    /\ getCap 1 (caps st) = b.
Proof.
  intros [Hb _].
  destruct (own_heading Summary (LF :: b)
              (fun st' => m true (tailOf Summary) st' (fun st => Some st))
              (fun st => getCap 1 (caps st) = b)) as [st [E HQ]].
  { intros pv. apply summaryTail_match. exact Hb. }
  exists st. split; [|exact HQ].
  apply search_here. exact E.
Qed.

Lemma regex_skip (l : Label) (pre rest : jsstring) :
  ~ In HASH pre ->
  search true (regexOf l) None (pre ++ rest) = search true (regexOf l) None rest.
Proof.
  destruct (regexOf_marked l) as [h [t ->]]. apply marked_skip.
Qed.

Lemma regex_end (l : Label) : search true (regexOf l) None [] = None.
Proof. destruct l; reflexivity. Qed.

Lemma render_cons (s : Label * jsstring) (rest : list (Label * jsstring)) :
  render (s :: rest) = renderSection s ++ suffixText rest.
Proof.
  revert s; induction rest as [|y rest IH]; intros s.
  - unfold render, suffixText. simpl. rewrite app_nil_r. reflexivity.
  - change (render (s :: y :: rest))
      with (renderSection s ++ [LF] ++ render (y :: rest)).
    rewrite IH. reflexivity.
Qed.

Lemma render_app (before : list (Label * jsstring)) (s : Label * jsstring)
  (after : list (Label * jsstring)) :
  render (before ++ s :: after) =
  prefixText before ++ renderSection s ++ suffixText after.
Proof.
  induction before as [|x before IH]; [apply render_cons|].
  destruct (before ++ s :: after) as [|y rest] eqn:E;
    [destruct before; discriminate E|].
  change (render ((x :: before) ++ s :: after))
    with (render (x :: before ++ s :: after)).
  rewrite E.
  change (render (x :: y :: rest))
    with (renderSection x ++ [LF] ++ render (y :: rest)).
  rewrite IH. unfold prefixText. simpl. rewrite <- !app_assoc. reflexivity.
Qed.

Lemma suffixText_next (after : list (Label * jsstring)) :
  nextHeading (suffixText after).
Proof.
  destruct after as [|[l b] after]; [left; reflexivity|].
  right. unfold suffixText, renderSection. simpl.
  destruct (headingText_shape l) as [t [-> _]]. eexists. reflexivity.
Qed.

Lemma prefixText_cons (l' : Label) (b' : jsstring)
  (before : list (Label * jsstring)) (rest : jsstring) :
  prefixText ((l', b') :: before) ++ rest =
  headingText l' ++ (LF :: b' ++ [LF]) ++ (prefixText before ++ rest).
Proof.
  unfold prefixText, renderSection. cbn [map List.concat fst snd].
  rewrite <- !app_assoc. cbn [app]. rewrite <- !app_assoc. reflexivity.
Qed.

Lemma suffixText_cons (l' : Label) (b' : jsstring)
  (after : list (Label * jsstring)) :
  suffixText ((l', b') :: after) =
  [LF] ++ headingText l' ++ (LF :: b') ++ suffixText after.
Proof.
  unfold suffixText, renderSection. cbn [map List.concat fst snd app].
  rewrite <- app_assoc. reflexivity.
Qed.

Lemma skip_prefix (l : Label) (before : list (Label * jsstring))
  (rest : jsstring) :
  foreignTo l before -> wfSections before ->
  search true (regexOf l) None (prefixText before ++ rest) =
  search true (regexOf l) None rest.
Proof.
  unfold foreignTo, wfSections.
  induction before as [|[l' b'] before IH]; intros Hf Hw; [reflexivity|].
  inversion Hf as [|? ? Hl Hf']; subst. inversion Hw as [|? ? Hb Hw']; subst.
  rewrite prefixText_cons, skip_section.
  - apply IH; assumption.
  - intros E. apply Hl. simpl. symmetry. exact E.
  - destruct Hb as [_ Hb]. simpl in Hb. intros [K|K]; [discriminate K|].
    apply in_app_or in K. destruct K as [K|[K|[]]]; [tauto|discriminate K].
Qed.

Lemma skip_suffix (l : Label) (after : list (Label * jsstring)) :
  foreignTo l after -> wfSections after ->
  search true (regexOf l) None (suffixText after) = None.
Proof.
  unfold foreignTo, wfSections.
  induction after as [|[l' b'] after IH]; intros Hf Hw; [apply regex_end|].
  inversion Hf as [|? ? Hl Hf']; subst. inversion Hw as [|? ? Hb Hw']; subst.
  rewrite suffixText_cons.
  rewrite regex_skip by (intros [K|[]]; discriminate K).
  rewrite skip_section.
  - apply IH; assumption.
  - intros E. apply Hl. simpl. symmetry. exact E.
  - destruct Hb as [_ Hb]. simpl in Hb. intros [K|K]; [discriminate K|tauto].
Qed.

Lemma exec_list_section (l : Label) (before after : list (Label * jsstring))
  (b : jsstring) :
  l <> Summary -> foreignTo l before ->
  wfSections (before ++ (l, b) :: after) ->
  exists mt, exec true (regexOf l) (render (before ++ (l, b) :: after)) = Some mt
             /\ getCap 1 mt = b.
Proof.
  intros Hl Hf Hw. unfold wfSections in Hw. apply Forall_app in Hw.
  destruct Hw as [Hw1 Hw2]. inversion Hw2 as [|? ? Hb Hw3]; subst.
  destruct (own_section_list l b (suffixText after) Hl Hb (suffixText_next after))
    as [st [E Hc]].
  exists (caps st). split; [|exact Hc].
  unfold exec. rewrite render_app, skip_prefix by assumption.
  unfold renderSection. cbn [fst snd]. rewrite <- app_assoc. cbn [app].
  rewrite E. reflexivity.
Qed.

Lemma exec_summary_section (before : list (Label * jsstring)) (b : jsstring) :
  foreignTo Summary before ->
  wfSections (before ++ [(Summary, b)]) ->
  exists mt, exec true summaryRe (render (before ++ [(Summary, b)])) = Some mt
             /\ getCap 1 mt = b.
Proof.
  intros Hf Hw. unfold wfSections in Hw. apply Forall_app in Hw.
  destruct Hw as [Hw1 Hw2]. inversion Hw2 as [|? ? Hb Hw3]; subst.
  destruct (own_section_summary b Hb) as [st [E Hc]].
  exists (caps st). split; [|exact Hc].
  unfold exec. change summaryRe with (regexOf Summary).
  rewrite render_app, skip_prefix by assumption.
  unfold renderSection, suffixText. cbn [fst snd map List.concat].
  rewrite app_nil_r, E. reflexivity.
Qed.

Lemma exec_no_section (l : Label) (secs : list (Label * jsstring)) :
  foreignTo l secs -> wfSections secs ->
  exec true (regexOf l) (render secs) = None.
Proof.
  intros Hf Hw. unfold exec. destruct secs as [|[l' b'] rest].
  - change (render []) with (@nil char). rewrite regex_end. reflexivity.
  - inversion Hf as [|? ? Hl Hf']; subst. inversion Hw as [|? ? Hb Hw']; subst.
    rewrite render_cons. unfold renderSection. cbn [fst snd].
    rewrite <- app_assoc.
    change ((LF :: b') ++ suffixText rest) with ((LF :: b') ++ suffixText rest).
    rewrite skip_section.
    + rewrite skip_suffix by assumption. reflexivity.
    + intros E. apply Hl. simpl. symmetry. exact E.
    + destruct Hb as [_ Hb]. simpl in Hb. intros [K|K]; [discriminate K|tauto].
Qed.

Lemma Label_eq_dec (a b : Label) : {a = b} + {a <> b}.
Proof. decide equality. Defined.

Lemma summary_first_changes_result :
  let secs1 := [(Patterns, str "- a"); (Summary, str "OK")] in
  let secs2 := [(Summary, str "OK"); (Patterns, str "- a")] in
  Permutation secs1 secs2
  /\ summary (parseAnalysisResponse (render secs1)) = str "OK"
  /\ summary (parseAnalysisResponse (render secs2)) =
       str "OK" ++ [LF] ++ str "## PATTERNS" ++ [LF] ++ str "- a"
  /\ parseAnalysisResponse (render secs1) <> parseAnalysisResponse (render secs2).
Proof.
  split; [apply perm_swap|]. split; [reflexivity|]. split; [reflexivity|].
  vm_compute. discriminate.
Qed.

(** A section with an empty body reads differently: the white space
    after its heading is skipped and the capture starts in the next
    section. *)
Example blank_body_takes_next_section :
  patterns (parseAnalysisResponse
              (render [(Patterns, str ""); (Anomalies, str "- x")]))
  = [str "x"].
Proof. reflexivity. Qed.

(* ================================================================== *)
(** * Section parser: responses without the marker, and a scenario *)
(* ================================================================== *)

Lemma marked_single (h t : regex) (pv : option char) :
  matchAt true (marked h t) pv [HASH] = None.
Proof. reflexivity. Qed.

(** A pattern that opens with [##] finds nothing in a text that holds
    no two adjacent [#]. *)
Lemma marked_no_marker (h t : regex) (s : jsstring) :
  (forall pre post, s <> pre ++ HASH :: HASH :: post) ->
  search true (marked h t) None s = None.
Proof.
  induction s as [|c s IH]; intros H; [reflexivity|].
  assert (Hs : forall pre post, s <> pre ++ HASH :: HASH :: post).
  { intros pre post E. apply (H (c :: pre) post). rewrite E. reflexivity. }
  cbn [search]. rewrite marked_search_pv, (IH Hs).
  destruct (N.eq_dec c HASH) as [->|Hc]; [|rewrite marked_first; auto].
  destruct s as [|d s]; [rewrite marked_single; reflexivity|].
  rewrite marked_second; [reflexivity|].
  intros ->. apply (H [] s). reflexivity.
Qed.

(** A response that nowhere holds [##] parses to the empty result. *)
Corollary parse_without_marker (responseText : jsstring) :
  (forall pre post, responseText <> pre ++ HASH :: HASH :: post) ->
  parseAnalysisResponse responseText = mkResult [] [] [] [].
Proof.
  intros H. unfold parseAnalysisResponse, sectionItems, exec.
  change patternsRe with (regexOf Patterns).
  change anomaliesRe with (regexOf Anomalies).
  change rootCausesRe with (regexOf RootCauses).
  change summaryRe with (regexOf Summary).
  destruct (regexOf_marked Patterns) as [h1 [t1 ->]].
  destruct (regexOf_marked Anomalies) as [h2 [t2 ->]].
  destruct (regexOf_marked RootCauses) as [h3 [t3 ->]].
  destruct (regexOf_marked Summary) as [h4 [t4 ->]].
  rewrite !marked_no_marker by exact H. reflexivity.
Qed.

(** The response of the specification's scenario B. *)
Example scenario_two_sections :
  parseAnalysisResponse (str "## PATTERNS
- a
- b

## SUMMARY
OK")
  = mkResult [str "a"; str "b"] [] [] (str "OK").
Proof. reflexivity. Qed.

(* ================================================================== *)
(** * Chunk aggregator: the fallback merge *)
(* ================================================================== *)

Lemma has_In (x : jsstring) (s : StrSet.t) :
  StrSet.has x s = true <-> In x s.
Proof.
  unfold StrSet.has. rewrite existsb_exists. split.
  - intros [y [Hy E]]. apply str_eqb_eq in E. subst y. exact Hy.
  - intros H. exists x. split; [exact H|apply str_eqb_refl].
Qed.

Lemma add_In (s : StrSet.t) (x y : jsstring) :
  In y (StrSet.add s x) <-> In y s \/ y = x.
Proof.
  unfold StrSet.add. destruct (StrSet.has x s) eqn:E.
  - apply has_In in E. split; [intros H; left; exact H|].
    intros [H | ->]; assumption.
  - rewrite in_app_iff. simpl. split.
    + intros [H|[H|[]]]; [left; exact H|right; symmetry; exact H].
    + intros [H | ->]; [left; exact H|right; left; reflexivity].
Qed.

Lemma add_NoDup (s : StrSet.t) (x : jsstring) :
  NoDup s -> NoDup (StrSet.add s x).
Proof.
  intros H. unfold StrSet.add. destruct (StrSet.has x s) eqn:E; [exact H|].
  assert (Hx : ~ In x s).
  { intros K. apply has_In in K. congruence. }
  apply NoDup_rev in H. rewrite <- (rev_involutive (s ++ [x])).
  apply NoDup_rev. rewrite rev_app_distr. simpl. constructor; [|exact H].
  rewrite <- in_rev. exact Hx.
Qed.

Lemma addAll_In (l : list jsstring) :
  forall s y, In y (fold_left StrSet.add l s) <-> In y s \/ In y l.
Proof.
  induction l as [|x l IH]; intros s y; simpl; [tauto|].
  rewrite IH, add_In. intuition (subst; auto).
Qed.

Lemma addAll_NoDup (l : list jsstring) :
  forall s, NoDup s -> NoDup (fold_left StrSet.add l s).
Proof.
  induction l as [|x l IH]; intros s H; simpl; [exact H|].
  apply IH, add_NoDup, H.
Qed.

(** The three sets are independent folds over the chunks' lists. *)
Lemma mergeStep_split (chunks : list ChunkAnalysisResult) :
  forall p a r,
    fold_left mergeStep chunks (p, a, r) =
    (fold_left StrSet.add (flat_map cr_patterns chunks) p,
     fold_left StrSet.add (flat_map cr_anomalies chunks) a,
     fold_left StrSet.add (flat_map cr_rootCauses chunks) r).
Proof.
  induction chunks as [|c chunks IH]; intros p a r; simpl; [reflexivity|].
  rewrite IH, !fold_left_app. reflexivity.
Qed.

Lemma merge_lists (chunks : list ChunkAnalysisResult) :
  patterns (mergeChunkResultsManually chunks) =
    fold_left StrSet.add (flat_map cr_patterns chunks) []
  /\ anomalies (mergeChunkResultsManually chunks) =
    fold_left StrSet.add (flat_map cr_anomalies chunks) []
  /\ rootCauses (mergeChunkResultsManually chunks) =
    fold_left StrSet.add (flat_map cr_rootCauses chunks) [].
Proof.
  unfold mergeChunkResultsManually. rewrite mergeStep_split.
  repeat split; reflexivity.
Qed.

(** X1.  The fallback merge is a union without repetition: no string
    occurs twice in a merged list, and a string is in a merged list
    exactly when some chunk has it in the corresponding list. *)
Theorem merge_is_union (chunks : list ChunkAnalysisResult) (s : jsstring) :
  let r := mergeChunkResultsManually chunks in
  NoDup (patterns r) /\ NoDup (anomalies r) /\ NoDup (rootCauses r)
  /\ (In s (patterns r) <-> exists c, In c chunks /\ In s (cr_patterns c))
  /\ (In s (anomalies r) <-> exists c, In c chunks /\ In s (cr_anomalies c))
  /\ (In s (rootCauses r) <-> exists c, In c chunks /\ In s (cr_rootCauses c)).
Proof.
  intros r. subst r.
  destruct (merge_lists chunks) as [-> [-> ->]].
  repeat split; try (apply addAll_NoDup; constructor);
    try (intros H; apply addAll_In in H; destruct H as [[]|H];
         apply in_flat_map in H; exact H);
    intros H; apply addAll_In; right; apply in_flat_map; exact H.
Qed.

Lemma filter_app_single (f : jsstring -> bool) (l : list jsstring) (x : jsstring) :
  filter f (l ++ [x]) = filter f l ++ (if f x then [x] else []).
Proof. rewrite filter_app. reflexivity. Qed.

Lemma firstSeen_In (l : list jsstring) (y : jsstring) :
  In y (firstSeen l) <-> In y l.
Proof.
  induction l as [|x l IH]; simpl; [tauto|].
  rewrite filter_In, IH. destruct (str_eqb x y) eqn:E.
  - apply str_eqb_eq in E. subst y. simpl. intuition discriminate.
  - apply str_eqb_neq in E. simpl. intuition congruence.
Qed.

Lemma firstSeen_snoc (l : list jsstring) (x : jsstring) :
  firstSeen (l ++ [x]) = StrSet.add (firstSeen l) x.
Proof.
  induction l as [|y l IH]; [reflexivity|].
  simpl. rewrite IH. unfold StrSet.add.
  assert (Hin : StrSet.has x (y :: filter (fun z => negb (str_eqb y z)) (firstSeen l))
                = str_eqb x y || StrSet.has x (firstSeen l)).
  { unfold StrSet.has. simpl. destruct (str_eqb x y) eqn:E; [reflexivity|].
    simpl. apply eq_true_iff_eq. rewrite !existsb_exists. split.
    - intros [z [Hz Ez]]. apply filter_In in Hz. exists z. tauto.
    - intros [z [Hz Ez]]. exists z. split; [|exact Ez].
      apply filter_In. split; [exact Hz|]. apply str_eqb_eq in Ez. subst z.
      apply negb_true_iff. apply str_eqb_neq. apply str_eqb_neq in E. congruence. }
  rewrite Hin. destruct (StrSet.has x (firstSeen l)) eqn:Eh.
  - rewrite orb_true_r. reflexivity.
  - rewrite orb_false_r. rewrite filter_app_single.
    destruct (str_eqb x y) eqn:E.
    + apply str_eqb_eq in E. subst y. rewrite str_eqb_refl. simpl.
      rewrite app_nil_r. reflexivity.
    + assert (E' : str_eqb y x = false).
      { apply str_eqb_neq. apply str_eqb_neq in E. congruence. }
      rewrite E'. reflexivity.
Qed.

Lemma addAll_firstSeen (l : list jsstring) :
  forall pre, fold_left StrSet.add l (firstSeen pre) = firstSeen (pre ++ l).
Proof.
  induction l as [|x l IH]; intros pre; simpl; [rewrite app_nil_r; reflexivity|].
  rewrite <- firstSeen_snoc, IH, <- app_assoc. reflexivity.
Qed.

(** X2.  The merged lists are in first-seen order: each is the list of
    the chunks' items, chunk after chunk, with every repetition of an
    earlier item dropped. *)
Theorem merge_first_seen_order (chunks : list ChunkAnalysisResult) :
  let r := mergeChunkResultsManually chunks in
  patterns r = firstSeen (flat_map cr_patterns chunks)
  /\ anomalies r = firstSeen (flat_map cr_anomalies chunks)
  /\ rootCauses r = firstSeen (flat_map cr_rootCauses chunks).
Proof.
  intros r. subst r. destruct (merge_lists chunks) as [-> [-> ->]].
  repeat split; apply (addAll_firstSeen _ []).
Qed.

Lemma firstSeen_NoDup_id (l : list jsstring) : NoDup l -> firstSeen l = l.
Proof.
  induction l as [|x l IH]; intros H; [reflexivity|].
  inversion H as [|? ? Hx Hl]; subst. simpl. rewrite (IH Hl). f_equal.
  apply forallb_filter_id. apply forallb_forall. intros y Hy.
  apply negb_true_iff, str_eqb_neq. intros ->. contradiction.
Qed.

Lemma addAll_absorb (l : list jsstring) :
  forall s, incl l s -> fold_left StrSet.add l s = s.
Proof.
  induction l as [|x l IH]; intros s Hs; [reflexivity|].
  simpl. unfold StrSet.add at 2.
  replace (StrSet.has x s) with true
    by (symmetry; apply has_In, Hs; left; reflexivity).
  apply IH. intros y Hy. apply Hs. right. exact Hy.
Qed.

Lemma firstSeen_twice (l : list jsstring) :
  NoDup l -> firstSeen (l ++ l) = l.
Proof.
  intros H. rewrite <- (addAll_firstSeen l l), (firstSeen_NoDup_id l H).
  apply addAll_absorb, incl_refl.
Qed.

(** X3.  Merging is idempotent: a merged result, handed back as a chunk
    once or twice, merges to the same three lists. *)
Theorem merge_idempotent (chunks : list ChunkAnalysisResult) :
  let r := mergeChunkResultsManually chunks in
  let again := mergeChunkResultsManually [asChunk r; asChunk r] in
  let once := mergeChunkResultsManually [asChunk r] in
  patterns again = patterns r /\ anomalies again = anomalies r
  /\ rootCauses again = rootCauses r
  /\ patterns once = patterns r /\ anomalies once = anomalies r
  /\ rootCauses once = rootCauses r.
Proof.
  intros r again once.
  destruct (merge_lists chunks) as [Rp [Ra Rr]]. fold r in Rp, Ra, Rr.
  assert (Np : NoDup (patterns r))
    by (rewrite Rp; apply addAll_NoDup; constructor).
  assert (Na : NoDup (anomalies r))
    by (rewrite Ra; apply addAll_NoDup; constructor).
  assert (Nr : NoDup (rootCauses r))
    by (rewrite Rr; apply addAll_NoDup; constructor).
  destruct (merge_lists [asChunk r; asChunk r]) as [E1 [E2 E3]].
  destruct (merge_lists [asChunk r]) as [E4 [E5 E6]].
  subst again once. rewrite E1, E2, E3, E4, E5, E6.
  rewrite !(addAll_firstSeen _ []).
  simpl. rewrite !app_nil_r.
  rewrite !firstSeen_twice, !firstSeen_NoDup_id by assumption.
  repeat split.
Qed.

(* ================================================================== *)
(** * Similarity fallback: files and occurrences *)
(* ================================================================== *)

Section SharedFacts.

Variable toLowerCase : jsstring -> jsstring.

Lemma countItems_app (s : jsstring) (a b : list jsstring) :
  countItems toLowerCase s (a ++ b) = countItems toLowerCase s a +
      (countItems toLowerCase) s b.
Proof.
  unfold countItems. rewrite filter_app, length_app, Nat2Z.inj_add. reflexivity.
Qed.

Lemma countItems_nonneg (s : jsstring) (l : list jsstring) :
  0 <= countItems toLowerCase s l.
Proof. unfold countItems. lia. Qed.

Lemma countItems_listed (s : jsstring) (l : list jsstring) :
  existsb (fun it => str_eqb (toLowerCase it) s) l = true
      -> 1 <= countItems toLowerCase s l.
Proof.
  unfold countItems. induction l as [|x l IH]; simpl; [discriminate|].
  destruct (str_eqb (toLowerCase x) s); simpl; [lia|exact IH].
Qed.

Lemma countItems_not_listed (s : jsstring) (l : list jsstring) :
  existsb (fun it => str_eqb (toLowerCase it) s) l = false
      -> countItems toLowerCase s l = 0.
Proof.
  unfold countItems. induction l as [|x l IH]; simpl; [reflexivity|].
  destruct (str_eqb (toLowerCase x) s); simpl; [discriminate|exact IH].
Qed.

Lemma listed_In (s : jsstring) (l : list jsstring) :
  existsb (fun it => str_eqb (toLowerCase it) s) l = true <->
  In s (map toLowerCase l).
Proof.
  rewrite existsb_exists, in_map_iff. split.
  - intros [x [Hx E]]. apply str_eqb_eq in E. exists x. split; assumption.
  - intros [x [E Hx]]. exists x. split; [exact Hx|]. apply str_eqb_eq. exact E.
Qed.

(** In a list without case-insensitive repetition a key is counted once
    or not at all. *)
Lemma countItems_unique (s : jsstring) (l : list jsstring) :
  NoDup (map toLowerCase l) ->
  countItems toLowerCase s l =
  if existsb (fun it => str_eqb (toLowerCase it) s) l then 1 else 0.
Proof.
  induction l as [|x l IH]; intros H; [reflexivity|].
  simpl in H. inversion H as [|? ? Hx Hl]; subst.
  change (x :: l) with ([x] ++ l). rewrite countItems_app, (IH Hl).
  cbn [existsb app]. unfold countItems at 1. cbn [filter].
  destruct (str_eqb (toLowerCase x) s) eqn:E; cbn [orb List.length].
  - apply str_eqb_eq in E. subst s.
    destruct (existsb (fun it => str_eqb (toLowerCase it) (toLowerCase x)) l) eqn:El;
      [|reflexivity].
    apply listed_In in El. contradiction.
  - destruct (existsb _ l); reflexivity.
Qed.

Lemma filesListing_cons (sel : LogAnalysisResult -> list jsstring)
  (s : jsstring) (fr : FileAnalysisResult) (frs : list FileAnalysisResult) :
  filesListing toLowerCase sel s (fr :: frs) =
  (if existsb (fun it => str_eqb (toLowerCase it) s) (sel (analysis fr))
   then 1 else 0) + (filesListing toLowerCase) sel s frs.
Proof.
  unfold filesListing. cbn [filter].
  destruct (existsb _ (sel (analysis fr))); cbn [List.length]; lia.
Qed.

(** Files listing a key are at most the items counted for it. *)
Lemma filesListing_le_count (sel : LogAnalysisResult -> list jsstring)
  (s : jsstring) (frs : list FileAnalysisResult) :
  filesListing toLowerCase sel s frs <= countItems toLowerCase s (flat_map
      (fun fr => sel (analysis fr)) frs).
Proof.
  induction frs as [|fr frs IH]; [unfold filesListing, countItems; simpl; lia|].
  rewrite filesListing_cons. cbn [flat_map]. rewrite countItems_app.
  destruct (existsb _ (sel (analysis fr))) eqn:E.
  - apply countItems_listed in E. lia.
  - pose proof (countItems_nonneg s (sel (analysis fr))). lia.
Qed.

Lemma filesListing_eq_count (sel : LogAnalysisResult -> list jsstring)
  (s : jsstring) (frs : list FileAnalysisResult) :
  Forall (fun fr => NoDup (map toLowerCase (sel (analysis fr)))) frs ->
  filesListing toLowerCase sel s frs = countItems toLowerCase s (flat_map
      (fun fr => sel (analysis fr)) frs).
Proof.
  induction frs as [|fr frs IH]; intros H; [reflexivity|].
  inversion H as [|? ? Hfr Hfrs]; subst.
  rewrite filesListing_cons. cbn [flat_map].
  rewrite countItems_app, (IH Hfrs), (countItems_unique s _ Hfr). reflexivity.
Qed.

(** X4.  An item that two or more of the files list, in whatever case,
    is always reported: its lower-cased form is in the shared list. *)
Theorem listed_by_two_files_is_shared (fileResults : list FileAnalysisResult)
  (s : jsstring) :
  let r := findSimilaritiesManually toLowerCase fileResults in
  (2 <= filesListing toLowerCase patterns s fileResults
      -> In s (sharedPatterns r))
  /\ (2 <= filesListing toLowerCase anomalies s fileResults
      -> In s (sharedAnomalies r))
  /\ (2 <= filesListing toLowerCase rootCauses s fileResults
      -> In s (sharedRootCauses r)).
Proof.
  intros r. subst r.
  destruct (fallback_counts_occurrences toLowerCase fileResults s)
    as [Hp [Ha [Hr _]]].
  pose proof (filesListing_le_count patterns s fileResults).
  pose proof (filesListing_le_count anomalies s fileResults).
  pose proof (filesListing_le_count rootCauses s fileResults).
  repeat split; intros H2; [apply Hp|apply Ha|apply Hr]; lia.
Qed.

(** X5.  When no file repeats an item within one of its lists, the
    fallback reports exactly the items that at least two files list. *)
Theorem shared_iff_two_files (fileResults : list FileAnalysisResult)
  (s : jsstring) :
  noRepeats toLowerCase fileResults ->
  let r := findSimilaritiesManually toLowerCase fileResults in
  (In s (sharedPatterns r)
   <-> 2 <= filesListing toLowerCase patterns s fileResults)
  /\ (In s (sharedAnomalies r)
      <-> 2 <= filesListing toLowerCase anomalies s fileResults)
  /\ (In s (sharedRootCauses r)
      <-> 2 <= filesListing toLowerCase rootCauses s fileResults).
Proof.
  intros H r. subst r.
  destruct (fallback_counts_occurrences toLowerCase fileResults s)
    as [Hp [Ha [Hr _]]].
  rewrite Hp, Ha, Hr.
  rewrite (filesListing_eq_count patterns), (filesListing_eq_count anomalies),
    (filesListing_eq_count rootCauses);
    [tauto| | |]; eapply Forall_impl; try exact H; cbv beta; tauto.
Qed.

Lemma shared_NoDup (counts : StrMap.t Z) :
  NoDup (map fst counts) -> NoDup (shared counts).
Proof.
  unfold shared. induction counts as [|[k v] counts IH]; intros H; [constructor|].
  simpl in H. inversion H as [|? ? Hk Hc]; subst. simpl.
  destruct (v >=? threshold); [|apply IH; exact Hc].
  simpl. constructor; [|apply IH; exact Hc].
  intros K. apply in_map_iff in K. destruct K as [e [E K]].
  apply filter_In in K. apply Hk. rewrite <- E. apply in_map. apply K.
Qed.

(** X6.  No string is reported twice in a shared list. *)
Theorem shared_lists_without_repetition
  (fileResults : list FileAnalysisResult) :
  let r := findSimilaritiesManually toLowerCase fileResults in
  NoDup (sharedPatterns r) /\ NoDup (sharedAnomalies r)
  /\ NoDup (sharedRootCauses r).
Proof.
  intros r. subst r. unfold findSimilaritiesManually.
  rewrite countStep_split. cbv zeta.
  cbn [sharedPatterns sharedAnomalies sharedRootCauses].
  repeat split; apply shared_NoDup, fold_bump_NoDup; constructor.
Qed.

End SharedFacts.

Lemma shared_iff_two_files_witness :
  let f1 := mkFileResult (str "a.log") 10
              (mkResult [str "Timeout"; str "Retry"] [] [] (str "")) in
  let f2 := mkFileResult (str "b.log") 10
              (mkResult [str "timeout"] [] [] (str "")) in
  let r := findSimilaritiesManually toLowerCase [f1; f2] in
  (In (str "timeout") (sharedPatterns r)
     <-> 2 <= filesListing toLowerCase patterns (str "timeout") [f1; f2])
  /\ (In (str "timeout") (sharedAnomalies r)
     <-> 2 <= filesListing toLowerCase anomalies (str "timeout") [f1; f2])
  /\ (In (str "timeout") (sharedRootCauses r)
     <-> 2 <= filesListing toLowerCase rootCauses (str "timeout") [f1; f2]).
Proof.
  intros f1 f2.
  apply (shared_iff_two_files toLowerCase [f1; f2] (str "timeout")).
  repeat constructor; vm_compute; intuition discriminate.
Defined.

(* ================================================================== *)
(** * Chunk splitter: chunks are closed only when full *)
(* ================================================================== *)

Lemma greedy_snoc (S_max L_max : Z) (gs : list (list jsstring))
  (g : list jsstring) (next : jsstring) :
  g <> [] -> Forall (fun x => x <> []) gs ->
  greedy S_max L_max (gs ++ [g]) -> closedOk S_max L_max g next ->
  greedy S_max L_max ((gs ++ [g]) ++ [[next]]).
Proof.
  intros Hg Hne. induction gs as [|h gs IH]; intros H Hc.
  - simpl. tauto.
  - inversion Hne as [|? ? Hh Hgs]; subst.
    simpl in H. destruct H as [H1 H2]. specialize (IH Hgs H2 Hc).
    change (((h :: gs) ++ [g]) ++ [[next]]) with (h :: ((gs ++ [g]) ++ [[next]])).
    cbn [greedy]. split; [|exact IH].
    destruct gs as [|h2 gs]; simpl in *; [destruct g; tauto|].
    destruct h2; tauto.
Qed.

Lemma greedy_grow (S_max L_max : Z) (gs : list (list jsstring))
  (cur : list jsstring) (l : jsstring) :
  (cur = [] -> gs = []) ->
  greedy S_max L_max (gs ++ [cur]) -> greedy S_max L_max (gs ++ [cur ++ [l]]).
Proof.
  induction gs as [|h gs IH]; intros Hc H.
  - simpl. tauto.
  - assert (Hcur : cur <> []) by (intros E; specialize (Hc E); discriminate).
    simpl in H. destruct H as [H1 H2].
    change ((h :: gs) ++ [cur ++ [l]]) with (h :: (gs ++ [cur ++ [l]])).
    cbn [greedy]. split.
    + destruct gs as [|h2 gs]; simpl in *.
      * destruct cur; [congruence|exact H1].
      * exact H1.
    + apply IH; [|exact H2]. intros E. congruence.
Qed.

Lemma greedy_drop_empty (S_max L_max : Z) (gs : list (list jsstring)) :
  greedy S_max L_max (gs ++ [[]]) -> greedy S_max L_max gs.
Proof.
  induction gs as [|h gs IH]; intros H; [exact I|].
  simpl in H. destruct H as [H1 H2]. cbn [greedy]. split; [|apply IH; exact H2].
  destruct gs as [|h2 gs]; [exact I|exact H1].
Qed.

(** The loop invariant of the splitter, with the reason for every
    closed chunk. *)
Lemma splitLoop_greedy (S_max L_max : Z) (lines : list jsstring) :
  forall (i : Z) (st : SplitState) (groups : list (list jsstring)),
    chunks st = chunksOf 1 groups ->
    Forall (fun g => g <> []) groups ->
    chunkStartLine st = Z.of_nat (List.length (List.concat groups)) ->
    i = chunkStartLine st + Z.of_nat (List.length (currentChunk st)) ->
    currentSize st = groupSize (currentChunk st) ->
    (currentChunk st = [] -> groups = []) ->
    greedy S_max L_max (groups ++ [currentChunk st]) ->
    (0 < L_max ->
     Forall (okGroup S_max L_max) groups
     /\ (currentChunk st = [] \/ okGroup S_max L_max (currentChunk st))) ->
    exists groups',
      splitFinish (i + Z.of_nat (List.length lines))
        (splitLoop S_max L_max lines i st) = chunksOf 1 groups'
      /\ Forall (fun g => g <> []) groups'
      /\ List.concat groups' = List.concat groups ++ currentChunk st ++ lines
      /\ greedy S_max L_max groups'
      /\ (0 < L_max -> Forall (okGroup S_max L_max) groups').
Proof.
  induction lines as [|l lines IH];
    intros i st groups Hc Hne Hs Hi Hsz Hemp Hgr Hok.
  - simpl splitLoop. unfold splitFinish.
    destruct (currentChunk st) as [|x cur] eqn:Ecur.
    + exists groups. simpl. rewrite app_nil_r.
      repeat split; try assumption.
      * apply greedy_drop_empty. exact Hgr.
      * intros HL. apply Hok; assumption.
    + exists (groups ++ [x :: cur]).
      replace (Z.of_nat (List.length (x :: cur)) >? 0) with true
        by (symmetry; apply Z.gtb_lt; simpl List.length; lia).
      rewrite chunksOf_app, Hc. repeat split.
      * f_equal. f_equal. f_equal. simpl List.length in *. f_equal; lia.
      * apply Forall_app; split; [assumption|].
        constructor; [discriminate|constructor].
      * rewrite concat_app. simpl. rewrite !app_nil_r. reflexivity.
      * exact Hgr.
      * intros HL. destruct (Hok HL) as [Hg [Hcur|Hcur]]; [discriminate Hcur|].
        apply Forall_app; split; [assumption|].
        constructor; [assumption|constructor].
  - simpl splitLoop. unfold splitStep.
    destruct (((currentSize st + lineSize l >? S_max)
               || (Z.of_nat (List.length (currentChunk st)) >=? L_max))
              && (Z.of_nat (List.length (currentChunk st)) >? 0)) eqn:Econd.
    + apply andb_true_iff in Econd. destruct Econd as [Efull Epos].
      apply Z.gtb_lt in Epos.
      assert (Hcur : currentChunk st <> []).
      { intros E. rewrite E in Epos. simpl in Epos. lia. }
      assert (Hclosed : closedOk S_max L_max (currentChunk st) l).
      { apply orb_true_iff in Efull. destruct Efull as [E|E].
        - left. apply Z.gtb_lt in E. lia.
        - right. rewrite Z.geb_leb in E. apply Z.leb_le in E. exact E. }
      destruct (IH (i + 1)
                  (mkSplit
                     (chunks st ++
                        [mkChunk (join [LF] (currentChunk st))
                           (mkLineRange (chunkStartLine st + 1) i)])
                     [l] (lineSize l) i)
                  (groups ++ [currentChunk st]))
        as [groups' [H1 [H2 [H3 [H4 H5]]]]].
      * simpl. rewrite chunksOf_app, Hc. f_equal. f_equal. f_equal. f_equal; lia.
      * apply Forall_app; split; [assumption|].
        constructor; [assumption|constructor].
      * simpl. rewrite concat_app, length_app. simpl.
        rewrite app_nil_r, Nat2Z.inj_add. lia.
      * simpl. lia.
      * simpl. lia.
      * simpl. discriminate.
      * simpl. apply greedy_snoc; assumption.
      * intros HL. destruct (Hok HL) as [Hg Hc']. simpl. split.
        -- apply Forall_app; split; [assumption|]. constructor; [|constructor].
           destruct Hc' as [E|Hc']; [congruence|assumption].
        -- right. split; [simpl; lia|]. right. exists l. reflexivity.
      * exists groups'. simpl in H1, H3.
        replace (i + Z.of_nat (List.length (l :: lines)))
          with (i + 1 + Z.of_nat (List.length lines))
          by (simpl List.length; lia).
        repeat split; try assumption.
        rewrite H3, concat_app. simpl. rewrite app_nil_r, <- app_assoc. reflexivity.
    + destruct (IH (i + 1)
                  (mkSplit (chunks st) (currentChunk st ++ [l])
                     (currentSize st + lineSize l) (chunkStartLine st))
                  groups) as [groups' [H1 [H2 [H3 [H4 H5]]]]]; try assumption.
      * simpl. rewrite length_app, Nat2Z.inj_add. simpl. lia.
      * simpl. rewrite groupSize_app. simpl. lia.
      * simpl. intros E. destruct (currentChunk st); discriminate E.
      * simpl. apply greedy_grow; assumption.
      * intros HL. destruct (Hok HL) as [Hg Hc']. simpl. split; [assumption|].
        right. apply andb_false_iff in Econd.
        destruct (currentChunk st) as [|x cur] eqn:Ecur.
        -- simpl. split; [simpl; lia|]. right. exists l. reflexivity.
        -- destruct Econd as [Econd|Econd];
             [|rewrite Z.gtb_ltb in Econd; apply Z.ltb_ge in Econd;
               simpl List.length in Econd; lia].
           apply orb_false_iff in Econd. destruct Econd as [E1 E2].
           rewrite Z.gtb_ltb in E1. apply Z.ltb_ge in E1.
           rewrite Z.geb_leb in E2. apply Z.leb_gt in E2.
           split.
           ++ rewrite length_app, Nat2Z.inj_add. simpl List.length at 2. lia.
           ++ left. rewrite groupSize_app. simpl groupSize at 2. lia.
      * exists groups'. simpl in H1, H3.
        replace (i + Z.of_nat (List.length (l :: lines)))
          with (i + 1 + Z.of_nat (List.length lines))
          by (simpl List.length; lia).
        repeat split; try assumption.
        rewrite H3, <- !app_assoc. reflexivity.
Qed.

Lemma splitIntoChunks_greedy (S_max L_max : Z) (lines : list jsstring) :
  exists groups,
    splitIntoChunks S_max L_max lines = chunksOf 1 groups
    /\ Forall (fun g => g <> []) groups
    /\ List.concat groups = lines
    /\ greedy S_max L_max groups
    /\ (0 < L_max -> Forall (okGroup S_max L_max) groups).
Proof.
  unfold splitIntoChunks.
  assert (Hinit : 0 < L_max ->
            Forall (okGroup S_max L_max) []
            /\ (currentChunk (mkSplit [] [] 0 0) = []
                \/ okGroup S_max L_max (currentChunk (mkSplit [] [] 0 0)))).
  { intros _. split; [constructor|left; reflexivity]. }
  destruct (splitLoop_greedy S_max L_max lines 0 (mkSplit [] [] 0 0) []
              eq_refl (Forall_nil _) eq_refl eq_refl eq_refl
              (fun _ => eq_refl) (conj I I) Hinit)
    as [groups [H1 [H2 [H3 [H4 H5]]]]].
  exists groups. simpl in H1, H3. repeat split; assumption.
Qed.

Lemma chunksOf_nth (gs : list (list jsstring)) :
  forall first i c,
    nth_error (chunksOf first gs) i = Some c ->
    exists g, nth_error gs i = Some g /\ content c = join [LF] g
              /\ rangeLines c = Z.of_nat (List.length g).
Proof.
  induction gs as [|g gs IH]; intros first i c H; [destruct i; discriminate|].
  destruct i as [|i].
  - simpl in H. injection H as <-. exists g. unfold rangeLines. simpl.
    repeat split; try reflexivity. lia.
  - simpl in H. destruct (IH _ _ _ H) as [g' Hg']. exists g'. exact Hg'.
Qed.

Lemma greedy_nth (S_max L_max : Z) (gs : list (list jsstring)) :
  forall i g next r,
    greedy S_max L_max gs ->
    nth_error gs i = Some g -> nth_error gs (S i) = Some (next :: r) ->
    closedOk S_max L_max g next.
Proof.
  induction gs as [|h gs IH]; intros i g next r H Hg Hn; [destruct i; discriminate|].
  cbn [greedy] in H. destruct H as [H1 H2]. destruct i as [|i].
  - simpl in Hg, Hn. injection Hg as <-. destruct gs as [|h2 gs]; [discriminate|].
    simpl in Hn. injection Hn as ->. exact H1.
  - simpl in Hg. eapply IH; eassumption.
Qed.

Lemma nth_error_Forall {A} (P : A -> Prop) (l : list A) (i : nat) (x : A) :
  Forall P l -> nth_error l i = Some x -> P x.
Proof.
  intros H Hx. apply nth_error_In in Hx. rewrite Forall_forall in H. auto.
Qed.

Lemma concat_no_sep (gs : list (list jsstring)) (g : list jsstring) :
  Forall (fun l => ~ In LF l) (List.concat gs) -> In g gs ->
  Forall (fun l => ~ In LF l) g.
Proof.
  intros H Hg. apply Forall_forall. intros l Hl.
  rewrite Forall_forall in H. apply H. apply in_concat. exists g. tauto.
Qed.

(** X7.  A chunk is closed only when it is full: of two chunks in a
    row, the first could not take the first line of the second without
    passing the size threshold, or it already holds [L_max] lines. *)
Theorem chunk_closed_only_when_full (S_max L_max : Z) (text : jsstring)
  (i : nat) (a b : ChunkDescriptor) :
  let cs := splitIntoChunks S_max L_max (split LF text) in
  nth_error cs i = Some a -> nth_error cs (S i) = Some b ->
  exists next rest,
    split LF (content b) = next :: rest
    /\ (S_max < groupSize (split LF (content a)) + lineSize next
        \/ L_max <= Z.of_nat (List.length (split LF (content a)))).
Proof.
  intros cs Ha Hb. subst cs.
  destruct (splitIntoChunks_greedy S_max L_max (split LF text))
    as [groups [Hcs [Hne [Hcat [Hgr _]]]]].
  rewrite Hcs in Ha, Hb.
  destruct (chunksOf_nth _ _ _ _ Ha) as [ga [Hga [Ca _]]].
  destruct (chunksOf_nth _ _ _ _ Hb) as [gb [Hgb [Cb _]]].
  assert (Hlf : Forall (fun l => ~ In LF l) (List.concat groups))
    by (rewrite Hcat; apply split_no_sep).
  pose proof (nth_error_Forall _ _ _ _ Hne Hga) as Na.
  pose proof (nth_error_Forall _ _ _ _ Hne Hgb) as Nb.
  rewrite Ca, Cb, !split_join;
    try assumption;
    try (eapply concat_no_sep; [exact Hlf|eapply nth_error_In; eassumption]).
  destruct gb as [|next rest]; [congruence|].
  exists next, rest. split; [reflexivity|].
  exact (greedy_nth _ _ _ _ _ _ _ Hgr Hga Hgb).
Qed.

Lemma chunk_closed_only_when_full_witness :
  let a := mkChunk (str "abc" ++ [LF] ++ str "de") (mkLineRange 1 2) in
  let b := mkChunk (str "gggggggggggg") (mkLineRange 3 3) in
  exists next rest,
    split LF (content b) = next :: rest
    /\ (10 < groupSize (split LF (content a)) + lineSize next
        \/ 2 <= Z.of_nat (List.length (split LF (content a)))).
Proof.
  intros a b.
  apply (chunk_closed_only_when_full 10 2
           (str "abc" ++ [LF] ++ str "de" ++ [LF] ++ str "gggggggggggg"
            ++ [LF] ++ str "h") 0 a b); reflexivity.
Defined.

Lemma groupSize_nonneg (g : list jsstring) : 0 <= groupSize g.
Proof.
  induction g as [|l g IH]; simpl; [lia|]. unfold lineSize, len. lia.
Qed.

Lemma groupSize_concat_head (g : list jsstring) (next : jsstring)
  (r : list jsstring) (tl : list (list jsstring)) :
  groupSize g + lineSize next <= groupSize (List.concat (g :: (next :: r) :: tl)).
Proof.
  simpl List.concat. rewrite groupSize_app.
  change (groupSize (next :: r ++ List.concat tl))
    with (lineSize next + groupSize (r ++ List.concat tl)).
  pose proof (groupSize_nonneg (r ++ List.concat tl)). lia.
Qed.

(** X8.  A text within both thresholds is one chunk: the whole text,
    with the range from 1 to its number of lines. *)
Theorem small_text_single_chunk (S_max L_max : Z) (text : jsstring) :
  groupSize (split LF text) <= S_max ->
  Z.of_nat (List.length (split LF text)) <= L_max ->
  splitIntoChunks S_max L_max (split LF text) =
  [mkChunk text (mkLineRange 1 (Z.of_nat (List.length (split LF text))))].
Proof.
  intros HS HL.
  destruct (splitIntoChunks_greedy S_max L_max (split LF text))
    as [groups [Hcs [Hne [Hcat [Hgr _]]]]].
  rewrite Hcs.
  destruct groups as [|g [|g2 tl]].
  - simpl in Hcat. pose proof (split_nonempty LF text). congruence.
  - simpl in Hcat. rewrite app_nil_r in Hcat. subst g. cbn [chunksOf].
    rewrite join_split. f_equal. f_equal. f_equal. lia.
  - exfalso. inversion Hne as [|? ? Hg Hne2]; subst.
    inversion Hne2 as [|? ? Hg2 _]; subst.
    destruct g2 as [|next r]; [congruence|].
    cbn [greedy] in Hgr. destruct Hgr as [[Hc|Hc] _].
    + pose proof (groupSize_concat_head g next r tl) as H. rewrite Hcat in H. lia.
    + rewrite <- Hcat in HL. simpl List.concat in HL.
      rewrite !length_app in HL. simpl List.length in HL. lia.
Qed.

Lemma small_text_single_chunk_witness :
  splitIntoChunks CHUNK_SIZE MAX_LINES_PER_CHUNK
    (split LF (str "first line" ++ [LF] ++ str "second line")) =
  [mkChunk (str "first line" ++ [LF] ++ str "second line")
     (mkLineRange 1
        (Z.of_nat (List.length
           (split LF (str "first line" ++ [LF] ++ str "second line")))))].
Proof.
  apply small_text_single_chunk; vm_compute; discriminate.
Defined.

Lemma groupSize_bound (w : Z) (g : list jsstring) :
  Forall (fun l => lineSize l <= w) g ->
  groupSize g <= Z.of_nat (List.length g) * w.
Proof.
  induction g as [|l g IH]; intros H; [simpl; lia|].
  inversion H as [|? ? Hl Hg]; subst. specialize (IH Hg).
  simpl groupSize. simpl List.length. lia.
Qed.

Lemma greedy_fullBlocks (S_max L_max w : Z) (gs : list (list jsstring)) :
  w * L_max <= S_max ->
  Forall (fun l => lineSize l <= w) (List.concat gs) ->
  Forall (fun g => g <> []) gs ->
  Forall (okGroup S_max L_max) gs ->
  greedy S_max L_max gs -> fullBlocks L_max gs.
Proof.
  intros Hw. induction gs as [|g tl IH]; intros Hb Hne Hok Hgr; [exact I|].
  inversion Hne as [|? ? Hg Hne']; subst. inversion Hok as [|? ? Og Hok']; subst.
  simpl List.concat in Hb. apply Forall_app in Hb. destruct Hb as [Bg Btl].
  cbn [greedy] in Hgr. destruct Hgr as [Hc Hgr].
  cbn [fullBlocks]. split; [|apply IH; assumption].
  destruct Og as [Olen _].
  destruct tl as [|g2 tl].
  - destruct g; [congruence|simpl List.length in *; lia].
  - inversion Hne' as [|? ? Hg2 _]; subst. destruct g2 as [|next r]; [congruence|].
    simpl List.concat in Btl. inversion Btl as [|? ? Bn _]; subst.
    destruct Hc as [Hc|Hc]; [|lia].
    pose proof (groupSize_bound w g Bg) as Hgs.
    assert (0 < w) by (unfold lineSize, len in Bn; lia).
    destruct (Z_lt_ge_dec (Z.of_nat (List.length g)) L_max) as [Hlt|Hge]; [|lia].
    exfalso. nia.
Qed.

Lemma fullBlocks_ranges (L_max : Z) (gs : list (list jsstring)) :
  0 < L_max ->
  forall first i c,
    fullBlocks L_max gs ->
    nth_error (chunksOf first gs) i = Some c ->
    start (lineRange c) = first + Z.of_nat i * L_max
    /\ end_ (lineRange c) =
       Z.min (first - 1 + (Z.of_nat i + 1) * L_max)
             (first - 1 + Z.of_nat (List.length (List.concat gs))).
Proof.
  intros HL.
  induction gs as [|g tl IH]; intros first i c Hf Hc; [destruct i; discriminate|].
  cbn [fullBlocks] in Hf. destruct Hf as [Hg Htl].
  simpl List.concat. rewrite length_app, Nat2Z.inj_add.
  destruct i as [|i].
  - simpl in Hc. injection Hc as <-. simpl start. simpl end_.
    destruct tl as [|g2 tl]; [cbn [List.concat List.length]; lia|].
    cbn [fullBlocks] in Htl. destruct Htl as [Hg2 _].
    assert (1 <= Z.of_nat (List.length g2)) by (destruct tl; lia).
    simpl List.concat. rewrite length_app, Nat2Z.inj_add. lia.
  - simpl in Hc. destruct tl as [|g2 tl]; [destruct i; discriminate|].
    destruct (IH _ _ _ Htl Hc) as [E1 E2].
    rewrite E1, E2. rewrite Hg. rewrite Nat2Z.inj_succ. split; [lia|].
    f_equal; lia.
Qed.

(** X9.  When [L_max] lines always fit the size threshold (every line
    counts at most [w] and [w * L_max <= S_max]), the chunks are the
    consecutive blocks of [L_max] lines: chunk number [i], from 0, runs
    from line [i * L_max + 1] to line [(i + 1) * L_max], or to the last
    line if that comes first. *)
Theorem uniform_lines_blocks (S_max L_max w : Z) (text : jsstring)
  (i : nat) (c : ChunkDescriptor) :
  0 < L_max -> w * L_max <= S_max ->
  Forall (fun l => lineSize l <= w) (split LF text) ->
  nth_error (splitIntoChunks S_max L_max (split LF text)) i = Some c ->
  start (lineRange c) = Z.of_nat i * L_max + 1
  /\ end_ (lineRange c) =
     Z.min ((Z.of_nat i + 1) * L_max) (Z.of_nat (List.length (split LF text))).
Proof.
  intros HL Hw Hb Hc.
  destruct (splitIntoChunks_greedy S_max L_max (split LF text))
    as [groups [Hcs [Hne [Hcat [Hgr Hok]]]]].
  rewrite Hcs in Hc. rewrite <- Hcat in Hb.
  pose proof (greedy_fullBlocks S_max L_max w groups Hw Hb Hne (Hok HL) Hgr) as Hf.
  destruct (fullBlocks_ranges L_max groups HL 1 i c Hf Hc) as [E1 E2].
  rewrite Hcat in E2. rewrite E1, E2. split; [lia|]. f_equal; lia.
Qed.

Lemma uniform_lines_blocks_witness :
  let c := mkChunk (str "cc" ++ [LF] ++ str "dd") (mkLineRange 3 4) in
  start (lineRange c) = Z.of_nat 1 * 2 + 1
  /\ end_ (lineRange c) =
     Z.min ((Z.of_nat 1 + 1) * 2)
       (Z.of_nat (List.length
          (split LF (str "aa" ++ [LF] ++ str "bb" ++ [LF] ++ str "cc" ++ [LF]
                     ++ str "dd" ++ [LF] ++ str "ee")))).
Proof.
  intros c.
  apply (uniform_lines_blocks 100 2 3
           (str "aa" ++ [LF] ++ str "bb" ++ [LF] ++ str "cc" ++ [LF]
            ++ str "dd" ++ [LF] ++ str "ee") 1 c).
  - reflexivity.
  - vm_compute. discriminate.
  - vm_compute. repeat constructor; discriminate.
  - reflexivity.
Defined.

Lemma chunksOf_length (gs : list (list jsstring)) :
  forall first, List.length (chunksOf first gs) = List.length gs.
Proof.
  induction gs as [|g gs IH]; intros first; simpl; [reflexivity|].
  rewrite IH. reflexivity.
Qed.

Lemma groups_count (S_max L_max : Z) (gs : list (list jsstring)) :
  Forall (fun g => g <> []) gs -> Forall (okGroup S_max L_max) gs ->
  Z.of_nat (List.length gs) <= Z.of_nat (List.length (List.concat gs))
  /\ Z.of_nat (List.length (List.concat gs)) <= L_max * Z.of_nat (List.length gs).
Proof.
  induction gs as [|g gs IH]; intros Hne Hok; [simpl; lia|].
  inversion Hne as [|? ? Hg Hne']; subst. inversion Hok as [|? ? Og Hok']; subst.
  destruct (IH Hne' Hok') as [I1 I2]. destruct Og as [Olen _].
  simpl List.concat. rewrite length_app. simpl List.length.
  assert (1 <= Z.of_nat (List.length g)) by (destruct g; [congruence|simpl; lia]).
  lia.
Qed.

(** X10.  With a positive line threshold, a text of [n] lines gives at
    most [n] chunks and at least [n / L_max] of them. *)
Theorem chunk_count_bounds (S_max L_max : Z) (text : jsstring) :
  0 < L_max ->
  let n := Z.of_nat (List.length (split LF text)) in
  let k := Z.of_nat (List.length (splitIntoChunks S_max L_max (split LF text))) in
  1 <= k <= n /\ n <= L_max * k.
Proof.
  intros HL n k. subst n k.
  destruct (splitIntoChunks_groups S_max L_max (split LF text))
    as [groups [Hcs [Hne [Hcat Hok]]]].
  rewrite Hcs, chunksOf_length.
  destruct (groups_count S_max L_max groups Hne (Hok HL)) as [I1 I2].
  rewrite Hcat in I1, I2.
  assert (groups <> []).
  { intros ->. simpl in Hcat. pose proof (split_nonempty LF text). congruence. }
  destruct groups; [congruence|]. simpl List.length in *. lia.
Qed.

Lemma chunk_count_bounds_witness :
  let text := str "aa" ++ [LF] ++ str "bb" ++ [LF] ++ str "cc" in
  let n := Z.of_nat (List.length (split LF text)) in
  let k := Z.of_nat (List.length (splitIntoChunks 100 2 (split LF text))) in
  1 <= k <= n /\ n <= 2 * k.
Proof.
  intros text. apply (chunk_count_bounds 100 2 text). reflexivity.
Defined.

(* ================================================================== *)
(** * Exact-line matcher: what a match reports *)
(* ================================================================== *)

Section MatchFacts.

Variable toLowerCase : jsstring -> jsstring.

Lemma set_In_strict {V} (k k0 : jsstring) (v v0 : V) (mp : StrMap.t V) :
  NoDup (map fst mp) ->
  In (k, v) (StrMap.set k0 v0 mp) ->
  (k = k0 /\ v = v0) \/ (k <> k0 /\ In (k, v) mp).
Proof.
  induction mp as [|[k' v'] mp IH]; simpl; intros Hnd.
  - intros [H|[]]. injection H as <- <-. left; split; reflexivity.
  - inversion Hnd as [|? ? Hk Hnd']; subst.
    destruct (str_eqb k' k0) eqn:E.
    + apply str_eqb_eq in E. subst k'. intros [H|H].
      * injection H as <- <-. left; split; reflexivity.
      * right. split; [|right; exact H].
        intros ->. apply Hk. change k0 with (fst (k0, v)). apply in_map. exact H.
    + apply str_eqb_neq in E. intros [H|H].
      * injection H as <- <-. right. split; [exact E|left; reflexivity].
      * destruct (IH Hnd' H) as [K|[K1 K2]]; [left; exact K|].
        right. split; [exact K1|right; exact K2].
Qed.

Section RecordInvariant.

Variable E : jsstring -> jsstring -> Category -> Prop.
Variable Q : jsstring -> jsstring -> Z -> Prop.

Lemma record_inv (fname : jsstring) (n : Z) (o k : jsstring)
  (lm : StrMap.t Entry) :
  mapInv E Q lm -> E k o (categorize toLowerCase o) -> Q k fname (n + 1) ->
  mapInv E Q (record toLowerCase fname n o k lm).
Proof.
  intros Hall HE HQ. unfold record.
  set (lm1 := if negb (StrMap.has k lm)
              then StrMap.set k (mkEntry o []
                  (categorize toLowerCase o)) lm else lm).
  assert (Hall1 : mapInv E Q lm1).
  { subst lm1. destruct (negb (StrMap.has k lm)); [|exact Hall].
    intros k' e' Hin. apply set_In in Hin. destruct Hin as [[-> ->]|Hin].
    - split; [exact HE|]. split; [constructor|]. intros f nums [].
    - apply Hall; exact Hin. }
  destruct (StrMap.get k lm1) as [entry|] eqn:Eg; [|exact Hall1].
  apply get_In in Eg. destruct (Hall1 _ _ Eg) as [Ee [Eo EQ]].
  intros k' e' Hin. apply set_In in Hin.
  destruct Hin as [[-> ->]|Hin]; [|apply Hall1; exact Hin].
  set (occ1 := if negb (StrMap.has fname (entryOccurrences entry))
               then StrMap.set fname [] (entryOccurrences entry)
               else entryOccurrences entry).
  assert (Hocc1 : NoDup (map fst occ1)
                  /\ forall f nums, In (f, nums) occ1 ->
                       (f = fname /\ nums = []) \/ (nums <> [] /\ Forall (Q k f) nums)).
  { subst occ1. destruct (negb (StrMap.has fname (entryOccurrences entry))).
    - split; [apply set_keys_NoDup; exact Eo|].
      intros f nums Hin. apply set_In in Hin.
      destruct Hin as [[-> ->]|Hin]; [left; split; reflexivity|right; eapply EQ; exact Hin].
    - split; [exact Eo|]. intros f nums Hin. right. eapply EQ; exact Hin. }
  destruct Hocc1 as [Ho1 HQ1].
  split; [exact Ee|]. cbn [entryOccurrences].
  destruct (StrMap.get fname occ1) as [nums0|] eqn:Eg1.
  - split; [apply set_keys_NoDup; exact Ho1|].
    intros f nums Hin. apply (set_In_strict _ _ _ _ _ Ho1) in Hin.
    destruct Hin as [[-> ->]|[Hne Hin]].
    + split; [destruct nums0; discriminate|].
      apply Forall_app. split; [|constructor; [exact HQ|constructor]].
      apply get_In in Eg1. destruct (HQ1 _ _ Eg1) as [[_ ->]|[_ H]];
        [constructor|exact H].
    + destruct (HQ1 _ _ Hin) as [[-> _]|H]; [congruence|exact H].
  - split; [exact Ho1|]. intros f nums Hin.
    destruct (HQ1 _ _ Hin) as [[-> ->]|H]; [|exact H].
    exfalso. apply get_None in Eg1. apply Eg1.
    change fname with (fst (fname, @nil Z)). apply in_map. exact Hin.
Qed.

Lemma scanLines_inv (fname : jsstring) (ls : list jsstring) :
  forall n lm,
    mapInv E Q lm ->
    (forall j l o k, nth_error ls j = Some l -> lineKey toLowerCase l
        = Some (o, k) ->
       E k o (categorize toLowerCase o) /\ Q k fname (n + Z.of_nat j + 1)) ->
    mapInv E Q (scanLines toLowerCase fname ls n lm).
Proof.
  induction ls as [|l ls IH]; intros n lm Hlm HP; simpl; [exact Hlm|].
  apply IH.
  - destruct (lineKey toLowerCase l) as [[o k]|] eqn:El; [|exact Hlm].
    destruct (HP 0%nat l o k eq_refl El) as [H1 H2].
    apply record_inv; [exact Hlm|exact H1|].
    replace (n + 1) with (n + Z.of_nat 0 + 1) by lia. exact H2.
  - intros j l' o k Hj Hk. destruct (HP (S j) l' o k Hj Hk) as [H1 H2].
    split; [exact H1|]. replace (n + 1 + Z.of_nat j + 1)
      with (n + Z.of_nat (S j) + 1) by lia. exact H2.
Qed.

End RecordInvariant.

Lemma lineAt_nth (file : FileContent) (j : nat) (l : jsstring) :
  nth_error (split LF (fc_content file)) j = Some l ->
  lineAt file (Z.of_nat j + 1) = Some l.
Proof.
  intros H. unfold lineAt.
  replace (Z.of_nat j + 1 <? 1) with false by (symmetry; apply Z.ltb_ge; lia).
  replace (Z.to_nat (Z.of_nat j + 1 - 1)) with j by lia. exact H.
Qed.

Lemma hasKey_lineKey (k l o : jsstring) :
  lineKey toLowerCase l = Some (o, k) -> hasKey toLowerCase k l = true.
Proof. intros H. unfold hasKey. rewrite H. apply str_eqb_refl. Qed.

Lemma buildLineMap_inv (files : list FileContent) :
  mapInv (shownLine toLowerCase files) (numberedLine toLowerCase files)
      (buildLineMap toLowerCase files).
Proof.
  unfold buildLineMap.
  assert (G : forall fs lm,
             incl fs files ->
             mapInv (shownLine toLowerCase files)
                 (numberedLine toLowerCase files) lm ->
             mapInv (shownLine toLowerCase files)
                 (numberedLine toLowerCase files)
               (fold_left (scanFile toLowerCase) fs lm)).
  { induction fs as [|file fs IH]; intros lm Hin Hlm; simpl; [exact Hlm|].
    apply IH; [intros x Hx; apply Hin; right; exact Hx|].
    unfold scanFile. apply scanLines_inv; [exact Hlm|].
    intros j l o k Hj Hk.
    assert (Hf : In file files) by (apply Hin; left; reflexivity).
    split.
    - split; [reflexivity|]. exists file, l. split; [exact Hf|].
      split; [eapply nth_error_In; exact Hj|exact Hk].
    - exists file, l. split; [exact Hf|]. split; [reflexivity|].
      split; [rewrite Z.add_0_l; apply lineAt_nth; exact Hj|].
      eapply hasKey_lineKey; exact Hk. }
  apply G; [apply incl_refl|]. intros k e [].
Qed.

(** A returned match is built from an entry of the line map. *)
Lemma result_from_map (files : list FileContent) (mt : ExactLineMatch) :
  In mt (findExactLineMatches toLowerCase files) ->
  exists k e, In (k, e) (buildLineMap toLowerCase files) /\ mt = toMatch e
              /\ keyOf toLowerCase mt = k
              /\ 2 <= Z.of_nat (List.length (entryOccurrences e)).
Proof.
  intros Hin.
  destruct (findExactLineMatches_cases toLowerCase files) as [E|[E _]];
    [rewrite E in Hin; destruct Hin|].
  rewrite E in Hin. apply firstn_In, sortedMatches_In in Hin.
  apply collectMatches_In in Hin. destruct Hin as [k [e [Hke [-> Hocc]]]].
  exists k, e. repeat split; try assumption.
  destruct (buildLineMap_ok toLowerCase files) as [_ Hall].
  destruct (Hall _ _ Hke) as [Ek _]. unfold keyOf. simpl. congruence.
Qed.

(** X11.  No two returned matches have the same key: a normalized line
    is reported once. *)
Theorem matches_keys_distinct (files : list FileContent) :
  NoDup (map (keyOf toLowerCase) (findExactLineMatches toLowerCase files)).
Proof.
  destruct (findExactLineMatches_cases toLowerCase files) as [E|[E _]];
      rewrite E;
    [constructor|].
  rewrite map_firstn. apply NoDup_firstn, sortedMatches_keys.
Qed.

(** X12.  The line a match shows is the trimmed text of a line of an
    input file that takes part under the match's key; its category is
    the category of that text; and both the shown line and the key have
    at least 10 code units. *)
Theorem match_shows_input_line (files : list FileContent)
  (mt : ExactLineMatch) :
  In mt (findExactLineMatches toLowerCase files) ->
  category mt = categorize toLowerCase (line mt)
  /\ (exists file l, In file files /\ In l (split LF (fc_content file))
                     /\ line mt = trim l
                     /\ lineKey toLowerCase l
                         = Some (line mt, keyOf toLowerCase mt))
  /\ 10 <= len (line mt) /\ 10 <= len (keyOf toLowerCase mt).
Proof.
  intros Hin. destruct (result_from_map files mt Hin) as [k [e [Hke [-> [Hk _]]]]].
  destruct (buildLineMap_inv files _ _ Hke) as [[Hc [file [l [Hf [Hl Hkey]]]]] _].
  rewrite Hk. cbn [category line toMatch].
  assert (Hshape : original e = trim l /\ 10 <= len (original e) /\ 10 <= len k).
  { unfold lineKey in Hkey.
    destruct ((len (trim l) <? 10) || test false allDigitsRe (trim l)) eqn:E1;
      [discriminate|].
    destruct (len (normalizeLine toLowerCase (trim l)) <? 10) eqn:E2;
        [discriminate|].
    injection Hkey as <- <-. apply orb_false_iff in E1. destruct E1 as [E1 _].
    apply Z.ltb_ge in E1. apply Z.ltb_ge in E2. repeat split; assumption. }
  destruct Hshape as [H1 [H2 H3]].
  split; [exact Hc|]. split; [|split; assumption].
  exists file, l. repeat split; assumption.
Qed.

(** X13.  Every line number a match shows for a file name is the number
    of a line, in an input file of that name, that takes part under the
    match's key; every file name shown has at least one line number and
    at most 10. *)
Theorem match_line_numbers_valid (files : list FileContent)
  (mt : ExactLineMatch) (o : Occurrence) :
  In mt (findExactLineMatches toLowerCase files) -> In o (occurrences mt) ->
  lineNumbers o <> []
  /\ Z.of_nat (List.length (lineNumbers o)) <= 10
  /\ forall n, In n (lineNumbers o) ->
       exists file l, In file files /\ fc_filename file = filename o
                      /\ lineAt file n = Some l
                          /\ hasKey toLowerCase (keyOf toLowerCase mt) l = true.
Proof.
  intros Hin Ho. destruct (result_from_map files mt Hin) as [k [e [Hke [-> [Hk _]]]]].
  destruct (buildLineMap_inv files _ _ Hke) as [_ [_ HQ]].
  rewrite Hk. cbn [occurrences toMatch] in Ho.
  apply in_map_iff in Ho. destruct Ho as [[f nums] [<- Ho]].
  destruct (HQ _ _ Ho) as [Hne Hall]. cbn [lineNumbers filename fst snd].
  split; [destruct nums; [congruence|discriminate]|].
  split; [pose proof (firstn_le_length 10 nums); rewrite length_firstn; lia|].
  intros n Hn. apply firstn_In in Hn. rewrite Forall_forall in Hall.
  exact (Hall n Hn).
Qed.

(* ================================================================== *)
(** * Exact-line matcher: counting and completeness *)
(* ================================================================== *)

Lemma storedCount_set (f : jsstring) (v : list Z) (occ : StrMap.t (list Z)) :
  storedCount (StrMap.set f v occ) =
  storedCount occ
  - Z.of_nat (List.length (match StrMap.get f occ with
                           | Some old => old
                           | None => []
                           end))
  + Z.of_nat (List.length v).
Proof.
  induction occ as [|[f' v'] occ IH]; simpl; [lia|].
  destruct (str_eqb f' f); simpl; [lia|]. rewrite IH. lia.
Qed.

Lemma has_get {V} (k : jsstring) (mp : StrMap.t V) :
  StrMap.has k mp = true <-> exists v, StrMap.get k mp = Some v.
Proof.
  unfold StrMap.has. destruct (StrMap.get k mp) as [v|].
  - split; [intros _; exists v; reflexivity|reflexivity].
  - split; [discriminate|intros [v H]; discriminate H].
Qed.

Lemma has_set {V} (f f0 : jsstring) (v : V) (mp : StrMap.t V) :
  StrMap.has f (StrMap.set f0 v mp) = true <->
  f = f0 \/ StrMap.has f mp = true.
Proof.
  unfold StrMap.has. destruct (list_eq_dec N.eq_dec f f0) as [->|Hne].
  - rewrite get_set_same. tauto.
  - rewrite get_set_other by exact Hne. tauto.
Qed.

Lemma pushed_count (fname : jsstring) (x : Z) (occ : StrMap.t (list Z)) :
  storedCount (pushed fname x occ) = storedCount occ + 1.
Proof.
  unfold pushed, StrMap.has.
  destruct (StrMap.get fname occ) as [nums|] eqn:E; cbn [negb].
  - rewrite E, storedCount_set, E, length_app. simpl List.length. lia.
  - rewrite get_set_same, !storedCount_set, get_set_same, E.
    simpl List.length. lia.
Qed.

Lemma pushed_has (fname f : jsstring) (x : Z) (occ : StrMap.t (list Z)) :
  StrMap.has f (pushed fname x occ) = true <->
  f = fname \/ StrMap.has f occ = true.
Proof.
  unfold pushed.
  destruct (StrMap.has fname occ) eqn:E; cbn [negb].
  - destruct (proj1 (has_get fname occ) E) as [nums Eg]. rewrite Eg, has_set.
    tauto.
  - rewrite get_set_same, !has_set. tauto.
Qed.

Lemma record_pushed (fname : jsstring) (n : Z) (o k : jsstring)
  (lm : StrMap.t Entry) :
  record toLowerCase fname n o k lm =
  match StrMap.get k lm with
  | Some e =>
      StrMap.set k
        (mkEntry (original e) (pushed fname (n + 1) (entryOccurrences e))
           (entryCategory e)) lm
  | None =>
      StrMap.set k (mkEntry o (pushed fname (n + 1) [])
          (categorize toLowerCase o))
        (StrMap.set k (mkEntry o [] (categorize toLowerCase o)) lm)
  end.
Proof.
  unfold record, StrMap.has.
  destruct (StrMap.get k lm) as [e|] eqn:Eg; cbn [negb].
  - rewrite Eg. reflexivity.
  - rewrite get_set_same. reflexivity.
Qed.

(** What [record] leaves under each key. *)
Lemma record_get (fname : jsstring) (n : Z) (o k : jsstring)
  (lm : StrMap.t Entry) (k' : jsstring) :
  StrMap.get k' (record toLowerCase fname n o k lm) =
  if str_eqb k k'
  then match StrMap.get k lm with
       | Some e =>
           Some (mkEntry (original e) (pushed fname (n + 1) (entryOccurrences e))
                   (entryCategory e))
       | None => Some (mkEntry o (pushed fname (n + 1) [])
           (categorize toLowerCase o))
       end
  else StrMap.get k' lm.
Proof.
  rewrite record_pushed.
  destruct (str_eqb k k') eqn:E.
  - apply str_eqb_eq in E. subst k'.
    destruct (StrMap.get k lm); apply get_set_same.
  - apply str_eqb_neq in E.
    destruct (StrMap.get k lm); rewrite ?get_set_other by congruence; reflexivity.
Qed.

Lemma record_storedUnder (fname : jsstring) (n : Z) (o k : jsstring)
  (lm : StrMap.t Entry) (k' : jsstring) :
  storedUnder k' (record toLowerCase fname n o k lm) =
  storedUnder k' lm + (if str_eqb k k' then 1 else 0).
Proof.
  unfold storedUnder. rewrite record_get.
  destruct (str_eqb k k') eqn:E; [|lia].
  apply str_eqb_eq in E. subst k'.
  destruct (StrMap.get k lm) as [e|]; cbn [entryOccurrences];
    rewrite pushed_count; reflexivity.
Qed.

Lemma scanLines_storedUnder (fname : jsstring) (ls : list jsstring)
  (k : jsstring) :
  forall n lm,
    storedUnder k (scanLines toLowerCase fname ls n lm) =
    storedUnder k lm + Z.of_nat (List.length (filter
        (hasKey toLowerCase k) ls)).
Proof.
  induction ls as [|l ls IH]; intros n lm; simpl; [lia|].
  rewrite IH. unfold hasKey at 2.
  destruct (lineKey toLowerCase l) as [[o k0]|].
  - rewrite record_storedUnder. destruct (str_eqb k0 k); simpl List.length; lia.
  - lia.
Qed.

Lemma buildLineMap_storedUnder (files : list FileContent) (k : jsstring) :
  storedUnder k (buildLineMap toLowerCase files)
      = linesWithKey toLowerCase k files.
Proof.
  unfold buildLineMap.
  assert (G : forall fs lm,
             storedUnder k (fold_left (scanFile toLowerCase) fs lm) =
             storedUnder k lm + (linesWithKey toLowerCase) k fs).
  { induction fs as [|file fs IH]; intros lm; simpl; [lia|].
    rewrite IH. unfold scanFile. rewrite scanLines_storedUnder. lia. }
  rewrite G. reflexivity.
Qed.

Lemma totalCount_stored (e : Entry) :
  totalCount (toMatch e) = storedCount (entryOccurrences e).
Proof.
  cbn [totalCount toMatch]. unfold storedCount.
  generalize (entryOccurrences e) as occ. intros occ.
  assert (G : forall acc,
             fold_left (fun sum nums => sum + Z.of_nat (List.length nums))
               (map snd occ) acc =
             acc + fold_right
                     (fun e0 acc0 => Z.of_nat (List.length (snd e0)) + acc0) 0 occ).
  { induction occ as [|[f v] occ IH]; intros acc; simpl; [lia|].
    rewrite IH. lia. }
  rewrite G. lia.
Qed.

Lemma shown_le_stored (occ : StrMap.t (list Z)) :
  Forall (fun e => snd e <> []) occ ->
  Z.of_nat (List.length occ)
  <= fold_right (fun o acc => Z.of_nat (List.length (lineNumbers o)) + acc) 0
       (map (fun e => mkOcc (fst e) (firstn 10 (snd e))) occ)
  <= storedCount occ.
Proof.
  induction occ as [|[f v] occ IH]; intros H; [simpl; lia|].
  inversion H as [|? ? Hv Hocc]; subst. specialize (IH Hocc).
  cbn [map fold_right lineNumbers storedCount fst snd] in *.
  fold (storedCount occ).
  pose proof (firstn_le_length 10 v). rewrite length_firstn.
  simpl in Hv. destruct v; [congruence|]. simpl List.length in *. lia.
Qed.

(** X14.  The total count of a match is the number of lines, over all
    the input files, that take part under the match's key; the line
    numbers shown are at least one per file name shown and at most the
    total count. *)
Theorem total_count_counts_lines (files : list FileContent)
  (mt : ExactLineMatch) :
  In mt (findExactLineMatches toLowerCase files) ->
  totalCount mt = linesWithKey toLowerCase (keyOf toLowerCase mt) files
  /\ Z.of_nat (List.length (occurrences mt)) <= shownCount mt <= totalCount mt.
Proof.
  intros Hin. destruct (result_from_map files mt Hin) as [k [e [Hke [-> [Hk _]]]]].
  rewrite Hk, totalCount_stored. split.
  - rewrite <- buildLineMap_storedUnder. unfold storedUnder.
    destruct (buildLineMap_ok toLowerCase files) as [Hnd _].
    rewrite (@In_get _ _ _ _ Hnd Hke). reflexivity.
  - unfold shownCount. cbn [occurrences toMatch]. rewrite length_map.
    apply shown_le_stored. apply Forall_forall. intros [f v] Hfv.
    destruct (buildLineMap_inv files _ _ Hke) as [_ [_ HQ]].
    apply (HQ f v Hfv).
Qed.

Lemma record_recorded (seen : jsstring -> jsstring -> Prop)
  (fname : jsstring) (n : Z) (o k : jsstring) (lm : StrMap.t Entry) :
  allRecorded seen lm ->
  allRecorded (fun f k' => seen f k' \/ (f = fname /\ k' = k))
    (record toLowerCase fname n o k lm).
Proof.
  intros H f k' Hs. rewrite record_get.
  destruct (str_eqb k k') eqn:E.
  - apply str_eqb_eq in E. subst k'.
    destruct (StrMap.get k lm) as [e|] eqn:Eg.
    + eexists. split; [reflexivity|]. cbn [entryOccurrences].
      apply pushed_has. destruct Hs as [Hs|[-> _]]; [|left; reflexivity].
      destruct (H _ _ Hs) as [e' [Ee' Hf]]. right. congruence.
    + eexists. split; [reflexivity|]. cbn [entryOccurrences].
      apply pushed_has. destruct Hs as [Hs|[-> _]]; [|left; reflexivity].
      destruct (H _ _ Hs) as [e' [Ee' _]]. congruence.
  - apply str_eqb_neq in E. destruct Hs as [Hs|[_ ->]]; [|congruence].
    apply H. exact Hs.
Qed.

Lemma allRecorded_weaken (seen seen' : jsstring -> jsstring -> Prop)
  (lm : StrMap.t Entry) :
  (forall f k, seen' f k -> seen f k) ->
  allRecorded seen lm -> allRecorded seen' lm.
Proof. intros Hs H f k Hfk. apply H, Hs, Hfk. Qed.

Lemma scanLines_recorded (fname : jsstring) (ls : list jsstring) :
  forall (seen : jsstring -> jsstring -> Prop) n lm,
    allRecorded seen lm ->
    allRecorded
      (fun f k => seen f k
                  \/ (f = fname /\ exists l o, In l ls /\ lineKey toLowerCase l
                      = Some (o, k)))
      (scanLines toLowerCase fname ls n lm).
Proof.
  induction ls as [|l ls IH]; intros seen n lm H; simpl.
  - eapply allRecorded_weaken; [|exact H].
    intros f k [Hs|[_ [l [o [[] _]]]]]. exact Hs.
  - destruct (lineKey toLowerCase l) as [[o k0]|] eqn:El.
    + eapply allRecorded_weaken;
        [|apply IH; apply record_recorded; exact H].
      cbv beta. intros f k [Hs|[-> [l' [o' [[<-|Hl'] Hk]]]]].
      * left; left; exact Hs.
      * left; right. split; [reflexivity|]. congruence.
      * right. split; [reflexivity|]. exists l', o'. split; assumption.
    + eapply allRecorded_weaken; [|apply IH; exact H].
      cbv beta. intros f k [Hs|[-> [l' [o' [[<-|Hl'] Hk]]]]].
      * left; exact Hs.
      * congruence.
      * right. split; [reflexivity|]. exists l', o'. split; assumption.
Qed.

Lemma buildLineMap_recorded (files : list FileContent) :
  allRecorded
    (fun f k => exists file, In file files /\ fc_filename file = f
                             /\ occursIn toLowerCase k file)
    (buildLineMap toLowerCase files).
Proof.
  unfold buildLineMap.
  assert (G : forall fs (seen : jsstring -> jsstring -> Prop) lm,
             allRecorded seen lm ->
             allRecorded
               (fun f k => seen f k
                           \/ exists file, In file fs /\ fc_filename file = f
                                           /\ occursIn toLowerCase k file)
               (fold_left (scanFile toLowerCase) fs lm)).
  { induction fs as [|file fs IH]; intros seen lm H; simpl.
    - eapply allRecorded_weaken; [|exact H].
      intros f k [Hs|[file [[] _]]]. exact Hs.
    - eapply allRecorded_weaken;
        [|apply IH; unfold scanFile; apply scanLines_recorded; exact H].
      cbv beta. intros f k [Hs|[file' [[<-|Hf] [Hn Ho]]]].
      + left; left; exact Hs.
      + left; right. split; [symmetry; exact Hn|]. exact Ho.
      + right. exists file'. repeat split; assumption. }
  eapply allRecorded_weaken; [|apply (G files (fun _ _ => False) [])].
  - cbv beta. intros f k H. right. exact H.
  - intros f k [].
Qed.

Lemma two_keys_length {V} (f1 f2 : jsstring) (mp : StrMap.t V) :
  f1 <> f2 -> StrMap.has f1 mp = true -> StrMap.has f2 mp = true ->
  2 <= Z.of_nat (List.length mp).
Proof.
  intros Hne H1 H2.
  apply has_get in H1. destruct H1 as [v1 H1]. apply get_In in H1.
  apply has_get in H2. destruct H2 as [v2 H2]. apply get_In in H2.
  destruct mp as [|a [|b mp]]; simpl in *; try lia; try tauto.
  destruct H1 as [H1|[]], H2 as [H2|[]]. congruence.
Qed.

(** X15.  A key under which lines of two input files with different
    names take part has a match among the sorted matches, however many
    these are; and that match is in the result whenever the sorted
    matches number at least 2 and at most 50. *)
Theorem shared_key_is_reported (files : list FileContent)
  (f1 f2 : FileContent) (k : jsstring) :
  In f1 files -> In f2 files -> fc_filename f1 <> fc_filename f2 ->
  occursIn toLowerCase k f1 -> occursIn toLowerCase k f2 ->
  exists mt,
    In mt (sortedMatches toLowerCase files) /\ keyOf toLowerCase mt = k
    /\ (2 <= Z.of_nat (List.length (sortedMatches toLowerCase files)) <= 50 ->
        In mt (findExactLineMatches toLowerCase files)).
Proof.
  intros I1 I2 Hne O1 O2.
  destruct (buildLineMap_recorded files (fc_filename f1) k) as [e [Eg H1]].
  { exists f1. repeat split; assumption. }
  destruct (buildLineMap_recorded files (fc_filename f2) k) as [e' [Eg' H2]].
  { exists f2. repeat split; assumption. }
  rewrite Eg in Eg'. injection Eg' as <-.
  pose proof (two_keys_length _ _ _ Hne H1 H2) as Hlen.
  apply get_In in Eg.
  assert (Hin : In (toMatch e) (sortedMatches toLowerCase files)).
  { apply sortedMatches_In. unfold collectMatches. apply in_map.
    apply filter_In. split.
    - change e with (snd (k, e)). apply in_map. exact Eg.
    - rewrite Z.geb_leb. apply Z.leb_le. exact Hlen. }
  exists (toMatch e). split; [exact Hin|]. split.
  - destruct (buildLineMap_ok toLowerCase files) as [_ Hall].
    destruct (Hall _ _ Eg) as [Ek _]. unfold keyOf. simpl. congruence.
  - intros [Hlo Hhi].
    assert (Hfiles : 2 <= Z.of_nat (List.length files)).
    { destruct files as [|a [|b files]]; simpl in *; try lia; try tauto.
      destruct I1 as [<-|[]], I2 as [<-|[]]. congruence. }
    unfold findExactLineMatches.
    replace (Z.of_nat (List.length files) <? 2) with false
      by (symmetry; apply Z.ltb_ge; exact Hfiles).
    cbv zeta.
    replace (Z.of_nat (List.length (sortedMatches toLowerCase files)) <? 2)
      with false by (symmetry; apply Z.ltb_ge; exact Hlo).
    rewrite firstn_all2 by lia. exact Hin.
Qed.

End MatchFacts.

Lemma match_shows_input_line_witness :
  let fa := mkFile (str "2024-01-01T00:00:00Z ERROR db down
[2024-01-01 00:00:01,123] warning: disk almost full") (str "a.log") in
  let fb := mkFile (str "2024-02-01T00:00:00Z ERROR db down
01/02/2024 10:00:00 Warning: disk almost full") (str "b.log") in
  let mt := mkMatch (str "2024-01-01T00:00:00Z ERROR db down")
              [mkOcc (str "a.log") [1]; mkOcc (str "b.log") [1]] error 2 in
  category mt = categorize toLowerCase (line mt)
  /\ (exists file l, In file [fa; fb] /\ In l (split LF (fc_content file))
                     /\ line mt = trim l
                     /\ lineKey toLowerCase l
                         = Some (line mt, keyOf toLowerCase mt))
  /\ 10 <= len (line mt) /\ 10 <= len (keyOf toLowerCase mt).
Proof.
  intros fa fb mt. apply (match_shows_input_line toLowerCase [fa; fb] mt).
  vm_compute. left. reflexivity.
Defined.

Lemma match_line_numbers_valid_witness :
  let fa := mkFile (str "2024-01-01T00:00:00Z ERROR db down
[2024-01-01 00:00:01,123] warning: disk almost full") (str "a.log") in
  let fb := mkFile (str "01/02/2024 10:00:00 Warning: disk almost full
2024-02-01T00:00:00Z ERROR db down") (str "b.log") in
  let o := mkOcc (str "b.log") [2] in
  let mt := mkMatch (str "2024-01-01T00:00:00Z ERROR db down")
              [mkOcc (str "a.log") [1]; o] error 2 in
  lineNumbers o <> []
  /\ Z.of_nat (List.length (lineNumbers o)) <= 10
  /\ forall n, In n (lineNumbers o) ->
       exists file l, In file [fa; fb] /\ fc_filename file = filename o
                      /\ lineAt file n = Some l
                          /\ hasKey toLowerCase (keyOf toLowerCase mt) l = true.
Proof.
  intros fa fb o mt. apply (match_line_numbers_valid toLowerCase [fa; fb] mt o).
  - vm_compute. left. reflexivity.
  - right. left. reflexivity.
Defined.

Lemma total_count_counts_lines_witness :
  let fa := mkFile (str "2024-01-01T00:00:00Z ERROR db down
2024-01-01T00:00:01Z ERROR db down
[2024-01-01 00:00:01,123] warning: disk almost full") (str "a.log") in
  let fb := mkFile (str "01/02/2024 10:00:00 Warning: disk almost full
2024-02-01T00:00:00Z ERROR db down") (str "b.log") in
  let mt := mkMatch (str "2024-01-01T00:00:00Z ERROR db down")
              [mkOcc (str "a.log") [1; 2]; mkOcc (str "b.log") [2]] error 3 in
  totalCount mt = linesWithKey toLowerCase (keyOf toLowerCase mt) [fa; fb]
  /\ Z.of_nat (List.length (occurrences mt)) <= shownCount mt <= totalCount mt.
Proof.
  intros fa fb mt. apply (total_count_counts_lines toLowerCase [fa; fb] mt).
  vm_compute. left. reflexivity.
Defined.

Lemma shared_key_is_reported_witness :
  let fa := mkFile (str "2024-01-01T00:00:00Z ERROR db down
[2024-01-01 00:00:01,123] warning: disk almost full") (str "a.log") in
  let fb := mkFile (str "01/02/2024 10:00:00 Warning: disk almost full
2024-02-01T00:00:00Z ERROR db down") (str "b.log") in
  exists mt,
    In mt (sortedMatches toLowerCase [fa; fb])
    /\ keyOf toLowerCase mt = str "error db down"
    /\ (2 <= Z.of_nat (List.length (sortedMatches toLowerCase [fa; fb])) <= 50
        -> In mt (findExactLineMatches toLowerCase [fa; fb])).
Proof.
  intros fa fb.
  apply (shared_key_is_reported toLowerCase [fa; fb] fa fb
           (str "error db down")).
  - left. reflexivity.
  - right. left. reflexivity.
  - vm_compute. discriminate.
  - exists (str "2024-01-01T00:00:00Z ERROR db down"),
      (str "2024-01-01T00:00:00Z ERROR db down").
    split; [left; reflexivity|vm_compute; reflexivity].
  - exists (str "2024-02-01T00:00:00Z ERROR db down"),
      (str "2024-02-01T00:00:00Z ERROR db down").
    split; [right; left; reflexivity|vm_compute; reflexivity].
Defined.

(* ================================================================== *)
(** * Strings: trimming *)
(* ================================================================== *)

Lemma trimStart_fixed (c : char) (s : jsstring) :
  isSpace c = false -> trimStart (c :: s) = c :: s.
Proof. intros H. simpl. rewrite H. reflexivity. Qed.

Lemma trimStart_suffix (s : jsstring) :
  exists pre, s = pre ++ trimStart s.
Proof.
  induction s as [|c s [pre IH]]; [exists []; reflexivity|].
  simpl. destruct (isSpace c); [|exists []; reflexivity].
  exists (c :: pre). simpl. f_equal. exact IH.
Qed.

Lemma trimStart_head (s : jsstring) :
  trimStart s = [] \/ exists c t, trimStart s = c :: t /\ isSpace c = false.
Proof.
  induction s as [|c s IH]; [left; reflexivity|].
  simpl. destruct (isSpace c) eqn:E; [exact IH|].
  right. exists c, s. split; [reflexivity|exact E].
Qed.

Lemma trimEnd_prefix (s : jsstring) :
  exists post, s = trimEnd s ++ post.
Proof.
  unfold trimEnd. destruct (trimStart_suffix (rev s)) as [pre E].
  exists (rev pre). rewrite <- rev_app_distr, <- E, rev_involutive. reflexivity.
Qed.

Lemma trimEnd_last (s : jsstring) :
  trimEnd s = [] \/ exists t c, trimEnd s = t ++ [c] /\ isSpace c = false.
Proof.
  unfold trimEnd. destruct (trimStart_head (rev s)) as [->|[c [t [-> Hc]]]].
  - left. reflexivity.
  - right. exists (rev t), c. split; [reflexivity|exact Hc].
Qed.

Lemma trimEnd_fixed (t : jsstring) (c : char) :
  isSpace c = false -> trimEnd (t ++ [c]) = t ++ [c].
Proof.
  intros H. unfold trimEnd. rewrite rev_app_distr. simpl.
  rewrite H. simpl. rewrite rev_involutive. reflexivity.
Qed.

(** A string that begins and ends with code units other than white
    space is its own trim. *)
Lemma trim_fixed (c d : char) (mid : jsstring) :
  isSpace c = false -> isSpace d = false ->
  trim (c :: mid ++ [d]) = c :: mid ++ [d].
Proof.
  intros Hc Hd. unfold trim. rewrite trimStart_fixed by exact Hc.
  change (c :: mid ++ [d]) with ((c :: mid) ++ [d]). apply trimEnd_fixed, Hd.
Qed.

Lemma trim_fixed_single (c : char) : isSpace c = false -> trim [c] = [c].
Proof.
  intros Hc. unfold trim. rewrite trimStart_fixed by exact Hc.
  apply (trimEnd_fixed [] c Hc).
Qed.

(** The shape of a string that is its own trim. *)
Lemma trimmed_shape (s : jsstring) :
  trim s = s ->
  s = [] \/ (exists c, s = [c] /\ isSpace c = false)
  \/ exists c mid d, s = c :: mid ++ [d] /\ isSpace c = false
                     /\ isSpace d = false.
Proof.
  intros H. unfold trim in H.
  destruct (trimStart_suffix s) as [pre Epre].
  destruct (trimEnd_prefix (trimStart s)) as [post Epost].
  assert (Hlen : pre = [] /\ post = []).
  { assert (L : List.length s
                = (List.length pre + (List.length s + List.length post))%nat).
    { rewrite Epre at 1. rewrite length_app. rewrite Epost at 1.
      rewrite length_app, H. reflexivity. }
    destruct pre, post; simpl in L; try lia. split; reflexivity. }
  destruct Hlen as [-> ->]. simpl in Epre. rewrite app_nil_r in Epost.
  assert (Hs1 : trimStart s = s) by (symmetry; exact Epre).
  assert (Hs2 : trimEnd s = s) by (rewrite Hs1 in Epost; symmetry; exact Epost).
  clear H Epre Epost.
  destruct (trimStart_head s) as [E|[c [t [E Hc]]]]; rewrite Hs1 in E;
    [left; exact E|].
  right.
  destruct (trimEnd_last s) as [E2|[t2 [d [E2 Hd]]]]; rewrite Hs2 in E2;
    [congruence|].
  destruct t2 as [|c2 t2].
  - left. exists c. simpl in E2. rewrite E2 in E. injection E as -> <-.
    split; [exact E2|exact Hc].
  - right. exists c, t2, d. rewrite E2 in E. simpl in E.
    injection E as -> _. repeat split; assumption.
Qed.

Lemma trim_head (s : jsstring) :
  trim s = [] \/ exists c t, trim s = c :: t /\ isSpace c = false.
Proof.
  unfold trim. destruct (trimStart_head s) as [->|[c [t [E Hc]]]].
  - left. reflexivity.
  - rewrite E. destruct (trimEnd_prefix (c :: t)) as [post Ep].
    destruct (trimEnd (c :: t)) as [|c' t'] eqn:Et; [left; reflexivity|].
    right. exists c', t'. split; [reflexivity|].
    simpl in Ep. injection Ep as <- _. exact Hc.
Qed.

(** Trimming twice is trimming once. *)
Lemma trim_idem (s : jsstring) : trim (trim s) = trim s.
Proof.
  destruct (trim_head s) as [->|[c [t [E Hc]]]]; [reflexivity|].
  destruct (trimEnd_last (trimStart s)) as [E2|[t2 [d [E2 Hd]]]];
    fold (trim s) in E2; [congruence|].
  rewrite E2 in E. rewrite E2. destruct t2 as [|c2 t2]; simpl in E.
  - apply (trim_fixed_single d Hd).
  - injection E as -> _. apply trim_fixed; assumption.
Qed.

(* ================================================================== *)
(** * List-item extractor: what the items look like *)
(* ================================================================== *)

Lemma flush_trimmed (st : ItemState) :
  Forall (fun i => trim i = i) (items st) ->
  Forall (fun i => trim i = i) (flush st).
Proof.
  intros H. unfold flush. destruct (truthy (currentItem st)); [|exact H].
  apply Forall_app. split; [exact H|].
  constructor; [apply trim_idem|constructor].
Qed.

Lemma itemStep_trimmed (st : ItemState) (line : jsstring) :
  Forall (fun i => trim i = i) (items st) ->
  Forall (fun i => trim i = i) (items (itemStep st line)).
Proof.
  intros H. pose proof (flush_trimmed st H) as Hf. unfold itemStep.
  repeat match goal with
         | |- context [if ?b then _ else _] => destruct b
         | |- context [match ?e with Some _ => _ | None => _ end] => destruct e
         end; cbn [items]; assumption.
Qed.

Lemma fold_itemStep_trimmed (lines : list jsstring) :
  forall st,
    Forall (fun i => trim i = i) (items st) ->
    Forall (fun i => trim i = i) (items (fold_left itemStep lines st)).
Proof.
  induction lines as [|l lines IH]; intros st H; [exact H|].
  cbn [fold_left]. apply IH, itemStep_trimmed, H.
Qed.

Lemma rawItems_trimmed (text : jsstring) :
  Forall (fun i => trim i = i) (rawItems text).
Proof.
  unfold rawItems. apply flush_trimmed, fold_itemStep_trimmed. constructor.
Qed.

Lemma keepItem_nonempty (item : jsstring) : keepItem item = true -> item <> [].
Proof. intros H ->. discriminate H. Qed.

(** X16.  Every item the extractor returns is non-empty and carries no
    white space at either end: it is its own trim. *)
Theorem extracted_items_trimmed (text : jsstring) :
  Forall (fun item => item <> [] /\ trim item = item) (extractListItems text).
Proof.
  unfold extractListItems. apply Forall_forall. intros item Hin.
  apply filter_In in Hin. destruct Hin as [Hin Hk]. split.
  - apply keepItem_nonempty, Hk.
  - pose proof (rawItems_trimmed text) as H. rewrite Forall_forall in H.
    apply H, Hin.
Qed.

(* ================================================================== *)
(** * List-item extractor: bullet and numbered lines *)
(* ================================================================== *)

(** A greedy star walks over a run of the class and hands over where
    the run ends, when the continuation accepts there. *)
Lemma starG_run (ic : bool) (p : cset) (pre s : jsstring)
  (k : option char -> jsstring -> option mstate) (Q : mstate -> Prop) :
  Forall (fun c => clsMatch ic p c = true) pre ->
  match s with [] => True | c :: _ => clsMatch ic p c = false end ->
  (forall pv', exists st, k pv' s = Some st /\ Q st) ->
  forall pv, exists st, starG ic p pv (pre ++ s) k = Some st /\ Q st.
Proof.
  intros Hpre Hs Hk. induction pre as [|c pre IH]; intros pv.
  - cbn [app]. destruct s as [|c s]; cbn [starG]; [apply Hk|].
    rewrite Hs. apply Hk.
  - inversion Hpre as [|? ? Hc Hpre']; subst. cbn [app starG]. rewrite Hc.
    destruct (IH Hpre' (Some c)) as [st [E HQ]]. rewrite E.
    exists st. split; [reflexivity|exact HQ].
Qed.

Lemma exec_anchored (ic : bool) (r : regex) (s : jsstring) :
  exec ic (Seq Bol r) s =
  match matchAt ic (Seq Bol r) None s with
  | Some st => Some (caps st)
  | None => None
  end.
Proof.
  unfold exec. destruct s as [|c s]; cbn [search].
  - destruct (matchAt ic (Seq Bol r) None []); reflexivity.
  - destruct (matchAt ic (Seq Bol r) None (c :: s)); [reflexivity|].
    rewrite search_anchored. reflexivity.
Qed.

(** The group [(.+)] at the end of a pattern takes a whole one-line
    text. *)
Lemma capture_rest (item : jsstring) (pv : option char)
  (cs : list (nat * jsstring)) :
  item <> [] -> Forall (fun c => isLineTerminator c = false) item ->
  exists st,
    m false (Seq (Cap 1 (PlusG dot)) Eps) (mkM pv item cs) (fun st => Some st)
    = Some st
    /\ getCap 1 (caps st) = item.
Proof.
  intros Hne Hall. destruct item as [|c item]; [congruence|].
  inversion Hall as [|? ? Hc Hall']; subst.
  unfold PlusG. cbn [m rest prev caps]. unfold clsMatch at 1, dot at 1.
  rewrite Hc. cbn [negb].
  pose proof (starG_run false dot item []
           (fun pv' s =>
              Some (mkM pv' s (setCap 1 (consumed (c :: item) s) cs)))
           (fun st => getCap 1 (caps st) = c :: item)) as H.
  rewrite app_nil_r in H. apply H.
  - eapply Forall_impl; [|exact Hall']. intros a Ha.
    unfold clsMatch, dot. rewrite Ha. reflexivity.
  - exact I.
  - intros pv'. eexists. split; [reflexivity|].
    cbn [caps]. unfold setCap. cbn [getCap Nat.eqb].
    unfold consumed. rewrite Nat.sub_0_r. apply firstn_all.
Qed.

Lemma spaces_run (n : nat) :
  Forall (fun c => clsMatch false space c = true) (repeat 32%N n).
Proof. induction n; constructor; [reflexivity|assumption]. Qed.

Lemma bullet_not_space (b : char) : isBullet b = true -> isSpace b = false.
Proof.
  unfold isBullet, char_eqb. rewrite !orb_true_iff, !N.eqb_eq.
  intros [[->| ->]| ->]; reflexivity.
Qed.

Lemma digit_range (d : char) : isDigit d = true -> (48 <= d <= 57)%N.
Proof. unfold isDigit. rewrite andb_true_iff, !N.leb_le. tauto. Qed.

Lemma digit_not_space (d : char) : isDigit d = true -> isSpace d = false.
Proof. intros H. apply digit_range in H. apply range_not_space. lia. Qed.

Lemma digit_not_bullet (d : char) : isDigit d = true -> isBullet d = false.
Proof.
  intros H. apply digit_range in H. unfold isBullet, char_eqb.
  repeat (apply orb_false_intro); apply N.eqb_neq; lia.
Qed.

Lemma bulletClass (c : char) :
  (oneOf "-*" c || N.eqb c 8226) = isBullet c.
Proof.
  unfold isBullet, oneOf. cbn [str list_ascii_of_string map existsb].
  rewrite orb_false_r. reflexivity.
Qed.

Lemma cleanItem_head (item : jsstring) :
  cleanItem item ->
  exists c t, item = c :: t /\ isSpace c = false.
Proof.
  intros [Hk [Ht _]]. apply keepItem_nonempty in Hk.
  destruct (trimmed_shape item Ht) as [E|[[c [E Hc]]|[c [mid [d [E [Hc _]]]]]]].
  - congruence.
  - exists c, []. split; assumption.
  - exists c, (mid ++ [d]). split; assumption.
Qed.

Lemma cleanItem_last (item : jsstring) :
  cleanItem item ->
  exists t d, item = t ++ [d] /\ isSpace d = false.
Proof.
  intros [Hk [Ht _]]. apply keepItem_nonempty in Hk.
  destruct (trimmed_shape item Ht) as [E|[[c [E Hc]]|[c [mid [d [E [_ Hd]]]]]]].
  - congruence.
  - exists [], c. split; assumption.
  - exists (c :: mid), d. split; assumption.
Qed.

(** A line that opens with a code unit other than white space and ends
    with the item is its own trim. *)
Lemma headed_line_trimmed (c : char) (mid item : jsstring) :
  isSpace c = false -> cleanItem item ->
  trim (c :: mid ++ item) = c :: mid ++ item.
Proof.
  intros Hc Hi. destruct (cleanItem_last item Hi) as [t [d [-> Hd]]].
  rewrite app_assoc. apply trim_fixed; assumption.
Qed.

Lemma bullet_line_exec (b : char) (n : nat) (item : jsstring) :
  isBullet b = true -> cleanItem item ->
  exists mt, exec false bulletRe (b :: repeat 32%N n ++ item) = Some mt
             /\ getCap 1 mt = item.
Proof.
  intros Hb Hi.
  change bulletRe
    with (Seq Bol (seqs [Cls (fun c => oneOf "-*" c || N.eqb c 8226);
                         Star space; Cap 1 (PlusG dot)])).
  rewrite exec_anchored. unfold matchAt.
  cbn [seqs fold_right m prev rest caps]. unfold clsMatch at 1.
  rewrite bulletClass, Hb.
  destruct (cleanItem_head item Hi) as [c [t [E Hc]]].
  destruct Hi as [Hk [_ Hl]]. apply keepItem_nonempty in Hk.
  match goal with
  | |- context [starG ?i ?p ?pv ?s ?k] =>
      destruct (starG_run i p (repeat 32%N n) item k
                  (fun st => getCap 1 (caps st) = item)
                  (spaces_run n)
                  ltac:(rewrite E; unfold clsMatch, space; exact Hc)
                  (fun pv' => capture_rest item pv' [] Hk Hl)
                  pv) as [st [Es Hs]]
  end.
  exists (caps st).
  match type of Es with
  | ?L = _ =>
      match goal with
      | |- context [starG ?i ?p ?pv ?s ?k] => change (starG i p pv s k) with L
      end
  end.
  rewrite Es. split; [reflexivity|exact Hs].
Qed.

Lemma digits_run (ds : jsstring) :
  Forall (fun c => isDigit c = true) ds ->
  Forall (fun c => clsMatch false digit c = true) ds.
Proof. intros H. exact H. Qed.

Lemma numbered_line_not_bullet (d : char) (s : jsstring) :
  isDigit d = true -> exec false bulletRe (d :: s) = None.
Proof.
  intros Hd.
  change bulletRe
    with (Seq Bol (seqs [Cls (fun c => oneOf "-*" c || N.eqb c 8226);
                         Star space; Cap 1 (PlusG dot)])).
  rewrite exec_anchored. unfold matchAt.
  cbn [seqs fold_right m prev rest caps]. unfold clsMatch at 1.
  rewrite bulletClass, (digit_not_bullet d Hd). reflexivity.
Qed.

Lemma separator_class (sep : char) :
  sep = 46%N \/ sep = 41%N ->
  clsMatch false (oneOf ".)") sep = true /\ clsMatch false digit sep = false.
Proof. intros [-> | ->]; split; reflexivity. Qed.

Lemma numbered_line_exec (d : char) (ds : jsstring) (sep : char) (n : nat)
  (item : jsstring) :
  isDigit d = true -> Forall (fun c => isDigit c = true) ds ->
  sep = 46%N \/ sep = 41%N -> cleanItem item ->
  exists mt,
    exec false numberedRe (d :: ds ++ sep :: repeat 32%N n ++ item) = Some mt
    /\ getCap 1 mt = item.
Proof.
  intros Hd Hds Hsep Hi.
  change numberedRe
    with (Seq Bol (seqs [PlusG digit; Cls (oneOf ".)"); Star space;
                         Cap 1 (PlusG dot)])).
  rewrite exec_anchored. unfold matchAt, PlusG at 1.
  cbn [seqs fold_right m prev rest caps]. unfold clsMatch at 1, digit at 1.
  rewrite Hd.
  destruct (cleanItem_head item Hi) as [c [t [E Hc]]].
  destruct Hi as [Hk [_ Hl]]. apply keepItem_nonempty in Hk.
  destruct (separator_class sep Hsep) as [Hs1 Hs2].
  match goal with
  | |- context [starG ?i ?p ?pv ?s ?k] =>
      assert (Hk' : forall pv', exists st,
                 k pv' (sep :: repeat 32%N n ++ item) = Some st
                 /\ getCap 1 (caps st) = item);
      [|destruct (starG_run i p ds (sep :: repeat 32%N n ++ item) k
                    (fun st => getCap 1 (caps st) = item)
                    (digits_run ds Hds) Hs2 Hk' pv) as [st [Es Hs]]]
  end.
  - intros pv'. cbn [m rest prev caps]. rewrite Hs1.
    match goal with
    | |- context [starG ?i ?p ?pv ?s ?k] =>
        apply (starG_run i p (repeat 32%N n) item k
                 (fun st => getCap 1 (caps st) = item)
                 (spaces_run n)
                 ltac:(rewrite E; unfold clsMatch, space; exact Hc)
                 (fun pv' => capture_rest item pv' [] Hk Hl)
                 pv)
    end.
  - exists (caps st).
    match type of Es with
    | ?L = _ =>
        match goal with
        | |- context [starG ?i ?p ?pv ?s ?k] => change (starG i p pv s k) with L
        end
    end.
    rewrite Es. split; [reflexivity|exact Hs].
Qed.

Lemma itemStep_bullet (st : ItemState) (line : jsstring)
  (mt : list (nat * jsstring)) :
  line <> [] -> trim line = line -> exec false bulletRe line = Some mt ->
  itemStep st line = mkItems (flush st) (getCap 1 mt).
Proof.
  intros Hne Ht He. unfold itemStep. cbv zeta. rewrite Ht, He.
  destruct line; [congruence|reflexivity].
Qed.

Lemma itemStep_numbered (st : ItemState) (line : jsstring)
  (mt : list (nat * jsstring)) :
  line <> [] -> trim line = line -> exec false bulletRe line = None ->
  exec false numberedRe line = Some mt ->
  itemStep st line = mkItems (flush st) (getCap 1 mt).
Proof.
  intros Hne Ht Hb He. unfold itemStep. cbv zeta. rewrite Ht, Hb, He.
  destruct line; [congruence|reflexivity].
Qed.

(** The loop's step on a line that carries an item: the item in hand is
    pushed and the line's item taken up. *)
Lemma itemStep_itemLine (st : ItemState) (line item : jsstring) :
  itemLine line item -> cleanItem item ->
  itemStep st line = mkItems (flush st) item.
Proof.
  intros Hl Hi. destruct Hl as [b n item Hb|d ds sep n item Hd Hds Hsep].
  - destruct (bullet_line_exec b n item Hb Hi) as [mt [He Hc]].
    rewrite (itemStep_bullet st _ mt);
      [rewrite Hc; reflexivity|discriminate| |exact He].
    apply headed_line_trimmed; [apply bullet_not_space, Hb|exact Hi].
  - destruct (numbered_line_exec d ds sep n item Hd Hds Hsep Hi)
      as [mt [He Hc]].
    rewrite (itemStep_numbered st _ mt);
      [rewrite Hc; reflexivity|discriminate| | |exact He].
    + replace (d :: ds ++ sep :: repeat 32%N n ++ item)
        with (d :: (ds ++ sep :: repeat 32%N n) ++ item)
        by (rewrite <- app_assoc; reflexivity).
      apply headed_line_trimmed; [apply digit_not_space, Hd|exact Hi].
    + apply numbered_line_not_bullet, Hd.
Qed.

Lemma cleanItem_flush (its : list jsstring) (item : jsstring) :
  cleanItem item -> flush (mkItems its item) = its ++ [item].
Proof.
  intros [Hk [Ht _]]. apply keepItem_nonempty in Hk. unfold flush.
  cbn [currentItem items]. destruct item; [congruence|].
  cbn [truthy]. rewrite Ht. reflexivity.
Qed.

Lemma fold_itemLines (lines its : list jsstring) :
  Forall2 itemLine lines its -> Forall cleanItem its ->
  forall st, flush (fold_left itemStep lines st) = flush st ++ its.
Proof.
  induction 1 as [|line item lines its Hl Hls IH]; intros Hc st.
  - cbn [fold_left]. rewrite app_nil_r. reflexivity.
  - inversion Hc as [|? ? Hi Hc']; subst. cbn [fold_left].
    rewrite (itemStep_itemLine st line item Hl Hi), (IH Hc').
    rewrite (cleanItem_flush (flush st) item Hi), <- app_assoc. reflexivity.
Qed.

Lemma itemLine_no_LF (line item : jsstring) :
  itemLine line item -> cleanItem item -> ~ In LF line.
Proof.
  intros Hl [_ [_ Hi]].
  assert (Hitem : ~ In LF item).
  { intros K. rewrite Forall_forall in Hi. specialize (Hi LF K).
    discriminate Hi. }
  assert (Hsp : forall n, ~ In LF (repeat 32%N n)).
  { intros n K. apply repeat_spec in K. discriminate K. }
  destruct Hl as [b n item Hb|d ds sep n item Hd Hds Hsep].
  - intros [K|K].
    + subst b. discriminate Hb.
    + apply in_app_or in K. destruct K as [K|K]; [apply (Hsp n K)|tauto].
  - intros [K|K].
    + subst d. discriminate Hd.
    + apply in_app_or in K. destruct K as [K|[K|K]].
      * rewrite Forall_forall in Hds. specialize (Hds LF K). discriminate Hds.
      * destruct Hsep; subst sep; discriminate K.
      * apply in_app_or in K. destruct K as [K|K]; [apply (Hsp n K)|tauto].
Qed.

(** X17.  A text made of bullet or numbered lines, one clean item on
    each, is read back as exactly those items, in order. *)
Theorem extract_item_lines (lines its : list jsstring) :
  Forall2 itemLine lines its -> Forall cleanItem its ->
  extractListItems (join [LF] lines) = its.
Proof.
  intros Hl Hc. unfold extractListItems, rawItems.
  assert (Hkeep : filter keepItem its = its).
  { clear Hl. induction Hc as [|item its [Hk _] _ IH]; [reflexivity|].
    cbn [filter]. rewrite Hk, IH. reflexivity. }
  destruct lines as [|line lines].
  - inversion Hl; subst. reflexivity.
  - rewrite split_join.
    + rewrite (fold_itemLines _ _ Hl Hc). exact Hkeep.
    + discriminate.
    + clear Hkeep. induction Hl as [|l i ls its H1 H2 IH]; constructor.
      * inversion Hc; subst. eapply itemLine_no_LF; eassumption.
      * inversion Hc; subst. apply IH; assumption.
Qed.

Lemma extract_item_lines_witness :
  extractListItems (join [LF] [str "- disk full"; str "2) retry storm"])
  = [str "disk full"; str "retry storm"].
Proof.
  apply extract_item_lines.
  - constructor; [|constructor; [|constructor]].
    + exact (@byBullet 45%N 1 (str "disk full") eq_refl).
    + exact (@byNumber 50%N [] 41%N 1 (str "retry storm") eq_refl
               (Forall_nil _) (or_intror eq_refl)).
  - repeat constructor.
Defined.

(* ================================================================== *)
(** * Section parser: reading back a written result *)
(* ================================================================== *)

Lemma filter_clean (its : list jsstring) :
  Forall cleanItem its -> filter keepItem its = its.
Proof.
  induction 1 as [|item its [Hk _] _ IH]; [reflexivity|].
  cbn [filter]. rewrite Hk, IH. reflexivity.
Qed.

Lemma bulletLine_itemLine (item : jsstring) :
  itemLine (bulletLine item) item.
Proof. exact (@byBullet 45%N 1 item eq_refl). Qed.

Lemma bulletLines_itemLines (its : list jsstring) :
  Forall2 itemLine (map bulletLine its) its.
Proof.
  induction its as [|i its IH]; constructor;
    [apply bulletLine_itemLine|exact IH].
Qed.

Lemma In_join (c : char) (sep : jsstring) (parts : list jsstring) :
  In c (join sep parts) -> In c sep \/ exists p, In p parts /\ In c p.
Proof.
  induction parts as [|x parts IH]; [intros []|].
  destruct parts as [|y parts].
  - cbn [join]. intros H. right. exists x. split; [left; reflexivity|exact H].
  - change (join sep (x :: y :: parts)) with (x ++ sep ++ join sep (y :: parts)).
    intros H. apply in_app_or in H. destruct H as [H|H].
    + right. exists x. split; [left; reflexivity|exact H].
    + apply in_app_or in H. destruct H as [H|H]; [left; exact H|].
      destruct (IH H) as [K|[p [Hp K]]]; [left; exact K|].
      right. exists p. split; [right; exact Hp|exact K].
Qed.

Lemma listBody_wf (its : list jsstring) :
  its <> [] -> Forall plainItem its -> wfBody (listBody its).
Proof.
  intros Hne Hall. split.
  - destruct its as [|i its]; [congruence|]. unfold listBody.
    destruct its as [|j its].
    + exists 45%N, (32%N :: i). split; reflexivity.
    + exists 45%N,
        (32%N :: i ++ [LF] ++ join [LF] (map bulletLine (j :: its))).
      split; reflexivity.
  - intros H. unfold listBody in H. apply In_join in H.
    destruct H as [[H|[]]|[p [Hp H]]]; [discriminate H|].
    apply in_map_iff in Hp. destruct Hp as [i [<- Hi]].
    rewrite Forall_forall in Hall. destruct (Hall i Hi) as [_ Hh].
    unfold bulletLine in H. apply in_app_or in H.
    destruct H as [[H|[H|[]]]|H]; [discriminate H|discriminate H|tauto].
Qed.

Lemma listSection_wf (l : Label) (its : list jsstring) :
  Forall plainItem its -> wfSections (listSection l its).
Proof.
  intros H. destruct its as [|i its]; [constructor|].
  constructor; [|constructor]. apply listBody_wf; [discriminate|exact H].
Qed.

Lemma summarySection_wf (s : jsstring) :
  plainSummary s -> wfSections (summarySection s).
Proof.
  intros [Ht Hh]. destruct s as [|c s]; [constructor|].
  constructor; [|constructor]. split; [|exact Hh].
  destruct (trim_head (c :: s)) as [E|[c' [t [E Hc]]]]; rewrite Ht in E.
  - discriminate E.
  - injection E as -> ->. exists c', t. split; [reflexivity|exact Hc].
Qed.

Lemma listSection_foreign (l l' : Label) (its : list jsstring) :
  l <> l' -> foreignTo l (listSection l' its).
Proof.
  intros H. destruct its; constructor; [|constructor].
  cbn [fst]. congruence.
Qed.

Lemma summarySection_foreign (l : Label) (s : jsstring) :
  l <> Summary -> foreignTo l (summarySection s).
Proof.
  intros H. destruct s; constructor; [|constructor].
  cbn [fst]. congruence.
Qed.

Lemma listBody_items (its : list jsstring) :
  Forall cleanItem its -> extractListItems (listBody its) = its.
Proof.
  intros Hc. unfold extractListItems, listBody, rawItems.
  destruct its as [|i its]; [reflexivity|].
  rewrite split_join.
  - rewrite (fold_itemLines _ _ (bulletLines_itemLines (i :: its)) Hc).
    apply filter_clean, Hc.
  - discriminate.
  - apply Forall_forall. intros line Hin.
    apply in_map_iff in Hin. destruct Hin as [j [<- Hj]].
    rewrite Forall_forall in Hc.
    apply (itemLine_no_LF (bulletLine j) j (bulletLine_itemLine j) (Hc j Hj)).
Qed.

(** A list section written between sections of other titles is read
    back as its items. *)
Lemma sectionItems_listSection (l : Label)
  (before after : list (Label * jsstring)) (its : list jsstring) :
  l <> Summary -> foreignTo l before -> foreignTo l after ->
  wfSections (before ++ listSection l its ++ after) ->
  Forall cleanItem its ->
  sectionItems (regexOf l) (render (before ++ listSection l its ++ after))
  = its.
Proof.
  intros Hl Hb Ha Hw Hc. unfold sectionItems. destruct its as [|i its].
  - cbn [listSection app] in *. rewrite exec_no_section; [reflexivity| |exact Hw].
    apply Forall_app. split; assumption.
  - cbn [listSection app] in *.
    destruct (exec_list_section l before after (listBody (i :: its)) Hl Hb Hw)
      as [mt [-> E]].
    rewrite E. apply listBody_items, Hc.
Qed.

Lemma plain_clean (its : list jsstring) :
  Forall plainItem its -> Forall cleanItem its.
Proof. apply Forall_impl. intros a [H _]. exact H. Qed.

(** X18.  A result whose items are clean and free of [#], and whose
    summary is trimmed and free of [#], written as sections in the
    layout the prompts ask for, is parsed back to itself. *)
Theorem parse_written_result (r : LogAnalysisResult) :
  Forall plainItem (patterns r) -> Forall plainItem (anomalies r) ->
  Forall plainItem (rootCauses r) -> plainSummary (summary r) ->
  parseAnalysisResponse (render (sectionsOf r)) = r.
Proof.
  intros Hp Ha Hr Hs. destruct r as [ps an rc sm]. cbn [patterns anomalies rootCauses summary] in *.
  unfold sectionsOf. cbn [patterns anomalies rootCauses summary].
  pose proof (listSection_wf Patterns ps Hp) as Wp.
  pose proof (listSection_wf Anomalies an Ha) as Wa.
  pose proof (listSection_wf RootCauses rc Hr) as Wr.
  pose proof (summarySection_wf sm Hs) as Ws.
  assert (W : wfSections (listSection Patterns ps ++ listSection Anomalies an
                          ++ listSection RootCauses rc ++ summarySection sm)).
  { unfold wfSections in *. rewrite !Forall_app. tauto. }
  unfold parseAnalysisResponse. f_equal.
  - change patternsRe with (regexOf Patterns).
    apply (sectionItems_listSection Patterns [] _ ps);
      [discriminate|constructor| |exact W|apply plain_clean, Hp].
    unfold foreignTo. rewrite !Forall_app. repeat split.
    + apply listSection_foreign; discriminate.
    + apply listSection_foreign; discriminate.
    + apply summarySection_foreign; discriminate.
  - change anomaliesRe with (regexOf Anomalies).
    apply (sectionItems_listSection Anomalies (listSection Patterns ps) _ an);
      [discriminate| | |exact W|apply plain_clean, Ha].
    + apply listSection_foreign; discriminate.
    + unfold foreignTo. rewrite !Forall_app. split.
      * apply listSection_foreign; discriminate.
      * apply summarySection_foreign; discriminate.
  - change rootCausesRe with (regexOf RootCauses).
    rewrite (app_assoc (listSection Patterns ps)) in *.
    apply (sectionItems_listSection RootCauses _ _ rc);
      [discriminate| | |exact W|apply plain_clean, Hr].
    + unfold foreignTo. rewrite !Forall_app. split;
        apply listSection_foreign; discriminate.
    + apply summarySection_foreign; discriminate.
  - assert (F : foreignTo Summary
                  (listSection Patterns ps ++ listSection Anomalies an
                   ++ listSection RootCauses rc)).
    { unfold foreignTo. rewrite !Forall_app. repeat split;
        apply listSection_foreign; discriminate. }
    assert (E0 : listSection Patterns ps ++ listSection Anomalies an
                 ++ listSection RootCauses rc ++ summarySection sm
                 = (listSection Patterns ps ++ listSection Anomalies an
                    ++ listSection RootCauses rc) ++ summarySection sm)
      by (rewrite <- !app_assoc; reflexivity).
    rewrite E0 in *. clear E0.
    set (before := listSection Patterns ps ++ listSection Anomalies an
                   ++ listSection RootCauses rc) in *.
    destruct sm as [|c sm].
    + cbn [summarySection] in *. rewrite app_nil_r in *.
      change summaryRe with (regexOf Summary).
      rewrite exec_no_section; [reflexivity|exact F|exact W].
    + cbn [summarySection] in *.
      destruct (exec_summary_section before (c :: sm) F W) as [mt [-> E]].
      rewrite E. destruct Hs as [Ht _]. exact Ht.
Qed.

Lemma parse_written_result_witness :
  let r := mkResult [str "timeouts at startup"] []
             [str "pool exhausted"; str "retry storm"] (str "Degraded.") in
  parseAnalysisResponse (render (sectionsOf r)) = r.
Proof.
  apply parse_written_result; cbn [patterns anomalies rootCauses summary];
    repeat constructor; intros K; vm_compute in K; intuition discriminate.
Defined.

(* ================================================================== *)
(** * Matcher: the groups hold pieces of the input *)
(* ================================================================== *)

Section Within.

Variable P : char -> Prop.
Variable ic : bool.

Lemma Forall_firstn_keep (n : nat) (s : jsstring) :
  Forall P s -> Forall P (firstn n s).
Proof.
  intros H. apply Forall_forall. intros c Hc. rewrite Forall_forall in H.
  apply H. eapply firstn_In. exact Hc.
Qed.

Lemma within_setCap (i : nat) (st st' : mstate) :
  within P st -> within P st' ->
  within P (mkM (prev st') (rest st')
              (setCap i (consumed (rest st) (rest st')) (caps st'))).
Proof.
  intros [Hr _] [Hr' Hc']. split; [exact Hr'|]. cbn [caps]. unfold setCap.
  constructor.
  - cbn [snd]. unfold consumed. apply Forall_firstn_keep, Hr.
  - apply Forall_forall. intros e He. apply filter_In in He.
    rewrite Forall_forall in Hc'. apply Hc'. tauto.
Qed.

Lemma starG_within (p : cset) (cs : list (nat * jsstring)) (k : cont)
  (s : jsstring) :
  forall pv res,
    Forall P s -> Forall (fun e => Forall P (snd e)) cs ->
    (forall st' res', within P st' -> k st' = Some res' -> within P res') ->
    starG ic p pv s (fun pv' s' => k (mkM pv' s' cs)) = Some res ->
    within P res.
Proof.
  induction s as [|c s IH]; intros pv res Hs Hcs Hk H.
  - cbn [starG] in H. eapply Hk; [|exact H]. split; assumption.
  - cbn [starG] in H. inversion Hs as [|? ? Hc Hs']; subst.
    destruct (clsMatch ic p c).
    + destruct (starG ic p (Some c) s _) as [r|] eqn:E.
      * injection H as <-. eapply IH; eassumption.
      * eapply Hk; [|exact H]. split; assumption.
    + eapply Hk; [|exact H]. split; assumption.
Qed.

Lemma starL_within (p : cset) (cs : list (nat * jsstring)) (k : cont)
  (s : jsstring) :
  forall pv res,
    Forall P s -> Forall (fun e => Forall P (snd e)) cs ->
    (forall st' res', within P st' -> k st' = Some res' -> within P res') ->
    starL ic p pv s (fun pv' s' => k (mkM pv' s' cs)) = Some res ->
    within P res.
Proof.
  induction s as [|c s IH]; intros pv res Hs Hcs Hk H.
  - cbn [starL] in H. destruct (k (mkM pv [] cs)) as [r|] eqn:E; [|discriminate].
    injection H as <-. eapply Hk; [|exact E]. split; assumption.
  - cbn [starL] in H. inversion Hs as [|? ? Hc Hs']; subst.
    destruct (k (mkM pv (c :: s) cs)) as [r|] eqn:E.
    + injection H as <-. eapply Hk; [|exact E]. split; assumption.
    + destruct (clsMatch ic p c); [|discriminate].
      eapply IH; eassumption.
Qed.

(** A run that starts within [P] ends within [P], when its continuation
    keeps within [P]. *)
Lemma m_within (r : regex) :
  forall st k res,
    within P st ->
    (forall st' res', within P st' -> k st' = Some res' -> within P res') ->
    m ic r st k = Some res -> within P res.
Proof.
  induction r as [|c|p|a IHa b IHb|a IHa b IHb|a IHa|p|p| | | |a IHa|i a IHa];
    intros st k res Hst Hk H; cbn [m] in H.
  - eapply Hk; eassumption.
  - destruct Hst as [Hr Hc]. destruct (rest st) as [|x s'] eqn:E; [discriminate|].
    destruct (chrMatch ic c x); [|discriminate].
    eapply Hk; [|exact H]. inversion Hr; subst. split; assumption.
  - destruct Hst as [Hr Hc]. destruct (rest st) as [|x s'] eqn:E; [discriminate|].
    destruct (clsMatch ic p x); [|discriminate].
    eapply Hk; [|exact H]. inversion Hr; subst. split; assumption.
  - eapply IHa; [exact Hst| |exact H].
    intros st' res' Hst' H'. eapply IHb; eassumption.
  - destruct (m ic a st k) as [r|] eqn:E.
    + injection H as <-. eapply IHa; eassumption.
    + eapply IHb; eassumption.
  - destruct (m ic a st k) as [r|] eqn:E.
    + injection H as <-. eapply IHa; eassumption.
    + eapply Hk; eassumption.
  - destruct Hst as [Hr Hc]. eapply starG_within; eassumption.
  - destruct Hst as [Hr Hc]. eapply starL_within; eassumption.
  - destruct (prev st); [discriminate|]. eapply Hk; eassumption.
  - destruct (rest st) eqn:E; [|discriminate]. eapply Hk; eassumption.
  - destruct (xorb _ _); [|discriminate]. eapply Hk; eassumption.
  - destruct (m ic a st (fun st' => Some st')) as [st'|] eqn:E; [|discriminate].
    eapply Hk; [|exact H].
    assert (Hst' : within P st').
    { eapply IHa; [exact Hst| |exact E].
      intros s1 r1 Hs1 E1. injection E1 as <-. exact Hs1. }
    destruct Hst as [Hr _]. destruct Hst' as [_ Hc']. split; assumption.
  - eapply IHa; [exact Hst| |exact H].
    intros st' res' Hst' H'. eapply Hk; [|exact H'].
    apply within_setCap; assumption.
Qed.

Lemma search_within (r : regex) (s : jsstring) :
  forall pv res,
    Forall P s -> search ic r pv s = Some res -> within P res.
Proof.
  induction s as [|c s IH]; intros pv res Hs H; cbn [search] in H.
  - destruct (matchAt ic r pv []) as [st|] eqn:E; [|discriminate].
    injection H as <-. unfold matchAt in E.
    eapply m_within; [| |exact E].
    + split; [exact Hs|constructor].
    + intros s1 r1 Hs1 E1. injection E1 as <-. exact Hs1.
  - destruct (matchAt ic r pv (c :: s)) as [st|] eqn:E.
    + injection H as <-. unfold matchAt in E.
      eapply m_within; [| |exact E].
      * split; [exact Hs|constructor].
      * intros s1 r1 Hs1 E1. injection E1 as <-. exact Hs1.
    + inversion Hs; subst. eapply IH; eassumption.
Qed.

Lemma getCap_within (i : nat) (cs : list (nat * jsstring)) :
  Forall (fun e => Forall P (snd e)) cs -> Forall P (getCap i cs).
Proof.
  induction 1 as [|[j v] cs Hv _ IH]; [constructor|].
  cbn [getCap]. destruct (Nat.eqb j i); assumption.
Qed.

(** Every group of a match holds only code units of the input. *)
Lemma exec_within (r : regex) (s : jsstring) (mt : list (nat * jsstring))
  (i : nat) :
  Forall P s -> exec ic r s = Some mt -> Forall P (getCap i mt).
Proof.
  intros Hs H. unfold exec in H.
  destruct (search ic r None s) as [st|] eqn:E; [|discriminate].
  injection H as <-. apply getCap_within.
  apply (search_within r s None st Hs E).
Qed.

Lemma trimStart_within (s : jsstring) : Forall P s -> Forall P (trimStart s).
Proof.
  induction 1 as [|c s Hc Hs IH]; [constructor|].
  cbn [trimStart]. destruct (isSpace c); [exact IH|constructor; assumption].
Qed.

Lemma trim_within (s : jsstring) : Forall P s -> Forall P (trim s).
Proof.
  intros H. unfold trim, trimEnd.
  apply Forall_rev, trimStart_within, Forall_rev, trimStart_within, H.
Qed.

End Within.

(* ================================================================== *)
(** * List-item extractor: items stay on one line *)
(* ================================================================== *)

Lemma flush_oneLine (st : ItemState) :
  Forall oneLine (items st) -> oneLine (currentItem st) ->
  Forall oneLine (flush st).
Proof.
  intros Hi Hc. unfold flush. destruct (truthy (currentItem st)); [|exact Hi].
  apply Forall_app. split; [exact Hi|].
  constructor; [apply trim_within, Hc|constructor].
Qed.

Lemma itemStep_oneLine (st : ItemState) (line : jsstring) :
  oneLine line ->
  Forall oneLine (items st) /\ oneLine (currentItem st) ->
  Forall oneLine (items (itemStep st line))
  /\ oneLine (currentItem (itemStep st line)).
Proof.
  intros Hl [Hi Hc]. pose proof (flush_oneLine st Hi Hc) as Hf.
  pose proof (trim_within _ line Hl) as Ht. fold (oneLine (trim line)) in Ht.
  unfold itemStep. cbv zeta.
  destruct (negb (truthy (trim line))).
  { destruct (truthy (currentItem st)); cbn [items currentItem];
      split; assumption || constructor. }
  destruct (exec false bulletRe (trim line)) as [mb|] eqn:Eb.
  { cbn [items currentItem]. split; [exact Hf|].
    apply (exec_within _ false bulletRe (trim line) mb 1 Ht Eb). }
  destruct (exec false numberedRe (trim line)) as [mn|] eqn:En.
  { cbn [items currentItem]. split; [exact Hf|].
    apply (exec_within _ false numberedRe (trim line) mn 1 Ht En). }
  destruct (exec false boldRe (trim line)) as [mo|] eqn:Eo.
  { cbn [items currentItem]. split; [exact Hf|].
    pose proof (exec_within _ false boldRe (trim line) mo 1 Ht Eo) as H1.
    pose proof (exec_within _ false boldRe (trim line) mo 2 Ht Eo) as H2.
    destruct (truthy (getCap 2 mo)); [|exact H1].
    unfold oneLine. rewrite !Forall_app. repeat split; try assumption;
      repeat constructor; discriminate. }
  destruct (truthy (currentItem st)
            && (startsWith line (str "  ") || startsWith line [9%N])).
  { cbn [items currentItem]. split; [exact Hi|].
    unfold oneLine. rewrite !Forall_app. repeat split; try assumption.
    repeat constructor; discriminate. }
  destruct (negb (truthy (currentItem st)) && truthy (trim line)
            && negb (startsWith (trim line) (str "#")));
    cbn [items currentItem]; split; assumption.
Qed.

Lemma fold_itemStep_oneLine (lines : list jsstring) :
  Forall oneLine lines ->
  forall st,
    Forall oneLine (items st) /\ oneLine (currentItem st) ->
    Forall oneLine (items (fold_left itemStep lines st))
    /\ oneLine (currentItem (fold_left itemStep lines st)).
Proof.
  induction 1 as [|l lines Hl _ IH]; intros st H; [exact H|].
  cbn [fold_left]. apply IH, itemStep_oneLine; assumption.
Qed.

Lemma split_oneLine (text : jsstring) : Forall oneLine (split LF text).
Proof.
  pose proof (split_no_sep LF text) as H.
  eapply Forall_impl; [|exact H]. intros l Hl.
  apply Forall_forall. intros c Hc ->. apply Hl, Hc.
Qed.

(** X19.  No item the extractor returns holds a line feed: an item is
    pieced together from single lines of the text. *)
Theorem extracted_items_one_line (text : jsstring) :
  Forall (fun item => ~ In LF item) (extractListItems text).
Proof.
  assert (H : Forall oneLine (rawItems text)).
  { unfold rawItems.
    destruct (fold_itemStep_oneLine (split LF text) (split_oneLine text)
                (mkItems [] [])) as [Hi Hc].
    - split; constructor.
    - apply flush_oneLine; assumption. }
  unfold extractListItems. apply Forall_forall. intros item Hin.
  apply filter_In in Hin. destruct Hin as [Hin _].
  rewrite Forall_forall in H. specialize (H item Hin).
  intros K. unfold oneLine in H. rewrite Forall_forall in H.
  apply (H LF K). reflexivity.
Qed.

(* ================================================================== *)
(** * Line normalization: leading time stamps *)
(* ================================================================== *)

Lemma not_digit_outside (c : char) :
  (c < 48 \/ 57 < c)%N -> isDigit c = false.
Proof.
  intros H. unfold isDigit. apply andb_false_iff.
  destruct H as [H|H]; [left|right]; apply N.leb_gt; exact H.
Qed.

Lemma clsMatch_ci_digit (c : char) : clsMatch true digit c = isDigit c.
Proof.
  unfold clsMatch, digit. destruct (isDigit c) eqn:E; [reflexivity|].
  cbn [orb]. apply orb_false_intro.
  - unfold lowerChar. destruct (isUpper c) eqn:Eu; [|exact E].
    apply isUpper_range in Eu. apply not_digit_outside. lia.
  - unfold upperChar. destruct (isLower c) eqn:El; [|exact E].
    apply isLower_range in El. apply not_digit_outside. lia.
Qed.

Lemma digit_not_separator (d : char) :
  isDigit d = true -> clsMatch true (oneOf ".,") d = false.
Proof.
  intros H. apply digit_range in H. unfold clsMatch, oneOf, lowerChar, upperChar.
  assert (Hu : isUpper d = false)
    by (unfold isUpper; apply andb_false_iff; left; apply N.leb_gt; lia).
  assert (Hl : isLower d = false)
    by (unfold isLower; apply andb_false_iff; left; apply N.leb_gt; lia).
  rewrite Hu, Hl. cbn [str list_ascii_of_string map existsb].
  unfold char_eqb.
  repeat (apply orb_false_intro); try reflexivity; apply N.eqb_neq;
    cbn; lia.
Qed.

(** The white space after the stamp: the star stops at the first code
    unit that is not white space. *)
Lemma stamp_spaces (n : nat) (c : char) (rest' : jsstring) :
  isSpace c = false ->
  forall pv, exists st,
    starG true space pv (repeat 32%N n ++ c :: rest')
      (fun pv' s => Some (mkM pv' s [])) = Some st
    /\ rest st = c :: rest'.
Proof.
  intros Hc. apply starG_run.
  - induction n; constructor; [reflexivity|assumption].
  - rewrite clsMatch_ci_space. exact Hc.
  - intros pv'. eexists. split; reflexivity.
Qed.

(** The first alternative is taken when it succeeds. *)
Lemma first_choice (x y : option mstate) (Q : mstate -> Prop) :
  (exists st, x = Some st /\ Q st) ->
  exists st, match x with Some r => Some r | None => y end = Some st /\ Q st.
Proof. intros [st [-> H]]. exists st. split; [reflexivity|exact H]. Qed.

(** The optional [Z] and the white space after it. *)
Lemma stamp_zone (zone : jsstring) (n : nat) (c : char) (rest' : jsstring) :
  zone = [] \/ zone = [90%N] -> (0 < n)%nat -> isSpace c = false ->
  forall pv, exists st,
    m true (seqs [Opt (lit "Z"); Star space])
      (mkM pv (zone ++ repeat 32%N n ++ c :: rest') []) (fun st => Some st)
    = Some st
    /\ rest st = c :: rest'.
Proof.
  intros Hz Hn Hc pv. change (lit "Z") with (Seq (Chr 90%N) Eps).
  destruct n as [|n]; [lia|].
  destruct Hz as [-> | ->]; cbn [app repeat seqs fold_right m prev rest caps].
  - change (chrMatch true 90%N 32%N) with false. cbv iota.
    apply (stamp_spaces (S n) c rest' Hc).
  - change (chrMatch true 90%N 90%N) with true. cbv iota.
    apply first_choice. apply (stamp_spaces (S n) c rest' Hc).
Qed.

(** The digits of the fraction, then the zone. *)
Lemma stamp_digits (ds zone : jsstring) (n : nat) (c : char)
  (rest' : jsstring) :
  Forall (fun x => isDigit x = true) ds ->
  zone = [] \/ zone = [90%N] -> (0 < n)%nat -> isSpace c = false ->
  forall pv, exists st,
    m true (seqs [Star digit; Opt (lit "Z"); Star space])
      (mkM pv (ds ++ zone ++ repeat 32%N n ++ c :: rest') [])
      (fun st => Some st)
    = Some st
    /\ rest st = c :: rest'.
Proof.
  intros Hds Hz Hn Hc pv.
  change (seqs [Star digit; Opt (lit "Z"); Star space])
    with (Seq (Star digit) (seqs [Opt (lit "Z"); Star space])).
  cbn [m prev rest caps].
  apply (starG_run true digit ds (zone ++ repeat 32%N n ++ c :: rest')
           (fun pv' s =>
              m true (seqs [Opt (lit "Z"); Star space]) (mkM pv' s [])
                (fun st => Some st))
           (fun st => rest st = c :: rest')).
  - eapply Forall_impl; [|exact Hds]. intros a Ha.
    rewrite clsMatch_ci_digit. exact Ha.
  - destruct n as [|n]; [lia|]. destruct Hz as [-> | ->]; reflexivity.
  - intros pv'. apply stamp_zone; assumption.
Qed.

(** The optional separator of the fraction, then the digits. *)
Lemma stamp_fraction (sepc ds zone : jsstring) (n : nat) (c : char)
  (rest' : jsstring) :
  sepc = [] \/ sepc = [46%N] \/ sepc = [44%N] ->
  Forall (fun x => isDigit x = true) ds ->
  zone = [] \/ zone = [90%N] -> (0 < n)%nat -> isSpace c = false ->
  forall pv, exists st,
    m true (seqs [Opt (Cls (oneOf ".,")); Star digit; Opt (lit "Z");
                  Star space])
      (mkM pv (sepc ++ ds ++ zone ++ repeat 32%N n ++ c :: rest') [])
      (fun st => Some st)
    = Some st
    /\ rest st = c :: rest'.
Proof.
  intros Hsep Hds Hz Hn Hc pv.
  change (seqs [Opt (Cls (oneOf ".,")); Star digit; Opt (lit "Z"); Star space])
    with (Seq (Opt (Cls (oneOf ".,")))
              (seqs [Star digit; Opt (lit "Z"); Star space])).
  destruct Hsep as [-> |[-> | ->]].
  - cbn [app].
    change (exists st,
              m true (Opt (Cls (oneOf ".,")))
                (mkM pv (ds ++ zone ++ repeat 32%N n ++ c :: rest') [])
                (fun st' =>
                   m true (seqs [Star digit; Opt (lit "Z"); Star space])
                     st' (fun st => Some st)) = Some st
              /\ rest st = c :: rest').
    rewrite opt_skip; [apply stamp_digits; assumption|].
    cbn [m rest]. destruct ds as [|d ds].
    + destruct n as [|n]; [lia|]. destruct Hz as [-> | ->]; reflexivity.
    + inversion Hds; subst. cbn [app].
      rewrite digit_not_separator by assumption. reflexivity.
  - cbn [app m rest prev caps].
    change (clsMatch true (oneOf ".,") 46%N) with true. cbv iota.
    apply first_choice.
    apply (stamp_digits ds zone n c rest' Hds Hz Hn Hc (Some 46%N)).
  - cbn [app m rest prev caps].
    change (clsMatch true (oneOf ".,") 44%N) with true. cbv iota.
    apply first_choice.
    apply (stamp_digits ds zone n c rest' Hds Hz Hn Hc (Some 44%N)).
Qed.

(** A run of [n] digits is read by [\d{n}]. *)
Lemma seq_rep (n : nat) (R : regex) (s : jsstring)
  (cs : list (nat * jsstring)) (k : cont) (Q : mstate -> Prop) :
  (forall pv', exists st, m true R (mkM pv' s cs) k = Some st /\ Q st) ->
  forall pre, digitsN n pre ->
  forall pv, exists st,
    m true (Seq (rep n digit) R) (mkM pv (pre ++ s) cs) k = Some st /\ Q st.
Proof.
  intros Hk. induction n as [|n IH]; intros pre [Hlen Hall] pv.
  - destruct pre; [|discriminate Hlen]. apply Hk.
  - destruct pre as [|x pre]; [discriminate Hlen|].
    inversion Hall as [|? ? Hx Hall']; subst. injection Hlen as Hlen.
    change (rep (S n) digit) with (Seq (Cls digit) (rep n digit)).
    cbn [app]. cbn [m rest prev caps]. rewrite clsMatch_ci_digit, Hx.
    apply (IH pre (conj Hlen Hall') (Some x)).
Qed.

(** One literal code unit. *)
Lemma seq_chr (c : char) (R : regex) (s : jsstring)
  (cs : list (nat * jsstring)) (k : cont) (Q : mstate -> Prop) :
  chrMatch true c c = true ->
  (forall pv', exists st, m true R (mkM pv' s cs) k = Some st /\ Q st) ->
  forall pv, exists st,
    m true (Seq (Seq (Chr c) Eps) R) (mkM pv (c :: s) cs) k = Some st /\ Q st.
Proof.
  intros Hc Hk pv. cbn [m rest prev caps]. rewrite Hc. apply Hk.
Qed.

(** One code unit of a class. *)
Lemma seq_cls (p : cset) (c : char) (R : regex) (s : jsstring)
  (cs : list (nat * jsstring)) (k : cont) (Q : mstate -> Prop) :
  clsMatch true p c = true ->
  (forall pv', exists st, m true R (mkM pv' s cs) k = Some st /\ Q st) ->
  forall pv, exists st,
    m true (Seq (Cls p) R) (mkM pv (c :: s) cs) k = Some st /\ Q st.
Proof.
  intros Hc Hk pv. cbn [m rest prev caps]. rewrite Hc. apply Hk.
Qed.

(** The first normalization pattern: the whole stamp and the white
    space after it are matched at the start of the line. *)
Lemma stamp_match (stamp : jsstring) (n : nat) (c : char)
  (rest' : jsstring) :
  isoStampText stamp -> (0 < n)%nat -> isSpace c = false ->
  exists st,
    matchAt true (seqs (Bol :: isoStamp ++ [Star space])) None
      (stamp ++ repeat 32%N n ++ c :: rest') = Some st
    /\ rest st = c :: rest'.
Proof.
  intros Hs Hn Hc.
  destruct Hs as [y mo d t h mi sec sepc ds zone Hy Hmo Hd Ht Hh Hmi Hsec
                  Hsep Hds Hz].
  unfold matchAt.
  change (seqs (Bol :: isoStamp ++ [Star space]))
    with (Seq Bol
         (Seq (rep 4 digit) (Seq (Seq (Chr 45%N) Eps)
         (Seq (rep 2 digit) (Seq (Seq (Chr 45%N) Eps)
         (Seq (rep 2 digit) (Seq (Cls (oneOf "T "))
         (Seq (rep 2 digit) (Seq (Seq (Chr 58%N) Eps)
         (Seq (rep 2 digit) (Seq (Seq (Chr 58%N) Eps)
         (Seq (rep 2 digit)
           (seqs [Opt (Cls (oneOf ".,")); Star digit; Opt (lit "Z");
                  Star space]))))))))))))).
  repeat (rewrite <- app_assoc; cbn [app]).
  change (exists st,
    m true
      (Seq (rep 4 digit) (Seq (Seq (Chr 45%N) Eps)
      (Seq (rep 2 digit) (Seq (Seq (Chr 45%N) Eps)
      (Seq (rep 2 digit) (Seq (Cls (oneOf "T "))
      (Seq (rep 2 digit) (Seq (Seq (Chr 58%N) Eps)
      (Seq (rep 2 digit) (Seq (Seq (Chr 58%N) Eps)
      (Seq (rep 2 digit)
        (seqs [Opt (Cls (oneOf ".,")); Star digit; Opt (lit "Z");
               Star space]))))))))))))
      (mkM None
         (y ++ 45%N :: mo ++ 45%N :: d ++ t :: h ++ 58%N :: mi ++ 58%N
            :: sec ++ sepc ++ ds ++ zone ++ repeat 32%N n ++ c :: rest') [])
      (fun st => Some st) = Some st
    /\ rest st = c :: rest').
  apply seq_rep; [|exact Hy]. intros pv1.
  apply seq_chr; [reflexivity|]. intros pv2.
  apply seq_rep; [|exact Hmo]. intros pv3.
  apply seq_chr; [reflexivity|]. intros pv4.
  apply seq_rep; [|exact Hd]. intros pv5.
  apply seq_cls; [destruct Ht as [-> | ->]; reflexivity|]. intros pv6.
  apply seq_rep; [|exact Hh]. intros pv7.
  apply seq_chr; [reflexivity|]. intros pv8.
  apply seq_rep; [|exact Hmi]. intros pv9.
  apply seq_chr; [reflexivity|]. intros pv10.
  apply seq_rep; [|exact Hsec]. intros pv11.
  apply stamp_fraction; assumption.
Qed.

(** A pattern anchored at the start that misses there removes nothing. *)
Lemma removeFirstFrom_anchored (ic : bool) (r : regex) (s : jsstring) :
  forall c, removeFirstFrom ic (Seq Bol r) (Some c) s = s.
Proof.
  induction s as [|x s IH]; intros c; [reflexivity|].
  cbn [removeFirstFrom]. unfold matchAt. cbn [m prev].
  rewrite IH. reflexivity.
Qed.

Lemma removeFirst_anchored_miss (ic : bool) (r : regex) (s : jsstring) :
  matchAt ic (Seq Bol r) None s = None -> removeFirst ic (Seq Bol r) s = s.
Proof.
  intros H. unfold removeFirst. destruct s as [|c s]; cbn [removeFirstFrom];
    rewrite H; [reflexivity|].
  rewrite removeFirstFrom_anchored. reflexivity.
Qed.

Lemma removeFirst_hit (ic : bool) (r : regex) (s : jsstring) (st : mstate) :
  matchAt ic r None s = Some st -> removeFirst ic r s = rest st.
Proof.
  intros H. unfold removeFirst. destruct s; cbn [removeFirstFrom];
    rewrite H; reflexivity.
Qed.

(** The first pattern misses on a line that does not open with a
    digit. *)
Lemma stamp_miss (c : char) (rest' : jsstring) :
  isDigit c = false ->
  matchAt true (seqs (Bol :: isoStamp ++ [Star space])) None (c :: rest')
  = None.
Proof.
  intros Hc. unfold matchAt.
  change (seqs (Bol :: isoStamp ++ [Star space]))
    with (Seq Bol (Seq (Seq (Cls digit) (rep 3 digit))
                       (seqs (tl isoStamp ++ [Star space])))).
  cbn [m prev rest caps]. rewrite clsMatch_ci_digit, Hc. reflexivity.
Qed.

(** X20.  A leading time stamp does not count: a line that opens with a
    time stamp and white space gets the key of the line without them. *)
Theorem leading_timestamp_ignored (toLowerCase : jsstring -> jsstring)
  (stamp : jsstring) (n : nat) (c : char)
  (rest' : jsstring) :
  isoStampText stamp -> (0 < n)%nat ->
  isSpace c = false -> isDigit c = false ->
  normalizeLine toLowerCase (stamp ++ repeat 32%N n ++ c :: rest')
  = normalizeLine toLowerCase (c :: rest').
Proof.
  intros Hs Hn Hc Hd. unfold normalizeLine. do 2 f_equal.
  pose (p0 := (seqs (Bol :: isoStamp ++ [Star space]), true, false)).
  assert (E0 : applyPattern (stamp ++ repeat 32%N n ++ c :: rest') p0
               = applyPattern (c :: rest') p0).
  { unfold applyPattern, p0.
    destruct (stamp_match stamp n c rest' Hs Hn Hc) as [st [E Hr]].
    rewrite (removeFirst_hit _ _ _ st E), Hr.
    symmetry. apply removeFirst_anchored_miss, stamp_miss, Hd. }
  change (fold_left applyPattern (tl normalizePatterns)
            (applyPattern (stamp ++ repeat 32%N n ++ c :: rest') p0)
          = fold_left applyPattern (tl normalizePatterns)
              (applyPattern (c :: rest') p0)).
  rewrite E0. reflexivity.
Qed.

Lemma leading_timestamp_ignored_witness :
  normalizeLine toLowerCase (str "2024-03-01T10:15:30.250Z  connection refused")
  = normalizeLine toLowerCase (str "connection refused").
Proof.
  apply (leading_timestamp_ignored toLowerCase
           (str "2024-03-01T10:15:30.250Z") 2 99%N (str "onnection refused")).
  - exact (stampText (y := str "2024") (mo := str "03") (d := str "01")
             (t := 84%N) (h := str "10") (mi := str "15") (sec := str "30")
             (sepc := [46%N]) (ds := str "250") (zone := [90%N])
             ltac:(repeat constructor) ltac:(repeat constructor)
             ltac:(repeat constructor) (or_introl eq_refl)
             ltac:(repeat constructor) ltac:(repeat constructor)
             ltac:(repeat constructor) (or_intror (or_introl eq_refl))
             ltac:(repeat constructor) (or_intror eq_refl)).
  - lia.
  - reflexivity.
  - reflexivity.
Defined.

(* ================================================================== *)
(** * [parallelMap]: every interleaving gives the sequential result *)
(* ================================================================== *)

Section ParallelMapFacts.

Import ParallelMap.

Variables T R : Type.
Variable fn : T -> nat -> R.
Variable items : list T.
Variable concurrency : Z.

Lemma assign_length (res : list (option R)) (v : R) :
  forall i, (i < List.length res)%nat ->
            List.length (assign res i v) = List.length res.
Proof.
  induction res as [|x res IH]; intros i Hi; [inversion Hi|].
  destruct i as [|i]; cbn [assign List.length]; [reflexivity|].
  rewrite IH by (cbn [List.length] in Hi; lia). reflexivity.
Qed.

Lemma assign_same (res : list (option R)) (v : R) :
  forall i, nth_error (assign res i v) i = Some (Some v).
Proof.
  induction res as [|x res IH]; intros i.
  - induction i as [|i IHi]; [reflexivity|exact IHi].
  - destruct i as [|i]; [reflexivity|apply IH].
Qed.

Lemma assign_other (res : list (option R)) (v : R) :
  forall i j, (i < List.length res)%nat -> i <> j ->
              nth_error (assign res i v) j = nth_error res j.
Proof.
  induction res as [|x res IH]; intros i j Hi Hij; [inversion Hi|].
  destruct i as [|i], j as [|j]; cbn [assign nth_error]; try reflexivity;
    try congruence.
  apply IH; [cbn [List.length] in Hi; lia|congruence].
Qed.

Lemma In_inFlight (st : PState R) (i : nat) :
  In i (inFlight st) <-> exists v, In (Waiting i v) (workers st).
Proof.
  unfold inFlight. rewrite in_flat_map. split.
  - intros [w [Hw Hi]]. destruct w as [|j v|]; try contradiction.
    destruct Hi as [<-|[]]. exists v. exact Hw.
  - intros [v Hv]. exists (Waiting i v). split; [exact Hv|left; reflexivity].
Qed.

Lemma In_replaced (A : Type) (x w w' : A) (ws1 ws2 : list A) :
  In x (ws1 ++ w' :: ws2) -> x = w' \/ In x (ws1 ++ w :: ws2).
Proof.
  intros H. apply in_app_or in H. destruct H as [H|[H|H]].
  - right. apply in_or_app. left. exact H.
  - left. symmetry. exact H.
  - right. apply in_or_app. right. right. exact H.
Qed.

Lemma init_inv : runInv fn items concurrency (init R items concurrency).
Proof.
  unfold runInv, init. cbn [currentIndex started results workers].
  refine (conj _ (conj _ (conj _ (conj _ (conj _ (conj _ _)))))).
  - lia.
  - reflexivity.
  - apply repeat_length.
  - apply repeat_length.
  - intros i v H. apply repeat_spec in H. discriminate H.
  - intros H. apply repeat_spec in H. discriminate H.
  - intros i x _ Hi. inversion Hi.
Qed.

Lemma step_inv (st st' : PState R) :
  step fn items st st' -> runInv fn items concurrency st -> runInv fn items concurrency st'.
Proof.
  intros Hs (Hc & Hlog & Hres & Hw & Hwait & Hfin & Hdone).
  destruct Hs as [ws1 ws2 c res log x Hx|ws1 ws2 c res log Hx
                 |ws1 ws2 c res log i v];
    cbn [currentIndex started results workers] in *.
  - assert (Hlt : (c < List.length items)%nat)
      by (apply nth_error_Some; congruence).
    unfold runInv. cbn [currentIndex started results workers].
    refine (conj _ (conj _ (conj _ (conj _ (conj _ (conj _ _)))))).
    + lia.
    + rewrite Hlog, seq_S. reflexivity.
    + exact Hres.
    + rewrite <- Hw, !length_app. reflexivity.
    + intros j u H. apply (In_replaced _ _ (@Ready R)) in H.
      destruct H as [H|H].
      * injection H as -> ->. split; [lia|].
        exists x. split; [exact Hx|reflexivity].
      * apply Hwait in H. destruct H as [H1 H2]. split; [lia|exact H2].
    + intros H. apply (In_replaced _ _ (@Ready R)) in H.
      destruct H as [H|H]; [discriminate H|]. apply Hfin in H. lia.
    + intros i y Hy Hi Hnot.
      assert (Hic : i <> c).
      { intros ->. apply Hnot. apply In_inFlight. exists (fn x c).
        cbn [workers]. apply in_or_app. right. left. reflexivity. }
      apply Hdone; [exact Hy|lia|].
      intros K. apply Hnot. apply In_inFlight. apply In_inFlight in K.
      destruct K as [v K]. exists v. cbn [workers] in *.
      apply in_app_or in K. apply in_or_app.
      destruct K as [K|[K|K]]; [left; exact K|discriminate K|right; right; exact K].
  - assert (Hge : (List.length items <= c)%nat)
      by (apply nth_error_None; exact Hx).
    unfold runInv. cbn [currentIndex started results workers].
    refine (conj _ (conj _ (conj _ (conj _ (conj _ (conj _ _)))))).
    + exact Hc.
    + exact Hlog.
    + exact Hres.
    + rewrite <- Hw, !length_app. reflexivity.
    + intros j u H. apply (In_replaced _ _ (@Ready R)) in H.
      destruct H as [H|H]; [discriminate H|]. apply Hwait, H.
    + intros _. lia.
    + intros i y Hy Hi Hnot. apply Hdone; [exact Hy|exact Hi|].
      intros K. apply Hnot. apply In_inFlight. apply In_inFlight in K.
      destruct K as [v K]. exists v. cbn [workers] in *.
      apply in_app_or in K. apply in_or_app.
      destruct K as [K|[K|K]]; [left; exact K|discriminate K|right; right; exact K].
  - destruct (Hwait i v) as [Hi [x [Hx Hv]]];
      [apply in_or_app; right; left; reflexivity|].
    assert (Hir : (i < List.length res)%nat) by lia.
    unfold runInv. cbn [currentIndex started results workers].
    refine (conj _ (conj _ (conj _ (conj _ (conj _ (conj _ _)))))).
    + exact Hc.
    + exact Hlog.
    + rewrite assign_length by exact Hir. exact Hres.
    + rewrite <- Hw, !length_app. reflexivity.
    + intros j u H. apply (In_replaced _ _ (Waiting i v)) in H.
      destruct H as [H|H]; [discriminate H|]. apply Hwait, H.
    + intros H. apply (In_replaced _ _ (Waiting i v)) in H.
      destruct H as [H|H]; [discriminate H|]. apply Hfin, H.
    + intros j y Hy Hj Hnot. destruct (Nat.eq_dec i j) as [<-|Hij].
      * rewrite assign_same. rewrite Hx in Hy. injection Hy as <-.
        rewrite Hv. reflexivity.
      * rewrite assign_other by assumption.
        apply Hdone; [exact Hy|exact Hj|].
        intros K. apply In_inFlight in K. destruct K as [u K].
        cbn [workers] in K. apply in_app_or in K.
        destruct K as [K|[K|K]].
        -- apply Hnot. apply In_inFlight. exists u. cbn [workers].
           apply in_or_app. left. exact K.
        -- injection K as -> _. congruence.
        -- apply Hnot. apply In_inFlight. exists u. cbn [workers].
           apply in_or_app. right. right. exact K.
Qed.

Lemma run_inv (k : nat) (st : PState R) :
  run fn items concurrency k st -> runInv fn items concurrency st.
Proof.
  induction 1 as [|k st st' _ IH Hs]; [apply init_inv|].
  eapply step_inv; eassumption.
Qed.

Lemma mapFrom_nth (xs : list T) :
  forall a i,
    nth_error (mapFrom fn a xs) i
    = option_map (fun x => fn x (a + i)%nat) (nth_error xs i).
Proof.
  induction xs as [|x xs IH]; intros a i.
  - destruct i; reflexivity.
  - destruct i as [|i]; cbn [mapFrom nth_error option_map].
    + rewrite Nat.add_0_r. reflexivity.
    + rewrite IH. rewrite Nat.add_succ_r. reflexivity.
Qed.

Lemma list_eq_nth (A : Type) (l1 l2 : list A) :
  (forall i, nth_error l1 i = nth_error l2 i) -> l1 = l2.
Proof.
  revert l2. induction l1 as [|x l1 IH]; intros l2 H.
  - destruct l2 as [|y l2]; [reflexivity|]. specialize (H 0%nat). discriminate H.
  - destruct l2 as [|y l2]; [specialize (H 0%nat); discriminate H|].
    pose proof (H 0%nat) as H0. injection H0 as ->. f_equal.
    apply IH. intros i. exact (H (S i)).
Qed.

Lemma finished_no_flight (st : PState R) :
  finished st -> inFlight st = [].
Proof.
  unfold finished, inFlight. induction 1 as [|w ws Hw _ IH]; [reflexivity|].
  subst w. exact IH.
Qed.

(** X21.  With a concurrency of at least 1, whatever the order in which
    the workers run: when all of them are through, the results are the
    values of [fn(items[i], i)] in the order of the items, without
    holes, and [fn] has been called once for each index, in order. *)
Theorem parallelMap_sequential (k : nat) (st : PState R) :
  0 < concurrency ->
  run fn items concurrency k st -> finished st ->
  results st = map Some (mapFrom fn 0 items)
  /\ started st = seq 0 (List.length items).
Proof.
  intros Hpos Hrun Hfin.
  destruct (run_inv k st Hrun) as (Hc & Hlog & Hres & Hw & _ & Hf & Hdone).
  assert (Hall : currentIndex st = List.length items).
  { destruct (Nat.eq_dec (List.length items) 0) as [E|E]; [lia|].
    apply Hf. destruct (workers st) as [|w ws] eqn:Ew.
    - cbn [List.length] in Hw. lia.
    - unfold finished in Hfin. rewrite Ew in Hfin. inversion Hfin; subst.
      left. reflexivity. }
  split; [|rewrite Hlog, Hall; reflexivity].
  apply list_eq_nth. intros i.
  rewrite nth_error_map, mapFrom_nth. cbn [Nat.add].
  destruct (nth_error items i) as [x|] eqn:Ex.
  - cbn [option_map]. apply Hdone; [exact Ex| |].
    + rewrite Hall. apply nth_error_Some. congruence.
    + rewrite (finished_no_flight st Hfin). intros [].
  - cbn [option_map]. apply nth_error_None. rewrite Hres.
    apply nth_error_None. exact Ex.
Qed.

Lemma weight_sum (ws1 ws2 : list (Worker R)) (w : Worker R) :
  list_sum (map (@weight R) (ws1 ++ w :: ws2))
  = (list_sum (map (@weight R) ws1) + weight w
     + list_sum (map (@weight R) ws2))%nat.
Proof.
  rewrite map_app, list_sum_app. unfold list_sum. cbn [map fold_right]. lia.
Qed.

(** Every step does exactly one unit of what remains to be done. *)
Lemma step_remaining (st st' : PState R) :
  step fn items st st' -> remaining items st = S (remaining items st').
Proof.
  intros Hs.
  destruct Hs as [ws1 ws2 c res log x Hx|ws1 ws2 c res log Hx
                 |ws1 ws2 c res log i v];
    unfold remaining; cbn [currentIndex workers]; rewrite !weight_sum;
    cbn [weight]; try lia.
  assert (Hlt : (c < List.length items)%nat)
    by (apply nth_error_Some; congruence).
  lia.
Qed.

Lemma init_remaining :
  remaining items (init R items concurrency)
  = (2 * List.length items
     + Z.to_nat (Z.min concurrency (Z.of_nat (List.length items))))%nat.
Proof.
  unfold remaining, init. cbn [currentIndex workers].
  rewrite Nat.sub_0_r. f_equal.
  induction (Z.to_nat (Z.min concurrency (Z.of_nat (List.length items))))
    as [|n IH]; [reflexivity|].
  unfold list_sum in *. cbn [repeat map fold_right weight]. rewrite IH.
  reflexivity.
Qed.

(** X22.  No run goes on for ever, whatever the order in which the
    workers run: every step does exactly one unit of what remains to be
    done, so after [k] steps the remainder is the initial amount less
    [k], and no run has more than twice the number of items plus the
    number of workers steps.  (Whether a suspended worker ever resumes
    is up to its call; a call that never settles leaves the run
    shorter.) *)
Theorem parallelMap_steps_bounded (k : nat) (st : PState R) :
  run fn items concurrency k st ->
  (k + remaining items st
   = 2 * List.length items
     + Z.to_nat (Z.min concurrency (Z.of_nat (List.length items))))%nat.
Proof.
  intros Hrun. induction Hrun as [|k st st' _ IH Hs].
  - rewrite init_remaining. reflexivity.
  - rewrite <- IH, (step_remaining st st' Hs). lia.
Qed.

Lemma flight_split (c : nat) (res : list (option R)) (log : list nat)
  (ws1 ws2 : list (Worker R)) (w : Worker R) :
  inFlight (mkP c res (ws1 ++ w :: ws2) log)
  = inFlight (mkP c res ws1 log)
    ++ match w with Waiting i _ => [i] | _ => [] end
    ++ inFlight (mkP c res ws2 log).
Proof.
  unfold inFlight. cbn [workers]. rewrite flat_map_app. reflexivity.
Qed.

Lemma flight_length (st : PState R) :
  (List.length (inFlight st) <= List.length (workers st))%nat.
Proof.
  unfold inFlight. induction (workers st) as [|w ws IH]; [constructor|].
  cbn [flat_map]. rewrite length_app. destruct w; cbn [List.length]; lia.
Qed.

Lemma flight_NoDup (k : nat) (st : PState R) :
  run fn items concurrency k st -> NoDup (inFlight st).
Proof.
  induction 1 as [|k st st' Hrun IH Hs].
  - unfold inFlight, init. cbn [workers].
    induction (Z.to_nat _) as [|n IHn]; [constructor|exact IHn].
  - pose proof (run_inv k st Hrun) as (_ & _ & _ & _ & Hwait & _).
    destruct Hs as [ws1 ws2 c res log x Hx|ws1 ws2 c res log Hx
                   |ws1 ws2 c res log i v];
      rewrite flight_split in *; cbn [app] in *.
    + eapply Permutation_NoDup; [apply Permutation_middle|].
      constructor; [|exact IH].
      intros K.
      assert (K' : In c (inFlight (mkP c res (ws1 ++ Ready R :: ws2) log)))
        by (rewrite flight_split; exact K).
      apply In_inFlight in K'. destruct K' as [v K'].
      apply Hwait in K'. cbn [currentIndex] in K'. lia.
    + exact IH.
    + eapply NoDup_remove_1. exact IH.
Qed.

(** X23.  At no time are more calls in flight than the concurrency
    allows; the calls in flight are for different indices, all of them
    taken already. *)
Theorem parallelMap_in_flight (k : nat) (st : PState R) :
  run fn items concurrency k st ->
  (List.length (inFlight st) <= Z.to_nat concurrency)%nat
  /\ NoDup (inFlight st)
  /\ Forall (fun i => (i < currentIndex st)%nat) (inFlight st).
Proof.
  intros Hrun.
  pose proof (run_inv k st Hrun) as (_ & _ & _ & Hw & Hwait & _).
  split; [|split].
  - pose proof (flight_length st). lia.
  - apply (flight_NoDup k st Hrun).
  - apply Forall_forall. intros i Hi. apply In_inFlight in Hi.
    destruct Hi as [v Hv]. apply Hwait in Hv. tauto.
Qed.

(** X24.  With a concurrency of zero or less there are no workers: no
    step is ever taken, [fn] is never called, and the result is an
    array of holes. *)
Theorem parallelMap_no_workers (k : nat) (st : PState R) :
  concurrency <= 0 ->
  run fn items concurrency k st ->
  k = 0%nat /\ finished st
  /\ results st = repeat None (List.length items) /\ started st = [].
Proof.
  intros Hc Hrun.
  assert (Hw : Z.to_nat (Z.min concurrency (Z.of_nat (List.length items)))
               = 0%nat) by lia.
  assert (H : k = 0%nat /\ st = init R items concurrency).
  { induction Hrun as [|k st st' _ IH Hs]; [split; reflexivity|].
    destruct IH as [_ ->]. exfalso. unfold init in Hs. rewrite Hw in Hs.
    inversion Hs as [ws1 ws2 c res log x Hx E
                    |ws1 ws2 c res log Hx E
                    |ws1 ws2 c res log i v E];
      destruct ws1; discriminate. }
  destruct H as [-> ->]. unfold init, finished. rewrite Hw.
  cbn [workers results started repeat]. repeat split. constructor.
Qed.

End ParallelMapFacts.

Lemma parallelMap_sequential_witness :
  let fn := fun (x : nat) (i : nat) => (x + i)%nat in
  let st := ParallelMap.mkP 2%nat [Some 5%nat; Some 8%nat]
              [ParallelMap.Finished nat; ParallelMap.Finished nat]
              [0%nat; 1%nat] in
  ParallelMap.results st
  = map Some (ParallelMap.mapFrom fn 0%nat [5%nat; 7%nat])
  /\ ParallelMap.started st = seq 0%nat 2%nat.
Proof.
  intros fn st.
  apply (parallelMap_sequential nat nat fn [5%nat; 7%nat] 2 6%nat st).
  - lia.
  - eapply ParallelMap.run_step;
      [|exact (ParallelMap.leave fn [5%nat; 7%nat]
                 [ParallelMap.Finished nat] [] 2%nat
                 [Some 5%nat; Some 8%nat] [0%nat; 1%nat] eq_refl)].
    eapply ParallelMap.run_step;
      [|exact (ParallelMap.leave fn [5%nat; 7%nat]
                 [] [ParallelMap.Ready nat] 2%nat
                 [Some 5%nat; Some 8%nat] [0%nat; 1%nat] eq_refl)].
    eapply ParallelMap.run_step;
      [|exact (ParallelMap.store fn [5%nat; 7%nat]
                 [] [ParallelMap.Ready nat] 2%nat
                 [None; Some 8%nat] [0%nat; 1%nat] 0%nat 5%nat)].
    eapply ParallelMap.run_step;
      [|exact (ParallelMap.store fn [5%nat; 7%nat]
                 [ParallelMap.Waiting 0%nat 5%nat] [] 2%nat
                 [None; None] [0%nat; 1%nat] 1%nat 8%nat)].
    eapply ParallelMap.run_step;
      [|exact (ParallelMap.take fn [5%nat; 7%nat]
                 [ParallelMap.Waiting 0%nat 5%nat] [] 1%nat
                 [None; None] [0%nat] eq_refl)].
    eapply ParallelMap.run_step;
      [|exact (ParallelMap.take fn [5%nat; 7%nat]
                 [] [ParallelMap.Ready nat] 0%nat
                 [None; None] [] eq_refl)].
    exact (ParallelMap.run_init fn [5%nat; 7%nat] 2).
  - repeat constructor.
Defined.

Lemma parallelMap_steps_bounded_witness :
  let fn := fun (x : nat) (i : nat) => (x + i)%nat in
  let st := ParallelMap.mkP 1%nat [None; None]
              [ParallelMap.Waiting 0%nat 5%nat; ParallelMap.Ready nat]
              [0%nat] in
  (1 + ParallelMap.remaining [5%nat; 7%nat] st
   = 2 * 2 + Z.to_nat (Z.min 2 (Z.of_nat 2)))%nat.
Proof.
  intros fn st.
  apply (parallelMap_steps_bounded nat nat fn [5%nat; 7%nat] 2 1%nat st).
  eapply ParallelMap.run_step;
    [|exact (ParallelMap.take fn [5%nat; 7%nat]
               [] [ParallelMap.Ready nat] 0%nat [None; None] [] eq_refl)].
  exact (ParallelMap.run_init fn [5%nat; 7%nat] 2).
Defined.

Lemma parallelMap_in_flight_witness :
  let fn := fun (x : nat) (i : nat) => (x + i)%nat in
  let st := ParallelMap.mkP 1%nat [None; None]
              [ParallelMap.Waiting 0%nat 5%nat; ParallelMap.Ready nat]
              [0%nat] in
  (List.length (ParallelMap.inFlight st) <= Z.to_nat 2)%nat
  /\ NoDup (ParallelMap.inFlight st)
  /\ Forall (fun i => (i < ParallelMap.currentIndex st)%nat)
       (ParallelMap.inFlight st).
Proof.
  intros fn st.
  apply (parallelMap_in_flight nat nat fn [5%nat; 7%nat] 2 1%nat st).
  eapply ParallelMap.run_step;
    [|exact (ParallelMap.take fn [5%nat; 7%nat]
               [] [ParallelMap.Ready nat] 0%nat [None; None] [] eq_refl)].
  exact (ParallelMap.run_init fn [5%nat; 7%nat] 2).
Defined.

Lemma parallelMap_no_workers_witness :
  let fn := fun (x : nat) (i : nat) => (x + i)%nat in
  let st := ParallelMap.init nat [5%nat; 7%nat] 0 in
  0%nat = 0%nat /\ ParallelMap.finished st
  /\ ParallelMap.results st = repeat None 2%nat
  /\ ParallelMap.started st = [].
Proof.
  intros fn st.
  apply (parallelMap_no_workers nat nat fn [5%nat; 7%nat] 0 0%nat st).
  - lia.
  - exact (ParallelMap.run_init fn [5%nat; 7%nat] 0).
Defined.

(* ================================================================== *)
(** * Exact-line matcher: lines of digits *)
(* ================================================================== *)

Section DigitFacts.

Variable toLowerCase : jsstring -> jsstring.

Lemma starG_digits_eol (s : jsstring) :
  forall pv,
    starG false digit pv s
      (fun pv' s' => m false (Seq Eol Eps) (mkM pv' s' []) (fun st => Some st))
    <> None
    <-> Forall (fun c => isDigit c = true) s.
Proof.
  induction s as [|c s IH]; intros pv.
  - cbn [starG m rest]. split; [constructor|discriminate].
  - cbn [starG]. unfold clsMatch at 1, digit at 1.
    destruct (isDigit c) eqn:Ec.
    + specialize (IH (Some c)).
      destruct (starG false digit (Some c) s _) as [r|].
      * split; [|discriminate]. intros _. constructor; [exact Ec|].
        apply IH. discriminate.
      * cbn [m rest]. split; [congruence|].
        intros H. inversion H; subst. exfalso. apply IH; [assumption|reflexivity].
    + cbn [m rest]. split; [congruence|].
      intros H. inversion H; subst. congruence.
Qed.

(** The pattern for lines of digits matches exactly the non-empty
    texts made of digits. *)
Lemma allDigits_spec (s : jsstring) :
  test false allDigitsRe s = true
  <-> s <> [] /\ Forall (fun c => isDigit c = true) s.
Proof.
  change allDigitsRe with (Seq Bol (seqs [PlusG digit; Eol])).
  rewrite test_anchored. unfold matchAt, PlusG.
  cbn [seqs fold_right m prev rest caps].
  destruct s as [|c s].
  - split; [discriminate|]. intros [H _]. congruence.
  - unfold clsMatch at 1, digit at 1. destruct (isDigit c) eqn:Ec.
    + pose proof (starG_digits_eol s (Some c)) as H.
      cbn [m rest] in H.
      match goal with
      | |- context [starG false digit (Some c) s ?k] =>
          destruct (starG false digit (Some c) s k) as [r|]
      end.
      * split; [intros _|reflexivity]. split; [discriminate|].
        constructor; [exact Ec|]. apply H. discriminate.
      * split; [discriminate|]. intros [_ K]. inversion K; subst.
        exfalso. apply H; [assumption|reflexivity].
    + split; [discriminate|]. intros [_ K]. inversion K; subst. congruence.
Qed.

(** A line that takes part holds a code unit that is not a digit. *)
Lemma lineKey_not_digits (l o k : jsstring) :
  lineKey toLowerCase l = Some (o, k) ->
  exists c, In c o /\ isDigit c = false.
Proof.
  unfold lineKey. intros H.
  destruct ((len (trim l) <? 10) || test false allDigitsRe (trim l)) eqn:E1;
    [discriminate|].
  destruct (len (normalizeLine toLowerCase (trim l)) <? 10); [discriminate|].
  injection H as <- _. apply orb_false_iff in E1. destruct E1 as [E1 E2].
  apply Z.ltb_ge in E1.
  assert (Hne : trim l <> []).
  { intros K. rewrite K in E1. unfold len in E1. cbn [List.length] in E1. lia. }
  assert (Hnot : ~ Forall (fun c => isDigit c = true) (trim l)).
  { intros K. assert (T : test false allDigitsRe (trim l) = true)
      by (apply allDigits_spec; split; assumption).
    congruence. }
  clear E1 E2 Hne. induction (trim l) as [|c s IH].
  - exfalso. apply Hnot. constructor.
  - destruct (isDigit c) eqn:Ec.
    + destruct IH as [d [Hd Hn]].
      * intros K. apply Hnot. constructor; assumption.
      * exists d. split; [right; exact Hd|exact Hn].
    + exists c. split; [left; reflexivity|exact Ec].
Qed.

(** X25.  No match shows a line made of digits only. *)
Theorem match_line_not_digits (files : list FileContent)
  (mt : ExactLineMatch) :
  In mt (findExactLineMatches toLowerCase files) ->
  exists c, In c (line mt) /\ isDigit c = false.
Proof.
  intros Hin.
  destruct (result_from_map toLowerCase files mt Hin) as [k [e [Hke [-> _]]]].
  destruct (buildLineMap_inv toLowerCase files _ _ Hke)
    as [[_ [file [l [_ [_ Hkey]]]]] _].
  cbn [line toMatch]. apply (lineKey_not_digits l _ k Hkey).
Qed.

End DigitFacts.

Lemma match_line_not_digits_witness :
  let fa := mkFile (str "2024-01-01T00:00:00Z ERROR db down
[2024-01-01 00:00:01,123] warning: disk almost full") (str "a.log") in
  let fb := mkFile (str "2024-02-01T00:00:00Z ERROR db down
01/02/2024 10:00:00 Warning: disk almost full") (str "b.log") in
  let mt := mkMatch (str "2024-01-01T00:00:00Z ERROR db down")
              [mkOcc (str "a.log") [1]; mkOcc (str "b.log") [1]] error 2 in
  exists c, In c (line mt) /\ isDigit c = false.
Proof.
  intros fa fb mt. apply (match_line_not_digits toLowerCase [fa; fb] mt).
  vm_compute. left. reflexivity.
Defined.

(* ================================================================== *)
(** * Categories: the error words come first *)
(* ================================================================== *)

(** A match at a later position is found by the search, unless an
    earlier one is. *)
Lemma search_reaches (ic : bool) (r : regex) (pre suf : jsstring) :
  forall pv,
    matchAt ic r (prevAfter pv pre) suf <> None ->
    search ic r pv (pre ++ suf) <> None.
Proof.
  induction pre as [|c pre IH]; intros pv H.
  - cbn [app prevAfter fold_left] in *.
    destruct (matchAt ic r pv suf) as [st|] eqn:E; [|congruence].
    rewrite (search_here ic r pv suf st E). discriminate.
  - cbn [app search]. destruct (matchAt ic r pv (c :: pre ++ suf));
      [discriminate|].
    apply IH. exact H.
Qed.

Lemma error_word_here (pv : option char) (post : jsstring) :
  isWordOpt pv = false -> isWordOpt (hd_error post) = false ->
  matchAt false
    (Alt (word "error") (Alt (word "failed") (Alt (word "exception")
       (Alt (word "crash") (word "fatal")))))
    pv (str "error" ++ post) <> None.
Proof.
  intros Hpv Hpost. unfold matchAt. cbn [m].
  assert (E : m false (word "error") (mkM pv (str "error" ++ post) [])
                (fun st => Some st)
              = Some (mkM (Some 114%N) post [])).
  { change (word "error")
      with (Seq WordB (Seq (seqs (map Chr (str "error"))) (Seq WordB Eps))).
    change (str "error" ++ post)
      with (101%N :: 114%N :: 114%N :: 111%N :: 114%N :: post).
    cbn [m prev rest caps hd_error]. rewrite Hpv.
    change (isWordOpt (Some 101%N)) with true. cbn [xorb].
    change (seqs (map Chr (str "error")))
      with (Seq (Chr 101%N) (Seq (Chr 114%N) (Seq (Chr 114%N)
             (Seq (Chr 111%N) (Seq (Chr 114%N) Eps))))).
    cbn [m prev rest caps chrMatch]. unfold char_eqb.
    rewrite !N.eqb_refl. cbn [hd_error]. rewrite Hpost.
    change (isWordOpt (Some 114%N)) with true. reflexivity. }
  rewrite E. discriminate.
Qed.

(** X26.  The error words come first: a line in which [error] stands as
    a word, in whatever case, is of category [error], whatever else it
    holds. *)
Theorem error_word_makes_error (toLowerCase : jsstring -> jsstring)
  (ln : jsstring) :
  hasWord (str "error") (toLowerCase ln) -> categorize toLowerCase ln = error.
Proof.
  intros [pre [post [E [Hpre Hpost]]]]. unfold categorize. cbv zeta.
  rewrite E.
  assert (T : test false
                (Alt (word "error") (Alt (word "failed") (Alt (word "exception")
                   (Alt (word "crash") (word "fatal")))))
                (pre ++ str "error" ++ post) = true).
  { unfold test.
    pose proof (search_reaches false _ pre (str "error" ++ post) None
                  (error_word_here (prevAfter None pre) post Hpre Hpost)) as H.
    destruct (search false _ None (pre ++ str "error" ++ post));
      [reflexivity|congruence]. }
  rewrite T. reflexivity.
Qed.

Lemma error_word_makes_error_witness :
  categorize toLowerCase (str "WARNING: retry after Error (code 5)") = error.
Proof.
  apply (error_word_makes_error toLowerCase).
  exists (str "warning: retry after "), (str " (code 5)").
  repeat split.
Defined.

(* ================================================================== *)
(** * Similarity parser: reading back a written comparison *)
(* ================================================================== *)

Lemma chrMatch_refl (ic : bool) (c : char) : chrMatch ic c c = true.
Proof. unfold chrMatch. destruct ic; apply char_eqb_refl. Qed.

(** A literal reads itself. *)
Lemma m_lit_self (ic : bool) (h : jsstring) :
  forall pv rest' cs k,
    m ic (seqs (map Chr h)) (mkM pv (h ++ rest') cs) k
    = k (mkM (prevAfter pv h) rest' cs).
Proof.
  induction h as [|c h IH]; intros pv rest' cs k; [reflexivity|].
  cbn [map seqs fold_right app m rest prev caps]. rewrite chrMatch_refl.
  apply (IH (Some c)).
Qed.

(** A pattern that opens with the two code units [##] can only match
    where the text has them. *)
Lemma hashed_pv (rs : list regex) (T : regex) (pv pv' : option char)
  (s : jsstring) :
  matchAt true (Seq (seqs (Chr HASH :: Chr HASH :: rs)) T) pv s
  = matchAt true (Seq (seqs (Chr HASH :: Chr HASH :: rs)) T) pv' s.
Proof. destruct s; reflexivity. Qed.

Lemma hashed_search_pv (rs : list regex) (T : regex) (s : jsstring) :
  forall pv,
    search true (Seq (seqs (Chr HASH :: Chr HASH :: rs)) T) pv s
    = search true (Seq (seqs (Chr HASH :: Chr HASH :: rs)) T) None s.
Proof.
  induction s as [|c s IH]; intros pv.
  - cbn [search]. rewrite (hashed_pv rs T pv None). reflexivity.
  - cbn [search]. rewrite (hashed_pv rs T pv None), (IH (Some c)).
    reflexivity.
Qed.

Lemma hashed_first (rs : list regex) (T : regex) (pv : option char)
  (c : char) (s : jsstring) :
  c <> HASH ->
  matchAt true (Seq (seqs (Chr HASH :: Chr HASH :: rs)) T) pv (c :: s) = None.
Proof.
  intros H. unfold matchAt. cbn [seqs fold_right m rest prev caps].
  rewrite chrMatch_hash. apply not_eq_sym in H. apply char_eqb_neq in H.
  rewrite H. reflexivity.
Qed.

Lemma hashed_second (rs : list regex) (T : regex) (pv : option char)
  (c : char) (s : jsstring) :
  c <> HASH ->
  matchAt true (Seq (seqs (Chr HASH :: Chr HASH :: rs)) T) pv
    (HASH :: c :: s) = None.
Proof.
  intros H. unfold matchAt. cbn [seqs fold_right m rest prev caps].
  rewrite !chrMatch_hash, char_eqb_refl. apply not_eq_sym in H.
  apply char_eqb_neq in H. rewrite H. reflexivity.
Qed.

Lemma hashed_skip (rs : list regex) (T : regex) (pre rest' : jsstring) :
  ~ In HASH pre ->
  search true (Seq (seqs (Chr HASH :: Chr HASH :: rs)) T) None (pre ++ rest')
  = search true (Seq (seqs (Chr HASH :: Chr HASH :: rs)) T) None rest'.
Proof.
  induction pre as [|c pre IH]; intros H; [reflexivity|].
  cbn [app search].
  rewrite hashed_first by (intros ->; apply H; left; reflexivity).
  rewrite hashed_search_pv. apply IH. intros K. apply H. right. exact K.
Qed.

Lemma hashed_none (rs : list regex) (T : regex) (s : jsstring) :
  ~ In HASH s ->
  search true (Seq (seqs (Chr HASH :: Chr HASH :: rs)) T) None s = None.
Proof.
  intros H. rewrite <- (app_nil_r s), hashed_skip by exact H. reflexivity.
Qed.

Lemma simRegex_shape (l : SimLabel) :
  simRegex l = Seq (seqs (map Chr (simHeading l))) (simTail l).
Proof. destruct l; reflexivity. Qed.

Lemma simHeading_shape (l : SimLabel) :
  exists t, simHeading l = HASH :: HASH :: 32%N :: t /\ ~ In HASH t.
Proof.
  destruct l; eexists; (split; [reflexivity|]); vm_compute; intuition discriminate.
Qed.

Lemma simRegex_hashed (l : SimLabel) :
  exists rs, simRegex l = Seq (seqs (Chr HASH :: Chr HASH :: rs)) (simTail l).
Proof. destruct l; eexists; reflexivity. Qed.

Lemma sim_foreign_heading (l l' : SimLabel) (pv : option char)
  (rest' : jsstring) :
  l <> l' -> matchAt true (simRegex l) pv (simHeading l' ++ rest') = None.
Proof. intros H. destruct l, l'; try congruence; reflexivity. Qed.

(** A greedy star in front of the rest of a pattern. *)
Lemma seq_star (p : cset) (R : regex) (pre s : jsstring)
  (cs : list (nat * jsstring)) (k : cont) (Q : mstate -> Prop) :
  Forall (fun c => clsMatch true p c = true) pre ->
  match s with [] => True | c :: _ => clsMatch true p c = false end ->
  (forall pv', exists st, m true R (mkM pv' s cs) k = Some st /\ Q st) ->
  forall pv, exists st,
    m true (Seq (Star p) R) (mkM pv (pre ++ s) cs) k = Some st /\ Q st.
Proof.
  intros Hpre Hs Hk pv. cbn [m prev rest caps].
  apply (starG_run true p pre s
           (fun pv' s' => m true R (mkM pv' s' cs) k) Q); assumption.
Qed.

(** The lazy group [([\s\S]*?)] in front of the rest of a pattern: it
    takes the stretch on which the rest fails. *)
Lemma lazy_capture (R : regex) (r suff : jsstring)
  (cs : list (nat * jsstring)) (k : cont) (Q : mstate -> Prop) :
  (forall pv' r1 r2 cs',
     r = r1 ++ r2 -> r2 <> [] ->
     m true R (mkM pv' (r2 ++ suff) cs') k = None) ->
  (forall pv', exists st,
     m true R (mkM pv' suff (setCap 1 r cs)) k = Some st /\ Q st) ->
  forall pv, exists st,
    m true (Seq (Cap 1 (StarLazy anyChar)) R) (mkM pv (r ++ suff) cs) k
    = Some st /\ Q st.
Proof.
  intros Hmid Hend pv.
  destruct (starL_scan
              (fun pv0 s =>
                 m true R (mkM pv0 s (setCap 1 (consumed (r ++ suff) s) cs)) k)
              suff r pv) as [pv' E].
  - intros pv0 r1 r2 Er Hne. apply (Hmid pv0 r1 r2 _ Er Hne).
  - intros pv0. rewrite consumed_app.
    destruct (Hend pv0) as [st [E _]]. rewrite E. discriminate.
  - rewrite consumed_app in E. destruct (Hend pv') as [st [E' HQ]].
    exists st. split; [|exact HQ]. rewrite <- E'. exact E.
Qed.

(** The lookahead [(?=## |$)]. *)
Lemma marker_look_fail (pv : option char) (c : char) (s : jsstring)
  (cs : list (nat * jsstring)) :
  c <> HASH ->
  m true (Seq (Look (Alt (lit "## ") Eol)) Eps) (mkM pv (c :: s) cs)
    (fun st => Some st) = None.
Proof.
  intros H. change (lit "## ")
    with (Seq (Chr HASH) (Seq (Chr HASH) (Seq (Chr 32%N) Eps))).
  cbn [m rest prev caps]. rewrite chrMatch_hash.
  apply not_eq_sym in H. apply char_eqb_neq in H. rewrite H. reflexivity.
Qed.

Lemma marker_look_ok (pv : option char) (s : jsstring)
  (cs : list (nat * jsstring)) :
  atMarker s ->
  m true (Seq (Look (Alt (lit "## ") Eol)) Eps) (mkM pv s cs)
    (fun st => Some st) = Some (mkM pv s cs).
Proof. intros [-> |[s' ->]]; reflexivity. Qed.

Lemma getCap_setCap (i : nat) (v : jsstring) (cs : list (nat * jsstring)) :
  getCap i (setCap i v cs) = v.
Proof. unfold setCap. cbn [getCap]. rewrite Nat.eqb_refl. reflexivity. Qed.

(** After a heading: the white space is passed over and the group
    takes the text up to the next marker, or up to the end. *)
Lemma simTail_match (l : SimLabel) (ws cap rest' : jsstring)
  (pv : option char) :
  Forall (fun c => isSpace c = true) ws ->
  match cap ++ rest' with [] => True | c :: _ => isSpace c = false end ->
  ~ In HASH cap -> atMarker rest' -> (l = Correlations -> rest' = []) ->
  exists st,
    m true (simTail l) (mkM pv (ws ++ cap ++ rest') []) (fun st => Some st)
    = Some st
    /\ getCap 1 (caps st) = cap.
Proof.
  intros Hws Hhead Hcap Hrest Hlast.
  assert (Hws' : Forall (fun c => clsMatch true space c = true) ws).
  { eapply Forall_impl; [|exact Hws]. intros a Ha.
    rewrite clsMatch_ci_space. exact Ha. }
  assert (Hhead' : match cap ++ rest' with
                   | [] => True
                   | c :: _ => clsMatch true space c = false
                   end).
  { destruct (cap ++ rest'); [exact I|].
    rewrite clsMatch_ci_space. exact Hhead. }
  assert (Hmid : forall r1 r2 (c : char), cap = r1 ++ r2 -> r2 <> [] ->
                   exists c r2', r2 = c :: r2' /\ c <> HASH).
  { intros r1 r2 _ Er Hne. destruct r2 as [|c r2']; [congruence|].
    exists c, r2'. split; [reflexivity|]. intros ->. apply Hcap.
    rewrite Er. apply in_or_app. right. left. reflexivity. }
  destruct l.
  1-3: change (simTail _)
         with (Seq (Star space)
                 (Seq (Cap 1 (StarLazy anyChar))
                    (Seq (Look (Alt (lit "## ") Eol)) Eps)));
       apply seq_star; [exact Hws'|exact Hhead'|]; intros pv1;
       apply lazy_capture;
       [ intros pv' r1 r2 cs' Er Hne;
         destruct (Hmid r1 r2 LF Er Hne) as [c [r2' [-> Hc]]];
         apply marker_look_fail; exact Hc
       | intros pv'; eexists; split;
         [apply marker_look_ok; exact Hrest|apply getCap_setCap] ].
  change (simTail Correlations)
    with (Seq (Star space)
            (Seq (Cap 1 (StarLazy anyChar)) (Seq Eol Eps))).
  rewrite (Hlast eq_refl) in *.
  apply seq_star; [exact Hws'|exact Hhead'|]. intros pv1.
  apply lazy_capture.
  - intros pv' r1 r2 cs' Er Hne.
    destruct (Hmid r1 r2 LF Er Hne) as [c [r2' [-> Hc]]]. reflexivity.
  - intros pv'. eexists. split; [reflexivity|apply getCap_setCap].
Qed.

(** ** The items of a body followed by blank lines *)

Lemma blank_step (st : ItemState) : flush (itemStep st []) = flush st.
Proof.
  unfold itemStep, flush. cbn [trim trimStart trimEnd rev truthy negb].
  destruct (truthy (currentItem st)) eqn:E; cbn [items currentItem truthy];
    [reflexivity|]. rewrite E. reflexivity.
Qed.

Lemma blank_steps (n : nat) :
  forall st, flush (fold_left itemStep (repeat [] n) st) = flush st.
Proof.
  induction n as [|n IH]; intros st; [reflexivity|].
  cbn [repeat fold_left]. rewrite IH. apply blank_step.
Qed.

Lemma join_blanks (n : nat) : join [LF] (repeat [] (S n)) = repeat LF n.
Proof.
  induction n as [|n IH]; [reflexivity|].
  change (join [LF] (repeat [] (S (S n))))
    with ([] ++ [LF] ++ join [LF] (repeat (@nil char) (S n))).
  rewrite IH. reflexivity.
Qed.

Lemma listBody_blank_items (its : list jsstring) (n : nat) :
  its <> [] -> Forall cleanItem its ->
  extractListItems (listBody its ++ LF :: repeat LF n) = its.
Proof.
  intros Hne Hc. unfold extractListItems, rawItems, listBody.
  assert (E : join [LF] (map bulletLine its) ++ LF :: repeat LF n
              = join [LF] (map bulletLine its ++ repeat [] (S n))).
  { rewrite join_app_nonempty.
    - rewrite join_blanks. reflexivity.
    - destruct its; [congruence|discriminate].
    - discriminate. }
  rewrite E, split_join.
  - rewrite fold_left_app, blank_steps.
    rewrite (fold_itemLines _ _ (bulletLines_itemLines its) Hc).
    apply filter_clean, Hc.
  - destruct its; [congruence|discriminate].
  - apply Forall_app. split.
    + apply Forall_forall. intros line Hin.
      apply in_map_iff in Hin. destruct Hin as [j [<- Hj]].
      rewrite Forall_forall in Hc.
      apply (itemLine_no_LF (bulletLine j) j (bulletLine_itemLine j) (Hc j Hj)).
    + apply Forall_forall. intros line Hin. apply repeat_spec in Hin.
      subst line. intros [].
Qed.

Lemma listBody_no_hash (its : list jsstring) :
  Forall plainItem its -> ~ In HASH (listBody its).
Proof.
  intros Hall H. unfold listBody in H. apply In_join in H.
  destruct H as [[H|[]]|[p [Hp H]]]; [discriminate H|].
  apply in_map_iff in Hp. destruct Hp as [i [<- Hi]].
  rewrite Forall_forall in Hall. destruct (Hall i Hi) as [_ Hh].
  unfold bulletLine in H. apply in_app_or in H.
  destruct H as [[H|[H|[]]]|H]; [discriminate H|discriminate H|tauto].
Qed.

Lemma blanks_no_hash (n : nat) : ~ In HASH (repeat LF n).
Proof. intros H. apply repeat_spec in H. discriminate H. Qed.

(** A section at the head of the text is found by its own pattern, and
    its group holds the items. *)
Lemma sim_own_section (l : SimLabel) (gap : nat) (its : list jsstring)
  (rest' : jsstring) (pv : option char) :
  Forall plainItem its -> atMarker rest' -> (l = Correlations -> rest' = []) ->
  exists st,
    matchAt true (simRegex l) pv (simSection gap l its ++ rest') = Some st
    /\ extractListItems (getCap 1 (caps st)) = its.
Proof.
  intros Hp Hrest Hlast. unfold matchAt, simSection.
  rewrite simRegex_shape, <- app_assoc. cbn [m]. rewrite m_lit_self.
  destruct its as [|i its].
  - destruct (simTail_match l (LF :: LF :: repeat LF gap) [] rest'
                (prevAfter pv (simHeading l))) as [st [E Hc]].
    + repeat constructor. apply Forall_forall. intros c Hc.
      apply repeat_spec in Hc. subst c. reflexivity.
    + cbn [app]. destruct Hrest as [-> |[s' ->]]; [exact I|reflexivity].
    + intros [].
    + exact Hrest.
    + exact Hlast.
    + exists st. split; [exact E|]. rewrite Hc. reflexivity.
  - destruct (simTail_match l [LF] (listBody (i :: its) ++ LF :: repeat LF gap)
                rest' (prevAfter pv (simHeading l))) as [st [E Hc]].
    + repeat constructor.
    + unfold listBody, bulletLine. destruct its; reflexivity.
    + intros K. apply in_app_or in K. destruct K as [K|[K|K]].
      * apply (listBody_no_hash _ Hp K).
      * discriminate K.
      * apply (blanks_no_hash gap K).
    + exact Hrest.
    + exact Hlast.
    + exists st. split.
      * rewrite <- E. cbn [app]. rewrite <- app_assoc. reflexivity.
      * rewrite Hc. apply listBody_blank_items; [discriminate|].
        apply plain_clean, Hp.
Qed.

(** A section of another title is passed over. *)
Lemma sim_skip_section (l l' : SimLabel) (gap : nat) (its : list jsstring)
  (rest' : jsstring) :
  l <> l' -> Forall plainItem its ->
  search true (simRegex l) None (simSection gap l' its ++ rest')
  = search true (simRegex l) None rest'.
Proof.
  intros Hl Hp. unfold simSection. rewrite <- app_assoc.
  assert (Hpre : ~ In HASH (LF :: listBody its ++ LF :: repeat LF gap)).
  { intros [K|K]; [discriminate K|]. apply in_app_or in K.
    destruct K as [K|[K|K]].
    - apply (listBody_no_hash _ Hp K).
    - discriminate K.
    - apply (blanks_no_hash gap K). }
  remember (LF :: listBody its ++ LF :: repeat LF gap) as pre eqn:Epre.
  clear Epre.
  pose proof (sim_foreign_heading l l' None (pre ++ rest') Hl) as Hf.
  destruct (simRegex_hashed l) as [rs E]. rewrite E in *.
  destruct (simHeading_shape l') as [t [Eh Ht]]. rewrite Eh in *.
  cbn [app search] in *. rewrite Hf.
  rewrite (hashed_pv rs (simTail l) (Some HASH) None).
  rewrite hashed_second by discriminate.
  rewrite (hashed_pv rs (simTail l) (Some HASH) None).
  rewrite hashed_first by discriminate.
  rewrite hashed_search_pv, app_assoc.
  apply hashed_skip. intros K. apply in_app_or in K. tauto.
Qed.

Lemma simSection_marker (gap : nat) (l : SimLabel) (its : list jsstring)
  (rest' : jsstring) :
  atMarker (simSection gap l its ++ rest').
Proof.
  right. unfold simSection. destruct (simHeading_shape l) as [t [-> _]].
  eexists. reflexivity.
Qed.

(** X27.  Round trip of the similarity parser: a comparison whose items
    are clean and free of [#], written as the four sections the prompt
    asks for, each a heading, one bullet line for each item and any
    fixed number of blank lines, is parsed back to itself. *)
Theorem parse_written_similarities (gap : nat) (r : SimilarityResult) :
  Forall plainItem (sharedPatterns r) ->
  Forall plainItem (sharedAnomalies r) ->
  Forall plainItem (sharedRootCauses r) ->
  Forall plainItem (correlations r) ->
  parseSimilaritiesResponse (simText gap r) = r.
Proof.
  intros H1 H2 H3 H4. destruct r as [sp sa sr co].
  cbn [sharedPatterns sharedAnomalies sharedRootCauses correlations] in *.
  unfold parseSimilaritiesResponse, simText, sectionItems, exec.
  cbn [sharedPatterns sharedAnomalies sharedRootCauses correlations].
  f_equal.
  - change sharedPatternsRe with (simRegex SharedPatterns).
    destruct (sim_own_section SharedPatterns gap sp
                (simSection gap SharedAnomalies sa
                 ++ simSection gap SharedRootCauses sr
                 ++ simSection gap Correlations co) None H1)
      as [st [E Hc]];
      [apply simSection_marker|discriminate|].
    rewrite (search_here _ _ _ _ _ E). exact Hc.
  - change sharedAnomaliesRe with (simRegex SharedAnomalies).
    rewrite sim_skip_section by (discriminate || assumption).
    destruct (sim_own_section SharedAnomalies gap sa
                (simSection gap SharedRootCauses sr
                 ++ simSection gap Correlations co) None H2)
      as [st [E Hc]];
      [apply simSection_marker|discriminate|].
    rewrite (search_here _ _ _ _ _ E). exact Hc.
  - change sharedRootCausesRe with (simRegex SharedRootCauses).
    rewrite !sim_skip_section by (discriminate || assumption).
    destruct (sim_own_section SharedRootCauses gap sr
                (simSection gap Correlations co) None H3)
      as [st [E Hc]];
      [rewrite <- (app_nil_r (simSection gap Correlations co));
       apply simSection_marker|discriminate|].
    rewrite (search_here _ _ _ _ _ E). exact Hc.
  - change correlationsRe with (simRegex Correlations).
    rewrite !sim_skip_section by (discriminate || assumption).
    destruct (sim_own_section Correlations gap co [] None H4)
      as [st [E Hc]]; [left; reflexivity|reflexivity|].
    rewrite app_nil_r in E.
    rewrite (search_here _ _ _ _ _ E). exact Hc.
Qed.

Lemma parse_written_similarities_witness :
  let r := mkSimilarity [str "timeouts at startup"] []
             [str "pool exhausted"; str "retry storm"] [] in
  parseSimilaritiesResponse (simText 1 r) = r.
Proof.
  apply parse_written_similarities;
    cbn [sharedPatterns sharedAnomalies sharedRootCauses correlations];
    repeat constructor; intros K; vm_compute in K; intuition discriminate.
Defined.

(** X28.  A response that nowhere holds [#] has no section: the four
    lists are empty. *)
Theorem similarities_without_marker (content : jsstring) :
  ~ In HASH content ->
  parseSimilaritiesResponse content = mkSimilarity [] [] [] [].
Proof.
  intros H. unfold parseSimilaritiesResponse, sectionItems, exec.
  change sharedPatternsRe with (simRegex SharedPatterns).
  change sharedAnomaliesRe with (simRegex SharedAnomalies).
  change sharedRootCausesRe with (simRegex SharedRootCauses).
  change correlationsRe with (simRegex Correlations).
  destruct (simRegex_hashed SharedPatterns) as [r1 ->].
  destruct (simRegex_hashed SharedAnomalies) as [r2 ->].
  destruct (simRegex_hashed SharedRootCauses) as [r3 ->].
  destruct (simRegex_hashed Correlations) as [r4 ->].
  rewrite !hashed_none by exact H. reflexivity.
Qed.

Lemma similarities_without_marker_witness :
  parseSimilaritiesResponse (str "The files have nothing in common.")
  = mkSimilarity [] [] [] [].
Proof.
  apply similarities_without_marker. intros K. vm_compute in K.
  intuition discriminate.
Defined.

(* ================================================================== *)
(** * Section parser: sections in any order *)
(* ================================================================== *)

Lemma upperChar_inv (x C : char) :
  upperChar x = C -> isUpper C = true -> x = C \/ x = (C + 32)%N.
Proof.
  unfold upperChar. intros H HC. apply isUpper_range in HC.
  destruct (isLower x) eqn:E; [|left; exact H].
  apply isLower_range in E. right. lia.
Qed.

Lemma upperChar_capital (C : char) : isUpper C = true -> upperChar C = C.
Proof.
  intros H. apply isUpper_range in H. unfold upperChar.
  replace (isLower C) with false; [reflexivity|].
  symmetry. unfold isLower. apply andb_false_iff. left. apply N.leb_gt. lia.
Qed.

(** A word spelled in any case is matched letter by letter. *)
Lemma spelled_chars (W w : jsstring) :
  map upperChar w = W -> Forall (fun C => isUpper C = true) W ->
  Forall2 (fun C x => chrMatch true C x = true) W w.
Proof.
  revert W. induction w as [|x w IH]; intros W E HW; subst W; [constructor|].
  cbn [map] in *. inversion HW as [|? ? Hx HW']; subst.
  constructor; [|apply IH; [reflexivity|exact HW']].
  unfold chrMatch. rewrite (upperChar_capital _ Hx). apply char_eqb_refl.
Qed.

(** Its letters are neither [#] nor white space. *)
Lemma spelled_plain (W w : jsstring) :
  map upperChar w = W -> Forall (fun C => isUpper C = true) W ->
  Forall (fun x => x <> HASH /\ isSpace x = false) w.
Proof.
  revert W. induction w as [|x w IH]; intros W E HW; subst W; [constructor|].
  cbn [map] in *. inversion HW as [|? ? Hx HW']; subst.
  constructor; [|apply (IH _ eq_refl HW')].
  destruct (upperChar_inv x _ eq_refl Hx) as [E|E];
    apply isUpper_range in Hx; unfold HASH;
    (split; [lia|apply range_not_space; lia]).
Qed.

Lemma capitals (W : string) :
  forallb isUpper (str W) = true -> Forall (fun C => isUpper C = true) (str W).
Proof. intros H. apply Forall_forall. apply forallb_forall. exact H. Qed.

(** The title of a section begins with the first letter of its label
    and holds neither [#] nor, at its head, white space. *)
Lemma title_initial (l : Label) (w : jsstring) :
  titleOf l w -> exists x w', w = x :: w' /\ upperChar x = initial l.
Proof.
  destruct l; cbn [titleOf]; unfold spells.
  - intros [H|H]; (destruct w as [|x w]; [discriminate H|]);
      exists x, w; (split; [reflexivity|]); injection H as H _; exact H.
  - intros [H|H]; (destruct w as [|x w]; [discriminate H|]);
      exists x, w; (split; [reflexivity|]); injection H as H _; exact H.
  - intros [r [ws [c [-> [H _]]]]]. destruct r as [|x r]; [discriminate H|].
    exists x, (r ++ ws ++ c). split; [reflexivity|].
    injection H as H _; exact H.
  - intros H. destruct w as [|x w]; [discriminate H|].
    exists x, w. split; [reflexivity|]. injection H as H _; exact H.
Qed.

Lemma title_no_hash (l : Label) (w : jsstring) : titleOf l w -> ~ In HASH w.
Proof.
  assert (P : forall W v, map upperChar v = str W ->
                          forallb isUpper (str W) = true -> ~ In HASH v).
  { intros W v E HW K.
    pose proof (spelled_plain _ _ E (capitals W HW)) as F.
    rewrite Forall_forall in F. destruct (F _ K) as [N _]. congruence. }
  destruct l; cbn [titleOf]; unfold spells.
  - intros [H|H]; apply (P _ _ H); reflexivity.
  - intros [H|H]; apply (P _ _ H); reflexivity.
  - intros [r [ws [c [-> [Hr [Hws Hc]]]]]] K.
    apply in_app_or in K. destruct K as [K|K].
    { revert K. apply (P _ _ Hr). reflexivity. }
    apply in_app_or in K. destruct K as [K|K].
    { rewrite Forall_forall in Hws. specialize (Hws _ K). discriminate Hws. }
    revert K. destruct Hc as [Hc|Hc]; apply (P _ _ Hc); reflexivity.
  - intros H. apply (P _ _ H). reflexivity.
Qed.

Lemma initial_capital (l : Label) : isUpper (initial l) = true.
Proof. destruct l; reflexivity. Qed.

Lemma initial_not_space (x : char) (l : Label) :
  upperChar x = initial l -> isSpace x = false.
Proof.
  intros H.
  destruct (upperChar_inv x _ H (initial_capital l)) as [->| ->];
    destruct l; reflexivity.
Qed.

(** The first letter of one title is not matched by that of another,
    nor by white space. *)
Lemma initial_distinct (l l' : Label) (x : char) :
  l <> l' -> upperChar x = initial l' -> chrMatch true (initial l) x = false.
Proof.
  intros Hl H. unfold chrMatch. rewrite H.
  destruct l, l'; try congruence; reflexivity.
Qed.

Lemma initial_space (l : Label) (c : char) :
  isSpace c = true -> chrMatch true (initial l) c = false.
Proof.
  intros Hc. unfold chrMatch. rewrite (upperChar_capital _ (initial_capital l)).
  apply char_eqb_neq. intros E. symmetry in E.
  rewrite (initial_not_space c l E) in Hc. discriminate Hc.
Qed.

(** ** The marker inside a text *)

Lemma hasMarker_cons (a b : char) (t : jsstring) :
  hasMarker (a :: b :: t) = false ->
  (a <> HASH \/ b <> HASH) /\ hasMarker (b :: t) = false.
Proof.
  change (hasMarker (a :: b :: t))
    with ((char_eqb HASH a && char_eqb HASH b) || hasMarker (b :: t)).
  intros H. apply orb_false_iff in H. destruct H as [H1 H2].
  split; [|exact H2]. apply andb_false_iff in H1.
  destruct H1 as [H|H]; apply char_eqb_neq in H; [left|right]; congruence.
Qed.

Lemma hasMarker_tail (a : char) (t : jsstring) :
  hasMarker (a :: t) = false -> hasMarker t = false.
Proof.
  destruct t as [|b t]; [reflexivity|]. intros H.
  apply (hasMarker_cons a b t H).
Qed.

Lemma hasMarker_suffix (r1 r2 : jsstring) :
  hasMarker (r1 ++ r2) = false -> hasMarker r2 = false.
Proof.
  induction r1 as [|a r1 IH]; intros H; [exact H|].
  apply IH. apply (hasMarker_tail a). exact H.
Qed.

Lemma hasMarker_plain (a b : jsstring) :
  ~ In HASH a -> hasMarker b = false -> hasMarker (a ++ b) = false.
Proof.
  induction a as [|x a IH]; intros Ha Hb; [exact Hb|].
  assert (Hx : char_eqb HASH x = false)
    by (apply char_eqb_neq; intros E; apply Ha; left; symmetry; exact E).
  assert (IH' : hasMarker (a ++ b) = false)
    by (apply IH; [intros K; apply Ha; right; exact K|exact Hb]).
  cbn [app]. destruct (a ++ b) as [|y t] eqn:E; [reflexivity|].
  change (hasMarker (x :: y :: t))
    with ((char_eqb HASH x && char_eqb HASH y) || hasMarker (y :: t)).
  rewrite Hx, IH'. reflexivity.
Qed.

(** A heading pattern finds nothing in a text without the marker, as
    long as what follows does not begin with [#]. *)
Lemma marked_skip_text (h t : regex) (pre rest' : jsstring) :
  hasMarker pre = false ->
  match rest' with c :: _ => c <> HASH | [] => True end ->
  search true (marked h t) None (pre ++ rest') =
  search true (marked h t) None rest'.
Proof.
  induction pre as [|c pre IH]; intros Hm Hr; [reflexivity|].
  cbn [app search].
  assert (E : matchAt true (marked h t) None (c :: pre ++ rest') = None).
  { destruct (N.eq_dec c HASH) as [->|Hc]; [|apply marked_first; exact Hc].
    destruct pre as [|d pre].
    - cbn [app]. destruct rest' as [|e rest'];
        [apply marked_single|apply marked_second; exact Hr].
    - cbn [app]. apply marked_second.
      destruct (hasMarker_cons _ _ _ Hm) as [[K|K] _]; congruence. }
  rewrite E, marked_search_pv. apply IH; [|exact Hr].
  apply (hasMarker_tail c). exact Hm.
Qed.

(** ** Headings *)

Lemma regexOf_initial (l : Label) :
  exists R1 R2,
    regexOf l =
    marked (Seq (Star space) (Seq (Seq (Chr (initial l)) R1) R2)) (tailOf l).
Proof. destruct l; eexists; eexists; reflexivity. Qed.

(** Three [#] in a row: the pattern does not match at the first. *)
Lemma hash_run (l : Label) (pv : option char) (x : jsstring) :
  matchAt true (regexOf l) pv (HASH :: HASH :: HASH :: x) = None.
Proof. destruct l; reflexivity. Qed.

Lemma skip_hashes (l : Label) (k : nat) (x : jsstring) :
  search true (regexOf l) None (repeat HASH k ++ HASH :: HASH :: x) =
  search true (regexOf l) None (HASH :: HASH :: x).
Proof.
  destruct (regexOf_marked l) as [h [t E]].
  induction k as [|k IH]; [reflexivity|].
  assert (S3 : exists y, repeat HASH k ++ HASH :: HASH :: x
      = HASH :: HASH :: y).
  { destruct k as [|k]; [exists x; reflexivity|].
    destruct k as [|k]; [exists (HASH :: x); reflexivity|].
    eexists. reflexivity. }
  destruct S3 as [y Ey].
  cbn [repeat app search]. rewrite Ey at 1. rewrite hash_run.
  rewrite E in *. rewrite marked_search_pv. exact IH.
Qed.

(** A greedy star gives up when what follows fails wherever the star
    may stop. *)
Lemma starG_none (ic : bool) (p : cset) (x : char) (t : jsstring)
  (k : option char -> jsstring -> option mstate) (ws : jsstring) :
  clsMatch ic p x = false ->
  (forall pv' s1 s2, ws = s1 ++ s2 -> k pv' (s2 ++ x :: t) = None) ->
  forall pv, starG ic p pv (ws ++ x :: t) k = None.
Proof.
  intros Hx. induction ws as [|c ws IH]; intros Hk pv.
  - cbn [app starG]. rewrite Hx. apply (Hk pv [] []). reflexivity.
  - cbn [app starG].
    rewrite (IH (fun pv' s1 s2 E => Hk pv' (c :: s1) s2 (f_equal (cons c) E))).
    pose proof (Hk pv [] (c :: ws) eq_refl) as H0. cbn [app] in H0.
    rewrite H0. destruct (clsMatch ic p c); reflexivity.
Qed.

(** At the heading of another title the pattern does not match. *)
Lemma foreign_title (l l' : Label) (ws w rest' : jsstring)
  (pv : option char) :
  l <> l' -> Forall (fun x => isSpace x = true) ws -> titleOf l' w ->
  matchAt true (regexOf l) pv (HASH :: HASH :: ws ++ w ++ rest') = None.
Proof.
  intros Hl Hws Hw.
  destruct (regexOf_initial l) as [R1 [R2 E]]. rewrite E.
  destruct (title_initial l' w Hw) as [x [w' [-> Hx]]].
  unfold matchAt, marked. cbn [m rest prev caps].
  rewrite !chrMatch_hash, char_eqb_refl. cbn [app].
  apply starG_none.
  - rewrite clsMatch_ci_space. apply (initial_not_space x l' Hx).
  - intros pv' s1 s2 Es. destruct s2 as [|c s2]; cbn [app].
    + rewrite (initial_distinct l l' x Hl Hx). reflexivity.
    + rewrite initial_space; [reflexivity|].
      rewrite Forall_forall in Hws. apply Hws. rewrite Es.
      apply in_or_app. right. left. reflexivity.
Qed.

(** A word of the pattern in front of the rest of it. *)
Lemma seq_word (W w : jsstring) (R : regex) (s : jsstring)
  (cs : list (nat * jsstring)) (k : cont) (Q : mstate -> Prop) :
  Forall2 (fun C x => chrMatch true C x = true) W w ->
  (forall pv', exists st, m true R (mkM pv' s cs) k = Some st /\ Q st) ->
  forall pv, exists st,
    m true (Seq (seqs (map Chr W)) R) (mkM pv (w ++ s) cs) k = Some st /\ Q st.
Proof.
  intros HW Hk. induction HW as [|C x W w Hx HW IH]; intros pv.
  - apply Hk.
  - cbn [map seqs fold_right app m rest prev caps]. rewrite Hx.
    apply (IH (Some x)).
Qed.

Lemma seq_spelled (W : string) (w : jsstring) (R : regex) (s : jsstring)
  (cs : list (nat * jsstring)) (k : cont) (Q : mstate -> Prop) :
  spells W w -> forallb isUpper (str W) = true ->
  (forall pv', exists st, m true R (mkM pv' s cs) k = Some st /\ Q st) ->
  forall pv, exists st,
    m true (Seq (lit W) R) (mkM pv (w ++ s) cs) k = Some st /\ Q st.
Proof.
  intros Hw HW Hk. apply seq_word; [|exact Hk].
  apply spelled_chars; [exact Hw|apply capitals; exact HW].
Qed.

(** White space, or none, in front of a word. *)
Lemma seq_spaces (ws : jsstring) (x : char) (t : jsstring) (R : regex)
  (cs : list (nat * jsstring)) (k : cont) (Q : mstate -> Prop) :
  Forall (fun c => isSpace c = true) ws -> isSpace x = false ->
  (forall pv', exists st, m true R (mkM pv' (x :: t) cs) k = Some st /\ Q st) ->
  forall pv, exists st,
    m true (Seq (Star space) R) (mkM pv (ws ++ x :: t) cs) k = Some st /\ Q st.
Proof.
  intros Hws Hx Hk. apply seq_star; [| |exact Hk].
  - apply Forall_forall. intros c Hc. rewrite clsMatch_ci_space.
    rewrite Forall_forall in Hws. apply Hws. exact Hc.
  - rewrite clsMatch_ci_space. exact Hx.
Qed.

(** The optional [S] at the end of a title: taken when it is there,
    passed over when the text goes on with something else. *)
Lemma optional_S (W : string) (w s : jsstring)
  (cs : list (nat * jsstring)) (k : cont) (Q : mstate -> Prop) :
  map upperChar w = str W \/ map upperChar w = str W ++ [83%N] ->
  forallb isUpper (str W) = true ->
  match s with c :: _ => upperChar c <> 83%N | [] => True end ->
  (forall pv', exists st, k (mkM pv' s cs) = Some st /\ Q st) ->
  forall pv, exists st,
    m true (Seq (lit W) (Seq (Opt (lit "S")) Eps)) (mkM pv (w ++ s) cs) k
    = Some st /\ Q st.
Proof.
  intros Hw HW Hs Hk. destruct Hw as [Hw|Hw].
  - apply seq_spelled; [exact Hw|exact HW|]. intros pv.
    destruct (Hk pv) as [st [E HQ]]. exists st. split; [|exact HQ].
    destruct s as [|c s]; [exact E|].
    change (lit "S") with (Seq (Chr 83%N) Eps).
    cbn [m rest prev caps].
    replace (chrMatch true 83%N c) with false; [exact E|].
    symmetry. unfold chrMatch. apply char_eqb_neq. intros K. apply Hs.
    rewrite <- K. reflexivity.
  - apply map_eq_app in Hw. destruct Hw as [w1 [w2 [-> [H1 H2]]]].
    destruct w2 as [|x [|y w2]]; try discriminate H2.
    injection H2 as Hx. rewrite <- app_assoc.
    apply seq_spelled; [exact H1|exact HW|]. intros pv.
    change (lit "S") with (Seq (Chr 83%N) Eps).
    cbn [app m rest prev caps].
    replace (chrMatch true 83%N x) with true
      by (symmetry; unfold chrMatch; rewrite Hx; reflexivity).
    apply first_choice. apply Hk.
Qed.

(** At its own heading a heading pattern matches up to the end of the
    title. *)
Lemma own_title (l : Label) (ws w s : jsstring)
  (cs : list (nat * jsstring)) (k : cont) (Q : mstate -> Prop) :
  Forall (fun x => isSpace x = true) ws -> titleOf l w ->
  match l, s with
  | (Patterns | RootCauses), c :: _ => upperChar c <> 83%N
  | _, _ => True
  end ->
  (forall pv', exists st, k (mkM pv' s cs) = Some st /\ Q st) ->
  forall pv, exists st,
    m true (headOf l) (mkM pv (HASH :: HASH :: ws ++ w ++ s) cs) k
    = Some st /\ Q st.
Proof.
  intros Hws Hw Hs Hk pv.
  destruct (title_initial l w Hw) as [x [w' [Ew Hx]]].
  pose proof (initial_not_space x l Hx) as Hsp.
  change (HASH :: HASH :: ws ++ w ++ s) with ([HASH; HASH] ++ ws ++ w ++ s).
  assert (H2 : Forall2 (fun C y => chrMatch true C y = true)
                 (str "##") [HASH; HASH]) by (repeat constructor).
  destruct l; cbn [titleOf initial] in *.
  - change (headOf Patterns)
      with (Seq (seqs (map Chr (str "##")))
              (Seq (Star space)
                 (Seq (lit "PATTERN") (Seq (Opt (lit "S")) Eps)))).
    apply seq_word; [exact H2|]. intros pv1.
    rewrite Ew. cbn [app]. apply seq_spaces; [exact Hws|exact Hsp|].
    intros pv2. change (x :: w' ++ s) with ((x :: w') ++ s). rewrite <- Ew.
    apply optional_S; [exact Hw|reflexivity|exact Hs|exact Hk].
  - change (headOf Anomalies)
      with (Seq (seqs (map Chr (str "##")))
              (Seq (Star space)
                 (Seq (lit "ANOMAL") (Seq (Alt (lit "Y") (lit "IES")) Eps)))).
    apply seq_word; [exact H2|]. intros pv1.
    rewrite Ew. cbn [app]. apply seq_spaces; [exact Hws|exact Hsp|].
    intros pv2. change (x :: w' ++ s) with ((x :: w') ++ s). rewrite <- Ew.
    unfold spells in Hw.
    destruct Hw as [Hw|Hw];
      [change (str "ANOMALY") with (str "ANOMAL" ++ str "Y") in Hw
      |change (str "ANOMALIES") with (str "ANOMAL" ++ str "IES") in Hw];
      apply map_eq_app in Hw; destruct Hw as [w1 [w2 [-> [H1 Hw2]]]];
      rewrite <- app_assoc;
      (apply seq_spelled; [exact H1|reflexivity|]); intros pv3.
    + destruct w2 as [|y [|z w2]]; try discriminate Hw2.
      injection Hw2 as Hy.
      change (lit "Y") with (Seq (Chr 89%N) Eps).
      cbn [app m rest prev caps].
      replace (chrMatch true 89%N y) with true
        by (symmetry; unfold chrMatch; rewrite Hy; reflexivity).
      apply first_choice. apply Hk.
    + destruct w2 as [|y1 [|y2 [|y3 [|z w2]]]]; try discriminate Hw2.
      injection Hw2 as Hy1 Hy2 Hy3.
      change (lit "Y") with (Seq (Chr 89%N) Eps).
      change (lit "IES")
        with (Seq (Chr 73%N) (Seq (Chr 69%N) (Seq (Chr 83%N) Eps))).
      cbn [app m rest prev caps].
      replace (chrMatch true 89%N y1) with false
        by (symmetry; unfold chrMatch; rewrite Hy1; reflexivity).
      replace (chrMatch true 73%N y1) with true
        by (symmetry; unfold chrMatch; rewrite Hy1; reflexivity).
      replace (chrMatch true 69%N y2) with true
        by (symmetry; unfold chrMatch; rewrite Hy2; reflexivity).
      replace (chrMatch true 83%N y3) with true
        by (symmetry; unfold chrMatch; rewrite Hy3; reflexivity).
      apply Hk.
  - change (headOf RootCauses)
      with (Seq (seqs (map Chr (str "##")))
              (Seq (Star space)
                 (Seq (lit "ROOT")
                    (Seq (Star space)
                       (Seq (lit "CAUSE") (Seq (Opt (lit "S")) Eps)))))).
    apply seq_word; [exact H2|]. intros pv1.
    rewrite Ew. cbn [app]. apply seq_spaces; [exact Hws|exact Hsp|].
    intros pv2. change (x :: w' ++ s) with ((x :: w') ++ s). rewrite <- Ew.
    destruct Hw as [r [ws' [c [-> [Hr [Hws' Hc]]]]]].
    rewrite <- !app_assoc.
    apply seq_spelled; [exact Hr|reflexivity|]. intros pv3.
    assert (Hc0 : exists y c', c = y :: c' /\ isSpace y = false).
    { unfold spells in Hc.
      destruct c as [|y c']; [destruct Hc as [Hc|Hc]; discriminate Hc|].
      exists y, c'. split; [reflexivity|].
      assert (Hy : upperChar y = 67%N)
        by (destruct Hc as [Hc|Hc]; injection Hc as Hc _; exact Hc).
      destruct (upperChar_inv y _ Hy eq_refl) as [->| ->]; reflexivity. }
    destruct Hc0 as [y [c' [Ec Hy]]].
    rewrite Ec. cbn [app]. apply seq_spaces; [exact Hws'|exact Hy|].
    intros pv4. change (y :: c' ++ s) with ((y :: c') ++ s). rewrite <- Ec.
    apply optional_S; [exact Hc|reflexivity|exact Hs|exact Hk].
  - change (headOf Summary)
      with (Seq (seqs (map Chr (str "##")))
              (Seq (Star space) (Seq (lit "SUMMARY") Eps))).
    apply seq_word; [exact H2|]. intros pv1.
    rewrite Ew. cbn [app]. apply seq_spaces; [exact Hws|exact Hsp|].
    intros pv2. change (x :: w' ++ s) with ((x :: w') ++ s). rewrite <- Ew.
    apply seq_spelled; [exact Hw|reflexivity|]. intros pv3. apply Hk.
Qed.

(** ** After the heading *)

Lemma blank_split (b : jsstring) :
  blank b = false ->
  exists ws c r,
    b = ws ++ c :: r /\ Forall (fun x => isSpace x = true) ws
    /\ isSpace c = false /\ trimStart b = c :: r.
Proof.
  unfold blank. induction b as [|a b IH]; [discriminate|].
  cbn [forallb trimStart]. destruct (isSpace a) eqn:Ea.
  - cbn [andb]. intros H. destruct (IH H) as [ws [c [r [E [Hws [Hc Ht]]]]]].
    exists (a :: ws), c, r. rewrite E at 1.
    repeat split; [constructor; assumption|exact Hc|exact Ht].
  - intros _. exists [], a, b. repeat split; [constructor|exact Ea].
Qed.

(** Inside a body without the marker the lookahead [(?=\n##|$)] fails. *)
Lemma no_boundary_inside (r suff : jsstring) :
  r <> [] -> hasMarker r = false -> nextHeading suff ->
  atBoundary (r ++ suff) = false.
Proof.
  intros Hr Hm Hs. destruct r as [|a [|b [|c r]]]; [congruence| | |].
  - destruct Hs as [->|[s' ->]]; [reflexivity|].
    cbn [app atBoundary]. destruct (char_eqb LF a); reflexivity.
  - destruct Hs as [->|[s' ->]]; [reflexivity|].
    cbn [app atBoundary]. destruct (char_eqb LF a), (char_eqb HASH b);
        reflexivity.
  - cbn [app atBoundary]. apply hasMarker_tail in Hm.
    destruct (hasMarker_cons _ _ _ Hm) as [[K|K] _];
      apply not_eq_sym in K; apply char_eqb_neq in K; rewrite K;
      rewrite ?andb_false_r; reflexivity.
Qed.

Lemma look_boundary (pv : option char) (s : jsstring)
  (cs : list (nat * jsstring)) :
  m true (Seq (Look boundaryRe) Eps) (mkM pv s cs) (fun st => Some st) =
  if atBoundary s then Some (mkM pv s cs) else None.
Proof.
  cbn [m prev rest caps]. pose proof (boundary_result pv s cs) as H.
  destruct (m true boundaryRe (mkM pv s cs) (fun st => Some st)) as [st'|].
  - destruct H as [-> ->]. reflexivity.
  - rewrite H. reflexivity.
Qed.

Lemma seq_opt_skip (a R : regex) (st : mstate) (k : cont) :
  m true a st (fun st' => m true R st' k) = None ->
  m true (Seq (Opt a) R) st k = m true R st k.
Proof. intros H. cbn [m]. rewrite H. reflexivity. Qed.

(** After the heading of a list section: the white space is passed
    over, and group 1 runs up to the next heading or the end. *)
Lemma listTail_run (b suff : jsstring) (cs : list (nat * jsstring)) :
  blank b = false -> hasMarker b = false -> nextHeading suff ->
  forall pv, exists st,
    m true listTail (mkM pv (b ++ suff) cs) (fun st => Some st) = Some st
    /\ getCap 1 (caps st) = trimStart b.
Proof.
  intros Hb Hm Hs pv.
  destruct (blank_split b Hb) as [ws [c [r [E [Hws [Hc Ht]]]]]].
  rewrite Ht. rewrite E in *. clear E Ht. rewrite <- app_assoc. cbn [app].
  change listTail
    with (Seq (Star space)
            (Seq (Opt (Chr LF))
               (Seq (Cap 1 (StarLazy anyChar)) (Seq (Look boundaryRe) Eps)))).
  apply seq_spaces; [exact Hws|exact Hc|]. intros pv1.
  rewrite seq_opt_skip
    by (cbn [m rest]; rewrite chrMatch_LF, (not_space_not_LF c Hc);
        reflexivity).
  change (c :: r ++ suff) with ((c :: r) ++ suff).
  apply lazy_capture.
  - intros pv' r1 r2 cs' Er Hne. rewrite look_boundary.
    rewrite no_boundary_inside; [reflexivity|exact Hne| |exact Hs].
    apply (hasMarker_suffix r1). rewrite <- Er.
    apply (hasMarker_suffix ws). exact Hm.
  - intros pv'. rewrite look_boundary.
    replace (atBoundary suff) with true
      by (destruct Hs as [->|[s' ->]]; reflexivity).
    eexists. split; [reflexivity|]. cbn [caps]. apply getCap_setCap.
Qed.

(** After the summary heading: group 1 runs to the end of the text. *)
Lemma summaryTail_run (b : jsstring) (cs : list (nat * jsstring)) :
  blank b = false ->
  forall pv, exists st,
    m true summaryTail (mkM pv b cs) (fun st => Some st) = Some st
    /\ getCap 1 (caps st) = trimStart b.
Proof.
  intros Hb pv.
  destruct (blank_split b Hb) as [ws [c [r [E [Hws [Hc Ht]]]]]].
  rewrite Ht. rewrite E in *. clear E Ht.
  change summaryTail
    with (Seq (Star space)
            (Seq (Opt (Chr LF))
               (Seq (Cap 1 (StarLazy anyChar)) (Seq Eol Eps)))).
  apply seq_spaces; [exact Hws|exact Hc|]. intros pv1.
  rewrite seq_opt_skip
    by (cbn [m rest]; rewrite chrMatch_LF, (not_space_not_LF c Hc);
        reflexivity).
  rewrite <- (app_nil_r (c :: r)).
  apply lazy_capture.
  - intros pv' r1 r2 cs' Er Hne. rewrite app_nil_r.
    destruct r2; [congruence|reflexivity].
  - intros pv'. eexists. split; [reflexivity|]. cbn [caps].
    rewrite app_nil_r. apply getCap_setCap.
Qed.

(** ** One section *)

Lemma writeSec_shape (s : Sec) :
  okSec s ->
  exists k ws w,
    Forall (fun x => isSpace x = true) ws /\ titleOf (sec_title s) w
    /\ forall suff,
         writeSec s ++ suff =
         repeat HASH k ++ HASH :: HASH :: ws ++ w ++ sec_body s ++ suff.
Proof.
  intros [[k [ws [w [Eh [Hws Hw]]]]] _]. exists k, ws, w.
  split; [exact Hws|]. split; [exact Hw|]. intros suff.
  unfold writeSec. rewrite Eh. rewrite <- !app_assoc. cbn [app].
  rewrite <- !app_assoc. reflexivity.
Qed.

(** A section at the head of the text is found by the pattern of its
    title, and group 1 is its body from the first code unit that is
    not white space. *)
Lemma own_sec (s : Sec) (suff : jsstring) :
  okSec s -> nextHeading suff -> (sec_title s = Summary -> suff = []) ->
  exists st,
    search true (regexOf (sec_title s)) None (writeSec s ++ suff) = Some st
    /\ getCap 1 (caps st) = trimStart (sec_body s).
Proof.
  intros Hok Hs Hsum.
  destruct (writeSec_shape s Hok) as [k [ws [w [Hws [Hw Et]]]]].
  destruct Hok as [_ [Hb [Hm HS]]].
  rewrite Et, skip_hashes.
  destruct (own_title (sec_title s) ws w (sec_body s ++ suff) []
              (fun st' => m true (tailOf (sec_title s)) st' (fun st => Some st))
              (fun st => getCap 1 (caps st) = trimStart (sec_body s))
              Hws Hw) with (pv := @None char) as [st [E HQ]].
  - destruct (sec_body s) as [|c b]; [discriminate Hb|exact HS].
  - intros pv'. destruct (sec_title s) eqn:El; cbn [tailOf];
      try (apply listTail_run; assumption).
    rewrite (Hsum eq_refl), app_nil_r. apply summaryTail_run. exact Hb.
  - exists st. split; [|exact HQ]. apply search_here.
    unfold matchAt. rewrite regexOf_split. exact E.
Qed.

(** A section of another title is passed over. *)
Lemma skip_sec (l : Label) (s : Sec) (suff : jsstring) :
  okSec s -> sec_title s <> l ->
  match suff with c :: _ => c <> HASH | [] => True end ->
  search true (regexOf l) None (writeSec s ++ suff) =
  search true (regexOf l) None suff.
Proof.
  intros Hok Hl Hs.
  destruct (writeSec_shape s Hok) as [k [ws [w [Hws [Hw Et]]]]].
  destruct Hok as [_ [Hb [Hm HS]]].
  rewrite Et, skip_hashes.
  pose proof (foreign_title l (sec_title s) ws w (sec_body s ++ suff) None
                (not_eq_sym Hl) Hws Hw) as Hf.
  pose proof (title_no_hash _ w Hw) as Hnw.
  assert (Hnws : ~ In HASH ws).
  { intros K. rewrite Forall_forall in Hws. specialize (Hws _ K).
    discriminate Hws. }
  assert (Hpre : hasMarker (ws ++ w ++ sec_body s) = false)
    by (apply hasMarker_plain; [exact Hnws|];
        apply hasMarker_plain; [exact Hnw|exact Hm]).
  assert (Hhd : exists c t, ws ++ w ++ sec_body s ++ suff = c :: t
      /\ c <> HASH).
  { destruct (title_initial _ w Hw) as [x [w' [Ew _]]].
    destruct ws as [|c ws].
    - exists x, (w' ++ sec_body s ++ suff). rewrite Ew.
      split; [reflexivity|]. intros K. apply Hnw. rewrite Ew. left. exact K.
    - eexists c, _. split; [reflexivity|]. intros K. apply Hnws. left.
      exact K. }
  destruct (regexOf_marked l) as [h [t E]]. rewrite E in *.
  cbn [search]. rewrite Hf, marked_search_pv.
  destruct Hhd as [c [t' [Ehd Hc]]].
  cbn [search]. rewrite Ehd at 1.
  rewrite (marked_second h t (Some HASH) c t' Hc).
  replace (ws ++ w ++ sec_body s ++ suff)
    with ((ws ++ w ++ sec_body s) ++ suff)
    by (rewrite <- !app_assoc; reflexivity).
  apply marked_skip_text; assumption.
Qed.

(** ** Several sections *)

Lemma writeAll_cons (s : Sec) (rest' : list Sec) :
  writeAll (s :: rest') = writeSec s ++ textAfter rest'.
Proof.
  revert s; induction rest' as [|y rest' IH]; intros s.
  - unfold writeAll, textAfter. simpl. rewrite app_nil_r. reflexivity.
  - change (writeAll (s :: y :: rest'))
      with (writeSec s ++ [LF] ++ writeAll (y :: rest')).
    rewrite IH. reflexivity.
Qed.

Lemma writeAll_app (before : list Sec) (s : Sec) (after : list Sec) :
  writeAll (before ++ s :: after) =
  textBefore before ++ writeSec s ++ textAfter after.
Proof.
  induction before as [|x before IH]; [apply writeAll_cons|].
  destruct (before ++ s :: after) as [|y rest'] eqn:E;
    [destruct before; discriminate E|].
  change (writeAll ((x :: before) ++ s :: after))
    with (writeAll (x :: before ++ s :: after)).
  rewrite E.
  change (writeAll (x :: y :: rest'))
    with (writeSec x ++ [LF] ++ writeAll (y :: rest')).
  rewrite IH. unfold textBefore. simpl. rewrite <- !app_assoc. reflexivity.
Qed.

Lemma textAfter_next (after : list Sec) :
  Forall okSec after -> nextHeading (textAfter after).
Proof.
  intros H. destruct after as [|s after]; [left; reflexivity|].
  right. inversion H as [|? ? Hs _]; subst.
  destruct (writeSec_shape s Hs) as [k [ws [w [_ [_ Et]]]]].
  unfold textAfter. cbn [map List.concat app]. rewrite Et.
  destruct k as [|[|k]]; eexists; reflexivity.
Qed.

Lemma textAfter_head (after : list Sec) :
  match textAfter after with c :: _ => c <> HASH | [] => True end.
Proof. destruct after as [|s after]; [exact I|]. discriminate. Qed.

Lemma skip_before (l : Label) (before : list Sec) (rest' : jsstring) :
  Forall (fun s => sec_title s <> l) before -> Forall okSec before ->
  search true (regexOf l) None (textBefore before ++ rest') =
  search true (regexOf l) None rest'.
Proof.
  induction before as [|s before IH]; intros Hf Hw; [reflexivity|].
  inversion Hf as [|? ? Hl Hf']; subst. inversion Hw as [|? ? Hs Hw']; subst.
  unfold textBefore. cbn [map List.concat]. rewrite <- !app_assoc.
  rewrite skip_sec; [|exact Hs|exact Hl|discriminate].
  change ([LF] ++ List.concat (map (fun s0 => writeSec s0 ++ [LF]) before)
            ++ rest')
    with ([LF] ++ (textBefore before ++ rest')).
  rewrite (regex_skip l [LF]) by (intros [K|[]]; discriminate K).
  apply IH; assumption.
Qed.

Lemma skip_after (l : Label) (after : list Sec) :
  Forall (fun s => sec_title s <> l) after -> Forall okSec after ->
  search true (regexOf l) None (textAfter after) = None.
Proof.
  induction after as [|s after IH]; intros Hf Hw; [apply regex_end|].
  inversion Hf as [|? ? Hl Hf']; subst. inversion Hw as [|? ? Hs Hw']; subst.
  unfold textAfter. cbn [map List.concat].
  change ((LF :: writeSec s) ++ List.concat (map
      (fun s0 => LF :: writeSec s0) after))
    with ([LF] ++ writeSec s ++ textAfter after).
  rewrite regex_skip by (intros [K|[]]; discriminate K).
  rewrite skip_sec; [|exact Hs|exact Hl|apply textAfter_head].
  apply IH; assumption.
Qed.

Lemma exec_sec (s : Sec) (before after : list Sec) :
  Forall (fun x => sec_title x <> sec_title s) before ->
  Forall okSec (before ++ s :: after) ->
  (sec_title s = Summary -> after = []) ->
  exists mt,
    exec true (regexOf (sec_title s)) (writeAll (before ++ s :: after))
        = Some mt
    /\ getCap 1 mt = trimStart (sec_body s).
Proof.
  intros Hf Hw Hsum. apply Forall_app in Hw. destruct Hw as [Hw1 Hw2].
  inversion Hw2 as [|? ? Hs Hw3]; subst.
  destruct (own_sec s (textAfter after) Hs (textAfter_next after Hw3))
    as [st [E Hc]].
  { intros K. rewrite (Hsum K). reflexivity. }
  exists (caps st). split; [|exact Hc].
  unfold exec. rewrite writeAll_app, skip_before by assumption.
  rewrite E. reflexivity.
Qed.

Lemma exec_no_sec (l : Label) (secs : list Sec) :
  Forall (fun s => sec_title s <> l) secs -> Forall okSec secs ->
  exec true (regexOf l) (writeAll secs) = None.
Proof.
  intros Hf Hw. unfold exec. destruct secs as [|s rest'].
  - change (writeAll []) with (@nil char). rewrite regex_end. reflexivity.
  - inversion Hf as [|? ? Hl Hf']; subst. inversion Hw as [|? ? Hs Hw']; subst.
    rewrite writeAll_cons.
    rewrite skip_sec; [|exact Hs|exact Hl|apply textAfter_head].
    rewrite skip_after by assumption. reflexivity.
Qed.

Lemma split_sec (s : Sec) (secs : list Sec) :
  In s secs -> NoDup (map sec_title secs) ->
  exists before after,
    secs = before ++ s :: after
    /\ Forall (fun x => sec_title x <> sec_title s) before
    /\ Forall (fun x => sec_title x <> sec_title s) after.
Proof.
  intros Hin Hnd. apply in_split in Hin. destruct Hin as [before [after ->]].
  exists before, after. split; [reflexivity|].
  rewrite map_app in Hnd. cbn [map] in Hnd.
  pose proof (NoDup_remove_2 _ _ _ Hnd) as Hn.
  split; apply Forall_forall; intros x Hx E; apply Hn; rewrite <- E;
    apply in_or_app; [left|right]; apply in_map; exact Hx.
Qed.

Lemma summaryAtEnd_split (before after : list Sec) (s : Sec) :
  sec_title s = Summary -> summaryAtEnd (before ++ s :: after) -> after = [].
Proof.
  unfold summaryAtEnd. intros Hs H. destruct after as [|x after];
      [reflexivity|].
  exfalso. apply H.
  change (before ++ s :: x :: after) with (before ++ [s] ++ x :: after).
  rewrite app_assoc, removelast_app by discriminate.
  rewrite map_app. apply in_or_app. left.
  rewrite map_app. apply in_or_app. right. left. exact Hs.
Qed.

(** What the pattern of a title captures depends on the sections only,
    not on their order. *)
Lemma capture_perm (l : Label) (secs1 secs2 : list Sec) :
  Permutation secs1 secs2 ->
  NoDup (map sec_title secs1) -> Forall okSec secs1 ->
  (l = Summary -> summaryAtEnd secs1 /\ summaryAtEnd secs2) ->
  match exec true (regexOf l) (writeAll secs1),
        exec true (regexOf l) (writeAll secs2) with
  | Some m1, Some m2 => getCap 1 m1 = getCap 1 m2
  | None, None => True
  | _, _ => False
  end.
Proof.
  intros Hp Hnd Hw HL.
  assert (Hnd2 : NoDup (map sec_title secs2))
    by (eapply Permutation_NoDup; [apply Permutation_map; exact Hp|exact Hnd]).
  assert (Hw2 : Forall okSec secs2)
    by (eapply Permutation_Forall; [exact Hp|exact Hw]).
  destruct (in_dec Label_eq_dec l (map sec_title secs1)) as [Hin|Hout].
  - apply in_map_iff in Hin. destruct Hin as [s [El Hs]].
    assert (Hs2 : In s secs2) by (eapply Permutation_in; eassumption).
    destruct (split_sec s secs1 Hs Hnd) as [b1 [a1 [E1 [F1 _]]]].
    destruct (split_sec s secs2 Hs2 Hnd2) as [b2 [a2 [E2 [F2 _]]]].
    subst secs1 secs2 l.
    destruct (exec_sec s b1 a1 F1 Hw) as [m1 [-> C1]].
    { intros K. destruct (HL K) as [L1 _].
      apply (summaryAtEnd_split b1 a1 s K L1). }
    destruct (exec_sec s b2 a2 F2 Hw2) as [m2 [-> C2]].
    { intros K. destruct (HL K) as [_ L2].
      apply (summaryAtEnd_split b2 a2 s K L2). }
    rewrite C1, C2. reflexivity.
  - assert (Hout2 : ~ In l (map sec_title secs2)).
    { intros K. apply Hout. eapply Permutation_in;
        [apply Permutation_map; symmetry; exact Hp|exact K]. }
    assert (A : forall secs, ~ In l (map sec_title secs) ->
                             Forall (fun s => sec_title s <> l) secs).
    { intros secs H. apply Forall_forall. intros s Hs E. apply H.
      rewrite <- E. apply in_map. exact Hs. }
    rewrite (exec_no_sec l secs1), (exec_no_sec l secs2); auto.
Qed.

(** C3 as the code has it.  Take sections with distinct titles among
    PATTERNS, ANOMALIES, ROOT CAUSES and SUMMARY.  Each is written as a
    heading its pattern accepts (the marker [##], after any further
    [#]; white space or none; the title in any letter case and either
    number) followed by a body that is not blank, holds no [##], and
    after the titles PATTERN(S) and ROOT CAUSE(S) does not go on with a
    letter S; the sections are joined by line feeds.  Permuting them
    does not change the parsed result, provided that in both orders no
    section but the last is the summary. *)
Theorem sections_order_independent (secs1 secs2 : list Sec) :
  Permutation secs1 secs2 ->
  NoDup (map sec_title secs1) -> Forall okSec secs1 ->
  summaryAtEnd secs1 -> summaryAtEnd secs2 ->
  parseAnalysisResponse (writeAll secs1) = parseAnalysisResponse
      (writeAll secs2).
Proof.
  intros Hp Hnd Hw L1 L2.
  pose proof (capture_perm Patterns secs1 secs2 Hp Hnd Hw) as HP.
  pose proof (capture_perm Anomalies secs1 secs2 Hp Hnd Hw) as HA.
  pose proof (capture_perm RootCauses secs1 secs2 Hp Hnd Hw) as HR.
  pose proof (capture_perm Summary secs1 secs2 Hp Hnd Hw) as HS.
  unfold parseAnalysisResponse, sectionItems.
  change patternsRe with (regexOf Patterns).
  change anomaliesRe with (regexOf Anomalies).
  change rootCausesRe with (regexOf RootCauses).
  change summaryRe with (regexOf Summary).
  destruct (exec true (regexOf Patterns) (writeAll secs1)),
    (exec true (regexOf Patterns) (writeAll secs2));
    try (exfalso; apply HP; discriminate); try rewrite HP by discriminate;
  destruct (exec true (regexOf Anomalies) (writeAll secs1)),
    (exec true (regexOf Anomalies) (writeAll secs2));
    try (exfalso; apply HA; discriminate); try rewrite HA by discriminate;
  destruct (exec true (regexOf RootCauses) (writeAll secs1)),
    (exec true (regexOf RootCauses) (writeAll secs2));
    try (exfalso; apply HR; discriminate); try rewrite HR by discriminate;
  destruct (exec true (regexOf Summary) (writeAll secs1)),
    (exec true (regexOf Summary) (writeAll secs2));
    try (exfalso; apply HS; intros _; split; assumption);
    try rewrite HS by (intros _; split; assumption);
    reflexivity.
Qed.

(** C3 at a concrete input: two list sections swapped before the
    summary, with headings in several spellings, a blank line and
    indentation before the first item, and a single [#] in an item. *)
Lemma sections_order_independent_witness :
  let p := mkSec Patterns (str "### Patterns")
             (LF :: LF :: str "  - issue #42 again") in
  let a := mkSec Anomalies (str "##anomaly") (LF :: str "- x") in
  let s := mkSec Summary (str "## Summary") (LF :: str "OK") in
  parseAnalysisResponse (writeAll [p; a; s])
  = parseAnalysisResponse (writeAll [a; p; s]).
Proof.
  intros p a s. apply sections_order_independent.
  - apply perm_swap.
  - repeat constructor; simpl; intuition discriminate.
  - repeat (apply Forall_cons); try apply Forall_nil;
      (split; [|split; [reflexivity|split; [reflexivity|]]]);
      try exact I; try (vm_compute; discriminate).
    + exists 1%nat, [32%N], (str "Patterns").
      split; [reflexivity|split; [repeat constructor|right; reflexivity]].
    + exists 0%nat, [], (str "anomaly").
      split; [reflexivity|split; [repeat constructor|left; reflexivity]].
    + exists 0%nat, [32%N], (str "Summary").
      split; [reflexivity|split; [repeat constructor|reflexivity]].
  - vm_compute. intuition discriminate.
  - vm_compute. intuition discriminate.
Defined.

(** A body that holds [##] is outside the statement above: the pattern
    of another title may match inside that body, and then the result
    depends on which section comes first. *)
Example marker_in_body_changes_result :
  let a := mkSec Anomalies (str "## ANOMALIES")
             (LF :: str "- was ## PATTERNS" ++ LF :: str "- q") in
  let p := mkSec Patterns (str "## PATTERNS") (LF :: str "- p") in
  patterns (parseAnalysisResponse (writeAll [p; a])) = [str "p"]
  /\ patterns (parseAnalysisResponse (writeAll [a; p])) = [str "q"].
Proof. split; reflexivity. Qed.

(** So is a blank body: the white space after the heading is passed
    over and group 1 starts in the next section, if there is one. *)
Example blank_body_changes_result :
  let p := mkSec Patterns (str "## PATTERNS") [LF] in
  let a := mkSec Anomalies (str "## ANOMALIES") (LF :: str "- x") in
  patterns (parseAnalysisResponse (writeAll [a; p])) = []
  /\ patterns (parseAnalysisResponse (writeAll [p; a])) = [str "x"].
Proof. split; reflexivity. Qed.
